(* ===== verification/_CoqProject ===== *)
-Q . S2P
Prelude.v
PyStr.v
Regex.v
Matcher.v
Semantics.v
Language.v
Groups.v
Tokens.v
Redact.v
Results.v
Scan.v
Formatter.v
Logging.v
Trace.v
Prog.v
Main.v
