(* ===== verification/Prelude.v ===== *)
(** * Verification of [filtered_logger.py]: redaction of personal data in log lines

    The program ([src/0x00-personal_data/filtered_logger.py]) has one pure core,
    [filter_datum], which builds a regular expression from a list of field
    names and a separator and rewrites every [field=value] it finds with
    [re.sub]; a logging formatter, [RedactingFormatter], which renders a
    record with the base [%]-template and passes the whole line through
    [filter_datum]; and glue ([get_logger], [get_db], [main]) that reads rows
    from a database and logs one line per row.

    ** Files, in dependency order

    - [Prelude] (this file): the [result] type of fallible operations with its
      bind notation (scope [res_scope]), Python strings as lists of code
      points ([char := N], [str := list char], literals [$"..."]), the list
      functions the components share ([starts_with], [take_until],
      [drop_until], [take_through], [count_occ_ch]) and the boolean checkers
      of side conditions ([free_of], [all_free_of], [str_eqb], [str_mem],
      [occursb]) with their lemmas, the tactics [inv], [break_match],
      [simp_res], [ch_cases] and the hint databases [pre] and [str_rw].
    - [PyStr]: exceptions as values ([exn], [res]) and the Python built-ins
      the source calls on strings: [str_join] for ['|'.join(fields)],
      [str_format] for [str.format] with [{}] fields, [fstr_opt] for the text
      an f-string gives [None]; [str_split] and [partition], which the
      source does not call, as the inverse of [str_join].
    - [Regex]: the abstract syntax of the patterns of Python's [re] that this
      development covers and the parser [re_compile], a one-character state
      machine that follows [sre_parse]: capturing groups numbered by
      their opening parenthesis, non-capturing groups, alternation, greedy
      star, plus and question mark, sets with ranges and negation, dot,
      anchors, escapes of punctuation.  A
      pattern is [Ok], a [ReError] (Python raises [re.error]) or
      [Unsupported] (a construct outside the fragment: the model says
      nothing about it).
    - [Matcher]: the backtracking matcher [rmatch] in continuation-passing
      style (ordered alternation, greedy repetition with the zero-width
      guard of [sre]), [search] (leftmost match at or after a position) and
      the loop of [re.sub] with a callable replacement, [re_sub], with the
      [must_advance] flag Python 3.7 introduced for empty matches.
    - [Semantics]: what a pattern matches, as the inductive relation
      [matches] on a pattern, an index, a text and the text that follows;
      the matcher as a relation [run] on its states; soundness ([rmatch]
      calls its continuation only where [run] leads and [run] goes through
      a match) and completeness ([rmatch] succeeds wherever the pattern
      matches and the continuation accepts) of the matcher; the
      equivalence [same_place] of states that differ in their captures
      only, with the [Proper] instances of the matcher.
    - [Language]: [regex_equiv], the equivalence of patterns that match the
      same texts, with [Proper] instances for the constructors of patterns
      and for [matches], so that groups and empty sequences are rewritten
      away inside a pattern; what literals, alternations of literals and
      repetitions of a set match.
    - [Groups]: [groups_of], the group numbers of a tree; the invariant
      [pstate_ok] of the parser state (numbers of the closed groups and of
      those on the stack are 1 to the count, each once); the captures a
      match records.
    - [Tokens]: the reference of the redactor.  [redact_ref] is a scan of
      the message from left to right that masks the value after a field and
      an equals sign wherever they stand; it is written to be what the code
      computes, and differs from the rule of the specification, which wants
      a field to be a whole key: a field that ends a longer key counts, and
      the empty list of fields masks every value.  [redact_set] is the same
      scan for a separator of several characters (a value ends at any of
      them), both instances of [scan_fuel]; the class [Redactor] is what a
      redactor promises to its clients (on accepted configurations it
      computes [redact_ref]); the lemmas are the properties of the transform
      that do not depend on regular expressions.
    - [Redact]: [PII_FIELDS], [pattern], [replacement] and [filter_datum] as
      the source writes them (lines 12-32), the proof that [filter_datum]
      computes [redact_ref] ([filter_datum_eq]), the instance of [Redactor],
      and the theorems on [filter_datum].
    - [Results]: the matcher as an enumeration.  [results] lists every
      state in which a pattern can be left, in the order in which the
      matcher tries them; [search_ref] and [sub_ref] are [search] and the
      loop of [re.sub] over that list; [candidates] are the results of the
      pattern of line 29.
    - [Scan]: the reference scan by well-founded recursion on the length
      of the message ([scan_wf], with Equations), without fuel.
    - [Formatter]: [percent_format] (the [%(key)s] templates of
      [logging.Formatter]), [LogRecord], [base_format], and the Module
      [RedactingFormatter] with the class constants [REDACTION], [FORMAT],
      [SEPARATOR], [__init__] and [format] (lines 35-63).  Its lemmas are
      proved for [format_with], the formatter over any [Redactor], and then
      stated for [format].
    - [Logging]: the state of the [logging] module ([World]: registry of
      loggers, root logger, error stream, next handler identity),
      [get_logger] statement by statement (lines 66-86) and [info], the
      call [logger.info] down to [StreamHandler.emit].
    - [Trace]: the calls a process makes on the logging module as a step
      relation ([call_step]: a call of [get_logger] or of [info], or a
      handler that other code attaches to the root logger), the reachable
      states, the invariant [inv] of those states and runs of calls that
      differ in personal data ([similar]); the specification of a run, a
      [journal] of the handlers attached and the lines written, and the
      relation [implements] between a state and a journal.
    - [Prog]: statements as functions from a state to a result and a state
      ([prog], [ret], [bindp], [lift], the loop [for_each]), with the laws
      of sequencing, and [triple], the invariants of statements, with one
      rule per construct.
    - [Main]: [get_db] (lines 89-108) and [main] (lines 111-133) as
      statements on the program state (logging state, open connections,
      open cursors); the database server is the record [Server], which
      says what [connect], [db.cursor()], [cursor.execute],
      [cursor.close()] and [db.close()] answer, each of them a result or
      an exception; [script] (lines 135-136) is [main] run in the state of
      a new process; [main_traced] links [main] to the runs of [Trace].

    ** How the model corresponds to the code

    A Python [str] is a sequence of code points: [char] is [N], so every
    Unicode string is a value of the model.  A raised exception is a value
    [Err e] of the [result] type, [e] naming the exception class.  Each
    definition keeps the name of the function, method, constant or local
    variable it models; the manifest maps it to its lines.

    [str.format], [re.sub], [Match.group], [logging.Formatter] and
    [Logger.info] are library code: the source only calls them.  Their
    models are the semantics of the library for the fragment above, written
    out so that [filter_datum] and [format] are closed, executable
    definitions and the concrete cases of the specification evaluate by
    [vm_compute]; the manifest maps each of them to the line of the source
    that calls it.  The theorems stated of these models alone
    ([re_sub_total], [re_sub_complete], [search_sound],
    [re_sub_reference], [re_compile_well_numbered]) are theorems about the
    model of the library; they are what the theorems on [filter_datum]
    stand on.  The models of [re] and of the [%] operator were compared
    with CPython 3.11 on generated inputs, non-capturing groups and the
    [IndexError] of a missing group included.

    ** What the theorems show

    - Refinement ([filter_datum_refines], helpers [filter_datum_eq_set]
      and [filter_datum_eq]): for field names without regular-expression
      metacharacters and a separator the pattern can hold ([sep_safe]),
      [filter_datum] never raises and computes exactly [redact_set]: scan
      left to right, at the first field [f] (in list order) such that [f=]
      starts here, keep [f=], replace everything up to the next character
      of the separator by the mask, go on.  For a separator of one character
      this is [redact_ref].  [pattern_compiles] gives the tree the pattern
      compiles to and the texts it matches ([pattern_language]): a field,
      an equals sign and a text without a character of the separator.
    - Secrecy ([filter_datum_secret], [format_secret]): the output does not
      depend on the value of a listed field.
    - Function ([filter_datum_pairs], [filter_datum_split],
      [filter_datum_no_key], [format_line], [format_pairs]): on a message of
      [key=value] tokens the value is masked exactly when a field is a
      suffix of the key; tokens are independent; the formatter redacts the
      whole rendered line.
    - Invariants ([filter_datum_idempotent], [filter_datum_keys],
      [format_keeps_header]; lemma [filter_datum_count_sep]): idempotence,
      separators and header are kept; for every message, well formed or not, the
      output has the tokens of the message, each redacted on its own
      ([redact_tokens]), so the keys are those of the message, in order.
    - Errors ([filter_datum_bslash], [format_total]; lemma
      [percent_format_field]): the backslash and the empty string as
      separator make every call raise [re.error]; the formatter has no
      failure path, whatever the record, the text of an exception
      included; a key that a template names and a record does not have is
      the library's [KeyError].
    - Divergences from the specification, each as a theorem: the empty field
      list masks every value instead of being the identity
      ([filter_datum_no_fields]); a field that is a suffix of a longer key
      masks that key's value ([filter_datum_pairs]); a value containing the
      separator keeps its tail ([filter_datum_value_split]); idempotence
      fails when the mask contains the separator
      ([filter_datum_mask_with_separator], for every mask that holds the
      separator); a separator of several characters is a set of
      characters, not a literal ([filter_datum_refines],
      [filter_datum_literal_separator]).  The concrete cases of the
      specification are the examples [spec_case_password_ssn],
      [spec_case_empty_value], [spec_case_suffix_key], [spec_case_no_fields]
      and [spec_case_formatter]; [field_with_dot], [field_with_plus] and
      [field_with_parentheses]
      show a field name read as a pattern; [separator_equals_leaks] and
      [field_with_equals_not_idempotent] show that the hypotheses of the
      secrecy and idempotence theorems are needed.
    - Termination ([re_sub_total]): the fuel given to the loop of [re.sub]
      is never used up.
    - Matcher ([search_sound], [re_sub_complete]): the match handed to the
      callback of [re.sub] is a match of the pattern in the sense of
      [matches], its group 0 is the matched text, and it is the leftmost
      one: the pattern matches no text at an earlier position.  Conversely
      the matcher misses no match ([rmatch_complete], [match_at_None],
      [search_None]): when the pattern matches somewhere, [re.sub] calls
      the callback on a match that starts there or before; when it matches
      nowhere, the text is returned as it is ([re_sub_no_match]).  For a
      continuation that does not look at the captures, [rmatch] succeeds
      exactly when the pattern matches a text after which the continuation
      accepts ([rmatch_spec]).
    - Which match ([rmatch_results], [results_matches],
      [re_sub_reference], [redact_candidates]): the matcher returns what
      its continuation answers for the first of the [results] that it
      accepts; the results end exactly where a match of [matches] ends;
      [re.sub] equals the loop that takes the leftmost position with an
      acceptable result and the first such result.  For the pattern of
      line 29 the results are the fields that start the text, in the order
      of the list, each with its values from the longest down: the first
      listed field and the longest value are what the callback gets.
    - Well-formedness ([re_compile_well_numbered]; lemma
      [match_obj_groups]):
      the tree of every pattern that compiles has its groups numbered 1 to
      [c_groups], each once, by an invariant of the parser that every step
      preserves; a match object has captures only under those numbers and
      [group] raises [IndexError] exactly above them.
    - Errors of [filter_datum] ([filter_datum_errors]): for all arguments,
      [filter_datum] raises in two cases and no other: its pattern does
      not compile, and the exception is that of the compilation; or its
      pattern compiles without a group and matches somewhere in the
      message, and the callback raises [IndexError].  A first field that
      begins with [?:] makes the first parenthesis non-capturing: with the
      field [?:[] the pattern has no group ([field_without_group]); with
      the field [?:ssn] group 1 is the value, which is written in place of
      the key ([field_non_capturing_leaks]).  With one group or more no
      message and no redaction can make the call fail.
    - Bounds ([filter_datum_length]): the output is longer than the message
      by at most one redaction per equals sign.
    - Logger ([get_logger_configures], [info_redacts]; lemmas
      [get_logger_world_ok_aux], [info_secret], [log_below_info]): what
      [get_logger] leaves in the registry, the invariant it keeps, and
      what a call of [info] writes; lemma [get_logger_again_duplicates]:
      every further call of [get_logger] adds a handler, so each record is
      written once more.
    - The program and its specification ([main_refines]): [main_spec]
      gives the result of [main], the calls it makes on the logging module
      and the resources it leaves open as a function of what the server
      answers (connection, cursor, query, rows, end of the iteration, the
      two calls of [close]), from any state; the theorems below are its
      cases.
    - Program ([main_logs_rows], [main_leaks_on_error],
      [main_line_masked]): on the normal path one redacted line per row is
      written and every resource is released; when [db.cursor()] raises
      the connection stays open; when the query raises, a row is shorter
      than the column names or the cursor raises after its last row, the
      connection and the cursor stay open, and the lines of the rows
      logged before stay written, from any reachable state
      ([main_connection_lost] is the case of a lost connection); when a
      call of [close] raises, what it and the calls after it should have
      closed stays open.  The line that the script writes for a row is
      the header and the columns of the row as tokens: rows are joined
      with a semicolon and a space, so the keys after the first start with
      a space and are masked only because a field may end a key.
      [row_message_zip]: the
      loop over the indices equals the zip of names and values, and a short
      row is an [IndexError]; [message_roundtrip]: a message reads back as
      the columns of its row when names and values are free of the
      characters that delimit them.
    - A second call ([main_repeats], from [main_events_from] and
      [run_events_lines]): from any reachable state [main] appends the
      line of each row once for each handler the logger has after its call
      of [get_logger]; called again in the same process, it writes every
      row twice ([main_twice]).
    - Secrecy of the program ([main_secret]): two tables with the same
      columns whose rows differ only in the values of the columns named by
      a field of [PII_FIELDS], values without semicolon, on servers that
      answer alike to the cursor and the two calls of [close], leave
      [main] in the same state, error stream included, from every
      reachable state:
      the calls of [info] for the two tables are [alike] one by one, and
      runs of calls that are alike end in the same state ([alike_run]).
    - The program as a run ([main_redacted], [script_redacted]): every
      statement of [main] keeps the logging state reachable by calls of
      [get_logger] and [info] ([main_traced], by the rules of [triple]);
      so on every path, exceptions included, the error stream holds only
      redacted lines.
    - Runs ([reachable_redacted], [info_is_written], [run_secret]): by
      induction on the calls of [get_logger] and [info] and on the
      handlers attached to the root logger, every reachable state of the
      logging module has only redacting handlers on [user_data] and only
      redacted lines on the error stream: the logger does not propagate
      (line 76), so a handler of the root logger never writes a record of
      [user_data] ([propagation_would_leak] shows what it would write); once
      [get_logger] was called no record is dropped; and two runs that
      differ only in the values of fields of [PII_FIELDS] end in the same
      state.
    - Refinement of the journal ([run_refines], by the simulation
      [implements_step]): after any run the error stream is the one the
      specification gives, call by call ([spec_lines]): the redacted line
      of each message, once for each call of [get_logger] made before it.

    ** Bounds and fuel

    The repetition loop of the matcher recurses on a counter started at the
    length of the remaining input plus one: every further iteration consumes
    at least one character, and [star_fuel_enough] proves that any larger
    counter gives the same result (the matcher calls its continuation only
    on extensions of its state, [rmatch_local]); [rmatch_complete] uses it
    to show that no match is missed for want of fuel.  The loop of [re.sub] is given
    [2 * length message + 2] steps: each step advances the search position or
    turns [must_advance] on, and [sub_loop_total] proves that this is never
    used up.  The reference scan runs on [length message + 1] steps,
    and [redact_fuel_enough] proves that any larger amount gives the same
    result; [scan_wf] is the same scan defined by well-founded recursion,
    with no fuel, and [scan_enough] proves that every fuel above the
    length of the message computes it.  The enumeration [results] uses the
    counter of the matcher for repetitions.

    ** Not modelled

    Of [re]: flags, lazy, possessive and counted repetition,
    back-references, look-around, named groups and the other group
    extensions, class escapes: [re_compile] answers [Unsupported], and the
    theorems on errors say nothing of such patterns ([raises] does not
    hold of [Unsupported]).  Conversions other than [s] of the [%]
    operator answer [Unsupported].  Of [logging.Formatter.format]: the
    message of the record is the text given to [info], which has no
    arguments to merge ([getMessage] with [%] and [args] is not modelled);
    the time formatting behind [%(asctime)s] is an input of the model (the
    record carries the time as [formatTime] renders it); in [Main] the time
    of each call is given by a clock, a function of the row's index.  Of
    [logging]: loggers with dotted names, filters, disabled loggers and
    [logging.disable]; the attributes that [Formatter.format] stores on
    the record ([message], [asctime]), which every handler computes again
    to the same value; handlers other than a [StreamHandler] on the error
    stream, with a [RedactingFormatter] or with the formatter of the
    library; of the other code of a process, only the handlers it
    attaches to the root logger are represented, not its own calls of
    loggers.  Of the database: the answers of [connect], [db.cursor()],
    [execute], [cursor.close()] and [db.close()] and the exception that
    may end the iteration of the cursor are represented; a statement that
    raises leaves the counts of open connections and cursors as they
    were.  The description of a cursor is a list of columns, as it is
    after a [SELECT]: the value [None] that the connector gives it after
    a statement without result is not represented.  Values are the texts
    [str] gives them, or [None].  The relation [matches] says which
    texts a pattern matches, not which of them the matcher returns first:
    that order (alternatives from left to right, repetitions as long as
    possible) is given by the enumeration [results], an executable
    reference rather than a relation.  The lines of the source that no
    definition translates are the interpreter line, the module docstring,
    the imports and the docstrings and blank lines of the functions. *)

From Stdlib Require Import Ascii String.
From Stdlib Require Import List NArith Arith Bool Lia.
Import ListNotations.

(** ** Results of fallible operations *)

Inductive result (E A : Type) : Type :=
| Ok (a : A)
| Err (e : E).

Arguments Ok {E A} a.
Arguments Err {E A} e.

Definition bind {E A B : Type} (r : result E A) (f : A -> result E B) : result E B :=
  match r with
  | Ok a => f a
  | Err e => Err e
  end.

Definition is_ok {E A : Type} (r : result E A) : bool :=
  match r with
  | Ok _ => true
  | Err _ => false
  end.

Declare Scope res_scope.
Delimit Scope res_scope with res.

Notation "x <- c ;; k" := (bind c (fun x => k))
  (at level 61, c at next level, right associativity) : res_scope.
Notation "' p <- c ;; k" := (bind c (fun p => k))
  (at level 61, p pattern, c at next level, right associativity) : res_scope.

(** ** Characters and strings

    A character is a Unicode code point; a Python [str] is the list of its
    code points.  [$"text"] is the string of an ASCII literal. *)

Abbreviation char := N (only parsing).
Abbreviation str := (list N) (only parsing).

Definition chr (a : ascii) : char := N_of_ascii a.
Arguments chr a%_char.

Definition of_string (s : string) : str := map chr (list_ascii_of_string s).

Declare Scope str_scope.
Delimit Scope str_scope with str.
Notation "$ x" := (of_string x%string)
  (at level 1, x constr at level 0, format "$ x") : str_scope.

Definition ch_eqb (a b : char) : bool := N.eqb a b.

Definition ch_mem (c : char) (s : str) : bool := existsb (ch_eqb c) s.

(** ** Prefixes and spans *)

(** [s.startswith(p)] *)
Fixpoint starts_with (p s : str) : bool :=
  match p, s with
  | [], _ => true
  | a :: p', b :: s' => ch_eqb a b && starts_with p' s'
  | _ :: _, [] => false
  end.

(** The longest prefix of [s] without the character [c], and what follows it. *)
Fixpoint take_until (c : char) (s : str) : str :=
  match s with
  | [] => []
  | a :: s' => if ch_eqb a c then [] else a :: take_until c s'
  end.

Fixpoint drop_until (c : char) (s : str) : str :=
  match s with
  | [] => []
  | a :: s' => if ch_eqb a c then s else drop_until c s'
  end.

(** The prefix of [s] through its first [c], all of [s] when it has none. *)
Fixpoint take_through (c : char) (s : str) : str :=
  match s with
  | [] => []
  | a :: s' => if ch_eqb a c then [a] else a :: take_through c s'
  end.

(** The same spans for a set of characters: the longest prefix of [s]
    without any character of [seps], and what follows it. *)
Fixpoint take_until_any (seps : str) (s : str) : str :=
  match s with
  | [] => []
  | a :: s' => if ch_mem a seps then [] else a :: take_until_any seps s'
  end.

Fixpoint drop_until_any (seps : str) (s : str) : str :=
  match s with
  | [] => []
  | a :: s' => if ch_mem a seps then s else drop_until_any seps s'
  end.

Definition count_occ_ch (c : char) (s : str) : nat :=
  length (filter (ch_eqb c) s).

(** [s] is empty or begins with [c]: where a value span ends. *)
Definition at_boundary (c : char) (s : str) : Prop :=
  s = [] \/ exists t, s = c :: t.

(** The text [p] occurs in [s], and the test for it. *)
Definition occurs (p s : str) : Prop := exists a b, s = a ++ p ++ b.

Fixpoint occursb (p s : str) : bool :=
  starts_with p s
  || match s with
     | [] => false
     | _ :: s' => occursb p s'
     end.

(** Boolean checkers for the side conditions of the theorems. *)
Definition free_of (c : char) (s : str) : bool := negb (ch_mem c s).

Definition all_free_of (c : char) (l : list str) : bool := forallb (free_of c) l.

Fixpoint str_eqb (a b : str) : bool :=
  match a, b with
  | [], [] => true
  | x :: a', y :: b' => ch_eqb x y && str_eqb a' b'
  | _, _ => false
  end.

Definition str_mem (s : str) (l : list str) : bool := existsb (str_eqb s) l.

(** Two lists of the same length whose elements are related by [p], pair
    by pair. *)
Fixpoint all2 {A : Type} (p : A -> A -> bool) (l1 l2 : list A) : bool :=
  match l1, l2 with
  | [], [] => true
  | a :: l1', b :: l2' => p a b && all2 p l1' l2'
  | _, _ => false
  end.

(** ** Tactics *)

Ltac inv H := inversion H; subst; clear H.

Ltac break_match :=
  match goal with
  | |- context [match ?x with _ => _ end] => destruct x eqn:?
  | H : context [match ?x with _ => _ end] |- _ => destruct x eqn:?
  end.

Create HintDb pre discriminated.
Create Rewrite HintDb str_rw.

(** ** Lemmas on results *)

Lemma bind_ok_inv {E A B} (r : result E A) (f : A -> result E B) (b : B) :
  bind r f = Ok b -> exists a, r = Ok a /\ f a = Ok b.
Proof. destruct r as [a|e]; simpl; intros H; [eauto | discriminate]. Qed.

Lemma bind_ok {E A B} (r : result E A) (f : A -> result E B) (a : A) :
  r = Ok a -> bind r f = f a.
Proof. intros ->. reflexivity. Qed.

Lemma bind_err {E A B} (r : result E A) (f : A -> result E B) (e : E) :
  r = Err e -> bind r f = Err e.
Proof. intros ->. reflexivity. Qed.

Lemma bind_assoc {E A B C} (r : result E A) (f : A -> result E B) (g : B -> result E C) :
  bind (bind r f) g = bind r (fun a => bind (f a) g).
Proof. destruct r; reflexivity. Qed.

Ltac simp_res :=
  repeat match goal with
  | H : bind _ _ = Ok _ |- _ =>
      let a := fresh "a" in
      let Ha := fresh "Ha" in
      apply bind_ok_inv in H; destruct H as (a & Ha & H)
  | H : Ok _ = Ok _ |- _ => inv H
  | H : Err _ = Ok _ |- _ => discriminate H
  | H : Ok _ = Err _ |- _ => discriminate H
  end.

(** ** Lemmas on characters *)

Lemma ch_eqb_spec (a b : char) : reflect (a = b) (ch_eqb a b).
Proof. apply N.eqb_spec. Qed.

Lemma ch_eqb_refl (a : char) : ch_eqb a a = true.
Proof. apply N.eqb_refl. Qed.

Lemma ch_eqb_eq (a b : char) : ch_eqb a b = true <-> a = b.
Proof. apply N.eqb_eq. Qed.

Lemma ch_eqb_neq (a b : char) : ch_eqb a b = false <-> a <> b.
Proof. apply N.eqb_neq. Qed.

Lemma ch_eqb_sym (a b : char) : ch_eqb a b = ch_eqb b a.
Proof. apply N.eqb_sym. Qed.

Lemma ch_mem_In (c : char) (s : str) : ch_mem c s = true <-> In c s.
Proof.
  unfold ch_mem. rewrite existsb_exists. split.
  - intros (x & Hx & E). apply ch_eqb_eq in E. now subst.
  - intros H. exists c. split; [assumption | apply ch_eqb_refl].
Qed.

Lemma ch_mem_not_In (c : char) (s : str) : ch_mem c s = false <-> ~ In c s.
Proof.
  rewrite <- ch_mem_In. destruct (ch_mem c s); split; congruence.
Qed.

#[export] Hint Rewrite ch_eqb_refl : str_rw.
#[export] Hint Resolve ch_eqb_refl : pre.

(** Decides a test on characters and substitutes the equality it gives. *)
Ltac ch_cases a b :=
  let E := fresh "E" in
  destruct (ch_eqb_spec a b) as [E|E]; [try subst | idtac].

(** ** Lemmas on prefixes *)

Lemma starts_with_nil (s : str) : starts_with [] s = true.
Proof. reflexivity. Qed.

Lemma starts_with_iff (p s : str) :
  starts_with p s = true <-> exists t, s = p ++ t.
Proof.
  revert s. induction p as [|a p IH]; intros s; simpl.
  - split; [eauto | reflexivity].
  - destruct s as [|b s].
    + split; [discriminate | intros (t & Ht); discriminate].
    + rewrite andb_true_iff, ch_eqb_eq, IH. split.
      * intros (-> & t & ->). eauto.
      * intros (t & Ht). inv Ht. eauto.
Qed.

(** ** Occurrences *)

Lemma occurs_cons (p s : str) (c : char) : occurs p s -> occurs p (c :: s).
Proof. intros (a & b & ->). now exists (c :: a), b. Qed.

Lemma occurs_head (p s : str) : occurs p (p ++ s).
Proof. now exists [], s. Qed.

Lemma occursb_occurs (p s : str) : occursb p s = true <-> occurs p s.
Proof.
  induction s as [|c s IH]; cbn [occursb]; rewrite orb_true_iff, starts_with_iff.
  - split; [intros [(t & E)|E]; [now exists [], t | discriminate]|].
    intros (a & b & E). left. destruct a; [now exists b | discriminate].
  - rewrite IH. split.
    + intros [(t & E)|H]; [now exists [], t | now apply occurs_cons].
    + intros ([|a0 a] & b & E); [left; now exists b|].
      right. inv E. now exists a, b.
Qed.

Lemma starts_with_app (p t : str) : starts_with p (p ++ t) = true.
Proof. apply starts_with_iff. eauto. Qed.

Lemma starts_with_refl (p : str) : starts_with p p = true.
Proof. apply starts_with_iff. exists []. now rewrite app_nil_r. Qed.

Lemma starts_with_app_l (p q s : str) :
  starts_with (p ++ q) s = starts_with p s && starts_with q (skipn (length p) s).
Proof.
  revert s. induction p as [|a p IH]; intros s; simpl.
  - reflexivity.
  - destruct s as [|b s]; simpl; [reflexivity|].
    rewrite IH. now rewrite andb_assoc.
Qed.

Lemma starts_with_length (p s : str) :
  starts_with p s = true -> length p <= length s.
Proof.
  intros H. apply starts_with_iff in H. destruct H as (t & ->).
  rewrite length_app. lia.
Qed.

Lemma starts_with_skipn (p s : str) :
  starts_with p s = true -> s = p ++ skipn (length p) s.
Proof.
  intros H. apply starts_with_iff in H. destruct H as (t & ->).
  now rewrite skipn_app, skipn_all, Nat.sub_diag.
Qed.

(** A prefix test that fits inside a common prefix sees only that prefix. *)
Lemma starts_with_app_short (p s t : str) :
  length p <= length s -> starts_with p (s ++ t) = starts_with p s.
Proof.
  revert s. induction p as [|a p IH]; intros s L; simpl.
  - reflexivity.
  - destruct s as [|b s]; simpl in *; [lia|].
    rewrite IH by lia. reflexivity.
Qed.

Lemma starts_with_In (p s : str) (c : char) :
  starts_with p s = true -> In c p -> In c s.
Proof.
  intros H Hc. apply starts_with_iff in H. destruct H as (t & ->).
  apply in_or_app. now left.
Qed.

#[export] Hint Rewrite starts_with_app starts_with_refl : str_rw.
#[export] Hint Resolve starts_with_app starts_with_refl : pre.

(** ** Lemmas on spans *)

Lemma take_drop_until (c : char) (s : str) :
  take_until c s ++ drop_until c s = s.
Proof.
  induction s as [|a s IH]; simpl; [reflexivity|].
  destruct (ch_eqb a c); simpl; [reflexivity | now rewrite IH].
Qed.

Lemma take_until_not_In (c : char) (s : str) : ~ In c (take_until c s).
Proof.
  induction s as [|a s IH]; simpl; [tauto|].
  ch_cases a c; simpl; [tauto|]. intros [H|H]; [congruence | tauto].
Qed.

Lemma drop_until_boundary (c : char) (s : str) : at_boundary c (drop_until c s).
Proof.
  induction s as [|a s IH]; simpl; [now left|].
  ch_cases a c; [right; eauto | exact IH].
Qed.

Lemma take_until_id (c : char) (s : str) : ~ In c s -> take_until c s = s.
Proof.
  induction s as [|a s IH]; simpl; intros H; [reflexivity|].
  ch_cases a c; [tauto|]. f_equal. apply IH. tauto.
Qed.

Lemma drop_until_none (c : char) (s : str) : ~ In c s -> drop_until c s = [].
Proof.
  induction s as [|a s IH]; simpl; intros H; [reflexivity|].
  ch_cases a c; [tauto|]. apply IH. tauto.
Qed.

Lemma take_until_app (c : char) (s t : str) :
  ~ In c s -> take_until c (s ++ t) = s ++ take_until c t.
Proof.
  induction s as [|a s IH]; simpl; intros H; [reflexivity|].
  ch_cases a c; [tauto|]. f_equal. apply IH. tauto.
Qed.

Lemma drop_until_app (c : char) (s t : str) :
  ~ In c s -> drop_until c (s ++ t) = drop_until c t.
Proof.
  induction s as [|a s IH]; simpl; intros H; [reflexivity|].
  ch_cases a c; [tauto|]. apply IH. tauto.
Qed.

Lemma drop_until_In (c : char) (s : str) :
  In c s -> exists t, drop_until c s = c :: t.
Proof.
  intros H. destruct (drop_until_boundary c s) as [E|E]; [|exact E].
  exfalso. apply (take_until_not_In c s).
  rewrite <- (take_drop_until c s), E, app_nil_r in H. exact H.
Qed.

Lemma drop_until_at_boundary (c : char) (s : str) :
  at_boundary c s -> drop_until c s = s.
Proof.
  intros [->|(t & ->)]; simpl; [reflexivity|]. now rewrite ch_eqb_refl.
Qed.

Lemma take_until_at_boundary (c : char) (s : str) :
  at_boundary c s -> take_until c s = [].
Proof.
  intros [->|(t & ->)]; simpl; [reflexivity|]. now rewrite ch_eqb_refl.
Qed.

Lemma drop_until_length (c : char) (s : str) :
  length (drop_until c s) <= length s.
Proof.
  induction s as [|a s IH]; simpl; [lia|].
  destruct (ch_eqb a c); simpl; lia.
Qed.

Lemma drop_until_idem (c : char) (s : str) :
  drop_until c (drop_until c s) = drop_until c s.
Proof. apply drop_until_at_boundary, drop_until_boundary. Qed.

Lemma take_through_app_In (c : char) (s t : str) :
  In c s -> take_through c (s ++ t) = take_through c s.
Proof.
  induction s as [|a s IH]; simpl; intros H; [tauto|].
  ch_cases a c; [reflexivity|]. f_equal. apply IH. destruct H; congruence.
Qed.

Lemma take_through_prefix (c : char) (s : str) :
  starts_with (take_through c s) s = true.
Proof.
  induction s as [|a s IH]; simpl; [reflexivity|].
  destruct (ch_eqb a c); simpl; rewrite ch_eqb_refl; [reflexivity | exact IH].
Qed.

(** A prefix test with a pattern [w ++ [c]], [w] free of [c], only reads the
    text through its first [c]. *)
Lemma starts_with_take_through (c : char) (w s : str) :
  ~ In c w ->
  starts_with (w ++ [c]) (take_through c s) = starts_with (w ++ [c]) s.
Proof.
  revert s. induction w as [|a w IH]; intros s H; simpl.
  - destruct s as [|b s]; simpl; [reflexivity|].
    ch_cases b c; simpl; [now rewrite !ch_eqb_refl|].
    rewrite (ch_eqb_sym c b).
    destruct (ch_eqb_spec b c); [congruence | reflexivity].
  - destruct s as [|b s]; simpl; [reflexivity|].
    ch_cases b c; simpl.
    + ch_cases a c; [simpl in H; tauto|]. reflexivity.
    + rewrite IH by (simpl in H; tauto). reflexivity.
Qed.

Lemma at_boundary_nil (c : char) : at_boundary c [].
Proof. now left. Qed.

Lemma at_boundary_cons (c : char) (t : str) : at_boundary c (c :: t).
Proof. right. eauto. Qed.

#[export] Hint Resolve at_boundary_nil at_boundary_cons drop_until_boundary
  take_until_not_In : pre.
#[export] Hint Rewrite take_drop_until drop_until_idem : str_rw.

Lemma firstn_take_until (c : char) (s : str) :
  firstn (length (take_until c s)) s = take_until c s.
Proof.
  induction s as [|a s IH]; simpl; [reflexivity|].
  destruct (ch_eqb a c); simpl; [reflexivity | now rewrite IH].
Qed.

Lemma skipn_S_tail {A} (n : nat) (l : list A) (a : A) (t : list A) :
  skipn n l = a :: t -> skipn (n + 1) l = t.
Proof.
  intros H. rewrite Nat.add_comm. change (1 + n) with (S n).
  revert l H. induction n as [|n IH]; intros l H; simpl in *.
  - now subst.
  - destruct l; [discriminate|]. now apply IH.
Qed.

(** ** Lemmas on the checkers *)

Lemma free_of_iff (c : char) (s : str) : free_of c s = true <-> ~ In c s.
Proof. unfold free_of. rewrite negb_true_iff. apply ch_mem_not_In. Qed.

Lemma all_free_of_In (c : char) (l : list str) (f : str) :
  all_free_of c l = true -> In f l -> ~ In c f.
Proof.
  unfold all_free_of. rewrite forallb_forall. intros H Hf. apply free_of_iff. auto.
Qed.

Lemma all_free_of_Forall (c : char) (l : list str) :
  all_free_of c l = true <-> Forall (fun f => ~ In c f) l.
Proof.
  unfold all_free_of. rewrite forallb_forall, Forall_forall.
  split; intros H f Hf; apply free_of_iff; auto.
Qed.

Lemma str_eqb_spec (a b : str) : reflect (a = b) (str_eqb a b).
Proof.
  revert b. induction a as [|x a IH]; intros [|y b]; simpl;
    try (constructor; congruence).
  destruct (ch_eqb_spec x y) as [->|Hn]; simpl; [|constructor; congruence].
  destruct (IH b) as [->|Hn]; constructor; congruence.
Qed.

Lemma str_eqb_refl (a : str) : str_eqb a a = true.
Proof. now destruct (str_eqb_spec a a). Qed.

Lemma str_mem_In (s : str) (l : list str) : str_mem s l = true <-> In s l.
Proof.
  unfold str_mem. rewrite existsb_exists. split.
  - intros (x & Hx & He). destruct (str_eqb_spec s x); [now subst | discriminate].
  - intros H. exists s. split; [assumption | apply str_eqb_refl].
Qed.

Lemma all2_Forall2 {A : Type} (p : A -> A -> bool) (P : A -> A -> Prop)
    (l1 l2 : list A) :
  (forall a b, p a b = true -> P a b) -> all2 p l1 l2 = true -> Forall2 P l1 l2.
Proof.
  intros Hp. revert l2. induction l1 as [|a l1 IH]; intros [|b l2] H;
    try discriminate; constructor; simpl in H; apply andb_true_iff in H; intuition.
Qed.

(** ** Spans for a set of characters *)

Lemma ch_mem_one (a c : char) : ch_mem a [c] = ch_eqb a c.
Proof. unfold ch_mem. simpl. apply orb_false_r. Qed.

Lemma take_drop_until_any (seps s : str) :
  take_until_any seps s ++ drop_until_any seps s = s.
Proof.
  induction s as [|a s IH]; simpl; [reflexivity|].
  destruct (ch_mem a seps); simpl; [reflexivity | now rewrite IH].
Qed.

Lemma drop_until_any_length (seps s : str) :
  length (drop_until_any seps s) <= length s.
Proof.
  induction s as [|a s IH]; simpl; [lia|].
  destruct (ch_mem a seps); simpl; lia.
Qed.

Lemma take_until_any_one (c : char) (s : str) : take_until_any [c] s = take_until c s.
Proof.
  induction s as [|a s IH]; cbn [take_until_any take_until]; [reflexivity|].
  rewrite ch_mem_one. destruct (ch_eqb a c); [reflexivity | now rewrite IH].
Qed.

Lemma drop_until_any_one (c : char) (s : str) : drop_until_any [c] s = drop_until c s.
Proof.
  induction s as [|a s IH]; cbn [drop_until_any drop_until]; [reflexivity|].
  rewrite ch_mem_one. destruct (ch_eqb a c); [reflexivity | exact IH].
Qed.

Lemma firstn_take_until_any (seps s : str) :
  firstn (length (take_until_any seps s)) s = take_until_any seps s.
Proof.
  rewrite <- (take_drop_until_any seps s) at 2.
  now rewrite firstn_app, firstn_all, Nat.sub_diag, firstn_O, app_nil_r.
Qed.

(** ** More on spans: what the scan of a tokenizer needs *)

Lemma take_until_through (c : char) (s : str) :
  take_until c (take_through c s) = take_until c s.
Proof.
  induction s as [|a s IH]; [reflexivity|]. simpl.
  destruct (ch_eqb a c) eqn:E; simpl; rewrite E; [reflexivity | now rewrite IH].
Qed.

Lemma take_through_key (c : char) (w s : str) :
  ~ In c w -> take_through c (w ++ c :: s) = w ++ [c].
Proof.
  induction w as [|a w IH]; simpl; intros H.
  - now rewrite ch_eqb_refl.
  - ch_cases a c; [tauto|]. f_equal. apply IH. tauto.
Qed.

Lemma take_through_length (c : char) (s : str) :
  length (take_through c s) <= length s.
Proof.
  induction s as [|a s IH]; simpl; [lia|]. destruct (ch_eqb a c); simpl; lia.
Qed.

Lemma take_through_cons (c a : char) (s t : str) :
  take_through c s = take_through c t ->
  take_through c (a :: s) = take_through c (a :: t).
Proof. intros H. simpl. now rewrite H. Qed.

Lemma take_through_same (c : char) (p x y : str) :
  In c p -> take_through c (p ++ x) = take_through c (p ++ y).
Proof. intros H. now rewrite !take_through_app_In. Qed.

Lemma hd_error_same {A} (p x y : list A) :
  p <> [] -> hd_error (p ++ x) = hd_error (p ++ y).
Proof. destruct p; [congruence | reflexivity]. Qed.

Lemma skipn_key {A} (f x : list A) (c : A) :
  skipn (length f + 1) (f ++ [c] ++ x) = x.
Proof. induction f as [|a f IH]; simpl; [reflexivity | exact IH]. Qed.

Lemma skipn_app_le {A} (n : nat) (l1 l2 : list A) :
  n <= length l1 -> skipn n (l1 ++ l2) = skipn n l1 ++ l2.
Proof.
  intros H. rewrite skipn_app. replace (n - length l1) with 0 by lia. reflexivity.
Qed.

Lemma at_boundary_hd (c : char) (s t : str) :
  hd_error s = hd_error t -> at_boundary c s -> at_boundary c t.
Proof.
  intros H [->|(u & ->)]; destruct t; simpl in H; try discriminate.
  - now left.
  - inv H. right. eauto.
Qed.

Lemma In_skipn {A} (n : nat) (l : list A) (x : A) : In x (skipn n l) -> In x l.
Proof.
  revert l. induction n as [|n IH]; intros l H; [exact H|].
  destruct l; [exact H|]. right. now apply IH.
Qed.

Lemma In_drop_until (c x : char) (s : str) : In x (drop_until c s) -> In x s.
Proof.
  induction s as [|a s IH]; simpl; [tauto|].
  destruct (ch_eqb a c); simpl; tauto.
Qed.

(** A word without [c] that starts a text starts its part before [c]. *)
Lemma starts_with_before (c : char) (w : str) : forall t rest,
  ~ In c w -> starts_with w (t ++ c :: rest) = starts_with w t.
Proof.
  induction w as [|a w IH]; intros t rest H; [now rewrite !starts_with_nil|].
  simpl in H. destruct t as [|b t]; simpl.
  - ch_cases a c; [tauto | reflexivity].
  - rewrite IH by tauto. reflexivity.
Qed.

(** Dropping up to the separator inside a text [pre ++ w], [w] free of it,
    leaves a shorter [pre] in front of [w]. *)
Lemma drop_until_into_prefix (c : char) (w : str) : forall pre n,
  ~ In c w -> In c (skipn n (pre ++ w)) ->
  exists pre', length pre' + n <= length pre
    /\ forall x, drop_until c (skipn n (pre ++ w) ++ x) = pre' ++ w ++ x.
Proof.
  induction pre as [|a pre IH]; intros n Hw Hin.
  - simpl in Hin. apply In_skipn in Hin. tauto.
  - destruct n as [|n].
    + simpl skipn in *. simpl app.
      ch_cases a c.
      * exists (c :: pre). split; [simpl; lia|]. intros x. simpl.
        now rewrite ch_eqb_refl, <- app_assoc.
      * destruct (IH 0 Hw) as (pre' & Hl & Hx).
        { simpl. destruct Hin; [congruence | assumption]. }
        exists pre'. split; [simpl; lia|]. intros x. simpl.
        destruct (ch_eqb_spec a c); [congruence|]. apply (Hx x).
    + simpl skipn in *. destruct (IH n Hw Hin) as (pre' & Hl & Hx).
      exists pre'. split; [simpl; lia | exact Hx].
Qed.

Lemma starts_with_take_through_free (c : char) (h m : str) :
  ~ In c h -> starts_with h (take_through c (h ++ m)) = true.
Proof.
  induction h as [|a h IH]; intros H; [apply starts_with_nil|].
  simpl in *. ch_cases a c; [tauto|]. simpl. rewrite ch_eqb_refl. apply IH. tauto.
Qed.

Lemma starts_with_trans (a b c : str) :
  starts_with a b = true -> starts_with b c = true -> starts_with a c = true.
Proof.
  rewrite !starts_with_iff. intros (x & ->) (y & ->). exists (x ++ y).
  now rewrite app_assoc.
Qed.

(** ** Counting a character *)

Lemma count_occ_ch_app (c : char) (s t : str) :
  count_occ_ch c (s ++ t) = count_occ_ch c s + count_occ_ch c t.
Proof. unfold count_occ_ch. now rewrite filter_app, length_app. Qed.

Lemma count_occ_ch_cons (c a : char) (s : str) :
  count_occ_ch c (a :: s) = (if ch_eqb c a then 1 else 0) + count_occ_ch c s.
Proof. unfold count_occ_ch. simpl. destruct (ch_eqb c a); reflexivity. Qed.

Lemma count_occ_ch_not_In (c : char) (s : str) :
  ~ In c s -> count_occ_ch c s = 0.
Proof.
  induction s as [|a s IH]; intros H; [reflexivity|].
  rewrite count_occ_ch_cons, IH by (simpl in H; tauto).
  ch_cases c a; [simpl in H; tauto | reflexivity].
Qed.

Lemma count_occ_ch_zero (c : char) (s : str) : count_occ_ch c s = 0 -> ~ In c s.
Proof.
  induction s as [|a s IH]; intros H; [tauto|].
  rewrite count_occ_ch_cons in H. simpl. ch_cases c a; [discriminate|].
  intros [H'|H']; [congruence | now apply IH].
Qed.

#[export] Hint Rewrite count_occ_ch_app count_occ_ch_cons : str_rw.

(** ** Literals *)

Lemma of_string_app (a b : string) :
  of_string (a ++ b) = of_string a ++ of_string b.
Proof.
  unfold of_string. rewrite <- map_app. f_equal.
  induction a as [|x a IH]; simpl; [reflexivity | now rewrite IH].
Qed.

Lemma chr_inj (a b : ascii) : chr a = chr b -> a = b.
Proof.
  unfold chr. intros H.
  rewrite <- (ascii_N_embedding a), <- (ascii_N_embedding b). now rewrite H.
Qed.
