(* ===== verification/PyStr.v ===== *)
(** * PyStr: the Python built-ins on strings that the source calls

    Exceptions as values ([exn], [res]), ['|'.join(fields)] ([str_join]),
    [template.format(a, b)] with automatically numbered [{}] fields
    ([str_format]) and the text an f-string gives an optional value
    ([fstr_opt]), with the lemmas the components use about them;
    [str_split] and [partition], which a reader of the log applies to a
    message, with their round trip with [str_join]. *)

From Stdlib Require Import Ascii String.
From Stdlib Require Import List NArith Arith Bool Lia.
From S2P Require Import Prelude.
Import ListNotations.
Local Open Scope str_scope.
Local Open Scope res_scope.

(** ** Exceptions *)

(** The messages of [re.error] that the parser of [Regex] can raise. *)
Inductive re_msg : Type :=
| NothingToRepeat
| MultipleRepeat
| UnbalancedParenthesis
| MissingParenthesis
| UnterminatedSet
| BadCharacterRange
| BadEscapeEnd
| UnexpectedEnd.

(** Constructs outside the fragment of Python that is modelled. *)
Inductive unsupported : Type :=
| UGroupExtension
| UCountedRepeat
| ULazyOrPossessive
| UEscape
| UFormatField
| UConversion
| UFuel.

Inductive exn : Type :=
| ReError (msg : re_msg)
| IndexError
| KeyError (key : str)
| ValueError
| DatabaseError (errno : nat)
| Unsupported (what : unsupported).

Definition res (A : Type) : Type := result exn A.

(** [raises r]: the call raised a Python exception (the model covers it). *)
Definition raises {A : Type} (r : res A) : Prop :=
  match r with
  | Ok _ => False
  | Err (Unsupported _) => False
  | Err _ => True
  end.

(** ** [sep.join(items)] *)

Fixpoint str_join (sep : str) (items : list str) : str :=
  match items with
  | [] => []
  | x :: rest =>
      match rest with
      | [] => x
      | _ :: _ => x ++ sep ++ str_join sep rest
      end
  end.

(** ** [template.format(a, b)]

    The template is read left to right: [{{] and [}}] stand for a brace,
    [{}] is replaced by the next positional argument; a lone brace is a
    [ValueError], a missing argument an [IndexError].  Named and numbered
    fields, conversions and format specifications are outside the model. *)

Inductive fmt_mode : Type :=
| FText
| FOpen
| FClose.

Definition lbrace : char := chr "{".
Definition rbrace : char := chr "}".

Fixpoint format_go (mode : fmt_mode) (tpl : str) (args : list str) : res str :=
  match tpl with
  | [] =>
      match mode with
      | FText => Ok []
      | FOpen | FClose => Err ValueError
      end
  | c :: tpl' =>
      match mode with
      | FText =>
          if ch_eqb c lbrace then format_go FOpen tpl' args
          else if ch_eqb c rbrace then format_go FClose tpl' args
          else out <- format_go FText tpl' args ;; Ok (c :: out)
      | FOpen =>
          if ch_eqb c lbrace then
            out <- format_go FText tpl' args ;; Ok (lbrace :: out)
          else if ch_eqb c rbrace then
            match args with
            | [] => Err IndexError
            | a :: args' => out <- format_go FText tpl' args' ;; Ok (a ++ out)
            end
          else Err (Unsupported UFormatField)
      | FClose =>
          if ch_eqb c rbrace then
            out <- format_go FText tpl' args ;; Ok (rbrace :: out)
          else Err ValueError
      end
  end.

Definition str_format (tpl : str) (args : list str) : res str :=
  format_go FText tpl args.

(** ** f-strings: [f"{x}"] for an optional string [x] *)

Definition fstr_opt (o : option str) : str :=
  match o with
  | Some s => s
  | None => $"None"
  end.

(** ** [s.split(sep)] and [s.partition(c)] *)

(** [s.split(sep)], for a separator that is not empty: the text between
    the occurrences of [sep], found from left to right.  [skip] counts the
    characters of an occurrence that are still to pass. *)
Fixpoint split_go (sep : str) (skip : nat) (s : str) : list str :=
  match s with
  | [] => [[]]
  | a :: s' =>
      match skip with
      | S k => split_go sep k s'
      | 0 =>
          if starts_with sep s then [] :: split_go sep (length sep - 1) s'
          else
            match split_go sep 0 s' with
            | t :: ts => (a :: t) :: ts
            | [] => [[a]]
            end
      end
  end.

Definition str_split (sep : str) (s : str) : res (list str) :=
  match sep with
  | [] => Err ValueError
  | _ :: _ => Ok (split_go sep 0 s)
  end.

(** [s.partition(c)], without the separator: the text before the first
    [c] and the text after it. *)
Definition partition (c : char) (s : str) : str * str :=
  (take_until c s, tl (drop_until c s)).

(** Text that [str.format] copies. *)
Definition brace_free (s : str) : Prop := ~ In lbrace s /\ ~ In rbrace s.

(** ** Lemmas on [str_join] *)

Lemma str_join_nil (sep : str) : str_join sep [] = [].
Proof. reflexivity. Qed.

Lemma str_join_one (sep x : str) : str_join sep [x] = x.
Proof. reflexivity. Qed.

Lemma str_join_cons (sep x y : str) (rest : list str) :
  str_join sep (x :: y :: rest) = x ++ sep ++ str_join sep (y :: rest).
Proof. reflexivity. Qed.

Lemma str_join_cons_ne (sep x : str) (l : list str) :
  l <> [] -> str_join sep (x :: l) = x ++ sep ++ str_join sep l.
Proof. destruct l; [congruence | reflexivity]. Qed.

Lemma str_join_app (sep : str) (l1 l2 : list str) :
  l1 <> [] -> l2 <> [] ->
  str_join sep (l1 ++ l2) = str_join sep l1 ++ sep ++ str_join sep l2.
Proof.
  intros H1 H2. induction l1 as [|x l1 IH]; [congruence|].
  destruct l1 as [|y l1].
  - destruct l2 as [|z l2]; [congruence | reflexivity].
  - change ((x :: y :: l1) ++ l2) with (x :: y :: (l1 ++ l2)).
    rewrite !str_join_cons. change (y :: l1 ++ l2) with ((y :: l1) ++ l2).
    rewrite IH by discriminate. now rewrite <- !app_assoc.
Qed.

Lemma str_join_prepend (sep h x : str) (l : list str) :
  h ++ str_join sep (x :: l) = str_join sep ((h ++ x) :: l).
Proof. destruct l; [reflexivity|]. rewrite !str_join_cons. apply app_assoc. Qed.

Lemma str_join_not_In (sep : str) (items : list str) (c : char) :
  ~ In c sep -> Forall (fun x => ~ In c x) items -> ~ In c (str_join sep items).
Proof.
  intros Hs H. induction H as [|x rest Hx Hr IH]; simpl; [tauto|].
  destruct rest; [assumption|].
  rewrite !in_app_iff. tauto.
Qed.

Lemma count_occ_ch_join (c : char) (items : list str) :
  Forall (fun x => ~ In c x) items ->
  count_occ_ch c (str_join [c] items) = pred (length items).
Proof.
  induction 1 as [|x rest Hx Hr IH]; [reflexivity|].
  destruct rest as [|y rest].
  - simpl. now apply count_occ_ch_not_In.
  - rewrite str_join_cons, !count_occ_ch_app, IH.
    rewrite (count_occ_ch_not_In c x Hx).
    unfold count_occ_ch. simpl. now rewrite ch_eqb_refl.
Qed.

#[export] Hint Rewrite str_join_nil str_join_one str_join_cons : str_rw.

(** ** Lemmas on [str_format] *)

Lemma brace_free_check (s : str) :
  free_of lbrace s && free_of rbrace s = true -> brace_free s.
Proof.
  rewrite andb_true_iff, !free_of_iff. intros H. exact H.
Qed.

(** Text without braces is copied. *)
Lemma format_go_text (s tpl : str) (args : list str) :
  brace_free s ->
  format_go FText (s ++ tpl) args = (out <- format_go FText tpl args ;; Ok (s ++ out)).
Proof.
  intros [Hl Hr]. induction s as [|c s IH]; simpl.
  - destruct (format_go FText tpl args); reflexivity.
  - simpl in Hl, Hr.
    ch_cases c lbrace; [tauto|]. ch_cases c rbrace; [tauto|].
    rewrite IH by tauto. destruct (format_go FText tpl args); reflexivity.
Qed.

(** A [{}] field takes the next argument. *)
Lemma format_go_field (tpl a : str) (args : list str) :
  format_go FText (lbrace :: rbrace :: tpl) (a :: args) =
  (out <- format_go FText tpl args ;; Ok (a ++ out)).
Proof. reflexivity. Qed.

Lemma str_format_no_field (s : str) (args : list str) :
  brace_free s -> str_format s args = Ok s.
Proof.
  intros H. unfold str_format.
  rewrite <- (app_nil_r s) at 1. rewrite format_go_text by assumption.
  simpl. now rewrite app_nil_r.
Qed.

(** ** Lemmas on [str_split]: a round trip with [str_join] *)

Lemma split_go_ne (sep : str) : forall s skip, split_go sep skip s <> [].
Proof.
  induction s as [|a s IH]; intros skip; simpl; [discriminate|].
  destruct skip; [|apply IH].
  destruct (starts_with sep (a :: s)); [discriminate|].
  destruct (split_go sep 0 s); discriminate.
Qed.

Lemma split_go_skip (sep p s : str) :
  split_go sep (length p) (p ++ s) = split_go sep 0 s.
Proof. induction p as [|a p IH]; [reflexivity | exact IH]. Qed.

Lemma split_go_hit (c : char) (sep' rest : str) :
  split_go (c :: sep') 0 ((c :: sep') ++ rest) = [] :: split_go (c :: sep') 0 rest.
Proof.
  cbn [app split_go]. rewrite (starts_with_app (c :: sep') rest : starts_with (c :: sep') (c :: sep' ++ rest) = true).
  replace (length (c :: sep') - 1) with (length sep') by (simpl; lia).
  now rewrite split_go_skip.
Qed.

Lemma split_go_char (sep : str) (a : char) (s : str) :
  starts_with sep (a :: s) = false ->
  split_go sep 0 (a :: s) =
  (a :: hd [] (split_go sep 0 s)) :: tl (split_go sep 0 s).
Proof.
  intros H. cbn [split_go]. rewrite H.
  pose proof (split_go_ne sep s 0). now destruct (split_go sep 0 s).
Qed.

(** A text without the first character of the separator, then the rest. *)
Lemma split_go_token (c : char) (sep' t rest : str) :
  ~ In c t ->
  split_go (c :: sep') 0 (t ++ rest) =
  (t ++ hd [] (split_go (c :: sep') 0 rest)) :: tl (split_go (c :: sep') 0 rest).
Proof.
  induction t as [|a t IH]; intros H.
  - pose proof (split_go_ne (c :: sep') rest 0). cbn [app].
    destruct (split_go (c :: sep') 0 rest); [congruence | reflexivity].
  - simpl in H. cbn [app]. rewrite split_go_char.
    + rewrite IH by tauto. reflexivity.
    + simpl. ch_cases c a; [tauto | reflexivity].
Qed.

Lemma split_join (c : char) (sep' : str) (toks : list str) :
  toks <> [] -> Forall (fun t => ~ In c t) toks ->
  split_go (c :: sep') 0 (str_join (c :: sep') toks) = toks.
Proof.
  intros Hne H. induction H as [|t toks Ht Hts IH]; [congruence|].
  destruct toks as [|u toks].
  - cbn [str_join]. rewrite <- (app_nil_r t) at 1.
    rewrite split_go_token by assumption. simpl. now rewrite app_nil_r.
  - rewrite str_join_cons, split_go_token, split_go_hit by assumption.
    cbn [hd tl]. rewrite app_nil_r, IH by discriminate. reflexivity.
Qed.

(** A separator of one character: no token holds it. *)
Lemma split_go_one (c a : char) (s : str) :
  split_go [c] 0 (a :: s) =
  if ch_eqb c a then [] :: split_go [c] 0 s
  else (a :: hd [] (split_go [c] 0 s)) :: tl (split_go [c] 0 s).
Proof.
  destruct (ch_eqb c a) eqn:E.
  - apply ch_eqb_eq in E. subst. apply (split_go_hit a [] s).
  - apply split_go_char. simpl. now rewrite E.
Qed.

Lemma split_go_free (c : char) (s : str) :
  Forall (fun t => ~ In c t) (split_go [c] 0 s).
Proof.
  induction s as [|a s IH]; [repeat constructor; tauto|].
  rewrite split_go_one. ch_cases c a; [now constructor|].
  pose proof (split_go_ne [c] s 0). destruct (split_go [c] 0 s) as [|t ts]; [congruence|].
  inv IH. constructor; [|assumption]. simpl. intuition congruence.
Qed.

Lemma join_split_go (c : char) (sep' : str) : forall s skip,
  skip <= length s ->
  str_join (c :: sep') (split_go (c :: sep') skip s) = skipn skip s.
Proof.
  induction s as [|a s IH]; intros skip Hk.
  - simpl in Hk. now replace skip with 0 by lia.
  - destruct skip as [|k]; cbn [split_go skipn]; [|apply IH; simpl in Hk; lia].
    destruct (starts_with (c :: sep') (a :: s)) eqn:E.
    + pose proof (starts_with_length _ _ E) as L. cbn [length] in L.
      rewrite str_join_cons_ne by apply split_go_ne.
      replace (length (c :: sep') - 1) with (length sep') by (simpl; lia).
      rewrite IH by lia. apply starts_with_skipn in E.
      cbn [length skipn app] in E. exact (eq_sym E).
    + pose proof (split_go_ne (c :: sep') s 0) as Hn.
      specialize (IH 0 (Nat.le_0_l _)). cbn [skipn] in IH.
      destruct (split_go (c :: sep') 0 s) as [|t ts]; [congruence|].
      change ((a :: t) :: ts) with (([a] ++ t) :: ts).
      rewrite <- str_join_prepend. now rewrite IH.
Qed.

Lemma partition_token (c : char) (k v : str) :
  ~ In c k -> partition c (k ++ [c] ++ v) = (k, v).
Proof.
  intros H. unfold partition.
  rewrite take_until_app, drop_until_app by assumption.
  simpl. now rewrite ch_eqb_refl, app_nil_r.
Qed.

(** Too few arguments: [str.format] raises [IndexError] at the first [{}]
    field for which no argument is left, whatever follows in the template. *)
Lemma str_format_missing_arg (s tpl : str) :
  brace_free s ->
  str_format (s ++ lbrace :: rbrace :: tpl) [] = Err IndexError.
Proof.
  intros H. unfold str_format. rewrite format_go_text by assumption. reflexivity.
Qed.

Example str_format_missing_arg_paren :
  str_format $"({})=" [] = Err IndexError.
Proof.
  exact (str_format_missing_arg $"(" $")=" (brace_free_check $"(" eq_refl)).
Qed.
