(* ===== verification/Regex.v ===== *)
(** * Regex: patterns of Python's [re] and their parser

    The abstract syntax [regex] of the fragment of [re] patterns this
    development covers, and [re_compile], which reads a pattern the way
    [sre_parse] does: one character at a time, with a stack of the groups
    that are open and a mode for escapes and character sets.  The result is
    [Ok] with the syntax tree and the number of groups, [Err (ReError m)]
    where Python raises [re.error], or [Err (Unsupported u)] for a construct
    outside the fragment.

    The fragment: literal characters, the dot, sets with ranges and
    negation, the anchors, alternation, the greedy quantifiers, escaped
    punctuation, capturing groups and non-capturing groups.  A group is
    numbered when the character after its parenthesis is read, as
    [sre_parse] does: a question mark there announces an extension, of
    which the colon of a non-capturing group is read and the others
    (names, lookaround, flags, comments, conditionals) are [Unsupported],
    as are counted repeats, lazy and possessive quantifiers and the
    escapes of a letter or a digit. *)

From Stdlib Require Import Ascii String.
From Stdlib Require Import List NArith Arith Bool Lia.
From S2P Require Import Prelude PyStr.
Import ListNotations.
Local Open Scope str_scope.
Local Open Scope res_scope.

(** ** Abstract syntax *)

Inductive set_item : Type :=
| SChar (c : char)
| SRange (lo hi : char).

Inductive regex : Type :=
| REmpty
| RChar (c : char)
| RAny
| RSet (negate : bool) (items : list set_item)
| RBol
| REol
| RCat (r1 r2 : regex)
| RAlt (r1 r2 : regex)
| RStar (r : regex)
| RPlus (r : regex)
| ROpt (r : regex)
| RGroup (n : nat) (r : regex).

(** A compiled pattern: its tree and how many groups it opens. *)
Record compiled : Type := mkCompiled {
  c_regex : regex;
  c_groups : nat
}.

(** ** The characters with a meaning in patterns *)

Definition ch_bslash : char := chr "\".
Definition ch_lbrack : char := chr "[".
Definition ch_rbrack : char := chr "]".
Definition ch_lparen : char := chr "(".
Definition ch_rparen : char := chr ")".
Definition ch_bar : char := chr "|".
Definition ch_star : char := chr "*".
Definition ch_plus : char := chr "+".
Definition ch_quest : char := chr "?".
Definition ch_lcurly : char := chr "{".
Definition ch_dot : char := chr ".".
Definition ch_caret : char := chr "^".
Definition ch_dollar : char := chr "$".
Definition ch_dash : char := chr "-".
Definition ch_eq : char := chr "=".
Definition ch_colon : char := chr ":".
Definition ch_newline : char := 10%N.

Inductive meta : Type :=
| KBslash | KLbrack | KLparen | KRparen | KBar
| KStar | KPlus | KQuest | KLcurly | KDot | KCaret | KDollar
| KPlain.

(** [SPECIAL_CHARS] of [sre_parse]: [.\[{()*+?^$|]. *)
Definition meta_of (c : char) : meta :=
  if ch_eqb c ch_bslash then KBslash
  else if ch_eqb c ch_lbrack then KLbrack
  else if ch_eqb c ch_lparen then KLparen
  else if ch_eqb c ch_rparen then KRparen
  else if ch_eqb c ch_bar then KBar
  else if ch_eqb c ch_star then KStar
  else if ch_eqb c ch_plus then KPlus
  else if ch_eqb c ch_quest then KQuest
  else if ch_eqb c ch_lcurly then KLcurly
  else if ch_eqb c ch_dot then KDot
  else if ch_eqb c ch_caret then KCaret
  else if ch_eqb c ch_dollar then KDollar
  else KPlain.

Definition plain_char (c : char) : bool :=
  match meta_of c with
  | KPlain => true
  | _ => false
  end.

(** An ASCII letter or digit: what follows a backslash in the escapes with a
    meaning of their own ([\d], [\b], [\1], [\n], ...). *)
Definition ascii_alnum (c : char) : bool :=
  ((48 <=? c) && (c <=? 57) || (65 <=? c) && (c <=? 90) || (97 <=? c) && (c <=? 122))%N.

(** ** Parser state *)

(** One alternation under construction: the alternatives that are finished
    and the items of the current one, latest first. *)
Record frame : Type := mkFrame {
  f_alts : list regex;
  f_seq : list regex
}.

Definition empty_frame : frame := mkFrame [] [].

Definition seq_of_rev (items : list regex) : regex :=
  fold_left (fun acc r => RCat r acc) items REmpty.

Definition frame_regex (f : frame) : regex :=
  fold_left (fun acc a => RAlt a acc) (f_alts f) (seq_of_rev (f_seq f)).

Definition push_item (r : regex) (f : frame) : frame :=
  mkFrame (f_alts f) (r :: f_seq f).

Definition next_alt (f : frame) : frame :=
  mkFrame (seq_of_rev (f_seq f) :: f_alts f) [].

Inductive pmode : Type :=
| MNormal
| MGroupOpen
| MGroupExt
| MEscape
| MSetStart
| MSet (negate : bool) (items : list set_item)
| MSetEsc (negate : bool) (items : list set_item)
| MSetGot (negate : bool) (items : list set_item) (c : char)
| MSetDash (negate : bool) (items : list set_item) (lo : char)
| MSetDashEsc (negate : bool) (items : list set_item) (lo : char).

Record pstate : Type := mkPstate {
  p_stack : list (option nat * frame);
  p_cur : frame;
  p_groups : nat;
  p_mode : pmode
}.

Definition init_pstate : pstate := mkPstate [] empty_frame 0 MNormal.

Definition with_mode (m : pmode) (st : pstate) : pstate :=
  mkPstate (p_stack st) (p_cur st) (p_groups st) m.

Definition emit (r : regex) (st : pstate) : pstate :=
  mkPstate (p_stack st) (push_item r (p_cur st)) (p_groups st) MNormal.

(** ** Steps *)

Inductive quant : Type := QStar | QPlus | QOpt.

Definition apply_quant (q : quant) (r : regex) : regex :=
  match q with
  | QStar => RStar r
  | QPlus => RPlus r
  | QOpt => ROpt r
  end.

(** A quantifier applies to the item before it. *)
Definition repeat_last (q : quant) (st : pstate) : res pstate :=
  match f_seq (p_cur st) with
  | [] => Err (ReError NothingToRepeat)
  | item :: items =>
      match item with
      | RBol | REol => Err (ReError NothingToRepeat)
      | RStar _ | RPlus _ | ROpt _ =>
          match q with
          | QStar => Err (ReError MultipleRepeat)
          | QPlus | QOpt => Err (Unsupported ULazyOrPossessive)
          end
      | _ =>
          Ok (mkPstate (p_stack st)
                (mkFrame (f_alts (p_cur st)) (apply_quant q item :: items))
                (p_groups st) MNormal)
      end
  end.

(** A capturing group takes the next number when it opens. *)
Definition open_group (st : pstate) : pstate :=
  mkPstate ((Some (S (p_groups st)), p_cur st) :: p_stack st) empty_frame
    (S (p_groups st)) MNormal.

(** A non-capturing group, [(?:...)], takes no number. *)
Definition open_plain_group (st : pstate) : pstate :=
  mkPstate ((None, p_cur st) :: p_stack st) empty_frame (p_groups st) MNormal.

Definition close_group (st : pstate) : res pstate :=
  match p_stack st with
  | [] => Err (ReError UnbalancedParenthesis)
  | (Some n, parent) :: stack =>
      Ok (mkPstate stack (push_item (RGroup n (frame_regex (p_cur st))) parent)
            (p_groups st) MNormal)
  | (None, parent) :: stack =>
      Ok (mkPstate stack (push_item (frame_regex (p_cur st)) parent)
            (p_groups st) MNormal)
  end.

Definition step_normal (c : char) (st : pstate) : res pstate :=
  match meta_of c with
  | KBslash => Ok (with_mode MEscape st)
  | KLbrack => Ok (with_mode MSetStart st)
  | KLparen => Ok (with_mode MGroupOpen st)
  | KRparen => close_group st
  | KBar =>
      Ok (mkPstate (p_stack st) (next_alt (p_cur st)) (p_groups st) MNormal)
  | KStar => repeat_last QStar st
  | KPlus => repeat_last QPlus st
  | KQuest => repeat_last QOpt st
  | KLcurly => Err (Unsupported UCountedRepeat)
  | KDot => Ok (emit RAny st)
  | KCaret => Ok (emit RBol st)
  | KDollar => Ok (emit REol st)
  | KPlain => Ok (emit (RChar c) st)
  end.

Definition finish_set (negate : bool) (items : list set_item) (st : pstate) : pstate :=
  emit (RSet negate (rev items)) st.

(** The first character of a set item, [items] being the items read so far. *)
Definition step_set (negate : bool) (items : list set_item) (c : char)
    (st : pstate) : res pstate :=
  if ch_eqb c ch_rbrack && negb (match items with [] => true | _ => false end)
  then Ok (finish_set negate items st)
  else if ch_eqb c ch_bslash then Ok (with_mode (MSetEsc negate items) st)
  else Ok (with_mode (MSetGot negate items c) st).

Definition step_range (negate : bool) (items : list set_item) (lo hi : char)
    (st : pstate) : res pstate :=
  if (hi <? lo)%N then Err (ReError BadCharacterRange)
  else Ok (with_mode (MSet negate (SRange lo hi :: items)) st).

Definition step (c : char) (st : pstate) : res pstate :=
  match p_mode st with
  | MNormal => step_normal c st
  | MGroupOpen =>
      if ch_eqb c ch_quest then Ok (with_mode MGroupExt st)
      else step_normal c (open_group st)
  | MGroupExt =>
      if ch_eqb c ch_colon then Ok (open_plain_group st)
      else Err (Unsupported UGroupExtension)
  | MEscape =>
      if ascii_alnum c then Err (Unsupported UEscape)
      else Ok (emit (RChar c) st)
  | MSetStart =>
      if ch_eqb c ch_caret then Ok (with_mode (MSet true []) st)
      else step_set false [] c st
  | MSet negate items => step_set negate items c st
  | MSetEsc negate items =>
      if ascii_alnum c then Err (Unsupported UEscape)
      else Ok (with_mode (MSetGot negate items c) st)
  | MSetGot negate items lo =>
      if ch_eqb c ch_dash then Ok (with_mode (MSetDash negate items lo) st)
      else step_set negate (SChar lo :: items) c st
  | MSetDash negate items lo =>
      if ch_eqb c ch_rbrack
      then Ok (finish_set negate (SChar ch_dash :: SChar lo :: items) st)
      else if ch_eqb c ch_bslash then Ok (with_mode (MSetDashEsc negate items lo) st)
      else step_range negate items lo c st
  | MSetDashEsc negate items lo =>
      if ascii_alnum c then Err (Unsupported UEscape)
      else step_range negate items lo c st
  end.

(** Whether [c], read in mode [m], is the first half of an escape: the
    tokenizer reads a backslash together with the character after it. *)
Definition opens_escape (m : pmode) (c : char) : bool :=
  match m with
  | MEscape | MSetEsc _ _ | MSetDashEsc _ _ _ => false
  | _ => ch_eqb c ch_bslash
  end.

(** The tokenizer looks one token ahead: taking a token whose successor is a
    backslash at the end of the pattern raises at once.  A closing
    parenthesis with no group open is never taken. *)
Definition lookahead_fails (st : pstate) (c : char) (rest : str) : bool :=
  match rest with
  | [b] =>
      ch_eqb b ch_bslash
      && negb (opens_escape (p_mode st) c)
      && negb (ch_eqb c ch_rparen
               && match p_mode st, p_stack st with
                  | MNormal, [] => true
                  | _, _ => false
                  end)
  | _ => false
  end.

Fixpoint parse_chars (st : pstate) (pat : str) : res pstate :=
  match pat with
  | [] => Ok st
  | c :: rest =>
      if lookahead_fails st c rest then Err (ReError BadEscapeEnd)
      else st' <- step c st ;; parse_chars st' rest
  end.

Definition finish (st : pstate) : res compiled :=
  match p_mode st with
  | MEscape => Err (ReError BadEscapeEnd)
  | MSetStart | MSet _ _ | MSetEsc _ _ | MSetGot _ _ _
  | MSetDash _ _ _ | MSetDashEsc _ _ _ => Err (ReError UnterminatedSet)
  | MGroupOpen => Err (ReError MissingParenthesis)
  | MGroupExt => Err (ReError UnexpectedEnd)
  | MNormal =>
      match p_stack st with
      | [] => Ok (mkCompiled (frame_regex (p_cur st)) (p_groups st))
      | _ :: _ => Err (ReError MissingParenthesis)
      end
  end.

(** [re.compile(pattern)] *)
Definition re_compile (pat : str) : res compiled :=
  st <- parse_chars init_pstate pat ;; finish st.

(** ** Patterns without metacharacters *)

Definition plain (s : str) : Prop := Forall (fun c => plain_char c = true) s.

(** The tree of a literal text. *)
Definition lit (s : str) : regex :=
  fold_right (fun c acc => RCat (RChar c) acc) REmpty s.

(** The tree of [a1|a2|...|an]. *)
Fixpoint alt_of (a : regex) (rest : list regex) : regex :=
  match rest with
  | [] => a
  | b :: rest' => RAlt a (alt_of b rest')
  end.

(** The state after reading the literal text [s]. *)
Definition push_lits (s : str) (st : pstate) : pstate :=
  mkPstate (p_stack st)
    (mkFrame (f_alts (p_cur st)) (rev (map RChar s) ++ f_seq (p_cur st)))
    (p_groups st) MNormal.

(** The frame after reading [f|g1|...|gn] in a frame whose finished
    alternatives are [alts]. *)
Fixpoint alts_frame (alts : list regex) (f : str) (fs : list str) : frame :=
  match fs with
  | [] => mkFrame alts (rev (map RChar f))
  | g :: fs' => alts_frame (lit f :: alts) g fs'
  end.

(** The text does not begin with a backslash. *)
Definition no_bslash_head (s : str) : Prop := hd_error s <> Some ch_bslash.

(** A character that stands for itself inside a set, after the first. *)
Definition set_plain (c : char) : bool :=
  negb (ch_eqb c ch_bslash || ch_eqb c ch_rbrack || ch_eqb c ch_dash).

(** ** Lemmas: one step *)

Lemma plain_char_meta (c : char) : plain_char c = true -> meta_of c = KPlain.
Proof. unfold plain_char. destruct (meta_of c); congruence. Qed.

Lemma plain_nil : plain [].
Proof. constructor. Qed.

Lemma plain_cons_inv (c : char) (s : str) :
  plain (c :: s) -> plain_char c = true /\ plain s.
Proof. intros H. inv H. auto. Qed.

Lemma plain_app (s t : str) : plain s -> plain t -> plain (s ++ t).
Proof. intros Hs Ht. apply Forall_app. now split. Qed.

Lemma parse_chars_cons (st : pstate) (c : char) (rest : str) :
  parse_chars st (c :: rest) =
  if lookahead_fails st c rest then Err (ReError BadEscapeEnd)
  else st' <- step c st ;; parse_chars st' rest.
Proof. reflexivity. Qed.

Lemma parse_chars_step (st st' : pstate) (c : char) (rest : str) :
  lookahead_fails st c rest = false -> step c st = Ok st' ->
  parse_chars st (c :: rest) = parse_chars st' rest.
Proof. intros H1 H2. rewrite parse_chars_cons, H1, H2. reflexivity. Qed.

Lemma lookahead_ok (st : pstate) (c : char) (rest : str) :
  rest <> [ch_bslash] -> lookahead_fails st c rest = false.
Proof.
  intros H. unfold lookahead_fails.
  destruct rest as [|b [|b' rest]]; try reflexivity.
  ch_cases b ch_bslash; [congruence | reflexivity].
Qed.

Lemma no_bslash_head_lone (s : str) : no_bslash_head s -> s <> [ch_bslash].
Proof. intros H ->. now apply H. Qed.

Lemma no_bslash_head_cons (c : char) (s : str) :
  c <> ch_bslash -> no_bslash_head (c :: s).
Proof. intros H E. inv E. congruence. Qed.

Lemma no_bslash_head_plain (s rest : str) :
  plain s -> no_bslash_head rest -> no_bslash_head (s ++ rest).
Proof.
  intros Hs Hr. destruct Hs as [|c s Hc Hs]; [exact Hr|].
  apply no_bslash_head_cons. intros ->. discriminate.
Qed.

Lemma no_bslash_head_join (f : str) (fs : list str) (rest : str) :
  plain f -> Forall plain fs -> no_bslash_head rest ->
  no_bslash_head (str_join [ch_bar] (f :: fs) ++ rest).
Proof.
  intros Hf Hfs Hr. destruct Hfs as [|h fs Hh Hfs].
  - now apply no_bslash_head_plain.
  - rewrite str_join_cons, <- app_assoc. apply no_bslash_head_plain; [assumption|].
    apply no_bslash_head_cons. discriminate.
Qed.

Lemma hd_join_not_quest (f : str) (fs : list str) (rest : str) :
  plain f -> Forall plain fs -> hd_error rest <> Some ch_quest ->
  hd_error (str_join [ch_bar] (f :: fs) ++ rest) <> Some ch_quest.
Proof.
  intros Hf Hfs Hr. destruct Hf as [|c f Hc Hf].
  - destruct Hfs; [exact Hr | rewrite str_join_cons; simpl; discriminate].
  - destruct Hfs; [|rewrite str_join_cons]; simpl; intros E; inv E; discriminate.
Qed.

#[export] Hint Resolve plain_nil no_bslash_head_lone no_bslash_head_cons
  no_bslash_head_plain no_bslash_head_join lookahead_ok : pre.

(** Takes one step of the parser on a character that is known. *)
Ltac pstep := erewrite parse_chars_step; [ | reflexivity | reflexivity ].

(** An opening parenthesis that no question mark follows opens a capturing
    group. *)
Lemma parse_chars_group_open (st : pstate) (c : char) (rest : str) :
  p_mode st = MNormal -> c <> ch_quest -> c <> ch_bslash ->
  parse_chars st (ch_lparen :: c :: rest) = parse_chars (open_group st) (c :: rest).
Proof.
  intros Hm Hq Hb. destruct st as [stk cur g m]. simpl in Hm. subst m.
  erewrite (parse_chars_step _ _ ch_lparen);
    [ | apply lookahead_ok; congruence | reflexivity ].
  rewrite !parse_chars_cons. unfold step. cbn [p_mode with_mode open_group].
  ch_cases c ch_quest; [congruence|].
  destruct rest as [|b [|b' rest]]; reflexivity.
Qed.

Lemma step_bar (stk : list (option nat * frame)) (alts sq : list regex) (g : nat) :
  step ch_bar (mkPstate stk (mkFrame alts sq) g MNormal) =
  Ok (mkPstate stk (mkFrame (seq_of_rev sq :: alts) []) g MNormal).
Proof. reflexivity. Qed.

(** The first character of a set is taken as it is, a bracket included. *)
Lemma step_set_first (c : char) (negate : bool) (st : pstate) :
  c <> ch_bslash ->
  step_set negate [] c st = Ok (with_mode (MSetGot negate [] c) st).
Proof.
  intros Hc. unfold step_set. rewrite andb_false_r.
  ch_cases c ch_bslash; [congruence | reflexivity].
Qed.

(** ** Lemmas: the characters of a set *)

Lemma set_plain_inv (c : char) :
  set_plain c = true -> c <> ch_bslash /\ c <> ch_rbrack /\ c <> ch_dash.
Proof.
  unfold set_plain. rewrite negb_true_iff, !orb_false_iff, !ch_eqb_neq. tauto.
Qed.

(** The text of a set after its first character never is a lone backslash. *)
Lemma set_rest_not_bslash (seps tail : str) :
  forallb set_plain seps = true -> seps ++ ch_rbrack :: tail <> [ch_bslash].
Proof.
  destruct seps as [|d seps]; simpl; [discriminate|].
  rewrite andb_true_iff. intros [Hd _] E. inv E.
  apply set_plain_inv in Hd. tauto.
Qed.

Lemma step_set_got (negate : bool) (items : list set_item) (c d : char) (st : pstate) :
  set_plain d = true ->
  step d (with_mode (MSetGot negate items c) st) =
  Ok (with_mode (MSetGot negate (SChar c :: items) d) st).
Proof.
  intros H. apply set_plain_inv in H. destruct H as (Hb & Hr & Hd).
  unfold step. cbn [p_mode with_mode].
  ch_cases d ch_dash; [congruence|]. unfold step_set.
  ch_cases d ch_rbrack; [congruence|]. cbn [andb].
  ch_cases d ch_bslash; [congruence | reflexivity].
Qed.

Lemma step_set_close (negate : bool) (items : list set_item) (c : char) (st : pstate) :
  step ch_rbrack (with_mode (MSetGot negate items c) st) =
  Ok (finish_set negate (SChar c :: items) st).
Proof. reflexivity. Qed.

(** The characters of a set after the first, and the closing bracket. *)
Lemma parse_set_chars (negate : bool) (tail : str) : forall seps items c st,
  forallb set_plain seps = true -> tail <> [ch_bslash] ->
  parse_chars (with_mode (MSetGot negate items c) st) (seps ++ ch_rbrack :: tail) =
  parse_chars (finish_set negate (rev (map SChar seps) ++ SChar c :: items) st) tail.
Proof.
  induction seps as [|d seps IH]; intros items c st Hs Ht.
  - cbn [app map rev]. rewrite (parse_chars_step _ _ _ _ (lookahead_ok _ _ _ Ht)
                                  (step_set_close negate items c st)). reflexivity.
  - cbn [forallb] in Hs. apply andb_true_iff in Hs. destruct Hs as [Hd Hs].
    cbn [app]. rewrite (parse_chars_step _ _ _ _
                          (lookahead_ok _ _ _ (set_rest_not_bslash seps tail Hs))
                          (step_set_got negate items c d st Hd)).
    rewrite IH by assumption. cbn [map rev]. now rewrite <- app_assoc.
Qed.

(** ** Lemmas: literal text and alternations of literal texts *)

Lemma fold_left_cat (items : list regex) (acc : regex) :
  fold_left (fun a r => RCat r a) items acc = fold_right RCat acc (rev items).
Proof.
  revert acc. induction items as [|r items IH]; intros acc; simpl; [reflexivity|].
  rewrite IH, fold_right_app. reflexivity.
Qed.

Lemma seq_of_rev_lit (s : str) : seq_of_rev (rev (map RChar s)) = lit s.
Proof.
  unfold seq_of_rev. rewrite fold_left_cat, rev_involutive. unfold lit.
  induction s as [|c s IH]; simpl; [reflexivity | now rewrite IH].
Qed.

Lemma frame_regex_alts (alts : list regex) (f : str) (fs : list str) :
  frame_regex (alts_frame alts f fs) =
  fold_left (fun acc a => RAlt a acc) alts (alt_of (lit f) (map lit fs)).
Proof.
  revert alts f. induction fs as [|g fs IH]; intros alts f; simpl.
  - unfold frame_regex. simpl. now rewrite seq_of_rev_lit.
  - rewrite IH. reflexivity.
Qed.

(** Text without metacharacters is read as itself. *)
Lemma parse_plain (s rest : str) (st : pstate) :
  p_mode st = MNormal -> plain s -> rest <> [ch_bslash] ->
  parse_chars st (s ++ rest) = parse_chars (push_lits s st) rest.
Proof.
  intros Hm Hs Hr. revert st Hm. induction Hs as [|c s Hc Hs IH]; intros st Hm.
  - destruct st as [stk [alts sq] g m]. simpl in Hm. subst m. reflexivity.
  - simpl app. rewrite parse_chars_cons, lookahead_ok.
    + unfold step. rewrite Hm. unfold step_normal. rewrite (plain_char_meta c Hc).
      simpl bind. rewrite IH by reflexivity. f_equal.
      unfold push_lits, emit, push_item. simpl. now rewrite <- app_assoc.
    + destruct Hs as [|d s Hd Hs]; [exact Hr|].
      simpl. intros E. inv E. discriminate.
Qed.

(** Plain alternatives separated by bars are read as an alternation. *)
Lemma parse_alts (fs : list str) (f rest : str) (stk : list (option nat * frame))
    (alts : list regex) (g : nat) :
  plain f -> Forall plain fs -> no_bslash_head rest ->
  parse_chars (mkPstate stk (mkFrame alts []) g MNormal)
    (str_join [ch_bar] (f :: fs) ++ rest) =
  parse_chars (mkPstate stk (alts_frame alts f fs) g MNormal) rest.
Proof.
  intros Hf Hfs Hr. revert f alts Hf.
  induction Hfs as [|h fs Hh Hfs IH]; intros f alts Hf.
  - simpl str_join. rewrite parse_plain by auto with pre.
    unfold push_lits.
    cbn [p_stack p_cur f_alts f_seq p_groups alts_frame]. now rewrite app_nil_r.
  - rewrite str_join_cons, <- !app_assoc, parse_plain; auto; [|discriminate].
    unfold push_lits. cbn [p_stack p_cur f_alts f_seq p_groups app].
    rewrite app_nil_r, parse_chars_cons, lookahead_ok, step_bar.
    + cbn [bind alts_frame]. rewrite seq_of_rev_lit. now apply IH.
    + auto with pre.
Qed.

(** Literal patterns: a pattern without metacharacters compiles, with no
    group, to the tree that matches its characters one after the other. *)
Lemma re_compile_plain (s : str) :
  plain s -> re_compile s = Ok (mkCompiled (lit s) 0).
Proof.
  intros Hs. unfold re_compile. rewrite <- (app_nil_r s).
  rewrite parse_plain by (auto; discriminate).
  cbn [parse_chars bind finish push_lits p_mode p_stack init_pstate p_cur
       p_groups f_alts f_seq empty_frame].
  unfold frame_regex. cbn [f_alts f_seq fold_left].
  now rewrite app_nil_r, seq_of_rev_lit, app_nil_r.
Qed.

(** Groups: the parentheses of [(?:...)] take no number, so the group of
    [b] is group 1; a pattern that ends after the question mark, and one
    whose group is not closed, raise [re.error]; an extension other than the
    colon is outside the fragment. *)
Example re_compile_non_capturing :
  re_compile $"(?:a)(b)" =
  Ok (mkCompiled
        (RCat (RCat (RChar (chr "a")) REmpty)
           (RCat (RGroup 1 (RCat (RChar (chr "b")) REmpty)) REmpty)) 1)
  /\ re_compile $"(a)(b)" =
     Ok (mkCompiled
           (RCat (RGroup 1 (RCat (RChar (chr "a")) REmpty))
              (RCat (RGroup 2 (RCat (RChar (chr "b")) REmpty)) REmpty)) 2)
  /\ re_compile $"(?" = Err (ReError UnexpectedEnd)
  /\ re_compile $"(?:a" = Err (ReError MissingParenthesis)
  /\ re_compile $"(?=a)" = Err (Unsupported UGroupExtension).
Proof. repeat split; reflexivity. Qed.

Example re_compile_plain_ssn :
  re_compile $"ssn" =
  Ok (mkCompiled (RCat (RChar (chr "s")) (RCat (RChar (chr "s")) (RCat (RChar (chr "n")) REmpty))) 0).
Proof.
  exact (re_compile_plain $"ssn"
           ltac:(repeat constructor)).
Qed.
