(* ===== verification/Matcher.v ===== *)
(** * Matcher: matching, searching and [re.sub]

    [rmatch] is the backtracking matcher of [re] in continuation-passing
    style: alternatives are tried in order, repetitions are greedy and stop
    after an iteration that consumed nothing, and a failure of the
    continuation backtracks into the last choice.  [search] finds the
    leftmost match at or after a position, [sub_loop] is the loop of
    [re.sub] for a callable replacement, [re_sub] gives it its fuel. *)

From Stdlib Require Import Ascii String.
From Stdlib Require Import List NArith Arith Bool Lia.
From S2P Require Import Prelude PyStr Regex.
Import ListNotations.
Local Open Scope str_scope.
Local Open Scope res_scope.

(** ** Matcher state *)

(** Where the matcher stands: the index in the subject, the text from there
    on, and the groups captured so far (latest first). *)
Record mstate : Type := mkM {
  m_pos : nat;
  m_rest : str;
  m_caps : list (nat * str)
}.

Definition advance (st : mstate) (rest : str) : mstate :=
  mkM (S (m_pos st)) rest (m_caps st).

Definition set_cap (n : nat) (text : str) (st : mstate) : mstate :=
  mkM (m_pos st) (m_rest st) ((n, text) :: m_caps st).

Fixpoint get_cap (n : nat) (caps : list (nat * str)) : option str :=
  match caps with
  | [] => None
  | (k, text) :: caps' => if Nat.eqb k n then Some text else get_cap n caps'
  end.

Definition item_mem (c : char) (it : set_item) : bool :=
  match it with
  | SChar a => ch_eqb c a
  | SRange lo hi => ((lo <=? c) && (c <=? hi))%N
  end.

Definition set_mem (c : char) (negate : bool) (items : list set_item) : bool :=
  xorb negate (existsb (item_mem c) items).

(** One character that satisfies [ok]. *)
Definition match_one {R : Type} (ok : char -> bool) (st : mstate)
    (k : mstate -> option R) : option R :=
  match m_rest st with
  | [] => None
  | a :: rest => if ok a then k (advance st rest) else None
  end.

(** ** Repetition

    [body] is tried first and the loop goes on only when it consumed
    something; after a zero-width iteration the rest of the pattern follows
    at once.  When every way through [body] fails, the rest of the pattern
    is matched here. *)
Fixpoint star_loop {R : Type}
    (body : mstate -> (mstate -> option R) -> option R)
    (fuel : nat) (st : mstate) (k : mstate -> option R) : option R :=
  match fuel with
  | 0 => k st
  | S fuel' =>
      match body st (fun st' =>
                       if Nat.eqb (m_pos st') (m_pos st) then k st'
                       else star_loop body fuel' st' k) with
      | Some x => Some x
      | None => k st
      end
  end.

Definition star_fuel (st : mstate) : nat := S (length (m_rest st)).

(** ** The matcher *)

Fixpoint rmatch {R : Type} (r : regex) (st : mstate)
    (k : mstate -> option R) {struct r} : option R :=
  match r with
  | REmpty => k st
  | RChar c => match_one (fun a => ch_eqb a c) st k
  | RAny => match_one (fun a => negb (ch_eqb a ch_newline)) st k
  | RSet negate items => match_one (fun a => set_mem a negate items) st k
  | RBol => if Nat.eqb (m_pos st) 0 then k st else None
  | REol =>
      match m_rest st with
      | [] => k st
      | [a] => if ch_eqb a ch_newline then k st else None
      | _ :: _ :: _ => None
      end
  | RCat r1 r2 => rmatch r1 st (fun st' => rmatch r2 st' k)
  | RAlt r1 r2 =>
      match rmatch r1 st k with
      | Some x => Some x
      | None => rmatch r2 st k
      end
  | RStar r' => star_loop (rmatch r') (star_fuel st) st k
  | RPlus r' =>
      rmatch r' st (fun st' => star_loop (rmatch r') (star_fuel st') st' k)
  | ROpt r' =>
      match rmatch r' st k with
      | Some x => Some x
      | None => k st
      end
  | RGroup n r' =>
      rmatch r' st (fun st' =>
        k (set_cap n (firstn (m_pos st' - m_pos st) (m_rest st)) st'))
  end.

(** The end of the pattern: with [must_advance] an empty match is refused. *)
Definition accept (start : nat) (must_advance : bool) (st : mstate) : option mstate :=
  if must_advance && Nat.eqb (m_pos st) start then None else Some st.

(** A match of [r] that starts at index [pos], where the subject reads [rest]. *)
Definition match_at (r : regex) (pos : nat) (rest : str) (must_advance : bool)
    : option mstate :=
  rmatch r (mkM pos rest []) (accept pos must_advance).

(** ** Search: the leftmost match at or after [pos]

    The result is the text skipped before the match and the state at its
    end.  [must_advance] only constrains the attempt at [pos] itself. *)
Fixpoint search (r : regex) (pos : nat) (rest : str) (must_advance : bool)
    : option (str * mstate) :=
  match match_at r pos rest must_advance with
  | Some st => Some ([], st)
  | None =>
      match rest with
      | [] => None
      | c :: rest' =>
          match search r (S pos) rest' false with
          | Some (skipped, st) => Some (c :: skipped, st)
          | None => None
          end
      end
  end.

(** ** Match objects *)

Record match_obj : Type := mkMatch {
  mo_start : nat;
  mo_end : nat;
  mo_text : str;
  mo_caps : list (nat * str);
  mo_groups : nat
}.

(** [m.group(i)]: the whole match for 0, [None] for a group that took no
    part in the match, [IndexError] for a group the pattern does not have. *)
Definition group (m : match_obj) (i : nat) : res (option str) :=
  if Nat.eqb i 0 then Ok (Some (mo_text m))
  else if Nat.leb i (mo_groups m) then Ok (get_cap i (mo_caps m))
  else Err IndexError.

Definition mk_match (re : compiled) (start : nat) (from_start : str)
    (st : mstate) : match_obj :=
  mkMatch start (m_pos st) (firstn (m_pos st - start) from_start)
    (m_caps st) (c_groups re).

(** ** [re.sub] with a callable replacement

    Each round searches from the end of the previous match, copies the text
    skipped, appends what the callback returns for the match, and goes on
    with [must_advance] set when the match was empty.  The text after the
    last match is copied. *)
Fixpoint sub_loop (re : compiled) (repl : match_obj -> res str)
    (fuel : nat) (pos : nat) (rest : str) (must_advance : bool) : res str :=
  match fuel with
  | 0 => Err (Unsupported UFuel)
  | S fuel' =>
      match search (c_regex re) pos rest must_advance with
      | None => Ok rest
      | Some (skipped, st) =>
          let start := pos + length skipped in
          let m := mk_match re start (skipn (length skipped) rest) st in
          piece <- repl m ;;
          out <- sub_loop re repl fuel' (m_pos st) (m_rest st)
                   (Nat.eqb (m_pos st) start) ;;
          Ok (skipped ++ piece ++ out)
      end
  end.

Definition sub_fuel (s : str) : nat := 2 * length s + 2.

(** [pattern.sub(repl, string)] *)
Definition re_sub (re : compiled) (repl : match_obj -> res str) (s : str) : res str :=
  sub_loop re repl (sub_fuel s) 0 s false.

(** [re.sub(pattern, repl, string)] *)
Definition re_sub_str (pat : str) (repl : match_obj -> res str) (s : str) : res str :=
  re <- re_compile pat ;; re_sub re repl s.

(** ** Notions used by the lemmas *)

(** [st'] is [st] after some text was consumed. *)
Definition extends (st st' : mstate) : Prop :=
  exists consumed,
    m_rest st = consumed ++ m_rest st' /\ m_pos st' = m_pos st + length consumed.

Definition sub_measure (rest : str) (must_advance : bool) : nat :=
  2 * length rest + (if must_advance then 0 else 1).

Definition jump (st : mstate) (n : nat) : mstate :=
  mkM (m_pos st + n) (skipn n (m_rest st)) (m_caps st).

Fixpoint first_some {A B : Type} (g : A -> option B) (l : list A) : option B :=
  match l with
  | [] => None
  | a :: l' =>
      match g a with
      | Some b => Some b
      | None => first_some g l'
      end
  end.

(** ** Lemmas: what a match consumes *)

Lemma extends_refl st : extends st st.
Proof. exists []. simpl. split; [reflexivity | lia]. Qed.

Lemma extends_trans a b c : extends a b -> extends b c -> extends a c.
Proof.
  intros (x & Hx & Px) (y & Hy & Py). exists (x ++ y).
  rewrite Hx, Hy, <- app_assoc, length_app. split; [reflexivity | lia].
Qed.

Lemma extends_advance st a rest :
  m_rest st = a :: rest -> extends st (advance st rest).
Proof. intros H. exists [a]. simpl. rewrite H. split; [reflexivity | lia]. Qed.

Lemma extends_set_cap st st' n text :
  extends st st' -> extends st (set_cap n text st').
Proof. intros (x & Hx & Px). exists x. simpl. auto. Qed.

Lemma extends_length st st' :
  extends st st' -> length (m_rest st') + (m_pos st' - m_pos st) = length (m_rest st).
Proof. intros (x & Hx & Px). rewrite Hx, length_app. lia. Qed.

Lemma extends_same_pos st st' :
  extends st st' -> m_pos st' = m_pos st -> m_rest st' = m_rest st.
Proof.
  intros (x & Hx & Px) E. destruct x; [now rewrite Hx | simpl in Px; lia].
Qed.

Section Extends.
Context {R : Type}.

(** A matcher is [productive] when every result comes from its continuation,
    applied to an extension of the state it started from. *)
Definition productive (body : mstate -> (mstate -> option R) -> option R) : Prop :=
  forall st k x, body st k = Some x -> exists st', extends st st' /\ k st' = Some x.

Lemma match_one_productive ok : productive (match_one ok).
Proof.
  intros st k x H. unfold match_one in H.
  destruct (m_rest st) as [|a rest] eqn:E; [discriminate|].
  destruct (ok a); [|discriminate].
  eauto using extends_advance.
Qed.

Lemma star_loop_productive body fuel :
  productive body -> productive (star_loop body fuel).
Proof.
  intros Hb. induction fuel as [|fuel IH]; intros st k x H; simpl in H.
  - eauto using extends_refl.
  - destruct (body st _) as [y|] eqn:E.
    + inv H. apply Hb in E. destruct E as (st' & He & Hk).
      destruct (Nat.eqb (m_pos st') (m_pos st)); [eauto|].
      apply IH in Hk. destruct Hk as (st'' & He' & Hk). eauto using extends_trans.
    + eauto using extends_refl.
Qed.

Lemma rmatch_productive (r : regex) : productive (rmatch r).
Proof.
  induction r; intros st k x H; cbn [rmatch] in H.
  - eauto using extends_refl.
  - now apply match_one_productive in H.
  - now apply match_one_productive in H.
  - now apply match_one_productive in H.
  - destruct (Nat.eqb (m_pos st) 0); [eauto using extends_refl | discriminate].
  - destruct (m_rest st) as [|a [|b rest]]; try discriminate; [eauto using extends_refl|].
    destruct (ch_eqb a ch_newline); [eauto using extends_refl | discriminate].
  - apply IHr1 in H. destruct H as (st' & He & H).
    apply IHr2 in H. destruct H as (st'' & He' & H). eauto using extends_trans.
  - destruct (rmatch r1 st k) eqn:E; [inv H; eauto | eauto].
  - now apply star_loop_productive in H.
  - apply IHr in H. destruct H as (st' & He & H).
    apply star_loop_productive in H; [|assumption].
    destruct H as (st'' & He' & H). eauto using extends_trans.
  - destruct (rmatch r st k) eqn:E; [inv H; eauto | eauto using extends_refl].
  - apply IHr in H. destruct H as (st' & He & H). eauto using extends_set_cap.
Qed.
End Extends.

(** ** The fuel of the repetition loop is enough *)

Section Fuel.
Context {R : Type}.

(** A matcher is [local] when it calls its continuation only on extensions
    of the state it started from: two continuations that agree there give
    the same result. *)
Definition local (body : mstate -> (mstate -> option R) -> option R) : Prop :=
  forall st k1 k2,
    (forall st', extends st st' -> k1 st' = k2 st') -> body st k1 = body st k2.

Lemma match_one_local (ok : char -> bool) : local (match_one ok).
Proof.
  intros st k1 k2 H. unfold match_one.
  destruct (m_rest st) as [|a rest] eqn:E; [reflexivity|].
  destruct (ok a); [|reflexivity]. apply H. now apply (extends_advance st a).
Qed.

Lemma extends_shorter (st st' : mstate) :
  extends st st' -> m_pos st' <> m_pos st -> length (m_rest st') < length (m_rest st).
Proof. intros H Hp. pose proof (extends_length _ _ H). destruct H as (x & _ & Px). lia. Qed.

(** Any fuel above the length of the text left gives the same loop. *)
Lemma star_loop_fuel body : local body -> forall f1 f2 st (k1 k2 : mstate -> option R),
  length (m_rest st) < f1 -> length (m_rest st) < f2 ->
  (forall st', extends st st' -> k1 st' = k2 st') ->
  star_loop body f1 st k1 = star_loop body f2 st k2.
Proof.
  intros Hb. induction f1 as [|f1 IH]; intros f2 st k1 k2 H1 H2 Hk; [lia|].
  destruct f2 as [|f2]; [lia|]. cbn [star_loop].
  rewrite (Hk st (extends_refl st)).
  erewrite (Hb st); [reflexivity|].
  intros st' He. cbv beta.
  destruct (Nat.eqb_spec (m_pos st') (m_pos st)) as [E|E]; [now apply Hk|].
  pose proof (extends_shorter _ _ He E).
  apply IH; try lia. intros st'' He'. apply Hk. eauto using extends_trans.
Qed.

Lemma star_loop_local body (fuel : nat) : local body -> local (star_loop body fuel).
Proof.
  intros Hb. induction fuel as [|fuel IH]; intros st k1 k2 Hk; cbn [star_loop].
  - apply Hk, extends_refl.
  - rewrite (Hk st (extends_refl st)). erewrite (Hb st); [reflexivity|].
    intros st' He. cbv beta. destruct (Nat.eqb (m_pos st') (m_pos st)); [now apply Hk|].
    apply IH. intros st'' He'. apply Hk. eauto using extends_trans.
Qed.

Lemma rmatch_local (r : regex) : local (rmatch r).
Proof.
  induction r; intros st k1 k2 Hk; cbn [rmatch].
  - apply Hk, extends_refl.
  - now apply match_one_local.
  - now apply match_one_local.
  - now apply match_one_local.
  - destruct (Nat.eqb (m_pos st) 0); [apply Hk, extends_refl | reflexivity].
  - destruct (m_rest st) as [|a [|b rest]]; [apply Hk, extends_refl | | reflexivity].
    destruct (ch_eqb a ch_newline); [apply Hk, extends_refl | reflexivity].
  - apply IHr1. intros st' He. apply IHr2. intros st'' He'.
    apply Hk. eauto using extends_trans.
  - now rewrite (IHr1 st k1 k2 Hk), (IHr2 st k1 k2 Hk).
  - now apply star_loop_local.
  - apply IHr. intros st' He. apply star_loop_local; [assumption|].
    intros st'' He'. apply Hk. eauto using extends_trans.
  - now rewrite (IHr st k1 k2 Hk), (Hk st (extends_refl st)).
  - apply IHr. intros st' He. apply Hk. now apply extends_set_cap.
Qed.

(** The fuel of a repetition is enough: more fuel changes nothing. *)
Lemma star_fuel_enough (r : regex) (fuel : nat) (st : mstate) (k : mstate -> option R) :
  length (m_rest st) < fuel ->
  star_loop (rmatch r) fuel st k = rmatch (RStar r) st k.
Proof.
  intros H. cbn [rmatch]. apply star_loop_fuel; auto using rmatch_local.
Qed.

End Fuel.

Lemma match_at_extends r pos rest ma st :
  match_at r pos rest ma = Some st ->
  extends (mkM pos rest []) st /\ (ma = true -> m_pos st <> pos).
Proof.
  unfold match_at. intros H. apply rmatch_productive in H.
  destruct H as (st' & He & H). unfold accept in H.
  destruct ma; simpl in H.
  - destruct (Nat.eqb_spec (m_pos st') pos); [discriminate|]. inv H. auto.
  - inv H. split; [assumption | discriminate].
Qed.

(** What a successful search returns: the subject is the text skipped, the
    text matched and the text left. *)
Lemma search_spec r rest : forall pos ma skipped st,
  search r pos rest ma = Some (skipped, st) ->
  exists matched,
    rest = skipped ++ matched ++ m_rest st
    /\ m_pos st = pos + length skipped + length matched
    /\ (ma = true -> skipped = [] -> matched <> []).
Proof.
  induction rest as [|c rest IH]; intros pos ma skipped st H; simpl in H.
  - destruct (match_at r pos [] ma) eqn:E; [|discriminate]. inv H.
    apply match_at_extends in E. destruct E as ((x & Hx & Px) & Hm).
    simpl in Hx, Px. exists x. repeat split; [assumption | simpl; lia |].
    intros -> _ ->. simpl in Px. apply Hm; [reflexivity | lia].
  - destruct (match_at r pos (c :: rest) ma) eqn:E.
    + inv H. apply match_at_extends in E. destruct E as ((x & Hx & Px) & Hm).
      simpl in Hx, Px. exists x. repeat split; [assumption | simpl; lia |].
      intros -> _ ->. simpl in Px. apply Hm; [reflexivity | lia].
    + destruct (search r (S pos) rest false) as [[sk st']|] eqn:E'; [|discriminate].
      inv H. apply IH in E'. destruct E' as (x & Hx & Px & _).
      exists x. repeat split; [simpl; now f_equal | simpl; lia | discriminate].
Qed.

(** The loop of [re.sub] never runs out of fuel, and raises only what the
    callback raises on the match objects of the pattern. *)
Lemma sub_loop_total re repl : 
  (forall m, mo_groups m = c_groups re -> exists s, repl m = Ok s) ->
  forall fuel pos rest ma,
  sub_measure rest ma < fuel ->
  exists out, sub_loop re repl fuel pos rest ma = Ok out.
Proof.
  intros Hrepl. induction fuel as [|fuel IH]; intros pos rest ma Hf; [lia|].
  simpl. destruct (search (c_regex re) pos rest ma) as [[sk st]|] eqn:E; [|eauto].
  destruct (Hrepl (mk_match re (pos + length sk) (skipn (length sk) rest) st) eq_refl)
    as (piece & ->).
  simpl. apply search_spec in E. destruct E as (x & Hx & Px & Hm).
  destruct (IH (m_pos st) (m_rest st) (Nat.eqb (m_pos st) (pos + length sk))) as (out & ->);
    [|simpl; eauto].
  unfold sub_measure in *. rewrite Hx, !length_app in Hf.
  destruct (Nat.eqb_spec (m_pos st) (pos + length sk)) as [Ep|Ep].
  - assert (length x = 0) by lia. destruct ma; [|lia].
    destruct sk; [|simpl in Hf; lia]. destruct x; [now destruct Hm | discriminate].
  - assert (length x <> 0) by lia. lia.
Qed.

Lemma sub_fuel_enough (s : str) : sub_measure s false < sub_fuel s.
Proof. unfold sub_measure, sub_fuel. lia. Qed.

(** C17 (termination of [re.sub]).  For every compiled pattern, every text
    and every callback that returns a string, [re_sub] returns a string:
    the loop finds each next match after the previous one, an empty match
    is followed by a step of one character, and the fuel [sub_fuel], twice
    the length of the text plus two, is never used up. *)
Theorem re_sub_total (re : compiled) (repl : match_obj -> res str) (s : str) :
  (forall m, exists out, repl m = Ok out) -> exists out, re_sub re repl s = Ok out.
Proof.
  intros H. apply sub_loop_total; [auto | apply sub_fuel_enough].
Qed.

Lemma re_sub_total_witness :
  exists out,
    re_sub (mkCompiled (RStar (RChar (chr "a"))) 0) (fun _ => Ok $"-") $"baac" = Ok out.
Proof.
  exact (re_sub_total (mkCompiled (RStar (RChar (chr "a"))) 0) (fun _ => Ok $"-") $"baac"
           (fun _ => ex_intro _ $"-" eq_refl)).
Defined.

(** ** The loop of [re.sub], one character at a time *)

Lemma sub_loop_hit re repl fuel pos rest ma st :
  match_at (c_regex re) pos rest ma = Some st ->
  sub_loop re repl (S fuel) pos rest ma =
  (piece <- repl (mk_match re pos rest st) ;;
   out <- sub_loop re repl fuel (m_pos st) (m_rest st) (Nat.eqb (m_pos st) pos) ;;
   Ok (piece ++ out)).
Proof.
  intros H. simpl. destruct rest; simpl; rewrite H; simpl; now rewrite Nat.add_0_r.
Qed.

Lemma sub_loop_miss re repl fuel pos c rest ma :
  match_at (c_regex re) pos (c :: rest) ma = None ->
  sub_loop re repl (S fuel) pos (c :: rest) ma =
  (out <- sub_loop re repl (S fuel) (S pos) rest false ;; Ok (c :: out)).
Proof.
  intros H. simpl. rewrite H.
  destruct (search (c_regex re) (S pos) rest false) as [[sk st]|]; [|reflexivity].
  simpl. rewrite Nat.add_succ_r.
  destruct (repl _); [|reflexivity]. simpl.
  destruct (sub_loop re repl fuel _ _ _); reflexivity.
Qed.

Lemma sub_loop_end re repl fuel pos ma :
  match_at (c_regex re) pos [] ma = None ->
  sub_loop re repl (S fuel) pos [] ma = Ok [].
Proof. intros H. simpl. now rewrite H. Qed.

(** ** Literal texts, alternations of literal texts, negated sets *)

Lemma rmatch_cat {R} r1 r2 st (k : mstate -> option R) :
  rmatch (RCat r1 r2) st k = rmatch r1 st (fun st' => rmatch r2 st' k).
Proof. reflexivity. Qed.

Lemma rmatch_group {R} n r st (k : mstate -> option R) :
  rmatch (RGroup n r) st k =
  rmatch r st (fun st' => k (set_cap n (firstn (m_pos st' - m_pos st) (m_rest st)) st')).
Proof. reflexivity. Qed.

Lemma rmatch_char {R} c st (k : mstate -> option R) :
  rmatch (RChar c) st k =
  match m_rest st with
  | [] => None
  | a :: rest => if ch_eqb a c then k (advance st rest) else None
  end.
Proof. reflexivity. Qed.

Lemma jump_advance st a rest n :
  m_rest st = a :: rest -> jump (advance st rest) n = jump st (S n).
Proof.
  intros H. unfold jump, advance. simpl. rewrite H. simpl. f_equal. lia.
Qed.

Lemma rmatch_lit {R} (s : str) (st : mstate) (k : mstate -> option R) :
  rmatch (lit s) st k =
  if starts_with s (m_rest st) then k (jump st (length s)) else None.
Proof.
  revert st. induction s as [|c s IH]; intros st; simpl.
  - unfold jump. simpl. rewrite Nat.add_0_r. now destruct st.
  - unfold match_one. destruct (m_rest st) as [|a rest] eqn:E; [reflexivity|].
    rewrite (ch_eqb_sym c a). destruct (ch_eqb a c); [|reflexivity].
    simpl. rewrite IH. simpl. now rewrite (jump_advance st a rest).
Qed.

Lemma rmatch_alt_lits {R} (fs : list str) (f : str) (st : mstate) (k : mstate -> option R) :
  rmatch (alt_of (lit f) (map lit fs)) st k =
  first_some (fun g => if starts_with g (m_rest st) then k (jump st (length g)) else None)
    (f :: fs).
Proof.
  revert f. induction fs as [|h fs IH]; intros f.
  - simpl. rewrite rmatch_lit. now destruct (starts_with f (m_rest st)); [destruct (k _)|].
  - simpl map. simpl alt_of. cbn [rmatch]. rewrite rmatch_lit, IH. reflexivity.
Qed.

Lemma star_loop_S {R} body fuel st (k : mstate -> option R) :
  star_loop body (S fuel) st k =
  match body st (fun st' => if Nat.eqb (m_pos st') (m_pos st) then k st'
                            else star_loop body fuel st' k) with
  | Some x => Some x
  | None => k st
  end.
Proof. reflexivity. Qed.

Lemma set_mem_chars (a : char) (seps : str) :
  set_mem a true (map SChar seps) = negb (ch_mem a seps).
Proof.
  unfold set_mem, ch_mem. cbn [xorb].
  replace (existsb (item_mem a) (map SChar seps)) with (existsb (ch_eqb a) seps);
    [now destruct (existsb _ seps)|].
  induction seps as [|c seps IH]; [reflexivity|]. cbn [map existsb item_mem]. now rewrite IH.
Qed.

Lemma rmatch_not_set {R} (seps : str) (st : mstate) (k : mstate -> option R) :
  rmatch (RSet true (map SChar seps)) st k =
  match m_rest st with
  | [] => None
  | a :: rest => if ch_mem a seps then None else k (advance st rest)
  end.
Proof.
  cbn [rmatch]. unfold match_one. destruct (m_rest st) as [|a rest]; [reflexivity|].
  rewrite set_mem_chars. now destruct (ch_mem a seps).
Qed.

(** A greedy repetition of "any character but those of [seps]" runs to the
    next of them when what follows accepts there. *)
Lemma star_not_set {R} (seps : str) (k : mstate -> option R) (x : R) (fuel : nat) :
  forall rest pos caps,
  length rest < fuel ->
  k (mkM (pos + length (take_until_any seps rest)) (drop_until_any seps rest) caps) = Some x ->
  star_loop (rmatch (RSet true (map SChar seps))) fuel (mkM pos rest caps) k = Some x.
Proof.
  induction fuel as [|fuel IH]; intros rest pos caps Hf Hk; [lia|].
  rewrite star_loop_S, rmatch_not_set. unfold advance. cbn [m_rest m_pos m_caps].
  destruct rest as [|a rest]; cbn [take_until_any drop_until_any length] in *.
  - now rewrite Nat.add_0_r in Hk.
  - destruct (ch_mem a seps).
    + now rewrite Nat.add_0_r in Hk.
    + destruct (Nat.eqb_spec (S pos) pos); [lia|].
      rewrite (IH rest (S pos) caps); [reflexivity | simpl in Hf; lia |].
      cbn [length] in Hk. now rewrite Nat.add_succ_r in Hk.
Qed.
