(* ===== verification/Semantics.v ===== *)
(** * Semantics: what a pattern matches, soundness and completeness of the matcher

    [matches r pos s rest] says that the pattern [r] matches the text [s]
    when [s] starts at index [pos] of the subject and is followed by
    [rest]: the index and the text that follows are what the anchors look
    at.  The relation says nothing of the order in which a backtracking
    matcher finds its matches (the file [Results] gives that order); it is
    the specification of the matcher of [Matcher].  [run r st st'] is the matcher itself as a relation on its
    states.

    Soundness: [rmatch], in continuation-passing style, calls its
    continuation only on states that [run] reaches, and what [run] goes
    through is a match.  So whatever [match_at] and [search] return is a
    match of the pattern.

    Completeness: when the pattern matches a text and the continuation
    accepts every state at the end of it, [rmatch] succeeds; the fuel of
    the repetition loop is enough for that.  So [match_at] fails exactly
    where the pattern has no match, and [search] returns the leftmost
    position at which the pattern has one.

    Captures are write-only: states that stand at the same place
    ([same_place], an equivalence) give the same answer ([same_answer]),
    which the [Proper] instances of the matcher state. *)

From Stdlib Require Import Ascii String.
From Stdlib Require Import List NArith Arith Bool Lia.
From Stdlib Require Import Relations Morphisms RelationClasses.
From S2P Require Import Prelude PyStr Regex Matcher.
Import ListNotations.
Local Open Scope str_scope.
Local Open Scope signature_scope.

(** ** The relation *)

Inductive matches : regex -> nat -> str -> str -> Prop :=
| MEmpty pos rest : matches REmpty pos [] rest
| MChar c pos rest : matches (RChar c) pos [c] rest
| MAny a pos rest : a <> ch_newline -> matches RAny pos [a] rest
| MSetItem negate items a pos rest :
    set_mem a negate items = true -> matches (RSet negate items) pos [a] rest
| MBol rest : matches RBol 0 [] rest
| MEolEnd pos : matches REol pos [] []
| MEolNewline pos : matches REol pos [] [ch_newline]
| MCat r1 r2 pos s1 s2 rest :
    matches r1 pos s1 (s2 ++ rest) ->
    matches r2 (pos + length s1) s2 rest ->
    matches (RCat r1 r2) pos (s1 ++ s2) rest
| MAltLeft r1 r2 pos s rest :
    matches r1 pos s rest -> matches (RAlt r1 r2) pos s rest
| MAltRight r1 r2 pos s rest :
    matches r2 pos s rest -> matches (RAlt r1 r2) pos s rest
| MStarNil r pos rest : matches (RStar r) pos [] rest
| MStarCons r pos s1 s2 rest :
    matches r pos s1 (s2 ++ rest) ->
    matches (RStar r) (pos + length s1) s2 rest ->
    matches (RStar r) pos (s1 ++ s2) rest
| MPlusCons r pos s1 s2 rest :
    matches r pos s1 (s2 ++ rest) ->
    matches (RStar r) (pos + length s1) s2 rest ->
    matches (RPlus r) pos (s1 ++ s2) rest
| MOptNone r pos rest : matches (ROpt r) pos [] rest
| MOptSome r pos s rest :
    matches r pos s rest -> matches (ROpt r) pos s rest
| MGroup n r pos s rest :
    matches r pos s rest -> matches (RGroup n r) pos s rest.

#[export] Hint Constructors matches : pre.

(** The text [s] leads from the state [st] to the state [st']. *)
Definition consumes (st : mstate) (s : str) (st' : mstate) : Prop :=
  m_rest st = s ++ m_rest st' /\ m_pos st' = m_pos st + length s.

(** ** What the matcher does, as a relation on its states

    [run r st st'] says that the matcher can go through [r] from the state
    [st] and leave it in the state [st']: the position has advanced and the
    groups that took part are recorded. *)

Inductive run : regex -> mstate -> mstate -> Prop :=
| RunEmpty st : run REmpty st st
| RunChar c st rest :
    m_rest st = c :: rest -> run (RChar c) st (advance st rest)
| RunAny a st rest :
    m_rest st = a :: rest -> a <> ch_newline -> run RAny st (advance st rest)
| RunSet negate items a st rest :
    m_rest st = a :: rest -> set_mem a negate items = true ->
    run (RSet negate items) st (advance st rest)
| RunBol st : m_pos st = 0 -> run RBol st st
| RunEolEnd st : m_rest st = [] -> run REol st st
| RunEolNewline st : m_rest st = [ch_newline] -> run REol st st
| RunCat r1 r2 st1 st2 st3 :
    run r1 st1 st2 -> run r2 st2 st3 -> run (RCat r1 r2) st1 st3
| RunAltLeft r1 r2 st st' : run r1 st st' -> run (RAlt r1 r2) st st'
| RunAltRight r1 r2 st st' : run r2 st st' -> run (RAlt r1 r2) st st'
| RunStarNil r st : run (RStar r) st st
| RunStarCons r st1 st2 st3 :
    run r st1 st2 -> run (RStar r) st2 st3 -> run (RStar r) st1 st3
| RunPlus r st1 st2 st3 :
    run r st1 st2 -> run (RStar r) st2 st3 -> run (RPlus r) st1 st3
| RunOptNone r st : run (ROpt r) st st
| RunOptSome r st st' : run r st st' -> run (ROpt r) st st'
| RunGroup n r st st' :
    run r st st' ->
    run (RGroup n r) st (set_cap n (firstn (m_pos st' - m_pos st) (m_rest st)) st').

#[export] Hint Constructors run : pre.

(** Whether the attempt at the [k]-th position of a search must advance. *)
Definition attempt_flag (ma : bool) (k : nat) : bool := ma && Nat.eqb k 0.

(** A state at index [pos] with the text [rest] ahead, whatever it captured. *)
Definition at_place (pos : nat) (rest : str) (st : mstate) : Prop :=
  m_pos st = pos /\ m_rest st = rest.

(** [s] is a match of [r] at the head of [rest], which starts at index
    [pos]; with [must_advance] the empty match does not count. *)
Definition match_here (r : regex) (pos : nat) (rest : str) (ma : bool) (s : str) : Prop :=
  exists rest', rest = s ++ rest' /\ matches r pos s rest' /\ (ma = true -> s <> []).

(** Two states at the same place of the subject, and two results that both
    fail or both succeed. *)
Definition same_place : relation mstate :=
  fun st1 st2 => m_pos st1 = m_pos st2 /\ m_rest st1 = m_rest st2.

Definition same_answer {R : Type} : relation (option R) :=
  fun x y => x = None <-> y = None.

(** A callback that returns the same text for every match. *)
Definition replace_by (text : str) (m : match_obj) : res str := Ok text.

(** The tree of the pattern that [filter_datum] builds for the field a and
    the separator ;: the field in group 1, the equals sign, and in group 2
    the characters up to the next separator. *)
Definition sample_regex : regex :=
  RCat (RGroup 1 (RCat (RChar (chr "a")) REmpty))
    (RCat (RChar ch_eq)
       (RCat (RGroup 2 (RCat (RStar (RSet true [SChar (chr ";")])) REmpty)) REmpty)).

(** ** Lemmas on [consumes] *)

Lemma consumes_nil (st : mstate) : consumes st [] st.
Proof. split; [reflexivity | simpl; lia]. Qed.

Lemma consumes_app (st1 st2 st3 : mstate) (s1 s2 : str) :
  consumes st1 s1 st2 -> consumes st2 s2 st3 -> consumes st1 (s1 ++ s2) st3.
Proof.
  intros [H1 P1] [H2 P2]. split.
  - now rewrite H1, H2, app_assoc.
  - rewrite length_app. lia.
Qed.

Lemma consumes_set_cap (st st' : mstate) (s : str) (n : nat) (text : str) :
  consumes st s st' -> consumes st s (set_cap n text st').
Proof. intros H. exact H. Qed.

#[export] Hint Resolve consumes_nil consumes_set_cap : pre.

(** ** The matcher follows [run] *)

Section Sound.
Context {R : Type}.

(** A matcher in continuation-passing style follows [r] when each of its
    results is a result of the continuation, called on a state that [run]
    reaches. *)
Definition follows (r : regex)
    (body : mstate -> (mstate -> option R) -> option R) : Prop :=
  forall st k x, body st k = Some x ->
  exists st', run r st st' /\ k st' = Some x.

Lemma match_one_follows (r : regex) (ok : char -> bool) :
  (forall a st rest, m_rest st = a :: rest -> ok a = true ->
                     run r st (advance st rest)) ->
  follows r (match_one ok).
Proof.
  intros Hr st k x H. unfold match_one in H.
  destruct (m_rest st) as [|a rest] eqn:E; [discriminate|].
  destruct (ok a) eqn:Ea; [eauto | discriminate].
Qed.

Lemma star_loop_follows (r : regex) body (fuel : nat) :
  follows r body -> follows (RStar r) (star_loop body fuel).
Proof.
  intros Hb. induction fuel as [|fuel IH]; intros st k x H; simpl in H.
  - eauto with pre.
  - destruct (body st _) as [y|] eqn:E; [|eauto with pre].
    inv H. apply Hb in E. destruct E as (st1 & Hr & Hk).
    destruct (Nat.eqb (m_pos st1) (m_pos st)); [eauto with pre|].
    apply IH in Hk. destruct Hk as (st2 & Hr2 & Hk). eauto with pre.
Qed.

Lemma rmatch_follows (r : regex) : follows r (rmatch r).
Proof.
  induction r; intros st k x H; cbn [rmatch] in H.
  - eauto with pre.
  - revert H. apply match_one_follows. intros a st' rest E Ea.
    apply ch_eqb_eq in Ea. subst. now constructor.
  - revert H. apply match_one_follows. intros a st' rest E Ea.
    apply negb_true_iff, ch_eqb_neq in Ea. eauto with pre.
  - revert H. apply match_one_follows. eauto with pre.
  - destruct (Nat.eqb_spec (m_pos st) 0); [eauto with pre | discriminate].
  - destruct (m_rest st) as [|a [|b rest]] eqn:E; try discriminate; [eauto with pre|].
    destruct (ch_eqb_spec a ch_newline) as [->|]; [eauto with pre | discriminate].
  - apply IHr1 in H. destruct H as (st1 & H1 & H).
    apply IHr2 in H. destruct H as (st2 & H2 & H). eauto with pre.
  - destruct (rmatch r1 st k) eqn:E.
    + inv H. apply IHr1 in E. destruct E as (st' & Hr & Hk). eauto with pre.
    + apply IHr2 in H. destruct H as (st' & Hr & Hk). eauto with pre.
  - now apply (star_loop_follows r) in H.
  - apply IHr in H. destruct H as (st1 & H1 & H).
    apply (star_loop_follows r) in H; [|assumption].
    destruct H as (st2 & H2 & H). eauto with pre.
  - destruct (rmatch r st k) eqn:E.
    + inv H. apply IHr in E. destruct E as (st' & Hr & Hk). eauto with pre.
    + eauto with pre.
  - apply IHr in H. destruct H as (st' & Hr & Hk). eauto with pre.
Qed.

End Sound.

(** ** What [run] goes through is a match *)

Lemma consumes_advance (st : mstate) (a : char) (rest : str) :
  m_rest st = a :: rest -> consumes st [a] (advance st rest).
Proof. intros H. split; [exact H | simpl; lia]. Qed.

Lemma run_matches (r : regex) (st st' : mstate) :
  run r st st' ->
  exists s, consumes st s st' /\ matches r (m_pos st) s (m_rest st').
Proof.
  induction 1 as [ st | c st rest E | a st rest E Ha | ng items a st rest E Ha
                 | st E | st E | st E
                 | r1 r2 st1 st2 st3 _ (s1 & C1 & M1) _ (s2 & C2 & M2)
                 | r1 r2 st st' _ (s & C & M) | r1 r2 st st' _ (s & C & M)
                 | r st
                 | r st1 st2 st3 _ (s1 & C1 & M1) _ (s2 & C2 & M2)
                 | r st1 st2 st3 _ (s1 & C1 & M1) _ (s2 & C2 & M2)
                 | r st | r st st' _ (s & C & M) | n r st st' _ (s & C & M) ].
  1, 5, 6, 7, 11, 14: exists []; split; [apply consumes_nil|];
    rewrite ?E; constructor.
  1: exists [c]; split; [now apply consumes_advance | constructor].
  1, 2: exists [a]; split; [now apply consumes_advance | now constructor].
  1, 4, 5: exists (s1 ++ s2); split; [eauto using consumes_app|];
    constructor; [now rewrite <- (proj1 C2) | now rewrite <- (proj2 C1)].
  all: exists s; split; [assumption || now apply consumes_set_cap|]; now constructor.
Qed.

(** ** [match_at] and [search] *)

Lemma match_at_sound (r : regex) (pos : nat) (rest : str) (ma : bool) (st : mstate) :
  match_at r pos rest ma = Some st ->
  exists s,
    rest = s ++ m_rest st
    /\ m_pos st = pos + length s
    /\ matches r pos s (m_rest st)
    /\ (ma = true -> s <> []).
Proof.
  unfold match_at. intros H. apply rmatch_follows in H.
  destruct H as (st' & Hr & Ha). apply run_matches in Hr.
  destruct Hr as (s & [Hr Hp] & Hm). cbn [m_rest m_pos] in *.
  unfold accept in Ha. exists s.
  destruct ma; cbn [andb] in Ha.
  - destruct (Nat.eqb_spec (m_pos st') pos) as [E|E]; [discriminate|]. inv Ha.
    repeat split; auto. intros _ ->. simpl in Hp. lia.
  - inv Ha. repeat split; auto. discriminate.
Qed.

Lemma attempt_flag_later (ma : bool) (k : nat) :
  attempt_flag ma (S k) = attempt_flag false k.
Proof. unfold attempt_flag. simpl. apply andb_false_r. Qed.

Lemma attempt_flag_first (ma : bool) : attempt_flag ma 0 = ma.
Proof. unfold attempt_flag. apply andb_true_r. Qed.

Lemma search_leftmost_aux (r : regex) (rest : str) : forall pos ma skipped st,
  search r pos rest ma = Some (skipped, st) ->
  rest = skipped ++ skipn (length skipped) rest
  /\ match_at r (pos + length skipped) (skipn (length skipped) rest)
       (attempt_flag ma (length skipped)) = Some st
  /\ forall k, k < length skipped ->
       match_at r (pos + k) (skipn k rest) (attempt_flag ma k) = None.
Proof.
  induction rest as [|c rest IH]; intros pos ma skipped st H; cbn [search] in H;
    destruct (match_at r pos _ ma) eqn:E; try discriminate.
  1, 2: inv H; cbn [length skipn app]; rewrite Nat.add_0_r, attempt_flag_first;
    repeat split; [assumption | intros; lia].
  destruct (search r (S pos) rest false) as [[sk st']|] eqn:E'; [|discriminate].
  inv H. apply IH in E'. destruct E' as (Hr & Hm & Hl). cbn [length skipn app].
  rewrite Nat.add_succ_r, attempt_flag_later. repeat split.
  - now rewrite <- Hr.
  - exact Hm.
  - intros [|k] Hk.
    + now rewrite Nat.add_0_r, attempt_flag_first.
    + rewrite Nat.add_succ_r, attempt_flag_later. apply (Hl k). simpl in Hk. lia.
Qed.

Lemma mk_match_text (re : compiled) (start : nat) (s : str) (st : mstate) :
  m_pos st = start + length s ->
  group (mk_match re start (s ++ m_rest st) st) 0 = Ok (Some s).
Proof.
  intros H. unfold group, mk_match. cbn [Nat.eqb mo_text]. do 2 f_equal.
  replace (m_pos st - start) with (length s + 0) by lia.
  rewrite firstn_app_2. cbn [firstn]. apply app_nil_r.
Qed.

(** ** The matcher finds every match *)

Section Complete.
Context {R : Type}.

(** A matcher in continuation-passing style finds the matches of [r] when it
    succeeds wherever [r] matches a text and the continuation accepts every
    state at the end of that text. *)
Definition finds (r : regex)
    (body : mstate -> (mstate -> option R) -> option R) : Prop :=
  forall pos s rest, matches r pos s rest ->
  forall st k, at_place pos (s ++ rest) st ->
  (forall st', at_place (pos + length s) rest st' -> k st' <> None) ->
  body st k <> None.

Lemma match_one_finds (ok : char -> bool) (a : char) (rest : str) (st : mstate)
    (k : mstate -> option R) :
  ok a = true -> m_rest st = a :: rest ->
  (forall st', at_place (m_pos st + 1) rest st' -> k st' <> None) ->
  match_one ok st k <> None.
Proof.
  intros Ha E Hk. unfold match_one. rewrite E, Ha. apply Hk.
  split; [simpl; lia | reflexivity].
Qed.

Lemma rmatch_complete (r : regex) : finds r (rmatch r).
Proof.
  intros pos s rest H. induction H; intros st k [Hp Hr] Hk; cbn [rmatch];
    cbn [app length] in *; subst pos || idtac.
  - apply Hk. split; [lia | assumption].
  - apply (match_one_finds _ c rest); auto using ch_eqb_refl.
  - apply (match_one_finds _ a rest); auto. now apply negb_true_iff, ch_eqb_neq.
  - apply (match_one_finds _ a rest); auto.
  - rewrite Hp. apply Hk. split; [lia | assumption].
  - rewrite Hr. apply Hk. split; [lia | assumption].
  - rewrite Hr, ch_eqb_refl. apply Hk. split; [lia | assumption].
  - apply IHmatches1; [split; [reflexivity | now rewrite Hr, app_assoc]|].
    intros st1 H1. apply IHmatches2; [assumption|].
    intros st2 H2. apply Hk. now rewrite length_app, Nat.add_assoc.
  - destruct (rmatch r1 st k) eqn:E; [discriminate|].
    exfalso. revert E. now apply IHmatches.
  - destruct (rmatch r1 st k) eqn:E; [discriminate|]. now apply IHmatches.
  - unfold star_fuel. rewrite star_loop_S. destruct (rmatch r st _); [discriminate|].
    apply Hk. split; [lia | assumption].
  - destruct s1 as [|c s1].
    + apply IHmatches2; [split; [simpl; lia | assumption]|].
      intros st' H'. apply Hk. cbn [length app] in *. now rewrite Nat.add_0_r in H'.
    + unfold star_fuel. rewrite star_loop_S.
      destruct (rmatch r st _) eqn:E; [discriminate|]. exfalso. revert E.
      apply IHmatches1; [split; [reflexivity | now rewrite Hr, app_assoc]|].
      intros st1 [P1 R1]. destruct (Nat.eqb_spec (m_pos st1) (m_pos st)) as [E|_];
        [simpl in P1; lia|].
      rewrite star_fuel_enough by (rewrite Hr, R1, !length_app; simpl; lia).
      apply IHmatches2; [now split|].
      intros st2 H2. apply Hk. now rewrite length_app, Nat.add_assoc.
  - apply IHmatches1; [split; [reflexivity | now rewrite Hr, app_assoc]|].
    intros st1 H1. apply (IHmatches2 st1 k H1).
    intros st2 H2. apply Hk. now rewrite length_app, Nat.add_assoc.
  - destruct (rmatch r st k); [discriminate|]. apply Hk. split; [lia | assumption].
  - destruct (rmatch r st k) eqn:E; [discriminate|]. exfalso. revert E. now apply IHmatches.
  - apply IHmatches; [now split|]. intros st' [P' R']. apply Hk. now split.
Qed.
End Complete.

Lemma accept_at (pos : nat) (s rest : str) (ma : bool) (st : mstate) :
  (ma = true -> s <> []) -> at_place (pos + length s) rest st ->
  accept pos ma st <> None.
Proof.
  intros Hs [Hp _]. unfold accept. destruct ma; [|discriminate]. cbn [andb].
  destruct (Nat.eqb_spec (m_pos st) pos) as [E|E]; [|discriminate].
  destruct s; [now destruct Hs | simpl in Hp; lia].
Qed.

Lemma match_at_complete (r : regex) (pos : nat) (rest : str) (ma : bool) (s : str) :
  match_here r pos rest ma s -> match_at r pos rest ma <> None.
Proof.
  intros (rest' & -> & Hm & Hs). unfold match_at.
  apply (rmatch_complete r pos s rest' Hm); [now split|].
  intros st'. now apply accept_at.
Qed.

Lemma match_at_here (r : regex) (pos : nat) (rest : str) (ma : bool) (st : mstate) :
  match_at r pos rest ma = Some st -> exists s, match_here r pos rest ma s.
Proof.
  intros H. apply match_at_sound in H. destruct H as (s & Hr & _ & Hm & Hs).
  exists s, (m_rest st). auto.
Qed.

Lemma match_at_None (r : regex) (pos : nat) (rest : str) (ma : bool) :
  match_at r pos rest ma = None <-> forall s, ~ match_here r pos rest ma s.
Proof.
  split.
  - intros H s Hs. now apply match_at_complete in Hs.
  - intros H. destruct (match_at r pos rest ma) as [st|] eqn:E; [|reflexivity].
    apply match_at_here in E. destruct E as (s & Hs). now destruct (H s).
Qed.

Lemma search_complete_aux (r : regex) (rest : str) : forall pos ma k s,
  k <= length rest ->
  match_here r (pos + k) (skipn k rest) (attempt_flag ma k) s ->
  exists skipped st, search r pos rest ma = Some (skipped, st) /\ length skipped <= k.
Proof.
  induction rest as [|c rest IH]; intros pos ma k s Hk Hm; cbn [search];
    destruct (match_at r pos _ ma) as [st|] eqn:E;
    try (exists [], st; split; [reflexivity | simpl; lia]).
  - exfalso. assert (k = 0) as -> by (simpl in Hk; lia).
    rewrite Nat.add_0_r, attempt_flag_first in Hm. cbn [skipn] in Hm.
    now apply match_at_complete in Hm.
  - destruct k as [|k].
    + exfalso. rewrite Nat.add_0_r, attempt_flag_first in Hm. cbn [skipn] in Hm.
      now apply match_at_complete in Hm.
    + rewrite Nat.add_succ_r, attempt_flag_later in Hm. cbn [skipn] in Hm.
      destruct (IH (S pos) false k s) as (sk & st & -> & Hl);
        [simpl in Hk; lia | exact Hm |].
      exists (c :: sk), st. split; [reflexivity | simpl; lia].
Qed.

Lemma search_None (r : regex) (pos : nat) (rest : str) (ma : bool) :
  search r pos rest ma = None <->
  forall k s, k <= length rest ->
    ~ match_here r (pos + k) (skipn k rest) (attempt_flag ma k) s.
Proof.
  split.
  - intros H k s Hk Hm.
    destruct (search_complete_aux r rest pos ma k s Hk Hm) as (sk & st & E & _).
    congruence.
  - intros H. destruct (search r pos rest ma) as [[sk st]|] eqn:E; [|reflexivity].
    apply search_leftmost_aux in E. destruct E as (Hr & Hm & _).
    apply match_at_here in Hm. destruct Hm as (s & Hs).
    destruct (H (length sk) s); [|exact Hs].
    apply (f_equal (@length _)) in Hr. rewrite length_app in Hr. lia.
Qed.

(** ** Captures are write-only *)

#[export] Instance same_place_equiv : Equivalence same_place.
Proof.
  split; [intros x | intros x y [] | intros x y z [] []]; split; congruence.
Qed.

#[export] Instance same_answer_equiv {R : Type} : Equivalence (@same_answer R).
Proof. unfold same_answer. split; [intros x | intros x y H | intros x y z H1 H2]; tauto. Qed.

#[export] Instance advance_proper : Proper (same_place ==> eq ==> same_place) advance.
Proof. intros st1 st2 [Hp Hr] rest ? <-. split; simpl; congruence. Qed.

Lemma set_cap_place (n : nat) (text : str) (st : mstate) : same_place (set_cap n text st) st.
Proof. now split. Qed.

Section Blind.
Context {R : Type}.
Local Abbreviation blind := (same_place ==> @same_answer R).

Lemma same_answer_orelse (x1 x2 y1 y2 : option R) :
  same_answer x1 x2 -> same_answer y1 y2 ->
  same_answer (match x1 with Some a => Some a | None => y1 end)
              (match x2 with Some a => Some a | None => y2 end).
Proof. unfold same_answer. destruct x1, x2; intuition congruence. Qed.

#[export] Instance match_one_proper (ok : char -> bool) :
  Proper (same_place ==> blind ==> same_answer) (match_one ok).
Proof.
  intros st1 st2 Hs k1 k2 Hk. unfold match_one. rewrite (proj2 Hs).
  destruct (m_rest st2) as [|a rest]; [reflexivity|].
  destruct (ok a); [|reflexivity]. apply Hk. now rewrite Hs.
Qed.

Lemma star_loop_proper body (fuel : nat) :
  Proper (same_place ==> blind ==> same_answer) body ->
  Proper (same_place ==> blind ==> same_answer) (star_loop body fuel).
Proof.
  intros Hb. induction fuel as [|fuel IH]; intros st1 st2 Hs k1 k2 Hk; cbn [star_loop].
  - now apply Hk.
  - apply same_answer_orelse; [|now apply Hk].
    apply Hb; [assumption|]. intros st1' st2' Hs'.
    rewrite (proj1 Hs), (proj1 Hs').
    destruct (Nat.eqb (m_pos st2') (m_pos st2)); [now apply Hk | now apply IH].
Qed.

#[export] Instance rmatch_proper (r : regex) :
  Proper (same_place ==> blind ==> same_answer) (rmatch r).
Proof.
  induction r; intros st1 st2 Hs k1 k2 Hk; cbn [rmatch].
  - now apply Hk.
  - now apply match_one_proper.
  - now apply match_one_proper.
  - now apply match_one_proper.
  - rewrite (proj1 Hs). destruct (Nat.eqb (m_pos st2) 0); [now apply Hk | reflexivity].
  - rewrite (proj2 Hs). destruct (m_rest st2) as [|a [|b rest]]; [now apply Hk | | reflexivity].
    destruct (ch_eqb a ch_newline); [now apply Hk | reflexivity].
  - apply IHr1; [assumption|]. intros st1' st2' Hs'. now apply IHr2.
  - apply same_answer_orelse; [now apply IHr1 | now apply IHr2].
  - unfold star_fuel. rewrite (proj2 Hs). now apply star_loop_proper.
  - apply IHr; [assumption|]. intros st1' st2' Hs'.
    unfold star_fuel. rewrite (proj2 Hs'). now apply star_loop_proper.
  - apply same_answer_orelse; [now apply IHr | now apply Hk].
  - apply IHr; [assumption|]. intros st1' st2' Hs'. apply Hk.
    now rewrite !set_cap_place.
Qed.
End Blind.

Lemma accept_proper (pos : nat) (ma : bool) :
  Proper (same_place ==> same_answer) (accept pos ma).
Proof.
  intros st1 st2 Hs. unfold accept. rewrite (proj1 Hs).
  now destruct (ma && Nat.eqb (m_pos st2) pos).
Qed.

Lemma match_at_caps (r : regex) (pos : nat) (rest : str) (ma : bool) (caps : list (nat * str)) :
  rmatch r (mkM pos rest caps) (accept pos ma) = None <-> match_at r pos rest ma = None.
Proof. apply rmatch_proper; [now split | apply accept_proper]. Qed.


(** The matcher and the relation agree.  For a continuation that looks only
    at the place it is called at, [rmatch] succeeds exactly when the pattern
    matches a text at the head of what is left and the continuation accepts
    the place after it. *)
Lemma rmatch_spec {R : Type} (r : regex) (st : mstate) (k : mstate -> option R) :
  Proper (same_place ==> same_answer) k ->
  rmatch r st k <> None <->
  exists s rest,
    m_rest st = s ++ rest /\ matches r (m_pos st) s rest
    /\ k (mkM (m_pos st + length s) rest []) <> None.
Proof.
  intros Hk. split.
  - destruct (rmatch r st k) as [x|] eqn:E; [intros _ | congruence].
    apply rmatch_follows in E. destruct E as (st' & Hr & Hx).
    apply run_matches in Hr. destruct Hr as (s & [Hs Hp] & Hm).
    exists s, (m_rest st'). repeat split; [assumption..|].
    intros E. apply (Hk _ st') in E; [congruence | now split].
  - intros (s & rest & Hs & Hm & Hx).
    apply (rmatch_complete r _ s rest Hm); [now split|].
    intros st' Hp E. apply Hx. revert E. now apply Hk.
Qed.

(** C31 (the search returns the leftmost match).  The match that [re.sub]
    hands to the callback is a match in the sense of the relation
    [matches]: the subject is the text skipped, then a text that the
    pattern matches at that index with what follows, then the text left;
    [group] gives that text for the number 0; and it is the leftmost match
    of the pattern: at no earlier position does the pattern match any text
    (the empty text at the first position apart, when the search must
    advance). *)
Theorem search_sound (re : compiled) (pos : nat) (rest : str) (ma : bool)
    (skipped : str) (st : mstate) :
  search (c_regex re) pos rest ma = Some (skipped, st) ->
  exists s,
    rest = skipped ++ s ++ m_rest st
    /\ matches (c_regex re) (pos + length skipped) s (m_rest st)
    /\ group (mk_match re (pos + length skipped) (skipn (length skipped) rest) st) 0
       = Ok (Some s)
    /\ forall k s', k < length skipped ->
         ~ match_here (c_regex re) (pos + k) (skipn k rest) (attempt_flag ma k) s'.
Proof.
  intros H. apply search_leftmost_aux in H. destruct H as (Hr & Hm & Hl).
  apply match_at_sound in Hm. destruct Hm as (s & Hs & Hp & Hm & _).
  exists s. repeat split; try assumption.
  - now rewrite <- Hs.
  - rewrite Hs. now apply mk_match_text.
  - intros k s' Hk. now apply match_at_None, Hl.
Qed.

Lemma search_sound_witness :
  exists s,
    $"x;a=1;" = $"x;" ++ s ++ $";"
    /\ matches sample_regex (0 + 2) s $";"
    /\ group (mk_match (mkCompiled sample_regex 2) (0 + 2) (skipn 2 $"x;a=1;")
                (mkM 5 $";" [(2, $"1"); (1, $"a")])) 0
       = Ok (Some s)
    /\ forall k s', k < 2 ->
         ~ match_here sample_regex (0 + k) (skipn k $"x;a=1;") (attempt_flag false k) s'.
Proof.
  exact (search_sound (mkCompiled sample_regex 2) 0 $"x;a=1;" false $"x;"
           (mkM 5 $";" [(2, $"1"); (1, $"a")]) eq_refl).
Defined.

(** The pattern of [sample_regex] matches the text a=1 before a semicolon. *)
Lemma sample_matches : matches sample_regex 2 $"a=1" $";".
Proof.
  apply (MCat _ _ 2 [chr "a"] $"=1"); [apply MGroup, (MCat _ _ 2 [chr "a"] []); constructor|].
  apply (MCat _ _ 3 [ch_eq] $"1"); [constructor|].
  apply (MCat _ _ 4 $"1" []); [|constructor].
  apply MGroup, (MCat _ _ 4 $"1" []); [|constructor].
  apply (MStarCons _ 4 $"1" []); now constructor.
Qed.

(** When the pattern matches nowhere, [re.sub] returns the text as it is. *)
Lemma re_sub_no_match (re : compiled) (repl : match_obj -> res str) (s : str) :
  (forall k t, k <= length s -> ~ match_here (c_regex re) k (skipn k s) false t) ->
  re_sub re repl s = Ok s.
Proof.
  intros H. unfold re_sub, sub_fuel. rewrite Nat.add_comm. cbn [Nat.add sub_loop].
  now rewrite (proj2 (search_None (c_regex re) 0 s false) H).
Qed.

(** C19 (completeness of [re.sub]).  When the pattern matches some text at
    the [k]-th position of the subject, [re.sub] calls the callback: the
    search returns a match that starts at that position or before it, and
    the result of [re.sub] is the text skipped, what the callback returns
    for that match, and the substitution of the rest; an exception of the
    callback is the result.  The backtracking matcher, its greedy
    repetitions and its fuel miss no match of the pattern. *)
Theorem re_sub_complete (re : compiled) (repl : match_obj -> res str) (s : str)
    (k : nat) (t : str) :
  k <= length s ->
  match_here (c_regex re) k (skipn k s) false t ->
  exists skipped st,
    search (c_regex re) 0 s false = Some (skipped, st)
    /\ length skipped <= k
    /\ re_sub re repl s =
       (piece <- repl (mk_match re (length skipped) (skipn (length skipped) s) st) ;;
        out <- sub_loop re repl (pred (sub_fuel s)) (m_pos st) (m_rest st)
                 (Nat.eqb (m_pos st) (length skipped)) ;;
        Ok (skipped ++ piece ++ out))%res.
Proof.
  intros Hk Hm.
  destruct (search_complete_aux (c_regex re) s 0 false k t Hk Hm) as (sk & st & E & Hl).
  exists sk, st. repeat split; [exact E | exact Hl |].
  unfold re_sub, sub_fuel. rewrite Nat.add_comm. cbn [Nat.add sub_loop pred]. rewrite E.
  reflexivity.
Qed.

Lemma re_sub_complete_witness :
  exists skipped st,
    search sample_regex 0 $"x;a=1;" false = Some (skipped, st)
    /\ length skipped <= 2
    /\ re_sub (mkCompiled sample_regex 2) (replace_by $"-") $"x;a=1;" =
       (piece <- replace_by $"-"
                   (mk_match (mkCompiled sample_regex 2) (length skipped)
                      (skipn (length skipped) $"x;a=1;") st) ;;
        out <- sub_loop (mkCompiled sample_regex 2) (replace_by $"-")
                 (pred (sub_fuel $"x;a=1;")) (m_pos st) (m_rest st)
                 (Nat.eqb (m_pos st) (length skipped)) ;;
        Ok (skipped ++ piece ++ out))%res.
Proof.
  apply (re_sub_complete (mkCompiled sample_regex 2) (replace_by $"-")
           $"x;a=1;" 2 $"a=1"); [simpl; lia|].
  exists $";". split; [reflexivity|]. split; [exact sample_matches | discriminate].
Defined.
