(* ===== verification/Language.v ===== *)
(** * Language: patterns that match the same texts

    [regex_equiv] relates two patterns that match the same texts at the
    same places, in the sense of [matches]: an equivalence, and a congruence
    for the constructors of patterns, so that a pattern is rewritten inside
    another ([Proper] instances).  Groups and empty sequences, which the
    parser leaves in its trees, do not change what a pattern matches
    ([group_erase], [cat_empty_r]).  The last lemmas say what the parts of
    the pattern of [filter_datum] match: a literal, an alternation of
    literals, a repetition of a set. *)

From Stdlib Require Import Ascii String.
From Stdlib Require Import List NArith Arith Bool Lia.
From Stdlib Require Import Relations Morphisms RelationClasses Setoid.
From S2P Require Import Prelude PyStr Regex Matcher Semantics.
Import ListNotations.
Local Open Scope str_scope.
Local Open Scope signature_scope.

(** Two patterns are equivalent when they match the same texts at the same places. *)
Definition regex_equiv (r1 r2 : regex) : Prop :=
  forall pos s rest, matches r1 pos s rest <-> matches r2 pos s rest.

Declare Scope regex_scope.
Delimit Scope regex_scope with regex.
Infix "=~" := regex_equiv (at level 70, no associativity) : regex_scope.
Local Open Scope regex_scope.

(** ** The relation is an equivalence and [matches] respects it *)

#[export] Instance regex_equiv_equiv : Equivalence regex_equiv.
Proof.
  split; [intros r | intros r1 r2 H | intros r1 r2 r3 H1 H2]; intros pos s rest.
  - reflexivity.
  - symmetry. apply H.
  - now rewrite (H1 pos s rest).
Qed.

#[export] Instance matches_proper :
  Proper (regex_equiv ==> eq ==> eq ==> eq ==> iff) matches.
Proof. intros r1 r2 H pos ? <- s ? <- rest ? <-. apply H. Qed.

(** ** Inversion of [matches], constructor by constructor *)

(** Inverts a hypothesis [matches r _ _ _] whose pattern [r] is not a variable. *)
Ltac inv_matches :=
  match goal with
  | H : matches ?r _ _ _ |- _ =>
      first [is_var r; fail 1 | inversion H; subst; clear H]
  end.

Lemma matches_empty pos s rest : matches REmpty pos s rest <-> s = [].
Proof. split; [intros H; now inv_matches | intros ->; constructor]. Qed.

Lemma matches_char c pos s rest : matches (RChar c) pos s rest <-> s = [c].
Proof. split; [intros H; now inv_matches | intros ->; constructor]. Qed.

Lemma matches_cat r1 r2 pos s rest :
  matches (RCat r1 r2) pos s rest <->
  exists s1 s2, s = s1 ++ s2 /\ matches r1 pos s1 (s2 ++ rest)
                /\ matches r2 (pos + length s1) s2 rest.
Proof.
  split.
  - intros H. inv_matches. eauto.
  - intros (s1 & s2 & -> & H1 & H2). now constructor.
Qed.

Lemma matches_alt r1 r2 pos s rest :
  matches (RAlt r1 r2) pos s rest <-> matches r1 pos s rest \/ matches r2 pos s rest.
Proof.
  split.
  - intros H. inv_matches; auto.
  - intros [H|H]; [now apply MAltLeft | now apply MAltRight].
Qed.

Lemma matches_group n r pos s rest :
  matches (RGroup n r) pos s rest <-> matches r pos s rest.
Proof. split; [intros H; now inv_matches | now constructor]. Qed.

(** ** Congruence *)

#[export] Instance RCat_proper : Proper (regex_equiv ==> regex_equiv ==> regex_equiv) RCat.
Proof.
  intros a a' Ha b b' Hb pos s rest. rewrite !matches_cat.
  split; intros (s1 & s2 & E & H1 & H2); exists s1, s2;
    (split; [exact E|]); split; (apply Ha || apply Hb); assumption.
Qed.

#[export] Instance RAlt_proper : Proper (regex_equiv ==> regex_equiv ==> regex_equiv) RAlt.
Proof.
  intros a a' Ha b b' Hb pos s rest. now rewrite !matches_alt, (Ha pos s rest), (Hb pos s rest).
Qed.

#[export] Instance RGroup_proper (n : nat) : Proper (regex_equiv ==> regex_equiv) (RGroup n).
Proof. intros a a' Ha pos s rest. now rewrite !matches_group. Qed.

Lemma star_mono (a b : regex) :
  (forall pos s rest, matches a pos s rest -> matches b pos s rest) ->
  forall pos s rest, matches (RStar a) pos s rest -> matches (RStar b) pos s rest.
Proof.
  intros Hab pos s rest H. remember (RStar a) as r eqn:E.
  induction H; inversion E; subst; [constructor|].
  apply MStarCons; [now apply Hab | now apply IHmatches2].
Qed.

#[export] Instance RStar_proper : Proper (regex_equiv ==> regex_equiv) RStar.
Proof. intros a a' Ha pos s rest. split; apply star_mono; intros; now apply Ha. Qed.

Lemma matches_plus r pos s rest :
  matches (RPlus r) pos s rest <-> matches (RCat r (RStar r)) pos s rest.
Proof.
  rewrite matches_cat. split.
  - intros H. inv_matches. eauto.
  - intros (s1 & s2 & -> & H1 & H2). now apply MPlusCons.
Qed.

Lemma matches_opt r pos s rest :
  matches (ROpt r) pos s rest <-> matches r pos s rest \/ s = [].
Proof.
  split.
  - intros H. inv_matches; auto.
  - intros [H| ->]; [now apply MOptSome | apply MOptNone].
Qed.

#[export] Instance RPlus_proper : Proper (regex_equiv ==> regex_equiv) RPlus.
Proof. intros a a' Ha pos s rest. now rewrite !matches_plus, Ha. Qed.

#[export] Instance ROpt_proper : Proper (regex_equiv ==> regex_equiv) ROpt.
Proof. intros a a' Ha pos s rest. now rewrite !matches_opt, (Ha pos s rest). Qed.

(** ** Laws *)

Lemma cat_empty_r (r : regex) : RCat r REmpty =~ r.
Proof.
  intros pos s rest. rewrite matches_cat. split.
  - intros (s1 & s2 & -> & H1 & H2). apply matches_empty in H2. subst.
    now rewrite app_nil_r.
  - intros H. exists s, []. rewrite app_nil_r. repeat split; [assumption | constructor].
Qed.

Lemma cat_empty_l (r : regex) : RCat REmpty r =~ r.
Proof.
  intros pos s rest. rewrite matches_cat. split.
  - intros (s1 & s2 & -> & H1 & H2). apply matches_empty in H1. subst.
    now rewrite Nat.add_0_r in H2.
  - intros H. exists [], s. cbn [length app]. rewrite Nat.add_0_r.
    repeat split; [constructor | assumption].
Qed.

Lemma group_erase (n : nat) (r : regex) : RGroup n r =~ r.
Proof. intros pos s rest. apply matches_group. Qed.

Lemma plus_star (r : regex) : RPlus r =~ RCat r (RStar r).
Proof. intros pos s rest. apply matches_plus. Qed.

Lemma opt_alt (r : regex) : ROpt r =~ RAlt r REmpty.
Proof. intros pos s rest. now rewrite matches_opt, matches_alt, matches_empty. Qed.

(** The order of the alternatives decides which match the matcher finds
    first, not which texts the pattern matches. *)
Lemma alt_comm (r1 r2 : regex) : RAlt r1 r2 =~ RAlt r2 r1.
Proof. intros pos s rest. rewrite !matches_alt. tauto. Qed.

(** ** What the parts of the pattern of [filter_datum] match *)

Lemma lit_cons (c : char) (g : str) : lit (c :: g) = RCat (RChar c) (lit g).
Proof. reflexivity. Qed.

Lemma matches_lit (g : str) : forall pos s rest, matches (lit g) pos s rest <-> s = g.
Proof.
  induction g as [|c g IH]; intros pos s rest.
  - apply matches_empty.
  - rewrite lit_cons, matches_cat. split.
    + intros (s1 & s2 & -> & H1 & H2). apply matches_char in H1. apply IH in H2. now subst.
    + intros ->. exists [c], g. repeat split; [constructor | now apply IH].
Qed.

Lemma matches_alt_lits (fs : list str) : forall f pos s rest,
  matches (alt_of (lit f) (map lit fs)) pos s rest <-> In s (f :: fs).
Proof.
  induction fs as [|h fs IH]; intros f pos s rest; cbn [map alt_of].
  - rewrite matches_lit. simpl. intuition congruence.
  - rewrite matches_alt, matches_lit, IH. simpl. intuition congruence.
Qed.

Lemma matches_star_set (negate : bool) (items : list set_item) (ok : char -> bool) :
  (forall a, set_mem a negate items = ok a) ->
  forall pos s rest,
  matches (RStar (RSet negate items)) pos s rest <-> forallb ok s = true.
Proof.
  intros Hok pos s rest. split.
  - intros H. remember (RStar (RSet negate items)) as r eqn:E.
    induction H; inversion E; subst; [reflexivity|].
    inv_matches. cbn [app forallb]. rewrite IHmatches2, <- Hok by reflexivity.
    now rewrite andb_true_r.
  - revert pos. induction s as [|a s IH]; intros pos H; [constructor|].
    cbn [forallb] in H. apply andb_true_iff in H. destruct H as [Ha Hs].
    apply (MStarCons _ pos [a] s); [constructor; now rewrite Hok | now apply IH].
Qed.
