(* ===== verification/Groups.v ===== *)
(** * Groups: the numbering of the groups of a pattern

    [groups_of] lists the numbers of the groups of a tree.  The parser gives
    each opening parenthesis of a capturing group the next number (a
    non-capturing group takes none), so the tree of a compiled
    pattern holds each of the numbers 1 to [c_groups] once: the invariant
    [pstate_ok] of the parser state says so of the groups that are closed
    and of those still on the stack, and every step preserves it.  The
    matcher records a capture only under the number of a group of the tree,
    so a match object of a compiled pattern answers [group] for exactly the
    numbers 0 to [c_groups]. *)

From Stdlib Require Import Ascii String.
From Stdlib Require Import List NArith Arith Bool Lia Permutation.
From S2P Require Import Prelude PyStr Regex Matcher Semantics.
Import ListNotations.
Local Open Scope str_scope.
Local Open Scope res_scope.

(** ** Definitions *)

Fixpoint groups_of (r : regex) : list nat :=
  match r with
  | RGroup n r' => n :: groups_of r'
  | RCat r1 r2 | RAlt r1 r2 => groups_of r1 ++ groups_of r2
  | RStar r' | RPlus r' | ROpt r' => groups_of r'
  | _ => []
  end.

Definition items_groups (items : list regex) : list nat := flat_map groups_of items.

Definition frame_groups (f : frame) : list nat :=
  items_groups (f_alts f) ++ items_groups (f_seq f).

Fixpoint stack_groups (stk : list (option nat * frame)) : list nat :=
  match stk with
  | [] => []
  | (Some n, f) :: stk' => n :: frame_groups f ++ stack_groups stk'
  | (None, f) :: stk' => frame_groups f ++ stack_groups stk'
  end.

Definition pstate_groups (st : pstate) : list nat :=
  stack_groups (p_stack st) ++ frame_groups (p_cur st).

Definition numbered (groups : list nat) (g : nat) : Prop :=
  Permutation groups (seq 1 g).

Definition well_numbered (re : compiled) : Prop :=
  numbered (groups_of (c_regex re)) (c_groups re).

Definition pstate_ok (st : pstate) : Prop :=
  numbered (pstate_groups st) (p_groups st).

(** What a step does to the groups: nothing, or it opens the next one. *)
Definition keeps (st st' : pstate) : Prop :=
  Permutation (pstate_groups st') (pstate_groups st) /\ p_groups st' = p_groups st.

Definition opens (st st' : pstate) : Prop :=
  Permutation (pstate_groups st') (S (p_groups st) :: pstate_groups st)
  /\ p_groups st' = S (p_groups st).

Definition grows (st st' : pstate) : Prop := keeps st st' \/ opens st st'.

(** The number of times [n] occurs in [l]. *)
Definition occ (n : nat) (l : list nat) : nat := count_occ Nat.eq_dec l n.

(** The captures of [st'] are those of [st] and captures of groups of [r]. *)
Definition caps_within (r : regex) (st st' : mstate) : Prop :=
  forall n text, In (n, text) (m_caps st') ->
  In (n, text) (m_caps st) \/ In n (groups_of r).

(** ** Counting occurrences *)

Lemma occ_app n l1 l2 : occ n (l1 ++ l2) = occ n l1 + occ n l2.
Proof. apply count_occ_app. Qed.

Lemma occ_cons n m l : occ n (m :: l) = (if Nat.eqb m n then 1 else 0) + occ n l.
Proof.
  unfold occ. simpl. destruct (Nat.eq_dec m n), (Nat.eqb_spec m n); congruence || lia.
Qed.

Lemma occ_nil n : occ n [] = 0.
Proof. reflexivity. Qed.

Lemma perm_occ l1 l2 : Permutation l1 l2 <-> forall n, occ n l1 = occ n l2.
Proof. apply Permutation_count_occ. Qed.

Create Rewrite HintDb occ.
#[export] Hint Rewrite occ_app occ_cons occ_nil : occ.

Ltac occ_solve :=
  apply perm_occ; intro;
  repeat match goal with
         | H : Permutation _ _ |- _ => rewrite perm_occ in H
         | H : forall n, occ n _ = _ |- occ ?n _ = _ => specialize (H n)
         end;
  autorewrite with occ in *; lia.

Lemma groups_fold_cat (items : list regex) : forall acc,
  Permutation (groups_of (fold_left (fun a r => RCat r a) items acc))
    (items_groups items ++ groups_of acc).
Proof.
  induction items as [|r items IH]; intros acc; simpl; [reflexivity|].
  rewrite IH. simpl. occ_solve.
Qed.

Lemma groups_seq_of_rev (items : list regex) :
  Permutation (groups_of (seq_of_rev items)) (items_groups items).
Proof. unfold seq_of_rev. rewrite groups_fold_cat. simpl. now rewrite app_nil_r. Qed.

Lemma groups_fold_alt (alts : list regex) : forall acc,
  Permutation (groups_of (fold_left (fun a r => RAlt r a) alts acc))
    (items_groups alts ++ groups_of acc).
Proof.
  induction alts as [|r alts IH]; intros acc; simpl; [reflexivity|].
  rewrite IH. simpl. occ_solve.
Qed.

Lemma groups_frame_regex (f : frame) :
  Permutation (groups_of (frame_regex f)) (frame_groups f).
Proof.
  unfold frame_regex, frame_groups. rewrite groups_fold_alt, groups_seq_of_rev.
  reflexivity.
Qed.

(** ** One step of the parser *)

Lemma keeps_with_mode (m : pmode) (st : pstate) : keeps st (with_mode m st).
Proof. split; reflexivity. Qed.

Lemma keeps_emit (r : regex) (st : pstate) :
  groups_of r = [] -> keeps st (emit r st).
Proof.
  intros H. split; [|reflexivity].
  unfold pstate_groups, frame_groups, emit. simpl. now rewrite H.
Qed.

Lemma keeps_next_alt (st : pstate) :
  keeps st (mkPstate (p_stack st) (next_alt (p_cur st)) (p_groups st) MNormal).
Proof.
  split; [|reflexivity]. unfold pstate_groups, frame_groups. simpl.
  rewrite groups_seq_of_rev. occ_solve.
Qed.

Lemma groups_apply_quant (q : quant) (r : regex) :
  groups_of (apply_quant q r) = groups_of r.
Proof. now destruct q. Qed.

Lemma keeps_repeat_last (q : quant) (st st' : pstate) :
  repeat_last q st = Ok st' -> keeps st st'.
Proof.
  unfold repeat_last. destruct (f_seq (p_cur st)) as [|item items] eqn:E; [discriminate|].
  assert ((Ok (mkPstate (p_stack st)
                 (mkFrame (f_alts (p_cur st)) (apply_quant q item :: items))
                 (p_groups st) MNormal) : res pstate) = Ok st' -> keeps st st') as Hk.
  { intros H. inv H. split; [|reflexivity].
    unfold pstate_groups, frame_groups. simpl.
    now rewrite E, groups_apply_quant. }
  destruct item; try exact Hk; try discriminate; destruct q; discriminate.
Qed.

Lemma opens_open_group (st : pstate) : opens st (open_group st).
Proof.
  split; [|reflexivity]. unfold pstate_groups, open_group. simpl.
  occ_solve.
Qed.

Lemma keeps_open_plain_group (st : pstate) : keeps st (open_plain_group st).
Proof.
  split; [|reflexivity]. unfold pstate_groups, open_plain_group. simpl.
  occ_solve.
Qed.

Lemma keeps_opens (a b c : pstate) : opens a b -> keeps b c -> opens a c.
Proof.
  intros [Hp Hg] [Hp' Hg']. split; [|congruence]. now rewrite Hp'.
Qed.

Lemma keeps_close_group (st st' : pstate) :
  close_group st = Ok st' -> keeps st st'.
Proof.
  unfold close_group.
  destruct (p_stack st) as [|[[n|] parent] stack] eqn:E; [discriminate| |];
    intros H; inv H; (split; [|reflexivity]);
    unfold pstate_groups, frame_groups; simpl; rewrite E; simpl;
    rewrite groups_frame_regex; unfold frame_groups; occ_solve.
Qed.

#[export] Hint Resolve keeps_with_mode keeps_emit keeps_next_alt keeps_repeat_last
  opens_open_group keeps_open_plain_group keeps_close_group : pre.

Ltac grows_tac :=
  intros; simp_res; unfold grows, finish_set; eauto with pre.

(** Outside a set a character never numbers a group: the parenthesis only
    announces one. *)
Lemma step_normal_keeps (c : char) (st st' : pstate) :
  step_normal c st = Ok st' -> keeps st st'.
Proof.
  unfold step_normal. destruct (meta_of c); intros; simp_res; eauto with pre.
Qed.

Lemma step_normal_grows (c : char) (st st' : pstate) :
  step_normal c st = Ok st' -> grows st st'.
Proof. left. eauto using step_normal_keeps. Qed.

(** The character after the parenthesis opens the group and is read in it. *)
Lemma step_group_grows (c : char) (st st' : pstate) :
  step_normal c (open_group st) = Ok st' -> grows st st'.
Proof.
  right. eauto using keeps_opens, opens_open_group, step_normal_keeps.
Qed.

Lemma step_set_grows (negate : bool) (items : list set_item) (c : char)
    (st st' : pstate) :
  step_set negate items c st = Ok st' -> grows st st'.
Proof.
  unfold step_set.
  destruct (_ && _); [|destruct (ch_eqb c ch_bslash)]; grows_tac.
Qed.

Lemma step_range_grows (negate : bool) (items : list set_item) (lo hi : char)
    (st st' : pstate) :
  step_range negate items lo hi st = Ok st' -> grows st st'.
Proof. unfold step_range. destruct (_ <? _)%N; grows_tac. Qed.

#[export] Hint Resolve step_normal_grows step_group_grows step_set_grows
  step_range_grows : pre.

Lemma step_grows (c : char) (st st' : pstate) :
  step c st = Ok st' -> grows st st'.
Proof.
  unfold step. destruct (p_mode st); repeat break_match; intros H;
    try discriminate; eauto with pre; grows_tac.
Qed.

(** ** The invariant *)

Lemma init_pstate_ok : pstate_ok init_pstate.
Proof. apply Permutation_refl. Qed.

Lemma grows_ok (st st' : pstate) : grows st st' -> pstate_ok st -> pstate_ok st'.
Proof.
  unfold pstate_ok, numbered. intros [[Hp Hg]|[Hp Hg]] H; rewrite Hg, Hp.
  - exact H.
  - rewrite seq_S. simpl. occ_solve.
Qed.

Lemma grows_le (st st' : pstate) : grows st st' -> p_groups st <= p_groups st'.
Proof. intros [[_ Hg]|[_ Hg]]; lia. Qed.

Lemma parse_chars_inv (P : pstate -> Prop) (pat : str) : forall st st',
  (forall c a b, P a -> step c a = Ok b -> P b) ->
  P st -> parse_chars st pat = Ok st' -> P st'.
Proof.
  induction pat as [|c rest IH]; intros st st' Hstep Hst H; cbn [parse_chars] in H.
  - now inv H.
  - destruct (lookahead_fails st c rest); [discriminate|]. simp_res. eauto.
Qed.

Lemma parse_chars_ok (pat : str) (st st' : pstate) :
  pstate_ok st -> parse_chars st pat = Ok st' -> pstate_ok st'.
Proof.
  apply (parse_chars_inv pstate_ok). eauto using grows_ok, step_grows.
Qed.

Lemma parse_chars_groups_le (pat : str) (st st' : pstate) :
  parse_chars st pat = Ok st' -> p_groups st <= p_groups st'.
Proof.
  apply (parse_chars_inv (fun x => p_groups st <= p_groups x)); [|lia].
  intros c a b Ha Hs. apply step_grows, grows_le in Hs. lia.
Qed.

Lemma finish_inv (st : pstate) (re : compiled) :
  finish st = Ok re ->
  p_stack st = [] /\ re = mkCompiled (frame_regex (p_cur st)) (p_groups st).
Proof.
  unfold finish. destruct (p_mode st), (p_stack st); intros H; now inv H.
Qed.

Lemma finish_ok (st : pstate) (re : compiled) :
  pstate_ok st -> finish st = Ok re -> well_numbered re.
Proof.
  intros Hst H. apply finish_inv in H. destruct H as [Hs ->].
  unfold well_numbered, pstate_ok, numbered, pstate_groups in *. simpl.
  rewrite Hs in Hst. now rewrite groups_frame_regex.
Qed.

Lemma re_compile_ok (pat : str) (re : compiled) :
  re_compile pat = Ok re -> well_numbered re.
Proof.
  unfold re_compile. intros H. simp_res.
  eauto using finish_ok, parse_chars_ok, init_pstate_ok.
Qed.

(** A pattern that opens with a parenthesis has a first group, unless a
    question mark follows the parenthesis. *)
Lemma re_compile_paren (c : char) (pat : str) (re : compiled) :
  c <> ch_quest -> re_compile (ch_lparen :: c :: pat) = Ok re -> 1 <= c_groups re.
Proof.
  intros Hc. unfold re_compile. rewrite parse_chars_cons.
  destruct (lookahead_fails _ _ _); [discriminate|].
  change (step ch_lparen init_pstate) with (Ok (with_mode MGroupOpen init_pstate) : res pstate).
  cbn [bind]. rewrite parse_chars_cons.
  destruct (lookahead_fails _ _ _); [discriminate|].
  unfold step. cbn [p_mode with_mode]. ch_cases c ch_quest; [congruence|].
  destruct (step_normal c _) as [st1|] eqn:E1; [|discriminate]. cbn [bind].
  intros H. simp_res.
  apply step_normal_keeps in E1. destruct E1 as [_ Hg].
  apply parse_chars_groups_le in Ha. apply finish_inv in H. destruct H as [_ ->].
  cbn [c_groups]. rewrite Hg in Ha. exact Ha.
Qed.

Lemma numbered_NoDup (groups : list nat) (g : nat) :
  numbered groups g -> NoDup groups /\ forall n, In n groups <-> 1 <= n <= g.
Proof.
  intros H. split.
  - apply (Permutation_NoDup (Permutation_sym H)), seq_NoDup.
  - intros n. transitivity (In n (seq 1 g)); [|rewrite in_seq; lia].
    split; apply Permutation_in; [assumption | now apply Permutation_sym].
Qed.

(** ** The captures of a match *)

Lemma run_caps (r : regex) (st st' : mstate) : run r st st' -> caps_within r st st'.
Proof.
  unfold caps_within.
  induction 1; intros k text Hin; cbn [groups_of advance m_caps set_cap In] in *;
    rewrite ?in_app_iff; auto;
    try (destruct Hin as [Hin|Hin]; [inv Hin; now auto|]);
    repeat match goal with
           | IH : forall n t, In _ (m_caps ?s) -> _, H : In _ (m_caps ?s) |- _ =>
               apply IH in H; destruct H as [H|H]
           end; auto; tauto.
Qed.

Lemma search_caps (r : regex) (pos : nat) (rest : str) (ma : bool)
    (skipped : str) (st : mstate) (n : nat) (text : str) :
  search r pos rest ma = Some (skipped, st) ->
  In (n, text) (m_caps st) -> In n (groups_of r).
Proof.
  intros H Hin. apply search_leftmost_aux in H. destruct H as (_ & H & _).
  unfold match_at in H. apply rmatch_follows in H. destruct H as (st' & Hr & Ha).
  unfold accept in Ha. destruct (_ && _); [discriminate|]. inv Ha.
  apply run_caps in Hr. apply Hr in Hin. now destruct Hin.
Qed.

Lemma group_index_error (m : match_obj) (i : nat) :
  group m i = Err IndexError <-> mo_groups m < i.
Proof.
  unfold group. destruct (Nat.eqb_spec i 0) as [->|Hi].
  - split; [discriminate | lia].
  - destruct (Nat.leb_spec i (mo_groups m)); split; (discriminate || lia || reflexivity).
Qed.

(** ** The theorems *)

(** C32 (the groups of a compiled pattern).  Whatever the pattern, when it
    compiles the groups of its tree are numbered 1 to [c_groups], each
    number once: the parser counts the opening parentheses of the capturing
    groups, and a closing one gives the group the number its opening one
    took. *)
Theorem re_compile_well_numbered (pat : str) (re : compiled) :
  re_compile pat = Ok re -> well_numbered re.
Proof. apply re_compile_ok. Qed.

Lemma re_compile_well_numbered_witness :
  well_numbered
    (mkCompiled
       (RCat (RGroup 1 (RAlt (RCat (RGroup 2 (RCat (RChar (chr "a")) REmpty)) REmpty)
                             (RCat (RChar (chr "b")) REmpty)))
             (RCat (RChar (chr "c")) REmpty))
       2).
Proof.
  exact (re_compile_well_numbered $"((a)|b)c" _ eq_refl).
Defined.

(** The groups of a match object.  A match object that [re.sub] builds for
    a compiled pattern holds captures only under the numbers 1 to
    [c_groups], and [group] raises [IndexError] for exactly the numbers
    above [c_groups]. *)
Lemma match_obj_groups (pat : str) (re : compiled) (pos : nat) (rest : str)
    (ma : bool) (skipped : str) (st : mstate) (i : nat) :
  re_compile pat = Ok re ->
  search (c_regex re) pos rest ma = Some (skipped, st) ->
  let m := mk_match re (pos + length skipped) (skipn (length skipped) rest) st in
  (In i (map fst (mo_caps m)) -> 1 <= i <= mo_groups m)
  /\ (group m i = Err IndexError <-> c_groups re < i).
Proof.
  intros Hre Hs m. split; [|apply group_index_error].
  intros Hin. apply in_map_iff in Hin. destruct Hin as ([n text] & <- & Hin).
  apply (search_caps _ _ _ _ _ _ _ _ Hs) in Hin.
  apply re_compile_ok, numbered_NoDup in Hre. now apply (proj2 Hre).
Qed.

Example match_obj_groups_sample :
  (In 3 (map fst (mo_caps (mk_match (mkCompiled sample_regex 2) (0 + 2)
                             (skipn 2 $"x;a=1;") (mkM 5 $";" [(2, $"1"); (1, $"a")])))) ->
   1 <= 3 <= 2)
  /\ (group (mk_match (mkCompiled sample_regex 2) (0 + 2)
               (skipn 2 $"x;a=1;") (mkM 5 $";" [(2, $"1"); (1, $"a")])) 3
      = Err IndexError <-> 2 < 3).
Proof.
  exact (match_obj_groups $"(a)=([^;]*)" (mkCompiled sample_regex 2) 0 $"x;a=1;" false
           $"x;" (mkM 5 $";" [(2, $"1"); (1, $"a")]) 3 eq_refl eq_refl).
Qed.
