(* ===== verification/Tokens.v ===== *)
(** * Tokens: the reference scan that [filter_datum] computes

    [redact_ref fields mask sep] scans a message from left to right: where
    a field followed by an equals sign starts, the field and the sign are
    kept and the text up to the next separator is replaced by the mask;
    elsewhere the character is copied.  The scan is the reference for the
    code, not the rule of the specification: the specification wants a
    field to be the whole key of a token, while the scan, as the code,
    takes a field wherever it stands, at the end of a longer key included,
    and takes the empty field at every equals sign.  This file holds the
    scan, its
    equations and induction principle, and the properties of the transform
    that do not depend on regular expressions: what the output keeps of the
    message, idempotence, secrecy of the values, the behaviour on
    messages made of [key=value] tokens, and the tokens and keys of the
    output of any message ([redact_tokens], [keys_of]).  [Redact] proves
    that the source computes this function. *)

From Stdlib Require Import Ascii String.
From Stdlib Require Import List NArith Arith Bool Lia.
From S2P Require Import Prelude PyStr Regex.
Import ListNotations.
Local Open Scope str_scope.

(** ** The reference tokenizer

    At each position the first field [f], in list order, such that [f=]
    starts here is a key: it is kept with its equals sign, and the text up
    to the next separator is replaced by the mask.  Elsewhere the character
    is copied.  [scan_fuel] is the scan for any way [skip] of passing over
    a value. *)
Definition find_key (fields : list str) (msg : str) : option str :=
  find (fun f => starts_with (f ++ [ch_eq]) msg) fields.

Fixpoint scan_fuel (fields : list str) (mask : str) (skip : str -> str)
    (fuel : nat) (msg : str) : str :=
  match fuel with
  | 0 => msg
  | S fuel' =>
      match find_key fields msg with
      | Some f =>
          f ++ [ch_eq] ++ mask
            ++ scan_fuel fields mask skip fuel' (skip (skipn (length f + 1) msg))
      | None =>
          match msg with
          | [] => []
          | c :: rest => c :: scan_fuel fields mask skip fuel' rest
          end
      end
  end.

(** The scan for a separator of one character: a value ends at the next
    separator. *)
Definition redact_fuel (fields : list str) (mask : str) (sep : char)
    (fuel : nat) (msg : str) : str :=
  scan_fuel fields mask (drop_until sep) fuel msg.

Definition redact_ref (fields : list str) (mask : str) (sep : char) (msg : str) : str :=
  redact_fuel fields mask sep (S (length msg)) msg.

(** The scan for a separator of several characters, as the pattern of the
    source reads it: a value ends at the next character that is any of
    them. *)
Definition redact_set (fields : list str) (mask : str) (seps : str) (msg : str) : str :=
  scan_fuel fields mask (drop_until_any seps) (S (length msg)) msg.

(** ** What a redactor promises

    The interface between the redactor and its clients: an operation with
    the signature of [filter_datum], the configurations it accepts, and the
    promise that on those it returns what the tokenizer computes.  The
    clients (the formatter) are proved against this class; [Redact]
    provides the instance. *)
Class Redactor : Type := {
  redact : list str -> str -> str -> str -> res str;
  accepts : list str -> char -> bool;
  redact_refines : forall (fields : list str) (mask msg : str) (c : char),
    accepts fields c = true ->
    redact fields mask msg [c] = Ok (redact_ref fields mask c msg)
}.

(** [key_hit fields k]: some field ends the text [k], the part of a token
    before its equals sign. *)
Fixpoint key_hit (fields : list str) (k : str) : bool :=
  str_mem k fields
  || match k with
     | [] => false
     | _ :: k' => key_hit fields k'
     end.

(** A [key=value] token, and what becomes of it. *)
Definition token (kv : str * str) : str := fst kv ++ [ch_eq] ++ snd kv.

Definition token_ok (sep : char) (kv : str * str) : bool :=
  free_of ch_eq (fst kv) && free_of sep (fst kv)
  && free_of ch_eq (snd kv) && free_of sep (snd kv).

Definition mask_pair (fields : list str) (mask : str) (kv : str * str) : str * str :=
  (fst kv, if key_hit fields (fst kv) then mask else snd kv).

(** Two tokens with the same key whose values may differ only where the
    key is a field, and then hold no separator. *)
Definition same_public (fields : list str) (sep : char) (kv1 kv2 : str * str) : Prop :=
  fst kv1 = fst kv2
  /\ (snd kv1 = snd kv2
      \/ (In (fst kv1) fields /\ ~ In sep (snd kv1) /\ ~ In sep (snd kv2))).

Definition same_publicb (fields : list str) (sep : char) (kv1 kv2 : str * str) : bool :=
  str_eqb (fst kv1) (fst kv2)
  && (str_eqb (snd kv1) (snd kv2)
      || str_mem (fst kv1) fields && free_of sep (snd kv1) && free_of sep (snd kv2)).

(** What a reader of a message finds: the key of a token is its text
    before the first equals sign, the keys of a message are those of the
    tokens between separators. *)
Definition key_of (t : str) : str := fst (partition ch_eq t).

Definition keys_of (sep msg : str) : res (list str) :=
  (toks <- str_split sep msg ;; Ok (map key_of toks))%res.

(** ** Keys *)

Section Keys.
Variable fields : list str.

Lemma find_key_Some (msg f : str) :
  find_key fields msg = Some f ->
  In f fields /\ msg = f ++ [ch_eq] ++ skipn (length f + 1) msg.
Proof.
  unfold find_key. intros H. apply find_some in H. destruct H as [Hin Hs].
  split; [assumption|]. apply starts_with_skipn in Hs.
  rewrite length_app in Hs. simpl in Hs. now rewrite <- app_assoc in Hs.
Qed.

Lemma find_key_nil : find_key fields [] = None.
Proof.
  unfold find_key. induction fields as [|f fs IH]; simpl; [reflexivity|].
  destruct f; simpl; exact IH.
Qed.

Lemma find_key_length (msg f : str) :
  find_key fields msg = Some f -> length f + 1 <= length msg.
Proof.
  intros H. apply find_key_Some in H. destruct H as [_ H].
  apply (f_equal (@length N)) in H. rewrite !length_app in H. simpl in H. lia.
Qed.

End Keys.

(** ** The scan: its equations, for any way of passing over a value *)

Section Scan.
Variables (fields : list str) (mask : str) (skip : str -> str).
Hypothesis skip_length : forall s, length (skip s) <= length s.

Local Abbreviation scan n := (scan_fuel fields mask skip n).

Lemma scan_shrinks (msg f : str) :
  find_key fields msg = Some f ->
  length (skip (skipn (length f + 1) msg)) < length msg.
Proof.
  intros H. pose proof (find_key_length fields msg f H).
  pose proof (skip_length (skipn (length f + 1) msg)) as Hd.
  rewrite length_skipn in Hd. lia.
Qed.

Lemma scan_fuel_irrel (n : nat) : forall m msg,
  length msg < n -> length msg < m -> scan n msg = scan m msg.
Proof.
  induction n as [|n IH]; intros m msg Hn Hm; [lia|].
  destruct m as [|m]; [lia|]. simpl.
  destruct (find_key fields msg) as [f|] eqn:E.
  - pose proof (scan_shrinks msg f E). do 3 f_equal. apply IH; lia.
  - destruct msg as [|c rest]; [reflexivity|]. simpl in Hn, Hm.
    f_equal. apply IH; lia.
Qed.

Lemma scan_fuel_S (fuel : nat) (msg : str) :
  scan (S fuel) msg =
  match find_key fields msg with
  | Some f => f ++ [ch_eq] ++ mask ++ scan fuel (skip (skipn (length f + 1) msg))
  | None =>
      match msg with
      | [] => []
      | c :: rest => c :: scan fuel rest
      end
  end.
Proof. reflexivity. Qed.

Lemma scan_nil : scan 1 [] = [].
Proof. now rewrite scan_fuel_S, find_key_nil. Qed.

Lemma scan_hit (msg f : str) :
  find_key fields msg = Some f ->
  scan (S (length msg)) msg =
  f ++ [ch_eq] ++ mask
    ++ scan (S (length (skip (skipn (length f + 1) msg))))
         (skip (skipn (length f + 1) msg)).
Proof.
  intros H. rewrite (scan_fuel_S (length msg) msg), H. do 3 f_equal.
  pose proof (scan_shrinks msg f H). apply scan_fuel_irrel; lia.
Qed.

Lemma scan_miss (c : char) (rest : str) :
  find_key fields (c :: rest) = None ->
  scan (S (length (c :: rest))) (c :: rest) = c :: scan (S (length rest)) rest.
Proof. intros H. now rewrite (scan_fuel_S (length (c :: rest))), H. Qed.

(** Induction along the scan. *)
Lemma scan_ind (P : str -> Prop) :
  P [] ->
  (forall msg f, find_key fields msg = Some f ->
     P (skip (skipn (length f + 1) msg)) -> P msg) ->
  (forall c rest, find_key fields (c :: rest) = None -> P rest -> P (c :: rest)) ->
  forall msg, P msg.
Proof.
  intros Hnil Hhit Hmiss msg.
  remember (length msg) as n eqn:Hn. revert msg Hn.
  induction n as [n IH] using lt_wf_ind. intros msg ->.
  destruct (find_key fields msg) as [f|] eqn:E.
  - apply (Hhit msg f E). eapply IH; [|reflexivity]. now apply scan_shrinks.
  - destruct msg as [|c rest]; [exact Hnil|].
    apply (Hmiss c rest E). eapply IH; [|reflexivity]. simpl. lia.
Qed.

End Scan.

(** Two ways of passing over a value that agree give the same scan. *)
Lemma scan_fuel_ext (fields : list str) (mask : str) (skip1 skip2 : str -> str) :
  (forall s, skip1 s = skip2 s) ->
  forall fuel msg, scan_fuel fields mask skip1 fuel msg = scan_fuel fields mask skip2 fuel msg.
Proof.
  intros H. induction fuel as [|fuel IH]; intros msg; [reflexivity|]. simpl.
  destruct (find_key fields msg); [now rewrite H, IH|].
  destruct msg; [reflexivity | now rewrite IH].
Qed.

(** ** The reference tokenizer: its equations *)

Section Reference.
Variables (fields : list str) (mask : str) (sep : char).

Lemma find_key_shrinks (msg f : str) :
  find_key fields msg = Some f ->
  length (drop_until sep (skipn (length f + 1) msg)) < length msg.
Proof. apply scan_shrinks, drop_until_length. Qed.

Lemma redact_fuel_enough (fuel : nat) (msg : str) :
  length msg < fuel ->
  redact_fuel fields mask sep fuel msg = redact_ref fields mask sep msg.
Proof. intros H. apply scan_fuel_irrel; [apply drop_until_length | lia | lia]. Qed.

Lemma redact_ref_nil : redact_ref fields mask sep [] = [].
Proof. apply scan_nil. Qed.

Lemma redact_ref_hit (msg f : str) :
  find_key fields msg = Some f ->
  redact_ref fields mask sep msg =
  f ++ [ch_eq] ++ mask
    ++ redact_ref fields mask sep (drop_until sep (skipn (length f + 1) msg)).
Proof. apply scan_hit, drop_until_length. Qed.

Lemma redact_ref_miss (c : char) (rest : str) :
  find_key fields (c :: rest) = None ->
  redact_ref fields mask sep (c :: rest) = c :: redact_ref fields mask sep rest.
Proof. apply scan_miss. Qed.

(** Induction along the scan of the tokenizer. *)
Lemma redact_ind (P : str -> Prop) :
  P [] ->
  (forall msg f, find_key fields msg = Some f ->
     P (drop_until sep (skipn (length f + 1) msg)) -> P msg) ->
  (forall c rest, find_key fields (c :: rest) = None -> P rest -> P (c :: rest)) ->
  forall msg, P msg.
Proof. apply scan_ind, drop_until_length. Qed.

End Reference.

(** ** The tokenizer for a separator of several characters *)

Section ReferenceSet.
Variables (fields : list str) (mask : str) (seps : str).

Lemma redact_set_nil : redact_set fields mask seps [] = [].
Proof. apply scan_nil. Qed.

Lemma redact_set_hit (msg f : str) :
  find_key fields msg = Some f ->
  redact_set fields mask seps msg =
  f ++ [ch_eq] ++ mask
    ++ redact_set fields mask seps (drop_until_any seps (skipn (length f + 1) msg)).
Proof. apply scan_hit, drop_until_any_length. Qed.

Lemma redact_set_miss (c : char) (rest : str) :
  find_key fields (c :: rest) = None ->
  redact_set fields mask seps (c :: rest) = c :: redact_set fields mask seps rest.
Proof. apply scan_miss. Qed.

Lemma redact_set_ind (P : str -> Prop) :
  P [] ->
  (forall msg f, find_key fields msg = Some f ->
     P (drop_until_any seps (skipn (length f + 1) msg)) -> P msg) ->
  (forall c rest, find_key fields (c :: rest) = None -> P rest -> P (c :: rest)) ->
  forall msg, P msg.
Proof. apply scan_ind, drop_until_any_length. Qed.

End ReferenceSet.

(** With one character the two tokenizers are the same. *)
Lemma redact_set_one (fields : list str) (mask : str) (c : char) (msg : str) :
  redact_set fields mask [c] msg = redact_ref fields mask c msg.
Proof. apply scan_fuel_ext, drop_until_any_one. Qed.

Lemma same_publicb_ok (fields : list str) (sep : char) (kv1 kv2 : str * str) :
  same_publicb fields sep kv1 kv2 = true -> same_public fields sep kv1 kv2.
Proof.
  unfold same_publicb, same_public.
  rewrite andb_true_iff, orb_true_iff, !andb_true_iff, str_mem_In, !free_of_iff.
  destruct (str_eqb_spec (fst kv1) (fst kv2)), (str_eqb_spec (snd kv1) (snd kv2));
    intuition discriminate.
Qed.

(** After a key that ends inside [pre ++ f ++ [ch_eq]], the scan resumes in
    front of a shorter [pre], or after the value. *)
Lemma residual_cases (sep : char) (f pre post : str) (n : nat) :
  ~ In sep f -> sep <> ch_eq -> at_boundary sep post ->
  1 <= n -> n <= length (pre ++ f ++ [ch_eq]) ->
  (exists pre', length pre' < length pre /\
     forall v, drop_until sep (skipn n (pre ++ f ++ [ch_eq] ++ v ++ post)) =
               pre' ++ f ++ [ch_eq] ++ v ++ post)
  \/ (forall v, ~ In sep v ->
        drop_until sep (skipn n (pre ++ f ++ [ch_eq] ++ v ++ post)) = post).
Proof.
  intros Hf Hne Hpost Hn Hlen.
  assert (Hw : ~ In sep (f ++ [ch_eq])).
  { rewrite in_app_iff. simpl. intuition congruence. }
  assert (Hsplit : forall v, skipn n (pre ++ f ++ [ch_eq] ++ v ++ post) =
                             skipn n (pre ++ f ++ [ch_eq]) ++ v ++ post).
  { intros v. rewrite !(app_assoc pre), !(app_assoc (pre ++ f)).
    rewrite skipn_app_le; [reflexivity | now rewrite <- app_assoc]. }
  destruct (in_dec N.eq_dec sep (skipn n (pre ++ f ++ [ch_eq]))) as [Hs|Hs].
  - left. destruct (drop_until_into_prefix sep (f ++ [ch_eq]) pre n Hw Hs)
      as (pre' & Hl & Hx).
    exists pre'. split; [lia|]. intros v.
    now rewrite Hsplit, Hx, <- !app_assoc.
  - right. intros v Hv. rewrite Hsplit, !drop_until_app by assumption.
    now apply drop_until_at_boundary.
Qed.


(** ** Tokens *)

Lemma token_ok_inv (c : char) (kv : str * str) :
  token_ok c kv = true ->
  ~ In ch_eq (fst kv) /\ ~ In c (fst kv) /\ ~ In ch_eq (snd kv) /\ ~ In c (snd kv).
Proof. unfold token_ok. rewrite !andb_true_iff, !free_of_iff. tauto. Qed.

Lemma token_sep_free (c : char) (kv : str * str) :
  c <> ch_eq -> token_ok c kv = true -> ~ In c (token kv).
Proof.
  intros Hc H. apply token_ok_inv in H. unfold token.
  rewrite !in_app_iff. simpl. intuition congruence.
Qed.

(** ** The keys that are hit *)

Lemma key_hit_iff (fields : list str) (k : str) :
  key_hit fields k = true <-> exists p f, In f fields /\ k = p ++ f.
Proof.
  induction k as [|a k IH]; cbn [key_hit]; rewrite orb_true_iff, str_mem_In.
  - split.
    + intros [H|H]; [exists [], []; auto | discriminate].
    + intros (p & f & Hf & E). symmetry in E. apply app_eq_nil in E.
      destruct E as [_ ->]. now left.
  - rewrite IH. split.
    + intros [H|(p & f & Hf & ->)]; [exists [], (a :: k); auto|].
      exists (a :: p), f. auto.
    + intros ([|b p] & f & Hf & E); simpl in E; [left; congruence|].
      inv E. right. eauto.
Qed.

(** ** Properties of the transform *)

Section Properties.
Variables (fields : list str) (mask : str) (sep : char).
Local Abbreviation scan := (redact_ref fields mask sep).
Local Abbreviation key := (find_key fields).

(** *** Facts that need no hypothesis *)

Lemma find_key_In_not_None (msg f : str) :
  In f fields -> starts_with (f ++ [ch_eq]) msg = true -> key msg <> None.
Proof.
  intros Hin Hs H. unfold find_key in H.
  apply (find_none _ _ H) in Hin. congruence.
Qed.

Lemma find_key_ext (m1 m2 : str) :
  (forall f, In f fields ->
     starts_with (f ++ [ch_eq]) m1 = starts_with (f ++ [ch_eq]) m2) ->
  key m1 = key m2.
Proof.
  unfold find_key. induction fields as [|f fs IH]; intros H; [reflexivity|].
  simpl. rewrite (H f) by now left.
  destruct (starts_with (f ++ [ch_eq]) m2); [reflexivity|].
  apply IH. intros g Hg. apply H. now right.
Qed.

(** The text through the first equals sign is kept. *)
Lemma redact_take_through (msg : str) :
  take_through ch_eq (scan msg) = take_through ch_eq msg.
Proof.
  induction msg as [|msg f Hf IH|a rest Ha IH] using (redact_ind fields sep).
  - now rewrite redact_ref_nil.
  - rewrite (redact_ref_hit _ _ _ _ _ Hf).
    apply find_key_Some in Hf. destruct Hf as [_ Hm]. rewrite Hm at 2.
    rewrite !(app_assoc f [ch_eq]).
    apply take_through_same. apply in_or_app. right. now left.
  - rewrite (redact_ref_miss _ _ _ _ _ Ha). now apply take_through_cons.
Qed.

Lemma redact_hd (msg : str) : hd_error (scan msg) = hd_error msg.
Proof.
  destruct (key msg) as [f|] eqn:E.
  - rewrite (redact_ref_hit _ _ _ _ _ E).
    apply find_key_Some in E. destruct E as [_ Hm]. rewrite Hm at 2.
    rewrite !(app_assoc f [ch_eq]).
    apply hd_error_same. destruct f; discriminate.
  - destruct msg as [|a rest]; [now rewrite redact_ref_nil|].
    now rewrite (redact_ref_miss _ _ _ _ _ E).
Qed.

Lemma redact_boundary (msg : str) :
  at_boundary sep msg -> at_boundary sep (scan msg).
Proof. apply at_boundary_hd. symmetry. apply redact_hd. Qed.

(** Text without an equals sign has no key. *)
Lemma find_key_no_eq (msg : str) : ~ In ch_eq msg -> key msg = None.
Proof.
  intros H. destruct (key msg) as [f|] eqn:E; [|reflexivity].
  apply find_key_Some in E. destruct E as [_ Hm]. exfalso. apply H.
  rewrite Hm. apply in_or_app. right. now left.
Qed.

Lemma redact_no_eq (msg : str) : ~ In ch_eq msg -> scan msg = msg.
Proof.
  induction msg as [|a rest IH]; intros H; [apply redact_ref_nil|].
  rewrite redact_ref_miss by now apply find_key_no_eq.
  f_equal. apply IH. simpl in H. tauto.
Qed.

(** A message in which no field is followed by an equals sign is kept. *)
Lemma redact_no_key (msg : str) :
  (forall f, In f fields -> ~ occurs (f ++ [ch_eq]) msg) -> scan msg = msg.
Proof.
  induction msg as [|a rest IH]; intros H; [apply redact_ref_nil|].
  destruct (key (a :: rest)) as [f|] eqn:E.
  - apply find_key_Some in E. destruct E as [Hin Hm]. exfalso. apply (H f Hin).
    rewrite Hm, app_assoc. apply occurs_head.
  - rewrite (redact_ref_miss _ _ _ _ _ E). f_equal. apply IH.
    intros f Hf Ho. apply (H f Hf). now apply occurs_cons.
Qed.

(** The separators of the message are those of the output. *)
Lemma redact_count_sep (msg : str) :
  ~ In sep mask ->
  count_occ_ch sep (scan msg) = count_occ_ch sep msg.
Proof.
  intros Hmask.
  induction msg as [|msg f Hf IH|a rest Ha IH] using (redact_ind fields sep).
  - now rewrite redact_ref_nil.
  - rewrite (redact_ref_hit _ _ _ _ _ Hf).
    pose proof (find_key_Some _ _ _ Hf) as [Hin Hm]. rewrite Hm at 2.
    rewrite <- (take_drop_until sep (skipn (length f + 1) msg)) at 2.
    rewrite !count_occ_ch_app, IH.
    rewrite (count_occ_ch_not_In sep mask Hmask).
    rewrite (count_occ_ch_not_In sep (take_until sep _)) by apply take_until_not_In.
    lia.
  - rewrite (redact_ref_miss _ _ _ _ _ Ha), !count_occ_ch_cons. now rewrite IH.
Qed.

(** The output is longer than the message by at most one mask for each
    equals sign. *)
Lemma redact_length (msg : str) :
  length (scan msg) <= length msg + count_occ_ch ch_eq msg * length mask.
Proof.
  induction msg as [|msg f Hf IH|a rest Ha IH] using (redact_ind fields sep).
  - now rewrite redact_ref_nil.
  - rewrite (redact_ref_hit _ _ _ _ _ Hf).
    pose proof (find_key_Some _ _ _ Hf) as [Hin Hm]. rewrite Hm at 2 3.
    rewrite <- (take_drop_until sep (skipn (length f + 1) msg)) at 2 3.
    rewrite !count_occ_ch_app, !length_app, count_occ_ch_cons, ch_eqb_refl.
    cbn [length]. nia.
  - rewrite (redact_ref_miss _ _ _ _ _ Ha), count_occ_ch_cons. cbn [length]. lia.
Qed.

(** *** Facts about fields without an equals sign *)

Hypothesis fields_eq_free : Forall (fun f => ~ In ch_eq f) fields.

Lemma field_eq_free (f : str) : In f fields -> ~ In ch_eq f.
Proof. intros H. rewrite Forall_forall in fields_eq_free. auto. Qed.

(** Whether a key starts here only depends on the text through the first
    equals sign. *)
Lemma find_key_take_through (msg : str) :
  key (take_through ch_eq msg) = key msg.
Proof.
  apply find_key_ext. intros f Hf.
  apply starts_with_take_through. now apply field_eq_free.
Qed.

Lemma find_key_same_through (m1 m2 : str) :
  take_through ch_eq m1 = take_through ch_eq m2 -> key m1 = key m2.
Proof.
  intros H. rewrite <- (find_key_take_through m1), <- (find_key_take_through m2).
  now rewrite H.
Qed.

(** A key ends at the first equals sign. *)
Lemma find_key_bound (a b f : str) :
  key (a ++ b) = Some f -> In ch_eq a -> length f + 1 <= length a.
Proof.
  intros Hk Ha. rewrite <- find_key_take_through in Hk.
  rewrite take_through_app_In in Hk by assumption.
  apply find_key_length in Hk.
  pose proof (take_through_length ch_eq a). lia.
Qed.

(** Redacting twice is redacting once, for a mask without separator. *)
Lemma redact_idempotent (msg : str) :
  ~ In sep mask -> scan (scan msg) = scan msg.
Proof.
  intros Hmask.
  induction msg as [|msg f Hf IH|a rest Ha IH] using (redact_ind fields sep).
  - now rewrite !redact_ref_nil.
  - rewrite (redact_ref_hit _ _ _ _ _ Hf).
    set (R := scan (drop_until sep (skipn (length f + 1) msg))) in *.
    assert (Hk : key (f ++ [ch_eq] ++ mask ++ R) = Some f).
    { rewrite <- Hf. apply find_key_same_through.
      pose proof (find_key_Some _ _ _ Hf) as [_ Hm]. rewrite Hm at 1.
      rewrite !(app_assoc f [ch_eq]). apply take_through_same.
      apply in_or_app. right. now left. }
    rewrite (redact_ref_hit _ _ _ _ _ Hk). do 3 f_equal.
    rewrite skipn_key, drop_until_app by assumption.
    rewrite drop_until_at_boundary by (apply redact_boundary, drop_until_boundary).
    exact IH.
  - rewrite (redact_ref_miss _ _ _ _ _ Ha).
    rewrite redact_ref_miss; [now rewrite IH|].
    rewrite <- Ha. apply find_key_same_through, take_through_cons, redact_take_through.
Qed.

(** *** Secrecy: the value of a listed field does not reach the output *)

Lemma find_key_secret (f pre v1 v2 post : str) :
  key (pre ++ f ++ [ch_eq] ++ v1 ++ post) = key (pre ++ f ++ [ch_eq] ++ v2 ++ post).
Proof.
  apply find_key_same_through.
  rewrite !(app_assoc pre), !(app_assoc (pre ++ f)).
  apply take_through_same. apply in_or_app. right. now left.
Qed.

Lemma find_key_secret_bound (f pre v post g : str) :
  key (pre ++ f ++ [ch_eq] ++ v ++ post) = Some g ->
  length g + 1 <= length (pre ++ f ++ [ch_eq]).
Proof.
  rewrite !(app_assoc pre), !(app_assoc (pre ++ f)). intros H.
  apply find_key_bound in H; [|apply in_or_app; right; now left].
  rewrite !length_app in *. simpl in *. lia.
Qed.

Lemma redact_secret (f v1 v2 post : str) :
  In f fields -> ~ In sep f -> sep <> ch_eq ->
  ~ In sep v1 -> ~ In sep v2 -> at_boundary sep post ->
  forall pre,
  scan (pre ++ f ++ [ch_eq] ++ v1 ++ post) =
  scan (pre ++ f ++ [ch_eq] ++ v2 ++ post).
Proof.
  intros Hin Hf Hne H1 H2 Hpost pre.
  remember (length pre) as n eqn:Hn. revert pre Hn.
  induction n as [n IH] using lt_wf_ind. intros pre ->.
  pose proof (find_key_secret f pre v1 v2 post) as Hsame.
  destruct (key (pre ++ f ++ [ch_eq] ++ v2 ++ post)) as [g|] eqn:Ek.
  - rewrite (redact_ref_hit _ _ _ _ _ Hsame), (redact_ref_hit _ _ _ _ _ Ek).
    do 3 f_equal.
    destruct (residual_cases sep f pre post (length g + 1)) as [(pre' & Hl & Hx)|Hx];
      try assumption.
    + lia.
    + now apply find_key_secret_bound in Ek.
    + rewrite !Hx. apply (IH (length pre')); [lia | reflexivity].
    + now rewrite !Hx.
  - destruct pre as [|a pre].
    + apply (find_key_In_not_None _ f Hin) in Ek; [contradiction|].
      rewrite app_nil_l, (app_assoc f). apply starts_with_app.
    + simpl app in *. rewrite (redact_ref_miss _ _ _ _ _ Hsame), (redact_ref_miss _ _ _ _ _ Ek).
      f_equal. apply (IH (length pre)); [simpl; lia | reflexivity].
Qed.

(** *** Messages made of tokens: fields and separator do not overlap *)

Section Separated.
Hypothesis fields_sep_free : Forall (fun f => ~ In sep f) fields.
Hypothesis sep_not_eq : sep <> ch_eq.

Lemma field_sep_free (f : str) : In f fields -> ~ In sep (f ++ [ch_eq]).
Proof.
  intros H. rewrite Forall_forall in fields_sep_free.
  rewrite in_app_iff. simpl. specialize (fields_sep_free f H). intuition congruence.
Qed.

(** A key does not reach over a separator. *)
Lemma find_key_before (t rest : str) : key (t ++ sep :: rest) = key t.
Proof.
  apply find_key_ext. intros f Hf. apply starts_with_before. now apply field_sep_free.
Qed.

Lemma find_key_sep (rest : str) : key (sep :: rest) = None.
Proof. change (sep :: rest) with ([] ++ sep :: rest). rewrite find_key_before. apply find_key_nil. Qed.

Lemma redact_sep (rest : str) : scan (sep :: rest) = sep :: scan rest.
Proof. apply redact_ref_miss, find_key_sep. Qed.

(** The part of the message before a separator is redacted on its own. *)
Lemma redact_token (t rest : str) :
  ~ In sep t -> scan (t ++ sep :: rest) = scan t ++ sep :: scan rest.
Proof.
  induction t as [|a t IH]; intros Ht.
  - rewrite redact_ref_nil. apply redact_sep.
  - pose proof (find_key_before (a :: t) rest) as Hk.
    destruct (key (a :: t)) as [f|] eqn:E.
    + rewrite (redact_ref_hit _ _ _ _ _ Hk), (redact_ref_hit _ _ _ _ _ E).
      rewrite skipn_app_le by now apply find_key_length in E.
      assert (Hs : ~ In sep (skipn (length f + 1) (a :: t))).
      { intros H. now apply In_skipn in H. }
      rewrite drop_until_app, (drop_until_none sep (skipn _ (a :: t))) by assumption.
      rewrite (drop_until_at_boundary sep (sep :: rest)) by auto with pre.
      now rewrite redact_sep, redact_ref_nil, <- !app_assoc.
    + simpl app in *. rewrite (redact_ref_miss _ _ _ _ _ Hk), (redact_ref_miss _ _ _ _ _ E).
      rewrite IH by (simpl in Ht; tauto). reflexivity.
Qed.

(** A message made of tokens is redacted token by token. *)
Lemma redact_join (toks : list str) :
  Forall (fun t => ~ In sep t) toks ->
  scan (str_join [sep] toks) = str_join [sep] (map scan toks).
Proof.
  induction 1 as [|t toks Ht Hr IH]; [apply redact_ref_nil|].
  destruct toks as [|u toks]; [reflexivity|].
  change (map scan (t :: u :: toks)) with (scan t :: scan u :: map scan toks).
  rewrite !str_join_cons. change ([sep] ++ ?x) with (sep :: x).
  rewrite redact_token by assumption. now rewrite IH.
Qed.

(** The key of a token: its text before the equals sign, if a field. *)
Lemma find_key_token (k v : str) :
  ~ In ch_eq k ->
  key (k ++ [ch_eq] ++ v) = if str_mem k fields then Some k else None.
Proof.
  intros Hk. destruct (key (k ++ [ch_eq] ++ v)) as [f|] eqn:E.
  - pose proof (find_key_Some _ _ _ E) as [Hin Hm].
    assert (f = k) as ->.
    { apply (f_equal (take_through ch_eq)) in Hm. cbn [app] in Hm.
      rewrite !take_through_key in Hm; [|now apply field_eq_free|assumption].
      now apply app_inj_tail in Hm. }
    now rewrite (proj2 (str_mem_In k fields) Hin).
  - destruct (str_mem k fields) eqn:Em; [|reflexivity].
    apply str_mem_In in Em. exfalso. revert E.
    apply (find_key_In_not_None _ k Em).
    rewrite app_assoc. apply starts_with_app.
Qed.

(** A token [k=v]: the value is masked when a field ends [k]. *)
Lemma redact_key_value (v : str) (k : str) :
  ~ In ch_eq k ->
  scan (k ++ [ch_eq] ++ v) =
  k ++ [ch_eq] ++ (if key_hit fields k then mask ++ scan (drop_until sep v)
                   else scan v).
Proof.
  induction k as [|a k IH]; intros Hk;
    pose proof (find_key_token _ v Hk) as E; cbn [key_hit];
    destruct (str_mem _ fields); cbn [orb].
  - rewrite (redact_ref_hit _ _ _ _ _ E). now rewrite (skipn_key [] v ch_eq).
  - apply (redact_ref_miss _ _ _ _ _ E).
  - rewrite (redact_ref_hit _ _ _ _ _ E). now rewrite skipn_key.
  - simpl app in *. rewrite (redact_ref_miss _ _ _ _ _ E).
    rewrite IH by (simpl in Hk; tauto). reflexivity.
Qed.

(** A token whose value has neither equals sign nor separator. *)
Lemma redact_pair (k v : str) :
  ~ In ch_eq k -> ~ In ch_eq v -> ~ In sep v ->
  scan (k ++ [ch_eq] ++ v) = k ++ [ch_eq] ++ (if key_hit fields k then mask else v).
Proof.
  intros Hk Hv Hs. rewrite redact_key_value by assumption.
  rewrite drop_until_none, redact_ref_nil, app_nil_r, redact_no_eq by assumption.
  reflexivity.
Qed.

(** A message of tokens: each value is masked or kept, by its key. *)
Lemma redact_pairs (kvs : list (str * str)) :
  forallb (token_ok sep) kvs = true ->
  scan (str_join [sep] (map token kvs)) =
  str_join [sep] (map token (map (mask_pair fields mask) kvs)).
Proof.
  intros Hk. rewrite forallb_forall in Hk.
  rewrite redact_join.
  - rewrite !map_map. f_equal. apply map_ext_in. intros kv Hin.
    destruct (token_ok_inv sep kv (Hk kv Hin)) as (H1 & _ & H3 & H4).
    now apply redact_pair.
  - apply Forall_forall. intros x Hx. apply in_map_iff in Hx.
    destruct Hx as (kv & <- & Hin). apply token_sep_free; auto.
Qed.

(** A separator inside the value of a field ends the masked span: the
    rest of the value is kept. *)
Lemma redact_value_split (f v1 v2 : str) :
  In f fields -> ~ In sep v1 ->
  scan (f ++ [ch_eq] ++ v1 ++ sep :: v2) = f ++ [ch_eq] ++ mask ++ sep :: scan v2.
Proof.
  intros Hin Hv.
  pose proof (find_key_token f (v1 ++ sep :: v2) (field_eq_free f Hin)) as E.
  rewrite (proj2 (str_mem_In f fields) Hin) in E.
  rewrite (redact_ref_hit _ _ _ _ _ E), skipn_key, drop_until_app by assumption.
  rewrite drop_until_at_boundary by auto with pre. now rewrite redact_sep.
Qed.

(** A mask that holds the separator: the first pass writes it as the value
    of the field, the second pass reads that value up to the separator and
    masks it again, so the output grows. *)
Lemma redact_mask_sep (f v : str) :
  In f fields -> In sep mask -> ~ In sep v ->
  exists tail,
    scan (f ++ [ch_eq] ++ v) = f ++ [ch_eq] ++ mask
    /\ scan (f ++ [ch_eq] ++ mask) = f ++ [ch_eq] ++ mask ++ sep :: tail.
Proof.
  intros Hf Hm Hv. destruct (drop_until_In sep mask Hm) as (m2 & E).
  exists (scan m2). split.
  - rewrite redact_key_value by now apply field_eq_free.
    rewrite (proj2 (key_hit_iff fields f)) by (exists [], f; auto).
    now rewrite drop_until_none, redact_ref_nil, app_nil_r.
  - rewrite <- (take_drop_until sep mask) at 2. rewrite E.
    apply redact_value_split; [assumption | apply take_until_not_In].
Qed.

Lemma redact_sep_free (t : str) : ~ In sep mask -> ~ In sep t -> ~ In sep (scan t).
Proof.
  intros Hm H. apply count_occ_ch_zero.
  rewrite redact_count_sep by assumption. now apply count_occ_ch_not_In.
Qed.

Lemma redact_key_of (t : str) : key_of (scan t) = key_of t.
Proof.
  unfold key_of, partition. cbn [fst].
  now rewrite <- take_until_through, redact_take_through, take_until_through.
Qed.

(** Whatever the message, the tokens of the output are the tokens of the
    message, each redacted: none is added, removed or moved. *)
Lemma redact_tokens (msg : str) :
  ~ In sep mask ->
  split_go [sep] 0 (scan msg) = map scan (split_go [sep] 0 msg).
Proof.
  intros Hm.
  rewrite <- (join_split_go sep [] msg 0) at 1 by (simpl; lia). cbn [skipn].
  rewrite redact_join by apply split_go_free.
  apply split_join.
  - pose proof (split_go_ne [sep] msg 0). now destruct (split_go [sep] 0 msg).
  - apply Forall_forall. intros t Ht. apply in_map_iff in Ht. destruct Ht as (u & <- & Hu).
    apply redact_sep_free; [assumption|]. pose proof (split_go_free sep msg) as Hf.
    rewrite Forall_forall in Hf. auto.
Qed.

Lemma redact_keys (msg : str) :
  ~ In sep mask -> keys_of [sep] (scan msg) = keys_of [sep] msg.
Proof.
  intros Hm. unfold keys_of, str_split. cbn [bind]. f_equal.
  rewrite redact_tokens, map_map by assumption. apply map_ext. apply redact_key_of.
Qed.
(** One token changed in front of a boundary, behind any text. *)
Lemma redact_token_secret (kv1 kv2 : str * str) (pre post : str) :
  same_public fields sep kv1 kv2 -> at_boundary sep post ->
  scan (pre ++ token kv1 ++ post) = scan (pre ++ token kv2 ++ post).
Proof.
  destruct kv1 as [k v1], kv2 as [k' v2]. unfold token, same_public. cbn [fst snd].
  intros [E [E'|(Hin & H1 & H2)]] Hp; subst; [reflexivity|].
  rewrite <- !app_assoc. rewrite Forall_forall in fields_sep_free.
  apply redact_secret; auto.
Qed.

(** Tokens joined by the separator and any glue after it: the output does
    not depend on the values of the fields. *)
Lemma redact_join_secret (glue : str) (kvs1 kvs2 : list (str * str)) :
  Forall2 (same_public fields sep) kvs1 kvs2 ->
  forall pre,
  scan (pre ++ str_join (sep :: glue) (map token kvs1)) =
  scan (pre ++ str_join (sep :: glue) (map token kvs2)).
Proof.
  induction 1 as [|kv1 kv2 l1 l2 Hkv Hl IH]; intros pre; [reflexivity|].
  destruct Hl as [|kv1' kv2' l1 l2 Hkv' Hl].
  - cbn [map str_join]. rewrite <- (app_nil_r (token kv1)), <- (app_nil_r (token kv2)).
    apply redact_token_secret; auto with pre.
  - cbn [map] in *. rewrite !str_join_cons. cbn [app].
    rewrite (redact_token_secret kv1 kv2 pre _ Hkv (at_boundary_cons sep _)).
    change (sep :: glue ++ ?x) with ((sep :: glue) ++ x).
    rewrite !(app_assoc pre), !(app_assoc (pre ++ token kv2)). apply IH.
Qed.

End Separated.

End Properties.
