(* ===== verification/Redact.v ===== *)
(** * Redact: [filter_datum] and the scan it implements

    [pattern] and [filter_datum] are lines 15-32 of the source: the pattern
    is built with [str.format] from the fields joined by a bar and the
    separator, and [re.sub] replaces every match by its first group, an
    equals sign and the redaction.  [redact_ref] is the reference scan of
    [Tokens], [redact_set] the same scan for a separator of several
    characters; the theorems relate the source to them and state what the
    transform guarantees, and where it departs from the specification.  [pattern_language] says what the
    pattern matches, in the sense of [matches]; the examples [spec_case_*]
    are the concrete cases of the specification. *)

From Stdlib Require Import Ascii String.
From Stdlib Require Import List NArith Arith Bool Lia.
From Stdlib Require Import Morphisms Setoid.
From S2P Require Import Prelude PyStr Regex Matcher Semantics Language Groups Tokens.
Import ListNotations.
Local Open Scope str_scope.
Local Open Scope res_scope.
Local Open Scope regex_scope.

(** ** The source *)

(** Line 12: the fields considered personal data. *)
Definition PII_FIELDS : list str :=
  [$"name"; $"email"; $"phone"; $"ssn"; $"password"].

(** Line 29: the pattern, built by [str.format]. *)
Definition pattern (fields : list str) (separator : str) : res str :=
  str_format $"({})=([^{}]*)" [str_join $"|" fields; separator].

(** Line 32: the callback given to [re.sub]. *)
Definition replacement (redaction : str) (m : match_obj) : res str :=
  g <- group m 1 ;; Ok (fstr_opt g ++ $"=" ++ redaction).

(** Lines 15-32. *)
Definition filter_datum (fields : list str) (redaction message separator : str)
    : res str :=
  pat <- pattern fields separator ;;
  re_sub_str pat (replacement redaction) message.

(** ** Configurations the theorems cover *)

Definition plainb (s : str) : bool := forallb plain_char s.

Definition regex_safe (fields : list str) (sep : char) : bool :=
  match fields with [] => false | _ :: _ => true end
  && forallb plainb fields
  && negb (ch_eqb sep ch_bslash).

(** Fields and separator for which a message reads as [key=value] tokens:
    the fields are plain text without equals sign or separator, and the
    separator is neither the backslash nor the equals sign. *)
Definition well_separated (fields : list str) (sep : char) : bool :=
  regex_safe fields sep
  && all_free_of ch_eq fields
  && all_free_of sep fields
  && negb (ch_eqb sep ch_eq).

(** A separator the pattern can hold: its first character is not the
    backslash, the others are neither backslash, closing bracket nor dash. *)
Definition sep_safe (seps : str) : bool :=
  match seps with
  | [] => false
  | c :: rest => negb (ch_eqb c ch_bslash) && forallb set_plain rest
  end.

(** The tree of the pattern built for the fields [f :: fs] and the
    characters [seps] of the separator. *)
Definition redact_regex_set (f : str) (fs : list str) (seps : str) : regex :=
  RCat (RGroup 1 (alt_of (lit f) (map lit fs)))
    (RCat (RChar ch_eq)
       (RCat (RGroup 2 (RCat (RStar (RSet true (map SChar seps))) REmpty)) REmpty)).

(** The tree of the pattern built for the fields [f :: fs] and the separator [c]. *)
Definition redact_regex (f : str) (fs : list str) (c : char) : regex :=
  RCat (RGroup 1 (alt_of (lit f) (map lit fs)))
    (RCat (RChar ch_eq)
       (RCat (RGroup 2 (RCat (RStar (RSet true [SChar c])) REmpty)) REmpty)).

(** What a match at the current position is, for one candidate key. *)
Definition key_match (seps : str) (pos : nat) (rest g : str) : mstate :=
  let after := skipn (length g + 1) rest in
  mkM (pos + length g + 1 + length (take_until_any seps after))
    (drop_until_any seps after)
    [(2, take_until_any seps after); (1, g)].

(** ** The pattern *)

Lemma pattern_eq (fields : list str) (sep : str) :
  pattern fields sep = Ok ($"(" ++ str_join [ch_bar] fields ++ $")=([^" ++ sep ++ $"]*)").
Proof.
  unfold pattern, str_format.
  change ($"({})=([^{}]*)") with
    ($"(" ++ lbrace :: rbrace :: $")=([^" ++ lbrace :: rbrace :: $"]*)").
  rewrite format_go_text by (split; vm_compute; intuition discriminate).
  rewrite format_go_field.
  rewrite format_go_text by (split; vm_compute; intuition discriminate).
  rewrite format_go_field.
  rewrite <- (app_nil_r ($"]*)")) at 1.
  rewrite format_go_text by (split; vm_compute; intuition discriminate).
  cbn [format_go bind]. now rewrite app_nil_r.
Qed.

(** ** The pattern compiles to [redact_regex] *)

Lemma parse_tail (c : char) (seps : str) (n g : nat) (P F : frame) :
  c <> ch_bslash -> forallb set_plain seps = true ->
  parse_chars (mkPstate [(Some n, P)] F g MNormal) ($")=([^" ++ (c :: seps) ++ $"]*)") =
  Ok (mkPstate []
        (push_item
           (RGroup (S g) (RCat (RStar (RSet true (map SChar (c :: seps)))) REmpty))
           (push_item (RChar ch_eq) (push_item (RGroup n (frame_regex F)) P)))
        (S g) MNormal).
Proof.
  intros Hc Hs.
  change ($")=([^" ++ (c :: seps) ++ $"]*)") with
    (ch_rparen :: ch_eq :: ch_lparen :: ch_lbrack :: ch_caret :: c
       :: seps ++ ch_rbrack :: $"*)").
  do 4 pstep.
  erewrite parse_chars_step; [ | apply lookahead_ok; congruence | reflexivity ].
  erewrite parse_chars_step;
    [ | apply lookahead_ok, set_rest_not_bslash, Hs | apply step_set_first, Hc ].
  rewrite parse_set_chars by (assumption || discriminate).
  unfold finish_set. rewrite rev_app_distr, rev_involutive. cbn [rev app].
  change ($"*)") with [ch_star; ch_rparen]. do 2 pstep. reflexivity.
Qed.

(** The opening parenthesis and the alternatives of the fields. *)
Lemma parse_head (f : str) (fs : list str) (tail : str) :
  plain f -> Forall plain fs ->
  no_bslash_head tail -> hd_error tail <> Some ch_quest -> tail <> [] ->
  parse_chars init_pstate ($"(" ++ str_join [ch_bar] (f :: fs) ++ tail) =
  parse_chars (mkPstate [(Some 1, empty_frame)] (alts_frame [] f fs) 1 MNormal) tail.
Proof.
  intros Hf Hfs Hb Hq Hne.
  change ($"(" ++ ?x) with (ch_lparen :: x).
  pose proof (hd_join_not_quest f fs tail Hf Hfs Hq) as Hj.
  pose proof (no_bslash_head_join f fs tail Hf Hfs Hb) as Hk.
  rewrite <- (parse_alts fs f tail [(Some 1, empty_frame)] [] 1) by assumption.
  destruct (str_join [ch_bar] (f :: fs) ++ tail) as [|d rest] eqn:E.
  - apply app_eq_nil in E. tauto.
  - apply parse_chars_group_open; [reflexivity | |]; intros ->; [now apply Hj | now apply Hk].
Qed.

Lemma sep_safe_inv (seps : str) :
  sep_safe seps = true ->
  exists c rest, seps = c :: rest /\ c <> ch_bslash /\ forallb set_plain rest = true.
Proof.
  destruct seps as [|c rest]; [discriminate|]. simpl.
  rewrite andb_true_iff, negb_true_iff, ch_eqb_neq. eauto.
Qed.

Lemma compile_redact_set (f : str) (fs : list str) (seps : str) :
  plain f -> Forall plain fs -> sep_safe seps = true ->
  re_compile ($"(" ++ str_join [ch_bar] (f :: fs) ++ $")=([^" ++ seps ++ $"]*)") =
  Ok (mkCompiled (redact_regex_set f fs seps) 2).
Proof.
  intros Hf Hfs Hs. apply sep_safe_inv in Hs. destruct Hs as (c & rest & -> & Hc & Hr).
  unfold re_compile.
  rewrite parse_head, parse_tail by (assumption || discriminate).
  cbn [bind finish p_mode p_stack]. unfold redact_regex_set.
  rewrite frame_regex_alts. reflexivity.
Qed.

Lemma compile_redact (f : str) (fs : list str) (c : char) :
  plain f -> Forall plain fs -> c <> ch_bslash ->
  re_compile ($"(" ++ str_join [ch_bar] (f :: fs) ++ $")=([^" ++ [c] ++ $"]*)") =
  Ok (mkCompiled (redact_regex f fs c) 2).
Proof.
  intros Hf Hfs Hc. apply (compile_redact_set f fs [c]); try assumption.
  simpl. now rewrite andb_true_r, negb_true_iff, ch_eqb_neq.
Qed.

(** ** What the pattern matches *)

(** Without its groups and empty sequences, the pattern is the alternation
    of the fields, an equals sign and a repetition of the set. *)
Lemma pattern_simpl (f : str) (fs : list str) (seps : str) :
  redact_regex_set f fs seps =~
  RCat (alt_of (lit f) (map lit fs))
    (RCat (RChar ch_eq) (RStar (RSet true (map SChar seps)))).
Proof.
  unfold redact_regex_set. now rewrite !group_erase, !cat_empty_r.
Qed.

(** The texts the pattern matches: a field, an equals sign and any text
    without a character of the separator. *)
Lemma pattern_language (f : str) (fs : list str) (seps : str) (pos : nat) (s rest : str) :
  matches (redact_regex_set f fs seps) pos s rest <->
  exists g v, In g (f :: fs) /\ s = g ++ [ch_eq] ++ v
              /\ forallb (fun a => negb (ch_mem a seps)) v = true.
Proof.
  rewrite pattern_simpl, matches_cat. split.
  - intros (g & t & -> & Hg & Ht). apply matches_alt_lits in Hg.
    apply matches_cat in Ht. destruct Ht as (e & v & -> & He & Hv).
    apply matches_char in He. subst e.
    apply (matches_star_set _ _ _ (fun a => set_mem_chars a seps)) in Hv.
    now exists g, v.
  - intros (g & v & Hg & -> & Hv). exists g, ([ch_eq] ++ v). repeat split.
    + now apply matches_alt_lits.
    + apply matches_cat. exists [ch_eq], v. repeat split; [constructor|].
      now apply (matches_star_set _ _ _ (fun a => set_mem_chars a seps)).
Qed.

(** With the backslash as separator the set never ends. *)
Lemma parse_tail_bslash (n g : nat) (P F : frame) :
  (st <- parse_chars (mkPstate [(Some n, P)] F g MNormal) ($")=([^" ++ [ch_bslash] ++ $"]*)") ;;
   finish st) = Err (ReError UnterminatedSet).
Proof.
  change ($")=([^" ++ [ch_bslash] ++ $"]*)") with
    [ch_rparen; ch_eq; ch_lparen; ch_lbrack; ch_caret; ch_bslash; ch_rbrack; ch_star; ch_rparen].
  do 9 pstep. reflexivity.
Qed.

(** With the empty separator the bracket that should close the set is its
    first member, and the set never ends either. *)
Lemma parse_tail_empty (n g : nat) (P F : frame) :
  (st <- parse_chars (mkPstate [(Some n, P)] F g MNormal) ($")=([^" ++ [] ++ $"]*)") ;;
   finish st) = Err (ReError UnterminatedSet).
Proof.
  change ($")=([^" ++ [] ++ $"]*)") with
    [ch_rparen; ch_eq; ch_lparen; ch_lbrack; ch_caret; ch_rbrack; ch_star; ch_rparen].
  do 8 pstep. reflexivity.
Qed.

Lemma compile_empty (f : str) (fs : list str) :
  plain f -> Forall plain fs ->
  re_compile ($"(" ++ str_join [ch_bar] (f :: fs) ++ $")=([^" ++ [] ++ $"]*)") =
  Err (ReError UnterminatedSet).
Proof.
  intros Hf Hfs. unfold re_compile.
  rewrite parse_head by (assumption || discriminate).
  apply parse_tail_empty.
Qed.

Lemma compile_bslash (f : str) (fs : list str) :
  plain f -> Forall plain fs ->
  re_compile ($"(" ++ str_join [ch_bar] (f :: fs) ++ $")=([^" ++ [ch_bslash] ++ $"]*)") =
  Err (ReError UnterminatedSet).
Proof.
  intros Hf Hfs. unfold re_compile.
  rewrite parse_head by (assumption || discriminate).
  apply parse_tail_bslash.
Qed.

(** ** One match of [redact_regex] *)

(** The second group takes the text up to the next character of the
    separator. *)
Lemma rmatch_value (seps : str) (start pos : nat) (after : str) (caps : list (nat * str)) :
  rmatch (RCat (RGroup 2 (RCat (RStar (RSet true (map SChar seps))) REmpty)) REmpty)
    (mkM pos after caps) (accept start false) =
  Some (mkM (pos + length (take_until_any seps after)) (drop_until_any seps after)
          ((2, take_until_any seps after) :: caps)).
Proof.
  cbn [rmatch]. apply star_not_set; [unfold star_fuel; simpl; lia|].
  unfold accept, set_cap. cbn [m_pos m_rest m_caps andb].
  replace (pos + length (take_until_any seps after) - pos)
    with (length (take_until_any seps after)) by lia.
  now rewrite firstn_take_until_any.
Qed.

Lemma starts_with_key (g rest : str) :
  starts_with (g ++ [ch_eq]) rest =
  starts_with g rest
  && match skipn (length g) rest with
     | a :: _ => ch_eqb a ch_eq
     | [] => false
     end.
Proof.
  rewrite starts_with_app_l. f_equal.
  destruct (skipn (length g) rest) as [|a t]; simpl; [reflexivity|].
  now rewrite andb_true_r, ch_eqb_sym.
Qed.

Lemma match_at_redact (f : str) (fs : list str) (seps : str) (pos : nat) (rest : str) :
  match_at (redact_regex_set f fs seps) pos rest false =
  option_map (key_match seps pos rest) (find_key (f :: fs) rest).
Proof.
  unfold match_at, redact_regex_set. rewrite rmatch_cat, rmatch_group, rmatch_alt_lits.
  unfold find_key. cbn [m_rest m_pos m_caps].
  induction (f :: fs) as [|g l IH]; [reflexivity|].
  cbn [first_some find]. rewrite starts_with_key.
  destruct (starts_with g rest) eqn:Eg; cbn [andb]; [|exact IH].
  rewrite rmatch_cat, rmatch_char.
  unfold jump, set_cap, advance. cbn [m_rest m_pos m_caps].
  destruct (skipn (length g) rest) as [|a after] eqn:Es; [exact IH|].
  destruct (ch_eqb a ch_eq); [|exact IH].
  rewrite rmatch_value. cbn [option_map]. unfold key_match.
  rewrite (skipn_S_tail _ _ _ _ Es).
  replace (pos + length g - pos) with (length g) by lia.
  apply starts_with_skipn in Eg. rewrite Eg at 1.
  rewrite firstn_app, firstn_all, Nat.sub_diag, firstn_O, app_nil_r.
  do 2 f_equal. lia.
Qed.

(** ** [re.sub] with [redact_regex_set] is the tokenizer *)

Lemma replacement_key (mask : str) (re : compiled) (seps : str) (pos : nat) (rest g : str) :
  c_groups re = 2 ->
  replacement mask (mk_match re pos rest (key_match seps pos rest g)) =
  Ok (g ++ [ch_eq] ++ mask).
Proof.
  intros Hg. unfold replacement, group, mk_match, key_match.
  cbn [mo_groups mo_caps m_caps]. rewrite Hg. reflexivity.
Qed.

Lemma sub_loop_redact (f : str) (fs : list str) (mask seps msg : str) :
  forall fuel pos, 2 * length msg + 1 <= fuel ->
  sub_loop (mkCompiled (redact_regex_set f fs seps) 2) (replacement mask) fuel pos msg false =
  Ok (redact_set (f :: fs) mask seps msg).
Proof.
  induction msg as [|msg g Hg IH|a rest Ha IH] using (redact_set_ind (f :: fs) seps);
    intros fuel pos Hf; (destruct fuel as [|fuel]; [lia|]).
  - rewrite sub_loop_end, redact_set_nil; [reflexivity|].
    cbn [c_regex]. now rewrite match_at_redact, find_key_nil.
  - erewrite sub_loop_hit by (cbn [c_regex]; rewrite match_at_redact, Hg; reflexivity).
    rewrite replacement_key by reflexivity. cbn [bind].
    unfold key_match at 3. cbn [m_pos].
    replace (Nat.eqb _ pos) with false by (symmetry; apply Nat.eqb_neq; lia).
    unfold key_match. cbn [m_pos m_rest]. rewrite IH.
    + cbn [bind]. rewrite (redact_set_hit _ _ _ _ _ Hg). now rewrite <- !app_assoc.
    + pose proof (scan_shrinks (f :: fs) _ (drop_until_any_length seps) msg g Hg). lia.
  - rewrite sub_loop_miss by (cbn [c_regex]; now rewrite match_at_redact, Ha).
    rewrite IH by (simpl in Hf; lia). cbn [bind].
    now rewrite (redact_set_miss _ _ _ _ _ Ha).
Qed.

Lemma plainb_plain (s : str) : plainb s = true <-> plain s.
Proof. unfold plainb, plain. now rewrite forallb_forall, Forall_forall. Qed.

Lemma regex_safe_inv (fields : list str) (c : char) :
  regex_safe fields c = true ->
  exists f fs, fields = f :: fs /\ plain f /\ Forall plain fs /\ c <> ch_bslash.
Proof.
  unfold regex_safe. rewrite !andb_true_iff, negb_true_iff, ch_eqb_neq.
  intros [[Hne Hp] Hc]. destruct fields as [|f fs]; [discriminate|].
  simpl in Hp. apply andb_true_iff in Hp. destruct Hp as [Hf Hfs].
  exists f, fs. repeat split; [now apply plainb_plain | | assumption].
  apply Forall_forall. intros x Hx. apply plainb_plain.
  rewrite forallb_forall in Hfs. now apply Hfs.
Qed.

(** The core of the refinement, for a separator of any length. *)
Lemma filter_datum_eq_set (f : str) (fs : list str) (mask msg seps : str) :
  plain f -> Forall plain fs -> sep_safe seps = true ->
  filter_datum (f :: fs) mask msg seps = Ok (redact_set (f :: fs) mask seps msg).
Proof.
  intros Hf Hfs Hs.
  unfold filter_datum. rewrite pattern_eq. cbn [bind]. unfold re_sub_str.
  rewrite compile_redact_set by assumption. cbn [bind]. unfold re_sub.
  apply sub_loop_redact. unfold sub_fuel. lia.
Qed.

(** The core of the refinement: shared by the theorems below. *)
Lemma filter_datum_eq (fields : list str) (mask msg : str) (c : char) :
  regex_safe fields c = true ->
  filter_datum fields mask msg [c] = Ok (redact_ref fields mask c msg).
Proof.
  intros H. apply regex_safe_inv in H. destruct H as (f & fs & -> & Hf & Hfs & Hc).
  rewrite filter_datum_eq_set, redact_set_one; try assumption; [reflexivity|].
  simpl. now rewrite andb_true_r, negb_true_iff, ch_eqb_neq.
Qed.

(** [filter_datum] is a redactor, for the configurations [regex_safe]. *)
#[export] Instance filter_datum_redactor : Redactor := {|
  redact := filter_datum;
  accepts := regex_safe;
  redact_refines := filter_datum_eq
|}.

(** ** The configurations *)

Lemma regex_safe_iff (fields : list str) (c : char) :
  regex_safe fields c = true <-> fields <> [] /\ Forall plain fields /\ c <> ch_bslash.
Proof.
  split.
  - intros H. apply regex_safe_inv in H. destruct H as (f & fs & -> & Hf & Hfs & Hc).
    repeat split; [discriminate | now constructor | assumption].
  - intros (Hne & Hp & Hc). unfold regex_safe.
    rewrite !andb_true_iff, negb_true_iff, ch_eqb_neq, forallb_forall.
    repeat split; [now destruct fields | | assumption].
    intros x Hx. apply plainb_plain. rewrite Forall_forall in Hp. auto.
Qed.

Lemma well_separated_inv (fields : list str) (c : char) :
  well_separated fields c = true ->
  regex_safe fields c = true
  /\ Forall (fun f => ~ In ch_eq f) fields
  /\ Forall (fun f => ~ In c f) fields
  /\ c <> ch_eq.
Proof.
  unfold well_separated.
  rewrite !andb_true_iff, negb_true_iff, ch_eqb_neq, !all_free_of_Forall. tauto.
Qed.

(** ** Theorems on [filter_datum] *)

(** C1 (refinement).  For a non-empty list of fields without regular
    expression metacharacters and a separator that the pattern can hold
    (its first character is not the backslash, the others are neither
    backslash, closing bracket nor dash), [filter_datum] returns, and what
    it returns is the message as the tokenizer rewrites it: building the
    pattern, compiling it and substituting with [re.sub] never fails on
    such inputs and implements the left-to-right scan in which a value ends
    at the next character that is any of the separator's.  For a separator
    of one character this is [redact_ref], the scan of the specification. *)
Theorem filter_datum_refines (fields : list str) (mask msg seps : str) :
  fields <> [] -> Forall plain fields -> sep_safe seps = true ->
  filter_datum fields mask msg seps = Ok (redact_set fields mask seps msg)
  /\ forall c, seps = [c] ->
       redact_set fields mask seps msg = redact_ref fields mask c msg.
Proof.
  intros Hne Hp Hs. split.
  - destruct Hp as [|f fs Hf Hfs]; [congruence|]. now apply filter_datum_eq_set.
  - intros c ->. apply redact_set_one.
Qed.

Lemma filter_datum_refines_witness :
  filter_datum PII_FIELDS $"***" $"name=Bob;email=bob@dylan.com;ssn=000-123-0000" $";"
  = Ok $"name=***;email=***;ssn=***".
Proof.
  exact (proj1 (filter_datum_refines PII_FIELDS $"***" _ $";"
                  ltac:(discriminate)
                  (proj1 (proj2 (proj1 (regex_safe_iff PII_FIELDS (chr ";")) eq_refl)))
                  eq_refl)).
Defined.

(** C2 (secrecy).  The value of a listed field does not reach the output:
    two messages that differ only in the value that follows [f=], for a
    field [f], up to the next separator or the end of the message, have the
    same redacted form, whatever the text before and after. *)
Theorem filter_datum_secret (fields : list str) (mask : str) (c : char)
    (f pre v1 v2 post : str) :
  well_separated fields c = true -> In f fields ->
  ~ In c v1 -> ~ In c v2 -> at_boundary c post ->
  filter_datum fields mask (pre ++ f ++ [ch_eq] ++ v1 ++ post) [c] =
  filter_datum fields mask (pre ++ f ++ [ch_eq] ++ v2 ++ post) [c].
Proof.
  intros H Hf H1 H2 Hp. destruct (well_separated_inv _ _ H) as (Hs & He & Hc & Hn).
  rewrite !filter_datum_eq by assumption. f_equal.
  rewrite Forall_forall in Hc. apply redact_secret; auto.
Qed.

Lemma filter_datum_secret_witness :
  filter_datum PII_FIELDS $"***" $"id=7;password=hunter2;ip=::1" $";" =
  filter_datum PII_FIELDS $"***" $"id=7;password=correct horse;ip=::1" $";".
Proof.
  exact (filter_datum_secret PII_FIELDS $"***" (chr ";")
           $"password" $"id=7;" $"hunter2" $"correct horse" $";ip=::1"
           eq_refl ltac:(simpl; tauto)
           (proj1 (free_of_iff (chr ";") $"hunter2") eq_refl)
           (proj1 (free_of_iff (chr ";") $"correct horse") eq_refl)
           (at_boundary_cons _ _)).
Defined.

(** C3 (functional behaviour on tokens).  On a message made of [key=value]
    tokens joined by the separator, the result is the same tokens with the
    value replaced by the redaction exactly where a field ends the key:
    every listed field is masked, and so is every key that has a field as a
    suffix, [username] for the field [name]. *)
Theorem filter_datum_pairs (fields : list str) (mask : str) (c : char)
    (kvs : list (str * str)) :
  well_separated fields c = true -> forallb (token_ok c) kvs = true ->
  filter_datum fields mask (str_join [c] (map token kvs)) [c] =
  Ok (str_join [c] (map token (map (mask_pair fields mask) kvs))).
Proof.
  intros H Hk. destruct (well_separated_inv _ _ H) as (Hs & He & Hc & Hn).
  rewrite filter_datum_eq by assumption. f_equal. now apply redact_pairs.
Qed.

Lemma filter_datum_pairs_witness :
  filter_datum [$"name"] $"***" $"username=Bob;id=3;name=Al" $";" =
  Ok $"username=***;id=3;name=***".
Proof.
  exact (filter_datum_pairs [$"name"] $"***" (chr ";")
           [($"username", $"Bob"); ($"id", $"3"); ($"name", $"Al")] eq_refl eq_refl).
Defined.

(** C4 (idempotence).  Redacting a redacted message changes nothing, when
    no field contains the equals sign and the redaction does not contain
    the separator. *)
Theorem filter_datum_idempotent (fields : list str) (mask msg : str) (c : char) :
  regex_safe fields c = true -> all_free_of ch_eq fields = true ->
  free_of c mask = true ->
  (out <- filter_datum fields mask msg [c] ;; filter_datum fields mask out [c]) =
  filter_datum fields mask msg [c].
Proof.
  intros Hs He Hm. rewrite !filter_datum_eq by assumption. cbn [bind].
  rewrite filter_datum_eq by assumption. f_equal.
  apply redact_idempotent; [now apply all_free_of_Forall | now apply free_of_iff].
Qed.

Lemma filter_datum_idempotent_witness :
  (out <- filter_datum PII_FIELDS $"***" $"name=Bob;level=2;ssn=1" $";" ;;
   filter_datum PII_FIELDS $"***" out $";") =
  filter_datum PII_FIELDS $"***" $"name=Bob;level=2;ssn=1" $";".
Proof.
  exact (filter_datum_idempotent PII_FIELDS $"***" _ (chr ";") eq_refl eq_refl eq_refl).
Defined.

(** C18 (the pattern).  For fields [f :: fs] without metacharacters and a
    separator the pattern can hold, the text that line 29 builds compiles
    to [redact_regex_set], a pattern with two groups: group 1 is the
    ordered alternation of the fields as literals, then an equals sign,
    then group 2, a greedy run of characters other than those of the
    separator.  The texts it matches are exactly a field, an equals sign
    and a text without a character of the separator. *)
Theorem pattern_compiles (f : str) (fs : list str) (seps : str) :
  Forall plain (f :: fs) -> sep_safe seps = true ->
  (pat <- pattern (f :: fs) seps ;; re_compile pat) =
  Ok (mkCompiled (redact_regex_set f fs seps) 2)
  /\ forall pos s rest,
       matches (redact_regex_set f fs seps) pos s rest <->
       exists g v, In g (f :: fs) /\ s = g ++ [ch_eq] ++ v
                   /\ forallb (fun a => negb (ch_mem a seps)) v = true.
Proof.
  intros H Hs. inv H. split; [|apply pattern_language].
  rewrite pattern_eq. cbn [bind]. now apply compile_redact_set.
Qed.

Lemma pattern_compiles_witness :
  (pat <- pattern [$"a"; $"b"] $";" ;; re_compile pat) =
  Ok (mkCompiled (redact_regex_set $"a" [$"b"] $";") 2)
  /\ forall pos s rest,
       matches (redact_regex_set $"a" [$"b"] $";") pos s rest <->
       exists g v, In g [$"a"; $"b"] /\ s = g ++ [ch_eq] ++ v
                   /\ forallb (fun a => negb (ch_mem a $";")) v = true.
Proof.
  exact (pattern_compiles $"a" [$"b"] $";"
           (Forall_cons _ (proj1 (plainb_plain $"a") eq_refl)
              (Forall_cons _ (proj1 (plainb_plain $"b") eq_refl) (Forall_nil _)))
           eq_refl).
Defined.

(** C5 (tokens are independent).  The part of the message before a
    separator is redacted on its own: the result for [t ++ c :: rest] is
    the result for [t], the separator, and the result for [rest]. *)
Theorem filter_datum_split (fields : list str) (mask : str) (c : char) (t rest : str) :
  well_separated fields c = true -> ~ In c t ->
  filter_datum fields mask (t ++ c :: rest) [c] =
  (a <- filter_datum fields mask t [c] ;;
   b <- filter_datum fields mask rest [c] ;;
   Ok (a ++ c :: b)).
Proof.
  intros H Ht. destruct (well_separated_inv _ _ H) as (Hs & He & Hc & Hn).
  rewrite !filter_datum_eq by assumption. cbn [bind]. f_equal.
  now apply redact_token.
Qed.

Lemma filter_datum_split_witness :
  filter_datum PII_FIELDS $"***" $"phone=555;date=today" $";" =
  (a <- filter_datum PII_FIELDS $"***" $"phone=555" $";" ;;
   b <- filter_datum PII_FIELDS $"***" $"date=today" $";" ;;
   Ok (a ++ chr ";" :: b)).
Proof.
  exact (filter_datum_split PII_FIELDS $"***" (chr ";") $"phone=555" $"date=today"
           eq_refl (proj1 (free_of_iff (chr ";") $"phone=555") eq_refl)).
Defined.

(** C6 (a separator inside a value).  The masked span ends at the first
    separator: when the value of a field contains the separator, the text
    after it is a token of its own and stays in the output. *)
Theorem filter_datum_value_split (fields : list str) (mask : str) (c : char)
    (f v1 v2 : str) :
  well_separated fields c = true -> In f fields ->
  ~ In c v1 -> ~ In ch_eq v2 ->
  filter_datum fields mask (f ++ [ch_eq] ++ v1 ++ c :: v2) [c] =
  Ok (f ++ [ch_eq] ++ mask ++ c :: v2).
Proof.
  intros H Hf H1 H2. destruct (well_separated_inv _ _ H) as (Hs & He & Hc & Hn).
  rewrite filter_datum_eq by assumption. f_equal.
  rewrite redact_value_split by assumption. now rewrite redact_no_eq.
Qed.

Lemma filter_datum_value_split_witness :
  filter_datum PII_FIELDS $"***" $"password=ab;cd" $";" = Ok $"password=***;cd".
Proof.
  exact (filter_datum_value_split PII_FIELDS $"***" (chr ";") $"password" $"ab" $"cd"
           eq_refl ltac:(simpl; tauto)
           (proj1 (free_of_iff (chr ";") $"ab") eq_refl)
           (proj1 (free_of_iff ch_eq $"cd") eq_refl)).
Defined.

Lemma key_hit_empty_field (k : str) : key_hit [[]] k = true.
Proof. induction k as [|a k IH]; [reflexivity | exact IH]. Qed.

(** C7 (no fields).  With an empty list of fields the pattern is that of
    the single empty field, which precedes every equals sign: the value of
    every token is masked, the message is not returned as it is. *)
Theorem filter_datum_no_fields (mask : str) (c : char) (kvs : list (str * str)) :
  c <> ch_bslash -> c <> ch_eq -> forallb (token_ok c) kvs = true ->
  filter_datum [] mask (str_join [c] (map token kvs)) [c] =
  Ok (str_join [c] (map token (map (fun kv => (fst kv, mask)) kvs))).
Proof.
  intros Hb He Hk.
  assert (H : well_separated [[]] c = true).
  { unfold well_separated, regex_safe.
    rewrite !andb_true_iff, !negb_true_iff, !ch_eqb_neq.
    repeat split; (reflexivity || assumption). }
  change (filter_datum [] mask ?m [c]) with (filter_datum [[]] mask m [c]).
  destruct (well_separated_inv _ _ H) as (Hs & Hf & Hc & _).
  rewrite filter_datum_eq, redact_pairs by assumption.
  do 3 f_equal. apply map_ext. intros kv. unfold mask_pair.
  now rewrite key_hit_empty_field.
Qed.

Lemma filter_datum_no_fields_witness :
  filter_datum [] $"***" $"a=1;b=2" $";" = Ok $"a=***;b=***".
Proof.
  exact (filter_datum_no_fields $"***" (chr ";") [($"a", $"1"); ($"b", $"2")]
           ltac:(discriminate) ltac:(discriminate) eq_refl).
Defined.

(** C8 (separators that break the pattern).  The separator is put in the
    pattern as it is.  A backslash escapes the bracket that should close
    the character set; with the empty separator that bracket is the first
    member of the set.  Either way the set never ends and [re.sub] raises
    [re.error], for every message. *)
Theorem filter_datum_bslash (fields : list str) (mask msg seps : str) :
  fields <> [] -> Forall plain fields -> seps = [ch_bslash] \/ seps = [] ->
  filter_datum fields mask msg seps = Err (ReError UnterminatedSet).
Proof.
  intros Hne Hp Hs. destruct Hp as [|f fs Hf Hfs]; [congruence|].
  unfold filter_datum. rewrite pattern_eq. cbn [bind]. unfold re_sub_str.
  destruct Hs as [-> | ->]; [now rewrite compile_bslash | now rewrite compile_empty].
Qed.

Lemma filter_datum_bslash_witness :
  filter_datum PII_FIELDS $"***" $"name=Bob" [ch_bslash] = Err (ReError UnterminatedSet).
Proof.
  exact (filter_datum_bslash PII_FIELDS $"***" $"name=Bob" [ch_bslash] ltac:(discriminate)
           (proj1 (proj2 (proj1 (regex_safe_iff PII_FIELDS (chr ";")) eq_refl)))
           (or_introl eq_refl)).
Defined.

(** Separators are kept.  When the redaction does not contain the
    separator, the output has as many separators as the message: no token
    is added or removed. *)
Lemma filter_datum_count_sep (fields : list str) (mask msg : str) (c : char) :
  regex_safe fields c = true -> free_of c mask = true ->
  exists out, filter_datum fields mask msg [c] = Ok out
              /\ count_occ_ch c out = count_occ_ch c msg.
Proof.
  intros Hs Hm. rewrite filter_datum_eq by assumption.
  eexists. split; [reflexivity|]. apply redact_count_sep. now apply free_of_iff.
Qed.

Example filter_datum_count_sep_sample :
  exists out, filter_datum PII_FIELDS $"***" $"name=a;b;email=c" $";" = Ok out
              /\ count_occ_ch (chr ";") out = count_occ_ch (chr ";") $"name=a;b;email=c".
Proof.
  exact (filter_datum_count_sep PII_FIELDS $"***" $"name=a;b;email=c" (chr ";")
           eq_refl eq_refl).
Qed.

(** A message without an equals sign is returned as it is. *)
Corollary filter_datum_no_eq (fields : list str) (mask msg : str) (c : char) :
  regex_safe fields c = true -> ~ In ch_eq msg ->
  filter_datum fields mask msg [c] = Ok msg.
Proof.
  intros Hs Hm. rewrite filter_datum_eq by assumption. f_equal.
  now apply redact_no_eq.
Qed.

(** C10 (nothing to redact).  A message in which no listed field is
    followed by an equals sign is returned as it is, whatever else it
    holds: other keys, equals signs, separators. *)
Theorem filter_datum_no_key (fields : list str) (mask msg : str) (c : char) :
  regex_safe fields c = true ->
  forallb (fun f => negb (occursb (f ++ [ch_eq]) msg)) fields = true ->
  filter_datum fields mask msg [c] = Ok msg.
Proof.
  intros Hs Hm. rewrite filter_datum_eq by assumption. f_equal.
  apply redact_no_key. intros f Hf Ho. rewrite forallb_forall in Hm.
  apply occursb_occurs in Ho. specialize (Hm f Hf). now rewrite Ho in Hm.
Qed.

Lemma filter_datum_no_key_witness :
  filter_datum PII_FIELDS $"***" $"id=7;names=2;closed" $";" = Ok $"id=7;names=2;closed".
Proof.
  exact (filter_datum_no_key PII_FIELDS $"***" $"id=7;names=2;closed" (chr ";")
           eq_refl eq_refl).
Defined.

(** C26 (the tokens are kept).  Whatever the message, well formed or not,
    redaction adds, removes and moves no token: when the redaction does not
    hold the separator, the output splits at the separator into as many
    tokens as the message, and each has the key, the text before its first
    equals sign, of the token of the message at its place. *)
Theorem filter_datum_keys (fields : list str) (mask msg : str) (c : char) :
  well_separated fields c = true -> free_of c mask = true ->
  exists out,
    filter_datum fields mask msg [c] = Ok out
    /\ keys_of [c] out = keys_of [c] msg.
Proof.
  intros H Hm. destruct (well_separated_inv _ _ H) as (Hs & He & Hc & Hn).
  exists (redact_ref fields mask c msg). split; [now apply filter_datum_eq|].
  apply redact_keys; [assumption.. | now apply free_of_iff].
Qed.

Lemma filter_datum_keys_witness :
  exists out,
    filter_datum PII_FIELDS $"***" $"name=Bob;;=x;ssn=1;2;note" $";" = Ok out
    /\ keys_of $";" out = keys_of $";" $"name=Bob;;=x;ssn=1;2;note".
Proof.
  exact (filter_datum_keys PII_FIELDS $"***" $"name=Bob;;=x;ssn=1;2;note" (chr ";")
           eq_refl eq_refl).
Defined.

(** C11 (a redaction that contains the separator).  Idempotence needs a
    redaction without separator.  For every redaction that holds the
    separator, every listed field [f] and every value [v] without
    separator, the first pass over [f=v] writes the redaction as the value;
    the second pass reads that value up to the separator inside it, masks
    it again and goes on after it, so its output is longer than its
    input. *)
Theorem filter_datum_mask_with_separator (fields : list str) (mask : str) (c : char)
    (f v : str) :
  well_separated fields c = true -> In f fields -> In c mask -> ~ In c v ->
  exists out tail,
    filter_datum fields mask (f ++ [ch_eq] ++ v) [c] = Ok out
    /\ filter_datum fields mask out [c] = Ok (out ++ c :: tail).
Proof.
  intros H Hf Hm Hv. destruct (well_separated_inv _ _ H) as (Hs & He & Hc & Hn).
  destruct (redact_mask_sep fields mask c He Hc Hn f v Hf Hm Hv) as (tail & E1 & E2).
  exists (f ++ [ch_eq] ++ mask), tail. rewrite !filter_datum_eq by assumption.
  rewrite E1, E2. now rewrite <- !app_assoc.
Qed.

Lemma filter_datum_mask_with_separator_witness :
  exists out tail,
    filter_datum [$"a"] $"x;a=y" ($"a" ++ [ch_eq] ++ $"1") $";" = Ok out
    /\ filter_datum [$"a"] $"x;a=y" out $";" = Ok (out ++ chr ";" :: tail).
Proof.
  exact (filter_datum_mask_with_separator [$"a"] $"x;a=y" (chr ";") $"a" $"1"
           eq_refl ltac:(simpl; tauto)
           (proj1 (ch_mem_In (chr ";") $"x;a=y") eq_refl)
           (proj1 (free_of_iff (chr ";") $"1") eq_refl)).
Defined.

(** The case of the field a and the redaction x;a=y. *)
Example filter_datum_mask_with_separator_twice :
  filter_datum [$"a"] $"x;a=y" $"a=1" $";" = Ok $"a=x;a=y"
  /\ filter_datum [$"a"] $"x;a=y" $"a=x;a=y" $";" = Ok $"a=x;a=y;a=x;a=y".
Proof. split; reflexivity. Qed.

(** ** The concrete cases of the specification *)

Example spec_case_password_ssn :
  filter_datum [$"password"; $"ssn"] $"***" $"name=Bob;password=hunter2;ssn=123-45-6789" $";"
  = Ok $"name=Bob;password=***;ssn=***".
Proof. reflexivity. Qed.

(** An empty value is masked too. *)
Example spec_case_empty_value :
  filter_datum [$"email"] $"XXX" $"email=;user=a" $";" = Ok $"email=XXX;user=a".
Proof. reflexivity. Qed.

(** The specification wants a key that ends in a field left alone; the
    pattern is not anchored, and the value is masked. *)
Example spec_case_suffix_key :
  filter_datum [$"name"] $"***" $"username=Bob" $";" = Ok $"username=***".
Proof. reflexivity. Qed.

(** The specification wants the identity for an empty field set; the
    pattern then has an empty first group and every value is masked. *)
Example spec_case_no_fields :
  filter_datum [] $"***" $"name=Bob;id=3" $";" = Ok $"name=***;id=***".
Proof. reflexivity. Qed.

(** A field with a metacharacter is read as a pattern: the dot of [a.c]
    matches any character, so the key [abc] is masked; the plus sign of
    [a+b] repeats the [a], so the key [a+b] itself is not found and its
    value stays in the output. *)
Example field_with_dot :
  filter_datum [$"a.c"] $"***" $"abc=1;a.c=2" $";" = Ok $"abc=***;a.c=***".
Proof. reflexivity. Qed.

Example field_with_plus :
  filter_datum [$"a+b"] $"***" $"a+b=secret;aab=1" $";" = Ok $"a+b=secret;aab=***".
Proof. reflexivity. Qed.

(** A field with parentheses changes the groups of the pattern: with the
    field [a)|(b] the pattern is an alternation of the group [(a)] and of
    the group [(b)] followed by the equals sign and the value; group 1
    takes no part in a match of the second alternative and the f-string
    writes [None] for it; a lone [a] is a match of the first alternative
    and gets an equals sign and the redaction. *)
Example field_with_parentheses :
  filter_datum [$"a)|(b"] $"***" $"b=1;a;c" $";" = Ok $"None=***;a=***;c".
Proof. reflexivity. Qed.

(** The empty separator. *)
Example spec_case_empty_separator :
  filter_datum PII_FIELDS $"***" $"name=Bob" [] = Err (ReError UnterminatedSet).
Proof. reflexivity. Qed.

(** ** Why the theorems have their hypotheses *)

(** Secrecy needs a separator other than the equals sign: with the equals
    sign as separator the value of a field ends at the next equals sign,
    and what follows it stays in the output. *)
Example separator_equals_leaks :
  filter_datum [$"name"] $"***" $"name=name=secret" $"=" = Ok $"name=***=secret".
Proof. reflexivity. Qed.

(** Idempotence needs fields without equals sign: with the fields b and
    ab=X and the redaction X=, the first pass masks the value of b and its
    output begins with the other field and an equals sign, which the second
    pass masks. *)
Example field_with_equals_not_idempotent :
  filter_datum [$"b"; $"ab=X"] $"X=" $"ab=1" $";" = Ok $"ab=X="
  /\ filter_datum [$"b"; $"ab=X"] $"X=" $"ab=X=" $";" = Ok $"ab=X=X=".
Proof. split; reflexivity. Qed.

(** A separator of several characters is read as a set ([redact_set]): the
    value ends at the first character that is any of them, here at the
    space inside the value, and what follows it stays in the output. *)
Example filter_datum_literal_separator :
  filter_datum [$"name"] $"***" $"name=John Smith; x=1" $"; "
  = Ok $"name=*** Smith; x=1".
Proof. reflexivity. Qed.

(** ** Errors *)

Lemma replacement_total (redaction : str) (m : match_obj) :
  1 <= mo_groups m -> exists out, replacement redaction m = Ok out.
Proof.
  intros H. unfold replacement, group. cbn [Nat.eqb].
  destruct (Nat.leb_spec 1 (mo_groups m)); [|lia]. cbn [bind]. eauto.
Qed.

Lemma replacement_no_group (redaction : str) (m : match_obj) :
  mo_groups m = 0 -> replacement redaction m = Err IndexError.
Proof. intros H. unfold replacement, group. now rewrite H. Qed.

(** With a first group in the pattern the callback answers every match and
    [re.sub] ends. *)
Lemma re_sub_replacement (re : compiled) (redaction message : str) :
  1 <= c_groups re ->
  exists out, re_sub re (replacement redaction) message = Ok out.
Proof.
  intros H. apply sub_loop_total; [|apply sub_fuel_enough].
  intros m Hm. apply replacement_total. lia.
Qed.

(** Without a group the callback raises at the first match. *)
Lemma re_sub_no_group (re : compiled) (redaction message : str) :
  c_groups re = 0 ->
  re_sub re (replacement redaction) message =
  match search (c_regex re) 0 message false with
  | None => Ok message
  | Some _ => Err IndexError
  end.
Proof.
  intros H. unfold re_sub, sub_fuel. rewrite Nat.add_comm. cbn [Nat.add sub_loop].
  destruct (search _ _ _ _) as [[sk st]|]; [|reflexivity].
  now rewrite replacement_no_group.
Qed.

(** What [filter_datum] returns once its pattern is compiled. *)
Lemma filter_datum_compiled (fields : list str) (redaction message separator : str) :
  filter_datum fields redaction message separator =
  (re <- re_compile ($"(" ++ str_join $"|" fields ++ $")=([^" ++ separator ++ $"]*)") ;;
   re_sub re (replacement redaction) message).
Proof. unfold filter_datum, re_sub_str. now rewrite pattern_eq. Qed.

(** C34 (errors).  Whatever the fields, the redaction, the message and the
    separator, [filter_datum] raises in two cases and no other.  Either its
    pattern does not compile, and the exception is the [re.error] of
    [re.compile]; or the pattern compiles without any group, which a first
    field that begins with [?:] brings about by turning the first
    parenthesis into a non-capturing one, and matches somewhere in the
    message: the callback then asks for group 1 and raises [IndexError].
    With one group or more the callback answers every match and [re.sub]
    ends, whatever the message and the redaction.  ([raises] leaves out the
    patterns outside the modelled fragment, of which nothing is said.) *)
Theorem filter_datum_errors (fields : list str) (redaction message separator : str) :
  (raises (filter_datum fields redaction message separator)
   <-> raises (re_compile ($"(" ++ str_join $"|" fields ++ $")=([^" ++ separator ++ $"]*)"))
       \/ exists re,
            re_compile ($"(" ++ str_join $"|" fields ++ $")=([^" ++ separator ++ $"]*)")
            = Ok re
            /\ c_groups re = 0
            /\ search (c_regex re) 0 message false <> None)
  /\ forall e, filter_datum fields redaction message separator = Err e ->
       re_compile ($"(" ++ str_join $"|" fields ++ $")=([^" ++ separator ++ $"]*)") = Err e
       \/ e = IndexError.
Proof.
  rewrite filter_datum_compiled.
  destruct (re_compile _) as [re|e'] eqn:E; cbn [bind].
  - destruct (Nat.eq_dec (c_groups re) 0) as [Hg|Hg].
    + rewrite (re_sub_no_group re redaction message Hg).
      destruct (search _ _ _ _) as [m|] eqn:Es; cbn [raises]; split.
      * split; [intros _; right; exists re; now rewrite Es | easy].
      * intros e H. inv H. now right.
      * split; [easy | intros [[]|(re' & H & _ & Hs)]; inv H; now rewrite Es in Hs].
      * discriminate.
    + destruct (re_sub_replacement re redaction message) as (out & ->); [lia|].
      cbn [raises]. split; [|discriminate].
      split; [easy | intros [[]|(re' & H & Hz & _)]; inv H; lia].
  - split; [|intros e H; inv H; now left].
    split; [now left | intros [H|(re & H & _)]; [exact H | discriminate]].
Qed.

(** The two cases at work.  The field [?:[] makes the first parenthesis
    non-capturing and swallows the second group into a set: the pattern
    has no group and matches the empty text, so every message raises.  The
    field [?:ssn] leaves the group of the value as group 1: no exception,
    but the key is replaced by the value and the value stays in the
    output. *)
Example field_without_group :
  re_compile $"(?:[)=([^x]*)"
  = Ok (mkCompiled
          (RCat (RCat (RStar (RSet false (map SChar $")=([^x"))) REmpty) REmpty) 0)
  /\ filter_datum [$"?:["] $"***" $"name=a" $"x" = Err IndexError
  /\ filter_datum [$"?:["] $"***" $"" $"x" = Err IndexError.
Proof. repeat split; reflexivity. Qed.

Example field_non_capturing_leaks :
  filter_datum [$"?:ssn"] $"***" $"ssn=123;a=b" $";" = Ok $"123=***;a=b".
Proof. reflexivity. Qed.

(** ** Bounds *)

(** C35 (length of the output).  The redacted message is longer than the
    message by at most one redaction for each equals sign of the message:
    every match holds an equals sign of its own, keeps its key and replaces
    its value. *)
Theorem filter_datum_length (fields : list str) (mask msg : str) (c : char) :
  regex_safe fields c = true ->
  exists out,
    filter_datum fields mask msg [c] = Ok out
    /\ length out <= length msg + count_occ_ch ch_eq msg * length mask.
Proof.
  intros Hs. rewrite filter_datum_eq by assumption.
  eexists. split; [reflexivity | apply redact_length].
Qed.

Lemma filter_datum_length_witness :
  exists out,
    filter_datum PII_FIELDS $"***" $"name=Bob;a=b;ssn=" $";" = Ok out
    /\ length out <= length $"name=Bob;a=b;ssn="
                     + count_occ_ch ch_eq $"name=Bob;a=b;ssn=" * length $"***".
Proof.
  exact (filter_datum_length PII_FIELDS $"***" $"name=Bob;a=b;ssn=" (chr ";") eq_refl).
Defined.
