(* ===== verification/Results.v ===== *)
(** * Results: the matcher as an enumeration

    The matcher of [Matcher] is written with continuations: it hands each
    way of matching to the rest of the pattern and backtracks when that
    fails.  [results] is the reference it is compared with here: the list
    of every state in which a pattern can be left, in the order in which
    the matcher tries them (alternatives from left to right, a repetition
    from the longest run to the empty one).  [rmatch_results] says that the
    matcher returns what its continuation answers for the first result it
    accepts, [results_matches] that the results are the matches of the
    declarative semantics, [re_sub_reference] that [re.sub] is the loop
    over [search_ref], the first position with an acceptable result.
    [redact_candidates] lists the results of the pattern of line 29 of the
    source: the fields in the order of the list, and for each field the
    values from the longest down. *)

From Stdlib Require Import Ascii String.
From Stdlib Require Import List NArith Arith Bool Lia.
From S2P Require Import Prelude PyStr Regex Matcher Semantics Tokens Redact.
Import ListNotations.
Local Open Scope str_scope.
Local Open Scope res_scope.

(** ** The enumeration *)

Definition one_result (ok : char -> bool) (st : mstate) : list mstate :=
  match m_rest st with
  | [] => []
  | a :: rest => if ok a then [advance st rest] else []
  end.

(** The results of a repetition: every result of one more iteration,
    followed by the state the repetition started from.  An iteration that
    consumed nothing is not repeated. *)
Fixpoint star_results (body : mstate -> list mstate) (fuel : nat) (st : mstate)
    : list mstate :=
  match fuel with
  | 0 => [st]
  | S fuel' =>
      flat_map (fun st' => if Nat.eqb (m_pos st') (m_pos st) then [st']
                           else star_results body fuel' st') (body st)
      ++ [st]
  end.

Fixpoint results (r : regex) (st : mstate) {struct r} : list mstate :=
  match r with
  | REmpty => [st]
  | RChar c => one_result (fun a => ch_eqb a c) st
  | RAny => one_result (fun a => negb (ch_eqb a ch_newline)) st
  | RSet negate items => one_result (fun a => set_mem a negate items) st
  | RBol => if Nat.eqb (m_pos st) 0 then [st] else []
  | REol =>
      match m_rest st with
      | [] => [st]
      | [a] => if ch_eqb a ch_newline then [st] else []
      | _ :: _ :: _ => []
      end
  | RCat r1 r2 => flat_map (results r2) (results r1 st)
  | RAlt r1 r2 => results r1 st ++ results r2 st
  | RStar r' => star_results (results r') (star_fuel st) st
  | RPlus r' =>
      flat_map (fun st' => star_results (results r') (star_fuel st') st') (results r' st)
  | ROpt r' => results r' st ++ [st]
  | RGroup n r' =>
      map (fun st' => set_cap n (firstn (m_pos st' - m_pos st) (m_rest st)) st')
        (results r' st)
  end.

(** The first result that may end a match that started at [pos]. *)
Definition match_ref (r : regex) (pos : nat) (rest : str) (must_advance : bool)
    : option mstate :=
  find (fun st => negb (must_advance && Nat.eqb (m_pos st) pos))
    (results r (mkM pos rest [])).

(** The leftmost position, counted from [pos], at which the pattern has an
    acceptable result, with the text skipped before it. *)
Definition search_ref (r : regex) (pos : nat) (rest : str) (must_advance : bool)
    : option (str * mstate) :=
  first_some
    (fun k => option_map (pair (firstn k rest))
                (match_ref r (pos + k) (skipn k rest) (attempt_flag must_advance k)))
    (seq 0 (S (length rest))).

(** [re.sub] over [search_ref]. *)
Fixpoint sub_ref (re : compiled) (repl : match_obj -> res str)
    (fuel : nat) (pos : nat) (rest : str) (must_advance : bool) : res str :=
  match fuel with
  | 0 => Err (Unsupported UFuel)
  | S fuel' =>
      match search_ref (c_regex re) pos rest must_advance with
      | None => Ok rest
      | Some (skipped, st) =>
          let start := pos + length skipped in
          piece <- repl (mk_match re start (skipn (length skipped) rest) st) ;;
          out <- sub_ref re repl fuel' (m_pos st) (m_rest st)
                   (Nat.eqb (m_pos st) start) ;;
          Ok (skipped ++ piece ++ out)
      end
  end.

(** ** The results of the pattern of line 29 *)

(** The match of the key [g] whose value stops after [n] characters. *)
Definition key_match_at (pos : nat) (rest g : str) (n : nat) : mstate :=
  let after := skipn (length g + 1) rest in
  mkM (pos + length g + 1 + n) (skipn n after) [(2, firstn n after); (1, g)].

(** The lengths from [n] down to 0. *)
Definition down_from (n : nat) : list nat := rev (seq 0 (S n)).

(** Every way in which the pattern matches at the head of [rest], in the
    order in which the matcher tries them: the fields in the order of the
    list, and for each the values from the longest to the empty one. *)
Definition candidates (seps : str) (pos : nat) (rest : str) (fields : list str)
    : list mstate :=
  flat_map (fun g =>
              if starts_with (g ++ [ch_eq]) rest
              then map (key_match_at pos rest g)
                     (down_from (length (take_until_any seps (skipn (length g + 1) rest))))
              else [])
    fields.

(** ** Lists of attempts *)

Section FirstSome.
Context {A B C : Type}.

Lemma first_some_app (k : A -> option B) (l1 l2 : list A) :
  first_some k (l1 ++ l2) =
  match first_some k l1 with
  | Some x => Some x
  | None => first_some k l2
  end.
Proof. induction l1 as [|a l1 IH]; simpl; [reflexivity|]. now destruct (k a). Qed.

Lemma first_some_one (k : A -> option B) (a : A) : first_some k [a] = k a.
Proof. simpl. now destruct (k a). Qed.

Lemma first_some_flat_map (k : A -> option B) (f : C -> list A) (l : list C) :
  first_some k (flat_map f l) = first_some (fun c => first_some k (f c)) l.
Proof.
  induction l as [|c l IH]; simpl; [reflexivity|].
  rewrite first_some_app, IH. reflexivity.
Qed.

Lemma first_some_map (k : A -> option B) (f : C -> A) (l : list C) :
  first_some k (map f l) = first_some (fun c => k (f c)) l.
Proof. induction l as [|c l IH]; simpl; [reflexivity|]. now rewrite IH. Qed.

Lemma first_some_ext (g h : A -> option B) (l : list A) :
  (forall a, In a l -> g a = h a) -> first_some g l = first_some h l.
Proof.
  induction l as [|a l IH]; intros H; simpl; [reflexivity|].
  rewrite (H a) by now left. rewrite IH; [reflexivity|]. intros b Hb. apply H. now right.
Qed.

Lemma first_some_find (p : A -> bool) (l : list A) :
  first_some (fun a => if p a then Some a else None) l = find p l.
Proof. induction l as [|a l IH]; simpl; [reflexivity|]. now destruct (p a). Qed.

Lemma first_some_Some (k : A -> option B) (l : list A) (x : B) :
  first_some k l = Some x -> exists a, In a l /\ k a = Some x.
Proof.
  induction l as [|a l IH]; simpl; [discriminate|].
  destruct (k a) eqn:E.
  - intros [= ->]. eauto.
  - intros H. destruct (IH H) as (b & Hb & Hk). eauto.
Qed.
End FirstSome.

Lemma first_some_shift {A : Type} (c : char) (k : A -> option (str * mstate)) (l : list A) :
  match first_some k l with
  | Some (skipped, st) => Some (c :: skipped, st)
  | None => None
  end =
  first_some (fun a => match k a with
                       | Some (skipped, st) => Some (c :: skipped, st)
                       | None => None
                       end) l.
Proof. induction l as [|a l IH]; simpl; [reflexivity|]. now destruct (k a) as [[sk st]|]. Qed.

Lemma flat_map_single {A : Type} (l : list A) : flat_map (fun a => [a]) l = l.
Proof. induction l as [|a l IH]; simpl; [reflexivity | now rewrite IH]. Qed.

Lemma seq_0_S (n : nat) : seq 0 (S n) = 0 :: map S (seq 0 n).
Proof. cbn [seq]. now rewrite seq_shift. Qed.

Lemma down_from_S (n : nat) : down_from (S n) = map S (down_from n) ++ [0].
Proof. unfold down_from. rewrite (seq_0_S (S n)). cbn [rev]. now rewrite map_rev. Qed.

(** ** The matcher returns the first result that is accepted *)

Section Enumerates.
Context {R : Type}.

(** [list] enumerates what [body] tries, in the order in which it tries. *)
Definition enumerates (body : mstate -> (mstate -> option R) -> option R)
    (list : mstate -> list mstate) : Prop :=
  forall st k, body st k = first_some k (list st).

Lemma match_one_results (ok : char -> bool) :
  enumerates (match_one ok) (one_result ok).
Proof.
  intros st k. unfold match_one, one_result.
  destruct (m_rest st) as [|a rest]; [reflexivity|].
  destruct (ok a); [now rewrite first_some_one | reflexivity].
Qed.

Lemma star_loop_results body list (fuel : nat) :
  enumerates body list -> enumerates (star_loop body fuel) (star_results list fuel).
Proof.
  intros Hb. induction fuel as [|fuel IH]; intros st k; cbn [star_loop star_results].
  - now rewrite first_some_one.
  - rewrite first_some_app, first_some_one, first_some_flat_map, Hb.
    erewrite first_some_ext; [reflexivity|].
    intros st' _. cbn beta. destruct (Nat.eqb _ _); [now rewrite first_some_one | apply IH].
Qed.

Lemma rmatch_results (r : regex) : enumerates (rmatch r) (results r).
Proof.
  induction r; intros st k; cbn [rmatch results];
    try apply match_one_results.
  - now rewrite first_some_one.
  - destruct (Nat.eqb _ _); [now rewrite first_some_one | reflexivity].
  - destruct (m_rest st) as [|a [|b rest]]; [now rewrite first_some_one | | reflexivity].
    destruct (ch_eqb _ _); [now rewrite first_some_one | reflexivity].
  - rewrite first_some_flat_map, IHr1. apply first_some_ext. intros st' _. apply IHr2.
  - now rewrite first_some_app, IHr1, IHr2.
  - now apply star_loop_results.
  - rewrite first_some_flat_map, IHr. apply first_some_ext.
    intros st' _. now apply star_loop_results.
  - now rewrite first_some_app, first_some_one, IHr.
  - now rewrite first_some_map, IHr.
Qed.
End Enumerates.

Lemma match_at_ref (r : regex) (pos : nat) (rest : str) (flag : bool) :
  match_at r pos rest flag = match_ref r pos rest flag.
Proof.
  unfold match_at, match_ref. rewrite rmatch_results, <- first_some_find.
  apply first_some_ext. intros st _. unfold accept. now destruct (_ && _).
Qed.

(** ** The results are the matches *)

Lemma one_result_inv (ok : char -> bool) (st st' : mstate) :
  In st' (one_result ok st) ->
  exists a rest, m_rest st = a :: rest /\ ok a = true /\ st' = advance st rest.
Proof.
  unfold one_result. destruct (m_rest st) as [|a rest]; [intros []|].
  destruct (ok a) eqn:E; [|intros []]. intros [<-|[]]. eauto.
Qed.

Lemma star_results_run (r : regex) (fuel : nat) :
  (forall st st', In st' (results r st) -> run r st st') ->
  forall st st', In st' (star_results (results r) fuel st) -> run (RStar r) st st'.
Proof.
  intros Hr. induction fuel as [|fuel IH]; intros st st' H; cbn [star_results] in H.
  - destruct H as [<-|[]]. constructor.
  - apply in_app_or in H. destruct H as [H|[<-|[]]]; [|constructor].
    apply in_flat_map in H. destruct H as (mid & Hm & H).
    destruct (Nat.eqb _ _).
    + destruct H as [<-|[]]. eauto with pre.
    + eauto with pre.
Qed.

(** Every result is a state the matcher can be left in. *)
Lemma results_run (r : regex) (st st' : mstate) :
  In st' (results r st) -> run r st st'.
Proof.
  revert st st'. induction r; intros st st' H; cbn [results] in H.
  - destruct H as [<-|[]]. constructor.
  - apply one_result_inv in H. destruct H as (a & rest & E & Ha & ->).
    apply ch_eqb_eq in Ha. subst a. now constructor.
  - apply one_result_inv in H. destruct H as (a & rest & E & Ha & ->).
    apply (RunAny a); [assumption|]. intros ->. now rewrite ch_eqb_refl in Ha.
  - apply one_result_inv in H. destruct H as (a & rest & E & Ha & ->). eauto with pre.
  - destruct (Nat.eqb_spec (m_pos st) 0); [|destruct H]. destruct H as [<-|[]]. now constructor.
  - destruct (m_rest st) as [|a [|b rest]] eqn:E; [| |destruct H].
    + destruct H as [<-|[]]. now constructor.
    + destruct (ch_eqb a ch_newline) eqn:Ea; [|destruct H].
      destruct H as [<-|[]]. apply ch_eqb_eq in Ea. subst a. now apply RunEolNewline.
  - apply in_flat_map in H. destruct H as (mid & H1 & H2). eauto with pre.
  - apply in_app_or in H. destruct H; eauto with pre.
  - eapply star_results_run; eauto.
  - apply in_flat_map in H. destruct H as (mid & H1 & H2).
    eapply RunPlus; [eauto|]. eapply star_results_run; eauto.
  - apply in_app_or in H. destruct H as [H|[<-|[]]]; eauto with pre.
  - apply in_map_iff in H. destruct H as (mid & <- & H). eauto with pre.
Qed.

(** Every match of the declarative semantics is one of the results. *)
Lemma results_complete (r : regex) (pos : nat) (s rest : str) (st : mstate) :
  matches r pos s rest -> at_place pos (s ++ rest) st ->
  exists st', In st' (results r st) /\ at_place (pos + length s) rest st'.
Proof.
  intros Hm Hst.
  pose (k := fun st' : mstate =>
               if Nat.eqb (m_pos st') (pos + length s) && str_eqb (m_rest st') rest
               then Some st' else None).
  destruct (rmatch r st k) as [x|] eqn:E.
  - rewrite rmatch_results in E. apply first_some_Some in E.
    destruct E as (st' & Hin & Hk). exists st'. split; [assumption|].
    unfold k in Hk. destruct (Nat.eqb_spec (m_pos st') (pos + length s)); [|discriminate].
    destruct (str_eqb_spec (m_rest st') rest); [|discriminate]. now split.
  - exfalso. revert E. apply (rmatch_complete r pos s rest Hm st k Hst).
    intros st' [Hp Hr]. unfold k. rewrite Hp, Hr, Nat.eqb_refl, str_eqb_refl. discriminate.
Qed.

(** The places of the results are the places where a match ends. *)
Theorem results_matches (r : regex) (st : mstate) (pos' : nat) (rest' : str) :
  (exists st', In st' (results r st) /\ at_place pos' rest' st')
  <-> exists s, m_rest st = s ++ rest' /\ pos' = m_pos st + length s
                /\ matches r (m_pos st) s rest'.
Proof.
  split.
  - intros (st' & Hin & Hp & Hr). apply results_run, run_matches in Hin.
    destruct Hin as (s & [C1 C2] & M). exists s. subst. auto.
  - intros (s & E & -> & M). apply (results_complete r _ s rest' st M). now split.
Qed.

(** ** Equations of [results] *)

Lemma results_cat (r1 r2 : regex) (st : mstate) :
  results (RCat r1 r2) st = flat_map (results r2) (results r1 st).
Proof. reflexivity. Qed.

Lemma results_group (n : nat) (r : regex) (st : mstate) :
  results (RGroup n r) st =
  map (fun st' => set_cap n (firstn (m_pos st' - m_pos st) (m_rest st)) st') (results r st).
Proof. reflexivity. Qed.

Lemma results_char (c : char) (st : mstate) :
  results (RChar c) st = one_result (fun a => ch_eqb a c) st.
Proof. reflexivity. Qed.

Lemma results_star (r : regex) (st : mstate) :
  results (RStar r) st = star_results (results r) (star_fuel st) st.
Proof. reflexivity. Qed.

Lemma results_cat_empty (r : regex) (st : mstate) :
  results (RCat r REmpty) st = results r st.
Proof. rewrite results_cat. apply flat_map_single. Qed.

(** ** Literals, alternations and the greedy run *)

Lemma jump_0 (st : mstate) : jump st 0 = st.
Proof. unfold jump. cbn [skipn]. rewrite Nat.add_0_r. now destruct st. Qed.

Lemma starts_with_firstn (p s : str) :
  starts_with p s = true -> firstn (length p) s = p.
Proof.
  intros H. apply starts_with_skipn in H. rewrite H at 1.
  now rewrite firstn_app, firstn_all, Nat.sub_diag, firstn_O, app_nil_r.
Qed.

Lemma results_lit (s : str) (st : mstate) :
  results (lit s) st = if starts_with s (m_rest st) then [jump st (length s)] else [].
Proof.
  revert st. induction s as [|c s IH]; intros st; cbn [lit fold_right results].
  - cbn [starts_with length]. now rewrite jump_0.
  - fold (lit s). unfold one_result. cbn [starts_with].
    destruct (m_rest st) as [|a rest] eqn:E; [reflexivity|].
    rewrite (ch_eqb_sym c a). destruct (ch_eqb a c); [|reflexivity].
    cbn [flat_map andb]. rewrite app_nil_r, IH. cbn [advance m_rest length].
    now rewrite (jump_advance st a rest).
Qed.

Lemma results_alt_lits (fs : list str) (f : str) (st : mstate) :
  results (alt_of (lit f) (map lit fs)) st =
  flat_map (fun g => if starts_with g (m_rest st) then [jump st (length g)] else [])
    (f :: fs).
Proof.
  revert f. induction fs as [|h fs IH]; intros f; cbn [map alt_of].
  - cbn [flat_map]. now rewrite app_nil_r, results_lit.
  - cbn [results]. rewrite results_lit, IH. reflexivity.
Qed.

(** A greedy run of characters other than those of [seps]: the longest run
    first, then every shorter one. *)
Lemma star_results_not_set (seps : str) (fuel : nat) (st : mstate) :
  length (m_rest st) < fuel ->
  star_results (results (RSet true (map SChar seps))) fuel st =
  map (jump st) (down_from (length (take_until_any seps (m_rest st)))).
Proof.
  revert st. induction fuel as [|fuel IH]; intros st Hf; [lia|].
  cbn [star_results results]. unfold one_result.
  destruct (m_rest st) as [|a rest] eqn:E; cbn [take_until_any length].
  - cbn. now rewrite jump_0.
  - rewrite set_mem_chars. destruct (ch_mem a seps); cbn [negb flat_map length].
    + cbn. now rewrite jump_0.
    + cbn [advance m_pos]. destruct (Nat.eqb_spec (S (m_pos st)) (m_pos st)); [lia|].
      rewrite app_nil_r, IH by (cbn [advance m_rest]; simpl in Hf; lia).
      cbn [advance m_rest]. rewrite down_from_S, map_app, map_map. cbn [map].
      rewrite jump_0. f_equal. apply map_ext. intros n'. now apply (jump_advance st a).
Qed.

(** The second group and the end of the pattern. *)
Lemma results_value (seps : str) (pos : nat) (after : str) (caps : list (nat * str)) :
  results (RCat (RGroup 2 (RCat (RStar (RSet true (map SChar seps))) REmpty)) REmpty)
    (mkM pos after caps) =
  map (fun n => mkM (pos + n) (skipn n after) ((2, firstn n after) :: caps))
    (down_from (length (take_until_any seps after))).
Proof.
  rewrite results_cat_empty, results_group, results_cat_empty, results_star.
  rewrite star_results_not_set by (unfold star_fuel; lia). cbn [m_pos m_rest].
  rewrite map_map. apply map_ext. intros n.
  unfold set_cap, jump. cbn [m_pos m_rest m_caps].
  now replace (pos + n - pos) with n by lia.
Qed.

(** One field of the alternation, with what follows it. *)
Lemma results_key (seps : str) (pos : nat) (rest g : str) :
  flat_map
    (results (RCat (RChar ch_eq)
                (RCat (RGroup 2 (RCat (RStar (RSet true (map SChar seps))) REmpty)) REmpty)))
    (map (fun st' => set_cap 1 (firstn (m_pos st' - pos) rest) st')
       (if starts_with g rest then [jump (mkM pos rest []) (length g)] else [])) =
  if starts_with (g ++ [ch_eq]) rest
  then map (key_match_at pos rest g)
         (down_from (length (take_until_any seps (skipn (length g + 1) rest))))
  else [].
Proof.
  rewrite starts_with_key.
  destruct (starts_with g rest) eqn:Eg; cbn [andb map flat_map]; [|reflexivity].
  rewrite app_nil_r, results_cat, results_char. unfold one_result, jump, set_cap.
  cbn [m_pos m_rest m_caps].
  destruct (skipn (length g) rest) as [|a after] eqn:Es; [reflexivity|].
  destruct (ch_eqb a ch_eq); [|reflexivity].
  cbn [flat_map]. rewrite app_nil_r. unfold advance. cbn [m_pos m_rest m_caps].
  rewrite results_value, (skipn_S_tail _ _ _ _ Es).
  replace (pos + length g - pos) with (length g) by lia.
  rewrite (starts_with_firstn _ _ Eg).
  apply map_ext. intros n. unfold key_match_at.
  rewrite (skipn_S_tail _ _ _ _ Es). f_equal. lia.
Qed.

Lemma results_redact (seps : str) (pos : nat) (rest : str) (f : str) (fs : list str) :
  results (redact_regex_set f fs seps) (mkM pos rest []) =
  candidates seps pos rest (f :: fs).
Proof.
  unfold redact_regex_set, candidates. rewrite results_cat, results_group, results_alt_lits.
  cbn [m_rest m_pos]. induction (f :: fs) as [|g l IH]; [reflexivity|].
  cbn [flat_map]. rewrite map_app, flat_map_app, IH. f_equal. apply results_key.
Qed.

(** ** The reference for [search] and [re.sub] *)

Lemma attempt_flag_S (flag : bool) (k : nat) : attempt_flag flag (S k) = false.
Proof. unfold attempt_flag. apply andb_false_r. Qed.

Lemma attempt_flag_0 (flag : bool) : attempt_flag flag 0 = flag.
Proof. unfold attempt_flag. apply andb_true_r. Qed.

Lemma search_ref_eq (r : regex) (rest : str) : forall pos flag,
  search r pos rest flag = search_ref r pos rest flag.
Proof.
  unfold search_ref.
  induction rest as [|c rest IH]; intros pos flag; cbn [search length];
    rewrite seq_0_S; cbn [first_some];
    rewrite attempt_flag_0, Nat.add_0_r, match_at_ref; cbn [firstn skipn].
  - now destruct (match_ref r pos [] flag).
  - destruct (match_ref r pos (c :: rest) flag); [reflexivity|]. cbn [option_map].
    rewrite IH, first_some_map, first_some_shift.
    apply first_some_ext. intros k _.
    rewrite attempt_flag_S, Nat.add_succ_r. cbn [firstn skipn Nat.add].
    replace (attempt_flag false k) with false by now destruct k.
    now destruct (match_ref _ _ _ _).
Qed.

Lemma sub_ref_eq (re : compiled) (repl : match_obj -> res str) (fuel : nat) :
  forall pos rest flag,
  sub_loop re repl fuel pos rest flag = sub_ref re repl fuel pos rest flag.
Proof.
  induction fuel as [|fuel IH]; intros pos rest flag; cbn [sub_loop sub_ref]; [reflexivity|].
  rewrite search_ref_eq. destruct (search_ref _ _ _ _) as [[skipped st]|]; [|reflexivity].
  cbv zeta. destruct (repl _); [|reflexivity]. cbn [bind]. now rewrite IH.
Qed.

(** ** Theorems *)

(** C9 (the candidates of the pattern, in order).  At any position of any
    message, the results of the pattern that line 29 builds are the
    candidates: for each listed field that the text starts with, followed
    by an equals sign, one match for each length of the value from the
    longest run of characters outside the separator down to the empty
    value, the fields in the order of the list.  The first field of the
    list that matches and the longest value come first, so they are the
    match that [re.sub] hands to the callback.  The tree [redact_regex_set]
    of which this is said is what [re.compile] makes of the text of line
    29 when the fields hold no metacharacter and the separator is one the
    set can hold. *)
Theorem redact_candidates (f : str) (fs : list str) (seps : str) (pos : nat) (rest : str) :
  results (redact_regex_set f fs seps) (mkM pos rest []) = candidates seps pos rest (f :: fs)
  /\ match_at (redact_regex_set f fs seps) pos rest false =
     hd_error (candidates seps pos rest (f :: fs))
  /\ (Forall plain (f :: fs) -> sep_safe seps = true ->
      (pat <- pattern (f :: fs) seps ;; re_compile pat) =
      Ok (mkCompiled (redact_regex_set f fs seps) 2)).
Proof.
  split; [apply results_redact|]. split.
  - rewrite match_at_ref. unfold match_ref. rewrite results_redact. cbn [andb negb].
    now destruct (candidates _ _ _ _).
  - intros H Hs. inv H. rewrite pattern_eq. cbn [bind]. now apply compile_redact_set.
Qed.

(** The candidates for the fields [ssn] and [n] on [ssn=12;x]: the second
    field is a suffix of the first and does not match here. *)
Example candidates_ssn :
  map (fun st => (m_pos st, m_caps st))
    (results (redact_regex_set $"ssn" [$"n"] $";") (mkM 0 $"ssn=12;x" [])) =
  [ (6, [(2, $"12"); (1, $"ssn")]);
    (5, [(2, $"1"); (1, $"ssn")]);
    (4, [(2, []); (1, $"ssn")]) ].
Proof. reflexivity. Qed.

(** With the empty field, as an empty list of fields gives, and a key that
    is a field, both match at the key and the order of the list decides. *)
Example candidates_order :
  map (fun st => (m_pos st, m_caps st))
    (results (redact_regex_set $"a" [[]] $";") (mkM 0 $"a=1" [])) =
  [ (3, [(2, $"1"); (1, $"a")]); (2, [(2, []); (1, $"a")]) ]
  /\ map (fun st => (m_pos st, m_caps st))
       (results (redact_regex_set [] [$"a"] $";") (mkM 1 $"=1" [])) =
     [ (3, [(2, $"1"); (1, [])]); (2, [(2, []); (1, [])]) ].
Proof. split; reflexivity. Qed.

(** C25 (re.sub against its reference).  For every compiled pattern,
    callback and text, [re.sub] as the backtracking matcher computes it is
    [sub_ref]: at each round the leftmost position at which the enumeration
    of the results of the pattern has an acceptable one, and the first such
    result in the order of the enumeration.  The enumeration is that of the
    matches of the pattern: from any state, its results stand exactly at
    the places where a text that the pattern matches ends. *)
Theorem re_sub_reference (re : compiled) (repl : match_obj -> res str) (s : str) :
  re_sub re repl s = sub_ref re repl (sub_fuel s) 0 s false
  /\ forall st pos' rest',
       (exists st', In st' (results (c_regex re) st) /\ at_place pos' rest' st')
       <-> exists t, m_rest st = t ++ rest' /\ pos' = m_pos st + length t
                     /\ matches (c_regex re) (m_pos st) t rest'.
Proof. split; [apply sub_ref_eq | intros st pos' rest'; apply results_matches]. Qed.
