(* ===== verification/Scan.v ===== *)
(** * Scan: the tokenizer without fuel

    The tokenizer of the redaction contract is written in [Tokens] with a
    fuel, the length of the message plus one.  Here the same scan is
    defined by well-founded recursion on the length of the message
    ([scan_wf], with Equations): after a key the scan goes on behind the
    value, which is shorter than the message, elsewhere behind the
    character.  [scan_enough] says that every fuel above the length of the
    message gives the scan, and [filter_datum_wf] that [filter_datum]
    computes it: the fuel is a device of the model, not a bound of the
    code. *)

From Equations Require Import Equations.
From Stdlib Require Import Ascii String.
From Stdlib Require Import List NArith Arith Bool Lia.
From S2P Require Import Prelude PyStr Regex Tokens Redact.
Import ListNotations.
Local Open Scope str_scope.

(** A value together with the proof that it is the value of an expression. *)
Definition inspect {A : Type} (a : A) : {b : A | a = b} := exist _ a eq_refl.

Section Scan.
Variables (fields : list str) (mask : str) (skip : str -> str).
Hypothesis skip_length : forall s, length (skip s) <= length s.

Equations? scan_wf (msg : str) : str by wf (length msg) lt :=
  scan_wf nil := nil;
  scan_wf (cons a rest) with inspect (find_key fields (cons a rest)) := {
    | exist _ (Some f) E =>
        f ++ [ch_eq] ++ mask ++ scan_wf (skip (skipn (length f + 1) (cons a rest)));
    | exist _ None E => a :: scan_wf rest }.
Proof. exact (scan_shrinks fields skip skip_length (a :: rest) f E). Qed.

(** The scan with the fuel of [redact_ref] and [redact_set]. *)
Lemma scan_fuel_wf (msg : str) :
  scan_fuel fields mask skip (S (length msg)) msg = scan_wf msg.
Proof.
  funelim (scan_wf msg).
  - apply scan_nil.
  - rewrite (scan_hit fields mask skip skip_length _ _ E). now do 3 f_equal.
  - rewrite (scan_miss fields mask skip _ _ E). now f_equal.
Qed.

(** Any fuel above the length of the message is enough. *)
Lemma scan_enough (fuel : nat) (msg : str) :
  length msg < fuel -> scan_fuel fields mask skip fuel msg = scan_wf msg.
Proof.
  intros H. rewrite <- scan_fuel_wf. apply scan_fuel_irrel; [assumption | lia | lia].
Qed.
End Scan.

(** The scan of [filter_datum]: a value ends at the next character of the
    separator. *)
Definition redact_wf (fields : list str) (mask : str) (seps : str) : str -> str :=
  scan_wf fields mask (drop_until_any seps) (drop_until_any_length seps).

Example redact_wf_sample :
  redact_wf [$"ssn"] $"***" $";" $"id=1;ssn=12;x" = $"id=1;ssn=***;x".
Proof. reflexivity. Qed.

(** For fields without metacharacters and a separator the pattern can
    hold, [filter_datum] returns the scan of the message. *)
Theorem filter_datum_wf (fields : list str) (mask msg seps : str) :
  fields <> [] -> Forall plain fields -> sep_safe seps = true ->
  filter_datum fields mask msg seps = Ok (redact_wf fields mask seps msg).
Proof.
  intros Hne Hp Hs. destruct Hp as [|f fs Hf Hfs]; [congruence|].
  rewrite filter_datum_eq_set by assumption. f_equal. apply scan_fuel_wf.
Qed.
