(* ===== verification/Formatter.v ===== *)
(** * Formatter: [RedactingFormatter] and the base formatter it extends

    [RedactingFormatter] is lines 35-63 of the source: the class constants,
    [__init__], which hands [FORMAT] to the base class, and [format], which
    renders the record with the base class and passes the whole line to
    [filter_datum].  The base class is the library's: [percent_format] is
    the [%] operator on a template and a mapping, for the [s] conversion
    with a key, the [-] flag and a width; [base_format] is
    [logging.Formatter.format] on a record whose time is already rendered;
    [rendered] is the text it gives for the class template: the header, the
    message and the text of an exception or a stack, if any.  The theorems
    are proved against the interface [Redactor] and then stated for the
    source's [format]. *)

From Stdlib Require Import Ascii String.
From Stdlib Require Import List NArith Arith Bool Lia.
From S2P Require Import Prelude PyStr Regex Tokens Redact.
Import ListNotations.
Local Open Scope str_scope.
Local Open Scope res_scope.

(** ** The [%] operator on a template and a mapping *)

Definition ch_percent : char := chr "%".
Definition ch_space : char := chr " ".
Definition ch_minus : char := chr "-".

Definition is_digit (c : char) : bool := (48 <=? c)%N && (c <=? 57)%N.

Definition digit_val (c : char) : nat := N.to_nat (c - 48).

(** [s.ljust(w)] and [s.rjust(w)] with spaces. *)
Definition ljust (w : nat) (s : str) : str := s ++ repeat ch_space (w - length s).

Definition rjust (w : nat) (s : str) : str := repeat ch_space (w - length s) ++ s.

Definition pad (lj : bool) (w : nat) (s : str) : str :=
  if lj then ljust w s else rjust w s.

(** Conversions of Python that the model does not cover, and the flags
    that change nothing for a string. *)
Definition other_conversion (c : char) : bool := ch_mem c $"diouxXeEfFgGcra.*hlL".

Definition other_flag (c : char) : bool := ch_mem c $"+ #0".

(** Where the reader is in a conversion specifier. *)
Inductive pct_mode : Type :=
| PText
| PStart
| PKey (depth : nat) (rkey : str)
| PFlags (arg : option str) (lj : bool)
| PWidth (arg : option str) (lj : bool) (width : nat).

(** The conversion character [c], for the argument, flag and width read. *)
Definition convert (arg : option str) (lj : bool) (width : nat) (c : char)
    : res str :=
  if ch_eqb c (chr "s") then
    match arg with
    | Some v => Ok (pad lj width v)
    | None => Err (Unsupported UFormatField)
    end
  else if other_conversion c then Err (Unsupported UConversion)
  else Err ValueError.

Fixpoint percent_go (lookup : str -> res str) (mode : pct_mode) (tpl : str)
    : res str :=
  match tpl with
  | [] =>
      match mode with
      | PText => Ok []
      | _ => Err ValueError
      end
  | c :: tpl' =>
      let flags (arg : option str) (lj : bool) : res str :=
        if ch_eqb c ch_minus then percent_go lookup (PFlags arg true) tpl'
        else if other_flag c then percent_go lookup (PFlags arg lj) tpl'
        else if is_digit c then percent_go lookup (PWidth arg lj (digit_val c)) tpl'
        else piece <- convert arg lj 0 c ;;
             out <- percent_go lookup PText tpl' ;; Ok (piece ++ out) in
      match mode with
      | PText =>
          if ch_eqb c ch_percent then percent_go lookup PStart tpl'
          else out <- percent_go lookup PText tpl' ;; Ok (c :: out)
      | PStart =>
          if ch_eqb c ch_percent then
            out <- percent_go lookup PText tpl' ;; Ok (ch_percent :: out)
          else if ch_eqb c ch_lparen then percent_go lookup (PKey 1 []) tpl'
          else flags None false
      | PKey depth rkey =>
          if ch_eqb c ch_rparen then
            match depth with
            | 0 | 1 => v <- lookup (rev rkey) ;;
                       percent_go lookup (PFlags (Some v) false) tpl'
            | S d => percent_go lookup (PKey d (c :: rkey)) tpl'
            end
          else if ch_eqb c ch_lparen then percent_go lookup (PKey (S depth) (c :: rkey)) tpl'
          else percent_go lookup (PKey depth (c :: rkey)) tpl'
      | PFlags arg lj => flags arg lj
      | PWidth arg lj width =>
          if is_digit c then
            percent_go lookup (PWidth arg lj (10 * width + digit_val c)) tpl'
          else piece <- convert arg lj width c ;;
               out <- percent_go lookup PText tpl' ;; Ok (piece ++ out)
      end
  end.

Definition percent_format (tpl : str) (lookup : str -> res str) : res str :=
  percent_go lookup PText tpl.

(** ** Log records and the base formatter *)

(** The attributes of a record that the templates of the source read, as
    they are when the template is applied: [message] is the result of
    [getMessage], [asctime] the text [formatTime] gives; [exc_text] and
    [stack_info] are empty unless the call logs an exception or a stack. *)
Record LogRecord : Type := mkRecord {
  r_name : str;
  r_levelname : str;
  r_asctime : str;
  r_message : str;
  r_exc_text : str;
  r_stack_info : str
}.

(** The attributes of a record that are not modelled. *)
Definition other_attributes : list str :=
  [$"msg"; $"args"; $"levelno"; $"pathname"; $"filename"; $"module";
   $"exc_info"; $"exc_text"; $"stack_info"; $"lineno"; $"funcName";
   $"created"; $"msecs"; $"relativeCreated"; $"thread"; $"threadName";
   $"processName"; $"process"; $"taskName"].

(** [record.__dict__[key]] *)
Definition record_lookup (r : LogRecord) (key : str) : res str :=
  if str_eqb key $"name" then Ok (r_name r)
  else if str_eqb key $"levelname" then Ok (r_levelname r)
  else if str_eqb key $"asctime" then Ok (r_asctime r)
  else if str_eqb key $"message" then Ok (r_message r)
  else if str_mem key other_attributes then Err (Unsupported UFormatField)
  else Err (KeyError key).

(** [s] followed by [extra] on a line of its own, when there is one. *)
Definition append_block (s extra : str) : str :=
  match extra with
  | [] => s
  | _ :: _ =>
      match rev s with
      | last :: _ => if ch_eqb last ch_newline then s ++ extra else s ++ ch_newline :: extra
      | [] => ch_newline :: extra
      end
  end.

(** [logging.Formatter.format(record)] for the [%] style. *)
Definition base_format (fmt : str) (record : LogRecord) : res str :=
  s <- percent_format fmt (record_lookup record) ;;
  Ok (append_block (append_block s (r_exc_text record)) (r_stack_info record)).

(** ** [RedactingFormatter] *)

Module RedactingFormatter.

Definition REDACTION : str := $"***".
Definition FORMAT : str :=
  $"[HOLBERTON] %(name)s %(levelname)s %(asctime)-15s: %(message)s".
Definition SEPARATOR : str := $";".

(** An instance: the template kept by the base class and the fields. *)
Record t : Type := mkFormatter {
  fmt : str;
  fields : list str
}.

(** Lines 42-50. *)
Definition __init__ (fields : list str) : t := mkFormatter FORMAT fields.

(** Lines 52-63. *)
Definition format (self : t) (record : LogRecord) : res str :=
  line <- base_format (fmt self) record ;;
  filter_datum (fields self) REDACTION line SEPARATOR.

End RedactingFormatter.

(** The same formatter over any redactor. *)
Definition format_with {R : Redactor} (self : RedactingFormatter.t)
    (record : LogRecord) : res str :=
  line <- base_format (RedactingFormatter.fmt self) record ;;
  redact (RedactingFormatter.fields self) RedactingFormatter.REDACTION line
    RedactingFormatter.SEPARATOR.

(** The text the class template puts before the message. *)
Definition header (record : LogRecord) : str :=
  $"[HOLBERTON] " ++ r_name record ++ $" " ++ r_levelname record ++ $" "
    ++ ljust 15 (r_asctime record) ++ $": ".

(** The line the base class renders for a record: the header, the message
    and, each on a line of its own, the text of the exception and of the
    stack when the call logged them. *)
Definition rendered (record : LogRecord) : str :=
  append_block (append_block (header record ++ r_message record) (r_exc_text record))
    (r_stack_info record).

(** A record of a plain call: no exception, no stack. *)
Definition plain_record (record : LogRecord) : bool :=
  match r_exc_text record, r_stack_info record with
  | [], [] => true
  | _, _ => false
  end.

Import RedactingFormatter.

(** ** Lemmas on padding *)

Lemma ljust_length (w : nat) (s : str) : length (ljust w s) = Nat.max w (length s).
Proof. unfold ljust. rewrite length_app, repeat_length. lia. Qed.

Lemma rjust_length (w : nat) (s : str) : length (rjust w s) = Nat.max w (length s).
Proof. unfold rjust. rewrite length_app, repeat_length. lia. Qed.

Lemma ljust_id (w : nat) (s : str) : w <= length s -> ljust w s = s.
Proof.
  intros H. unfold ljust. replace (w - length s) with 0 by lia. apply app_nil_r.
Qed.

(** ** The class template *)

Lemma percent_format_FORMAT (r : LogRecord) :
  percent_format FORMAT (record_lookup r) = Ok (header r ++ r_message r).
Proof.
  unfold header. rewrite <- !app_assoc. cbn. now rewrite app_nil_r.
Qed.

Lemma base_format_rendered (r : LogRecord) : base_format FORMAT r = Ok (rendered r).
Proof. unfold base_format. now rewrite percent_format_FORMAT. Qed.

Lemma rendered_plain (r : LogRecord) :
  plain_record r = true -> rendered r = header r ++ r_message r.
Proof.
  unfold plain_record, rendered. intros H.
  destruct (r_exc_text r); [|discriminate]. destruct (r_stack_info r); [|discriminate].
  reflexivity.
Qed.

Lemma base_format_FORMAT (r : LogRecord) :
  plain_record r = true -> base_format FORMAT r = Ok (header r ++ r_message r).
Proof. intros H. now rewrite base_format_rendered, rendered_plain. Qed.

(** ** The formatter over any redactor *)

Section FormatWith.
Context {R : Redactor}.
Variable flds : list str.
Variable sep : char.
Hypothesis sep_is : SEPARATOR = [sep].
Hypothesis accepted : accepts flds sep = true.

(** Every record is formatted: the rendered line goes through the
    redactor, the text of an exception included. *)
Lemma format_with_rendered (r : LogRecord) :
  format_with (__init__ flds) r = Ok (redact_ref flds REDACTION sep (rendered r)).
Proof.
  unfold format_with. cbn [fmt fields __init__].
  rewrite base_format_rendered. cbn [bind]. rewrite sep_is. now apply redact_refines.
Qed.

Lemma format_with_line (r : LogRecord) :
  plain_record r = true ->
  format_with (__init__ flds) r =
  Ok (redact_ref flds REDACTION sep (header r ++ r_message r)).
Proof.
  intros Hp. now rewrite format_with_rendered, rendered_plain.
Qed.

(** The header is kept when it has no equals sign. *)
Lemma format_with_header (r : LogRecord) :
  plain_record r = true -> ~ In ch_eq (header r) ->
  exists out, format_with (__init__ flds) r = Ok out /\ starts_with (header r) out = true.
Proof.
  intros Hp Hh. rewrite format_with_line by assumption.
  eexists. split; [reflexivity|].
  apply starts_with_trans with (take_through ch_eq (header r ++ r_message r)).
  - now apply starts_with_take_through_free.
  - rewrite <- (redact_take_through flds REDACTION sep). apply take_through_prefix.
Qed.

Hypothesis fields_eq_free : Forall (fun f => ~ In ch_eq f) flds.
Hypothesis fields_sep_free : Forall (fun f => ~ In sep f) flds.
Hypothesis sep_not_eq : sep <> ch_eq.

(** A message of tokens: the line is the header and the tokens, masked by
    their keys; the first key is read with the header in front of it. *)
Lemma format_with_pairs (r : LogRecord) (k v : str) (kvs : list (str * str)) :
  plain_record r = true ->
  r_message r = str_join [sep] (map token ((k, v) :: kvs)) ->
  forallb (token_ok sep) ((header r ++ k, v) :: kvs) = true ->
  format_with (__init__ flds) r =
  Ok (str_join [sep] (map token (map (mask_pair flds REDACTION) ((header r ++ k, v) :: kvs)))).
Proof.
  intros Hp Hm Hk. rewrite format_with_line, Hm by assumption. f_equal.
  cbn [map]. rewrite str_join_prepend.
  change (header r ++ token (k, v)) with (header r ++ k ++ [ch_eq] ++ v).
  rewrite app_assoc.
  change ((header r ++ k) ++ [ch_eq] ++ v) with (token (header r ++ k, v)).
  now apply (redact_pairs flds REDACTION sep fields_eq_free fields_sep_free sep_not_eq
               ((header r ++ k, v) :: kvs)).
Qed.

(** Two records that differ in the value of a field give the same line. *)
Lemma format_with_secret (r1 r2 : LogRecord) (f pre v1 v2 post : str) :
  plain_record r1 = true -> plain_record r2 = true -> header r1 = header r2 ->
  In f flds -> ~ In sep v1 -> ~ In sep v2 -> at_boundary sep post ->
  r_message r1 = pre ++ f ++ [ch_eq] ++ v1 ++ post ->
  r_message r2 = pre ++ f ++ [ch_eq] ++ v2 ++ post ->
  format_with (__init__ flds) r1 = format_with (__init__ flds) r2.
Proof.
  intros Hp1 Hp2 Hh Hf H1 H2 Hb Hm1 Hm2.
  rewrite !format_with_line by assumption. f_equal. rewrite Hm1, Hm2, Hh, !(app_assoc (header r2) pre).
  rewrite Forall_forall in fields_sep_free. apply redact_secret; auto.
Qed.

End FormatWith.

(** ** [percent_format]: text and fields *)

Lemma percent_go_text (lookup : str -> res str) (s tpl : str) :
  ~ In ch_percent s ->
  percent_go lookup PText (s ++ tpl) =
  (out <- percent_go lookup PText tpl ;; Ok (s ++ out)).
Proof.
  induction s as [|c s IH]; intros H; simpl.
  - now destruct (percent_go lookup PText tpl).
  - simpl in H. ch_cases c ch_percent; [tauto|].
    rewrite IH by tauto. now destruct (percent_go lookup PText tpl).
Qed.

(** Reading a key without parentheses up to its closing parenthesis. *)
Lemma percent_go_key (lookup : str -> res str) (key tpl : str) : forall rkey,
  ~ In ch_lparen key -> ~ In ch_rparen key ->
  percent_go lookup (PKey 1 rkey) (key ++ ch_rparen :: tpl) =
  (v <- lookup (rev rkey ++ key) ;; percent_go lookup (PFlags (Some v) false) tpl).
Proof.
  induction key as [|c key IH]; intros rkey Hl Hr.
  - simpl. now rewrite app_nil_r.
  - simpl in Hl, Hr. cbn [app percent_go].
    ch_cases c ch_rparen; [tauto|]. ch_cases c ch_lparen; [tauto|].
    rewrite IH by tauto. cbn [rev]. now rewrite <- app_assoc.
Qed.

Lemma percent_go_field (lookup : str -> res str) (key tpl : str) :
  ~ In ch_lparen key -> ~ In ch_rparen key ->
  percent_go lookup PText ($"%(" ++ key ++ $")s" ++ tpl) =
  (v <- lookup key ;; out <- percent_go lookup PText tpl ;; Ok (v ++ out)).
Proof.
  intros Hl Hr. change ($"%(" ++ key ++ $")s" ++ tpl)
    with (ch_percent :: ch_lparen :: key ++ ch_rparen :: chr "s" :: tpl).
  cbn [percent_go ch_eqb]. change (ch_eqb ch_percent ch_percent) with true.
  change (ch_eqb ch_lparen ch_percent) with false.
  change (ch_eqb ch_lparen ch_lparen) with true. cbv iota.
  rewrite percent_go_key by assumption. cbn [rev app].
  destruct (lookup key) as [v|e]; reflexivity.
Qed.

Lemma format_eq (self : RedactingFormatter.t) (r : LogRecord) :
  format self r = format_with self r.
Proof. reflexivity. Qed.

(** ** Theorems on [RedactingFormatter] *)

(** The end-to-end case of the specification, with its template in the
    percent style: the level and the time are substituted, the value of
    [phone] is masked and the token [city=NYC] is kept. *)
Example spec_case_formatter :
  RedactingFormatter.format
    (RedactingFormatter.mkFormatter $"[APP] %(levelname)s %(asctime)s: %(message)s"
       [$"phone"])
    (mkRecord $"app" $"INFO" $"2024-01-01 12:00:00" $"phone=555-1234;city=NYC" [] [])
  = Ok $"[APP] INFO 2024-01-01 12:00:00: phone=***;city=NYC".
Proof. reflexivity. Qed.

(** C12 (the line that is redacted).  For every record and every list of
    fields, [format] renders the class template, the four attributes in
    their places and the time left-justified on 15 columns, adds the text
    of the exception and of the stack when the record has them, and passes
    the whole text, header included, to [filter_datum] with the class's
    redaction and separator. *)
Theorem format_line (flds : list str) (r : LogRecord) :
  format (__init__ flds) r = filter_datum flds REDACTION (rendered r) SEPARATOR.
Proof.
  unfold format. cbn [fmt fields __init__]. now rewrite base_format_rendered.
Qed.

Example format_line_user_data :
  format (__init__ PII_FIELDS)
    (mkRecord $"user_data" $"INFO" $"12:00:00,123" $"name=Bob;ip=::1" [] []) =
  Ok $"[HOLBERTON] user_data INFO 12:00:00,123   : name=***;ip=::1".
Proof. reflexivity. Qed.

(** A record with the text of an exception: the traceback is redacted too. *)
Example format_line_exception :
  format (__init__ PII_FIELDS)
    (mkRecord $"user_data" $"ERROR" $"12:00:00,123" $"failed" $"ValueError: ssn=1;x" []) =
  Ok ($"[HOLBERTON] user_data ERROR 12:00:00,123   : failed" ++ [ch_newline]
        ++ $"ValueError: ssn=***;x").
Proof. reflexivity. Qed.

(** C13 (secrecy of the line).  Two records with the same header whose
    messages differ only in the value of a listed field, up to the next
    separator, are formatted to the same line: the value does not reach the
    log. *)
Theorem format_secret (flds : list str) (r1 r2 : LogRecord) (f pre v1 v2 post : str) :
  well_separated flds (chr ";") = true ->
  plain_record r1 = true -> plain_record r2 = true -> header r1 = header r2 ->
  In f flds -> ~ In (chr ";") v1 -> ~ In (chr ";") v2 -> at_boundary (chr ";") post ->
  r_message r1 = pre ++ f ++ [ch_eq] ++ v1 ++ post ->
  r_message r2 = pre ++ f ++ [ch_eq] ++ v2 ++ post ->
  format (__init__ flds) r1 = format (__init__ flds) r2.
Proof.
  intros H. destruct (well_separated_inv _ _ H) as (Hs & He & Hc & Hn).
  change (format (__init__ flds) ?r) with (format_with (__init__ flds) r).
  now apply format_with_secret with (sep := chr ";").
Qed.

Lemma format_secret_witness :
  format (__init__ PII_FIELDS)
    (mkRecord $"user_data" $"INFO" $"12:00" $"id=1;ssn=078-05-1120;ok=y" [] []) =
  format (__init__ PII_FIELDS)
    (mkRecord $"user_data" $"INFO" $"12:00" $"id=1;ssn=219-09-9999;ok=y" [] []).
Proof.
  exact (format_secret PII_FIELDS
           (mkRecord $"user_data" $"INFO" $"12:00" $"id=1;ssn=078-05-1120;ok=y" [] [])
           (mkRecord $"user_data" $"INFO" $"12:00" $"id=1;ssn=219-09-9999;ok=y" [] [])
           $"ssn" $"id=1;" $"078-05-1120" $"219-09-9999" $";ok=y"
           eq_refl eq_refl eq_refl eq_refl ltac:(simpl; tauto)
           (proj1 (free_of_iff (chr ";") $"078-05-1120") eq_refl)
           (proj1 (free_of_iff (chr ";") $"219-09-9999") eq_refl)
           (at_boundary_cons _ _) eq_refl eq_refl).
Defined.

(** C14 (a message of tokens).  When the message is a sequence of
    [key=value] tokens, the line is the header followed by the same tokens,
    each value replaced by the redaction where a field ends its key; the
    key of the first token is read with the header in front of it. *)
Theorem format_pairs (flds : list str) (r : LogRecord) (k v : str)
    (kvs : list (str * str)) :
  well_separated flds (chr ";") = true -> plain_record r = true ->
  r_message r = str_join $";" (map token ((k, v) :: kvs)) ->
  forallb (token_ok (chr ";")) ((header r ++ k, v) :: kvs) = true ->
  format (__init__ flds) r =
  Ok (str_join $";"
        (map token (map (mask_pair flds REDACTION) ((header r ++ k, v) :: kvs)))).
Proof.
  intros H. destruct (well_separated_inv _ _ H) as (Hs & He & Hc & Hn).
  rewrite format_eq. now apply format_with_pairs with (sep := chr ";").
Qed.

Lemma format_pairs_witness :
  format (__init__ PII_FIELDS)
    (mkRecord $"user_data" $"INFO" $"2019-11-19 18:24:25,105"
       $"name=Marlene;last_login=2019-11-14;password=x" [] []) =
  Ok $"[HOLBERTON] user_data INFO 2019-11-19 18:24:25,105: name=***;last_login=2019-11-14;password=***".
Proof.
  exact (format_pairs PII_FIELDS
           (mkRecord $"user_data" $"INFO" $"2019-11-19 18:24:25,105"
              $"name=Marlene;last_login=2019-11-14;password=x" [] [])
           $"name" $"Marlene" [($"last_login", $"2019-11-14"); ($"password", $"x")]
           eq_refl eq_refl eq_refl eq_refl).
Defined.

(** C15 (the header is kept).  When the header has no equals sign, the
    line starts with the header as the template renders it: logger name,
    level and time reach the log unchanged. *)
Theorem format_keeps_header (flds : list str) (r : LogRecord) :
  regex_safe flds (chr ";") = true -> plain_record r = true ->
  free_of ch_eq (header r) = true ->
  exists out, format (__init__ flds) r = Ok out /\ starts_with (header r) out = true.
Proof.
  intros Hs Hp Hh. rewrite format_eq.
  apply format_with_header with (sep := chr ";");
    [reflexivity | assumption | assumption | now apply free_of_iff].
Qed.

Lemma format_keeps_header_witness :
  exists out,
    format (__init__ PII_FIELDS) (mkRecord $"user_data" $"INFO" $"12:00" $"email=a@b.c" [] [])
    = Ok out
    /\ starts_with (header (mkRecord $"user_data" $"INFO" $"12:00" $"email=a@b.c" [] []))
         out = true.
Proof.
  exact (format_keeps_header PII_FIELDS
           (mkRecord $"user_data" $"INFO" $"12:00" $"email=a@b.c" [] [])
           eq_refl eq_refl eq_refl).
Defined.

(** A field of the template: [%(key)s] is replaced by the value the mapping
    gives for the key; when the mapping has no such key the error of the
    lookup, a [KeyError], is the result. *)
Lemma percent_format_field (lookup : str -> res str) (key tpl : str) :
  free_of ch_lparen key = true -> free_of ch_rparen key = true ->
  percent_format ($"%(" ++ key ++ $")s" ++ tpl) lookup =
  (v <- lookup key ;; out <- percent_format tpl lookup ;; Ok (v ++ out)).
Proof.
  rewrite !free_of_iff. unfold percent_format. apply percent_go_field.
Qed.

Example percent_format_missing_key :
  percent_format $"%(user)s logged in"
    (record_lookup (mkRecord $"n" $"INFO" $"12:00" $"m" [] [])) =
  Err (KeyError $"user").
Proof.
  exact (percent_format_field (record_lookup (mkRecord $"n" $"INFO" $"12:00" $"m" [] []))
           $"user" $" logged in" eq_refl eq_refl).
Qed.

(** C16 (the formatter has no failure path).  For every record, with the
    text of an exception or without, and every non-empty list of fields
    without metacharacters, [format] returns a line: the rendered record as
    the tokenizer rewrites it.  The class template names only attributes
    that every record has, and the redactor does not fail on such fields
    and the class's separator. *)
Theorem format_total (flds : list str) (r : LogRecord) :
  regex_safe flds (chr ";") = true ->
  format (__init__ flds) r = Ok (redact_ref flds REDACTION (chr ";") (rendered r)).
Proof.
  intros H. rewrite format_eq.
  now apply (format_with_rendered (R := filter_datum_redactor) flds (chr ";") eq_refl).
Qed.

Lemma format_total_witness :
  format (__init__ PII_FIELDS)
    (mkRecord $"user_data" $"ERROR" $"12:00" $"failed" $"ValueError: ssn=1;x" []) =
  Ok (redact_ref PII_FIELDS REDACTION (chr ";")
        (rendered (mkRecord $"user_data" $"ERROR" $"12:00" $"failed"
                     $"ValueError: ssn=1;x" []))).
Proof.
  exact (format_total PII_FIELDS
           (mkRecord $"user_data" $"ERROR" $"12:00" $"failed" $"ValueError: ssn=1;x" [])
           eq_refl).
Defined.
