(* ===== verification/Logging.v ===== *)
(** * Logging: loggers, handlers and [get_logger]

    [get_logger] is lines 66-86 of the source.  It works on the state of
    the [logging] module, which is shared by the whole process: the
    registry of named loggers, the root logger and the error stream.  That
    state is the record [World]; a logger is referred to by its name, a
    handler has an identity, as Python objects do.  [info] is
    [logger.info(msg)]: level check, record creation, [callHandlers],
    [StreamHandler.emit].  Loggers with dotted names (a parent other than
    the root), filters, [disabled] and [logging.disable] are not modelled. *)

From Stdlib Require Import Ascii String.
From Stdlib Require Import List NArith Arith Bool Lia.
From S2P Require Import Prelude PyStr Regex Tokens Redact Formatter.
Import ListNotations.
Local Open Scope str_scope.
Local Open Scope res_scope.

(** ** Levels *)

Definition NOTSET : nat := 0.
Definition INFO : nat := 20.
Definition WARNING : nat := 30.

(** ** Handlers, loggers and the state of the module *)

(** A [StreamHandler] on the error stream. *)
Record StreamHandler : Type := mkHandler {
  h_id : nat;
  h_level : nat;
  h_formatter : option RedactingFormatter.t
}.

Record Logger : Type := mkLogger {
  l_name : str;
  l_level : nat;
  l_propagate : bool;
  l_handlers : list StreamHandler
}.

(** What reaches the error stream: a line, or the report that
    [Handler.handleError] prints when formatting raised. *)
Inductive output : Type :=
| Line (text : str)
| LoggingError (e : exn).

Record World : Type := mkWorld {
  loggers : list (str * Logger);
  root : Logger;
  next_id : nat;
  stderr : list output
}.

(** The module as it is when the program starts. *)
Definition initial_world : World :=
  mkWorld [] (mkLogger $"root" WARNING true []) 0 [].

(** ** The registry *)

Fixpoint lookup (name : str) (l : list (str * Logger)) : option Logger :=
  match l with
  | [] => None
  | (n, lg) :: rest => if str_eqb name n then Some lg else lookup name rest
  end.

Fixpoint update (name : str) (f : Logger -> Logger) (l : list (str * Logger))
    : list (str * Logger) :=
  match l with
  | [] => []
  | (n, lg) :: rest =>
      if str_eqb name n then (n, f lg) :: rest else (n, lg) :: update name f rest
  end.

Definition with_loggers (l : list (str * Logger)) (w : World) : World :=
  mkWorld l (root w) (next_id w) (stderr w).

(** [logging.getLogger(name)]: the logger of that name, made on first use. *)
Definition getLogger (name : str) (w : World) : World :=
  match lookup name (loggers w) with
  | Some _ => w
  | None => with_loggers (loggers w ++ [(name, mkLogger name NOTSET true [])]) w
  end.

Definition setLevel (level : nat) (lg : Logger) : Logger :=
  mkLogger (l_name lg) level (l_propagate lg) (l_handlers lg).

Definition set_propagate (b : bool) (lg : Logger) : Logger :=
  mkLogger (l_name lg) (l_level lg) b (l_handlers lg).

(** [logging.StreamHandler()]: a new object. *)
Definition new_handler (w : World) : StreamHandler * World :=
  (mkHandler (next_id w) NOTSET None,
   mkWorld (loggers w) (root w) (S (next_id w)) (stderr w)).

Definition setFormatter (f : RedactingFormatter.t) (h : StreamHandler) : StreamHandler :=
  mkHandler (h_id h) (h_level h) (Some f).

(** [logger.addHandler(h)]: appended unless the same object is there. *)
Definition addHandler (h : StreamHandler) (lg : Logger) : Logger :=
  if existsb (fun h' => Nat.eqb (h_id h') (h_id h)) (l_handlers lg) then lg
  else mkLogger (l_name lg) (l_level lg) (l_propagate lg) (l_handlers lg ++ [h]).

(** ** [get_logger] (lines 66-86): the name of the logger and the new state *)

Definition get_logger (w : World) : str * World :=
  let name := $"user_data" in
  let w := getLogger name w in
  let w := with_loggers (update name (setLevel INFO) (loggers w)) w in
  let w := with_loggers (update name (set_propagate false) (loggers w)) w in
  let '(stream_handler, w) := new_handler w in
  let formatter := RedactingFormatter.__init__ PII_FIELDS in
  let stream_handler := setFormatter formatter stream_handler in
  let w := with_loggers (update name (addHandler stream_handler) (loggers w)) w in
  (name, w).

(** ** [logger.info] *)

(** [Handler.format]: the handler's formatter, or the module's default. *)
Definition handler_format (h : StreamHandler) (record : LogRecord) : res str :=
  match h_formatter h with
  | Some f => RedactingFormatter.format f record
  | None => base_format $"%(message)s" record
  end.

(** [StreamHandler.emit]: the line and its terminator; an exception of
    the formatter is reported on the stream and goes no further. *)
Definition emit (h : StreamHandler) (record : LogRecord) (err : list output)
    : list output :=
  match handler_format h record with
  | Ok msg => err ++ [Line (msg ++ [ch_newline])]
  | Err e => err ++ [LoggingError e]
  end.

(** [Handler.handle] for each handler whose level lets the record through. *)
Fixpoint handle_all (hs : list StreamHandler) (levelno : nat) (record : LogRecord)
    (err : list output) : list output :=
  match hs with
  | [] => err
  | h :: rest =>
      handle_all rest levelno record
        (if Nat.leb (h_level h) levelno then emit h record err else err)
  end.

(** [Logger.callHandlers]: the logger's handlers, then the root's when the
    logger propagates; with no handler at all, the handler of last resort. *)
Definition callHandlers (w : World) (lg : Logger) (levelno : nat) (record : LogRecord)
    : list output :=
  let chain := l_handlers lg ++ (if l_propagate lg then l_handlers (root w) else []) in
  match chain with
  | [] =>
      if Nat.leb WARNING levelno
      then emit (mkHandler 0 WARNING None) record (stderr w)
      else stderr w
  | _ :: _ => handle_all chain levelno record (stderr w)
  end.

Definition getEffectiveLevel (w : World) (lg : Logger) : nat :=
  if Nat.eqb (l_level lg) NOTSET then l_level (root w) else l_level lg.

(** [logger.log(levelno, msg)] at the time [now], for the logger [name]. *)
Definition log (name : str) (levelno : nat) (levelname now msg : str) (w : World)
    : World :=
  match lookup name (loggers w) with
  | None => w
  | Some lg =>
      if Nat.leb (getEffectiveLevel w lg) levelno then
        let record := mkRecord (l_name lg) levelname now msg [] [] in
        mkWorld (loggers w) (root w) (next_id w) (callHandlers w lg levelno record)
      else w
  end.

Definition info (name : str) (now msg : str) (w : World) : World :=
  log name INFO $"INFO" now msg w.

(** ** Invariant of the registry *)

(** Every logger is registered under its own name, and handler identities
    are below the next one to be given. *)
Definition names_ok (l : list (str * Logger)) : Prop :=
  Forall (fun p => l_name (snd p) = fst p) l.

Definition ids_ok (w : World) : Prop :=
  Forall (fun p => Forall (fun h => h_id h < next_id w) (l_handlers (snd p)))
    (loggers w).

Definition world_ok (w : World) : Prop := names_ok (loggers w) /\ ids_ok w.

(** The handlers of the logger [name], none if there is no such logger. *)
Definition handlers_of (name : str) (w : World) : list StreamHandler :=
  match lookup name (loggers w) with
  | Some lg => l_handlers lg
  | None => []
  end.

(** The handler [get_logger] makes in the state [w]. *)
Definition made_handler (w : World) : StreamHandler :=
  mkHandler (next_id w) NOTSET (Some (RedactingFormatter.__init__ PII_FIELDS)).

(** The record [info] makes for the logger [user_data]. *)
Definition info_record (now msg : str) : LogRecord :=
  mkRecord $"user_data" $"INFO" now msg [] [].

(** [get_logger] called [n] times. *)
Fixpoint get_logger_times (n : nat) (w : World) : World :=
  match n with
  | 0 => w
  | S n' => snd (get_logger (get_logger_times n' w))
  end.

(** ** Lemmas on the registry *)

Lemma lookup_update_same (name : str) (f : Logger -> Logger) (l : list (str * Logger)) :
  lookup name (update name f l) = option_map f (lookup name l).
Proof.
  induction l as [|[n lg] l IH]; [reflexivity|]. simpl.
  destruct (str_eqb name n) eqn:E; simpl; rewrite E; [reflexivity | exact IH].
Qed.

Lemma lookup_update_other (name other : str) (f : Logger -> Logger)
    (l : list (str * Logger)) :
  other <> name -> lookup other (update name f l) = lookup other l.
Proof.
  intros Hne. induction l as [|[n lg] l IH]; [reflexivity|]. simpl.
  destruct (str_eqb_spec name n) as [->|Hn]; simpl; [|now rewrite IH].
  destruct (str_eqb_spec other n); [congruence | reflexivity].
Qed.

Lemma lookup_app_new (name : str) (lg : Logger) (l : list (str * Logger)) :
  lookup name l = None -> lookup name (l ++ [(name, lg)]) = Some lg.
Proof.
  induction l as [|[n x] l IH]; simpl; [now rewrite str_eqb_refl|].
  destruct (str_eqb name n); [discriminate | exact IH].
Qed.

Lemma lookup_app_old (name other : str) (lg : Logger) (l : list (str * Logger)) :
  other <> name -> lookup other (l ++ [(name, lg)]) = lookup other l.
Proof.
  intros Hne. induction l as [|[n x] l IH]; simpl.
  - destruct (str_eqb_spec other name); [congruence | reflexivity].
  - now rewrite IH.
Qed.

Lemma lookup_In (name : str) (lg : Logger) (l : list (str * Logger)) :
  lookup name l = Some lg -> In (name, lg) l.
Proof.
  induction l as [|[n x] l IH]; simpl; [discriminate|].
  destruct (str_eqb_spec name n) as [->|Hn]; intros H; [inv H; now left | right; auto].
Qed.

Lemma update_Forall (P : str * Logger -> Prop) (name : str) (f : Logger -> Logger)
    (l : list (str * Logger)) :
  Forall P l -> (forall n lg, P (n, lg) -> P (n, f lg)) -> Forall P (update name f l).
Proof.
  intros H Hf. induction H as [|[n lg] l Hp Hl IH]; simpl; [constructor|].
  destruct (str_eqb name n); constructor; auto.
Qed.

(** ** [getLogger] *)

Lemma getLogger_lookup (name : str) (w : World) :
  names_ok (loggers w) ->
  exists lg, lookup name (loggers (getLogger name w)) = Some lg
    /\ l_name lg = name /\ l_handlers lg = handlers_of name w.
Proof.
  intros Hn. unfold getLogger, handlers_of.
  destruct (lookup name (loggers w)) as [lg|] eqn:E.
  - exists lg. rewrite E. repeat split. apply lookup_In in E.
    unfold names_ok in Hn. rewrite Forall_forall in Hn. exact (Hn _ E).
  - eexists. simpl. rewrite lookup_app_new by assumption. repeat split.
Qed.

Lemma getLogger_other (name other : str) (w : World) :
  other <> name -> lookup other (loggers (getLogger name w)) = lookup other (loggers w).
Proof.
  intros Hne. unfold getLogger. destruct (lookup name (loggers w)); [reflexivity|].
  simpl. now apply lookup_app_old.
Qed.

Lemma getLogger_frame (name : str) (w : World) :
  next_id (getLogger name w) = next_id w
  /\ root (getLogger name w) = root w
  /\ stderr (getLogger name w) = stderr w.
Proof. unfold getLogger. now destruct (lookup name (loggers w)). Qed.

(** ** [addHandler] *)

Lemma addHandler_fresh (h : StreamHandler) (lg : Logger) :
  Forall (fun h' => h_id h' < h_id h) (l_handlers lg) ->
  addHandler h lg = mkLogger (l_name lg) (l_level lg) (l_propagate lg) (l_handlers lg ++ [h]).
Proof.
  intros H. unfold addHandler.
  replace (existsb _ (l_handlers lg)) with false; [reflexivity|].
  symmetry. apply not_true_is_false. intros E. apply existsb_exists in E.
  destruct E as (h' & Hin & Heq). apply Nat.eqb_eq in Heq.
  rewrite Forall_forall in H. specialize (H h' Hin). lia.
Qed.

Lemma handlers_fresh (name : str) (w : World) :
  ids_ok w -> Forall (fun h => h_id h < next_id w) (handlers_of name w).
Proof.
  unfold ids_ok, handlers_of. intros H.
  destruct (lookup name (loggers w)) as [lg|] eqn:E; [|constructor].
  apply lookup_In in E. rewrite Forall_forall in H. exact (H _ E).
Qed.

(** What [get_logger] leaves in the registry. *)
Lemma get_logger_lookup (w : World) :
  world_ok w ->
  lookup $"user_data" (loggers (snd (get_logger w))) =
  Some (mkLogger $"user_data" INFO false (handlers_of $"user_data" w ++ [made_handler w])).
Proof.
  intros [Hn Hids]. unfold get_logger. cbn [new_handler snd with_loggers loggers].
  rewrite !lookup_update_same.
  destruct (getLogger_lookup $"user_data" w Hn) as (lg & -> & Hname & Hh).
  cbn [option_map]. unfold setLevel, set_propagate.
  cbn [l_name l_level l_propagate l_handlers].
  destruct (getLogger_frame $"user_data" w) as (Hid & _).
  unfold with_loggers, setFormatter. cbn [next_id h_id h_level]. rewrite Hid.
  rewrite addHandler_fresh; cbn [l_name l_level l_propagate l_handlers h_id].
  - now rewrite Hh, Hname.
  - rewrite Hh. now apply handlers_fresh.
Qed.

Lemma get_logger_frame (w : World) :
  next_id (snd (get_logger w)) = S (next_id w)
  /\ root (snd (get_logger w)) = root w
  /\ stderr (snd (get_logger w)) = stderr w.
Proof.
  destruct (getLogger_frame $"user_data" w) as (H1 & H2 & H3).
  unfold get_logger, new_handler, with_loggers. cbn [snd next_id root stderr].
  now rewrite H1, H2, H3.
Qed.

Lemma get_logger_other (other : str) (w : World) :
  other <> $"user_data" ->
  lookup other (loggers (snd (get_logger w))) = lookup other (loggers w).
Proof.
  intros Hne. unfold get_logger. cbn [new_handler snd with_loggers loggers].
  rewrite !lookup_update_other by assumption. now apply getLogger_other.
Qed.

Lemma get_logger_handlers (w : World) :
  world_ok w ->
  handlers_of $"user_data" (snd (get_logger w)) =
  handlers_of $"user_data" w ++ [made_handler w].
Proof.
  intros H. unfold handlers_of at 1. now rewrite get_logger_lookup.
Qed.

(** ** The invariant *)

Lemma initial_world_ok : world_ok initial_world.
Proof. split; constructor. Qed.

Lemma getLogger_names_ok (name : str) (w : World) :
  names_ok (loggers w) -> names_ok (loggers (getLogger name w)).
Proof.
  unfold getLogger, names_ok. intros H.
  destruct (lookup name (loggers w)); [assumption|].
  simpl. apply Forall_app. split; [assumption | now repeat constructor].
Qed.

Lemma getLogger_ids_ok (name : str) (w : World) :
  ids_ok w -> ids_ok (getLogger name w).
Proof.
  unfold getLogger, ids_ok. intros H.
  destruct (lookup name (loggers w)); [assumption|].
  simpl. apply Forall_app. split; [assumption | now repeat constructor].
Qed.

Lemma addHandler_ids (h : StreamHandler) (lg : Logger) (n : nat) :
  h_id h < n -> Forall (fun h' => h_id h' < n) (l_handlers lg) ->
  Forall (fun h' => h_id h' < n) (l_handlers (addHandler h lg)).
Proof.
  intros Hh H. unfold addHandler. destruct (existsb _ _); [assumption|].
  simpl. apply Forall_app. split; [assumption | now repeat constructor].
Qed.

Lemma addHandler_name (h : StreamHandler) (lg : Logger) :
  l_name (addHandler h lg) = l_name lg.
Proof. unfold addHandler. now destruct (existsb _ _). Qed.

Lemma ids_weaken (n m : nat) (hs : list StreamHandler) :
  n <= m -> Forall (fun h => h_id h < n) hs -> Forall (fun h => h_id h < m) hs.
Proof. intros Hle H. eapply Forall_impl; [|exact H]. cbn beta. intros. lia. Qed.

Lemma get_logger_world_ok_aux (w : World) :
  world_ok w -> world_ok (snd (get_logger w)).
Proof.
  intros [Hn Hi]. unfold get_logger, new_handler, with_loggers, setFormatter.
  cbn [snd loggers next_id h_id].
  apply (getLogger_names_ok $"user_data") in Hn.
  apply (getLogger_ids_ok $"user_data") in Hi.
  destruct (getLogger_frame $"user_data" w) as (Hid & _).
  split; unfold names_ok, ids_ok in *; cbn [loggers next_id]; rewrite ?Hid;
    repeat apply update_Forall;
    try (intros n lg H; cbn [snd fst] in *; rewrite ?addHandler_name; simpl; exact H).
  - assumption.
  - eapply Forall_impl; [|exact Hi]. cbn beta. intros p.
    apply ids_weaken. rewrite Hid. lia.
  - intros n lg H. cbn [snd] in *. apply addHandler_ids; [simpl; lia | assumption].
Qed.

(** ** [info] through the handlers of [user_data] *)

Lemma handle_all_app (hs1 hs2 : list StreamHandler) (levelno : nat) (r : LogRecord) :
  forall err,
  handle_all (hs1 ++ hs2) levelno r err =
  handle_all hs2 levelno r (handle_all hs1 levelno r err).
Proof. induction hs1 as [|h hs1 IH]; intros err; simpl; [reflexivity | apply IH]. Qed.

(** After [get_logger], [info] goes through the handlers of [user_data]
    and through no other. *)
Lemma info_after_get_logger (w : World) (now msg : str) :
  world_ok w ->
  stderr (info $"user_data" now msg (snd (get_logger w))) =
  handle_all (handlers_of $"user_data" w ++ [made_handler w]) INFO
    (info_record now msg) (stderr w).
Proof.
  intros H. unfold info, log. rewrite get_logger_lookup by assumption.
  unfold getEffectiveLevel, callHandlers.
  cbn [l_level l_propagate l_handlers l_name Nat.eqb INFO NOTSET Nat.leb stderr].
  rewrite app_nil_r. destruct (get_logger_frame w) as (_ & _ & ->).
  destruct (handlers_of $"user_data" w ++ [made_handler w]) eqn:E; [|reflexivity].
  now apply app_eq_nil in E.
Qed.

(** [info] on a configured logger. *)
Lemma info_configured (w : World) (hs : list StreamHandler) (now msg : str) :
  lookup $"user_data" (loggers w) = Some (mkLogger $"user_data" INFO false hs) ->
  hs <> [] ->
  info $"user_data" now msg w =
  mkWorld (loggers w) (root w) (next_id w)
    (handle_all hs INFO (info_record now msg) (stderr w)).
Proof.
  intros Hl Hne. unfold info, log. rewrite Hl.
  unfold getEffectiveLevel, callHandlers. cbn [l_level l_propagate l_handlers l_name].
  change (Nat.eqb INFO NOTSET) with false. change (Nat.leb INFO INFO) with true.
  cbv iota. rewrite app_nil_r. destruct hs; [congruence | reflexivity].
Qed.

(** What the handler that [get_logger] makes writes. *)
Lemma emit_made_handler (w : World) (r : LogRecord) (out : str) (err : list output) :
  RedactingFormatter.format (RedactingFormatter.__init__ PII_FIELDS) r = Ok out ->
  emit (made_handler w) r err = err ++ [Line (out ++ [ch_newline])].
Proof. intros H. unfold emit, handler_format. cbn [made_handler h_formatter]. now rewrite H. Qed.

Lemma get_logger_times_ok (n : nat) : world_ok (get_logger_times n initial_world).
Proof.
  induction n as [|n IH]; [apply initial_world_ok | now apply get_logger_world_ok_aux].
Qed.

Lemma get_logger_times_stderr (n : nat) : stderr (get_logger_times n initial_world) = [].
Proof.
  induction n as [|n IH]; [reflexivity|]. cbn [get_logger_times].
  destruct (get_logger_frame (get_logger_times n initial_world)) as (_ & _ & ->).
  exact IH.
Qed.

(** All the handlers made so far have the same formatter. *)
Lemma handle_all_made (r : LogRecord) (out : str) (hs : list StreamHandler) :
  RedactingFormatter.format (RedactingFormatter.__init__ PII_FIELDS) r = Ok out ->
  Forall (fun h => h_level h = NOTSET
                   /\ h_formatter h = Some (RedactingFormatter.__init__ PII_FIELDS)) hs ->
  forall err,
  handle_all hs INFO r err = err ++ repeat (Line (out ++ [ch_newline])) (length hs).
Proof.
  intros Hf H. induction H as [|h hs [Hl Hfm] Hs IH]; intros err; simpl.
  - now rewrite app_nil_r.
  - rewrite Hl, IH. cbn [Nat.leb NOTSET]. unfold emit, handler_format. rewrite Hfm, Hf.
    now rewrite <- app_assoc.
Qed.

Lemma get_logger_times_handlers (n : nat) :
  length (handlers_of $"user_data" (get_logger_times n initial_world)) = n
  /\ Forall (fun h => h_level h = NOTSET
                      /\ h_formatter h = Some (RedactingFormatter.__init__ PII_FIELDS))
       (handlers_of $"user_data" (get_logger_times n initial_world)).
Proof.
  induction n as [|n [IHl IHf]]; [split; [reflexivity | constructor]|].
  cbn [get_logger_times]. rewrite get_logger_handlers by apply get_logger_times_ok.
  split.
  - rewrite length_app, IHl. simpl. lia.
  - apply Forall_app. split; [assumption | now repeat constructor].
Qed.

Lemma info_after_times (n : nat) (now msg out : str) :
  RedactingFormatter.format (RedactingFormatter.__init__ PII_FIELDS) (info_record now msg)
    = Ok out ->
  stderr (info $"user_data" now msg (get_logger_times (S n) initial_world)) =
  repeat (Line (out ++ [ch_newline])) (S n).
Proof.
  intros Hf. cbn [get_logger_times].
  rewrite info_after_get_logger by apply get_logger_times_ok.
  rewrite <- get_logger_handlers by apply get_logger_times_ok.
  destruct (get_logger_times_handlers (S n)) as [Hl Hall]. cbn [get_logger_times] in Hl, Hall.
  rewrite (handle_all_made _ out _ Hf Hall), Hl, get_logger_times_stderr. reflexivity.
Qed.

Lemma handle_all_ext (hs : list StreamHandler) (levelno : nat) (r1 r2 : LogRecord) :
  Forall (fun h => handler_format h r1 = handler_format h r2) hs ->
  forall err, handle_all hs levelno r1 err = handle_all hs levelno r2 err.
Proof.
  induction 1 as [|h hs Hh Hs IH]; intros err; simpl; [reflexivity|].
  unfold emit. now rewrite Hh, IH.
Qed.

Lemma header_info_record (now msg : str) :
  header (info_record now []) = header (info_record now msg).
Proof. reflexivity. Qed.

Lemma PII_FIELDS_separated : well_separated PII_FIELDS (chr ";") = true.
Proof. reflexivity. Qed.

(** ** Theorems on [get_logger] and [info] *)

(** C21 (what [get_logger] sets up).  In a state that satisfies the
    invariant, [get_logger] returns the logger [user_data] with level
    [INFO], propagation off, and one more handler than before: a new
    [StreamHandler] whose formatter is a [RedactingFormatter] on
    [PII_FIELDS]. *)
Theorem get_logger_configures (w : World) :
  world_ok w ->
  fst (get_logger w) = $"user_data"
  /\ lookup $"user_data" (loggers (snd (get_logger w))) =
     Some (mkLogger $"user_data" INFO false
             (handlers_of $"user_data" w ++ [made_handler w])).
Proof. intros H. split; [reflexivity | now apply get_logger_lookup]. Qed.

Lemma get_logger_configures_witness :
  fst (get_logger initial_world) = $"user_data"
  /\ lookup $"user_data" (loggers (snd (get_logger initial_world))) =
     Some (mkLogger $"user_data" INFO false
             [mkHandler 0 NOTSET (Some (RedactingFormatter.__init__ PII_FIELDS))]).
Proof. exact (get_logger_configures initial_world initial_world_ok). Defined.

(** C23 (one redacted line).  After the first call of [get_logger], a call
    of [info] with a message of [key=value] tokens writes exactly one line
    to the error stream: the header, the tokens with the values of the
    keys that end in a field of [PII_FIELDS] replaced by the redaction,
    and the line terminator. *)
Theorem info_redacts (now k v : str) (kvs : list (str * str)) :
  forallb (token_ok (chr ";"))
    ((header (info_record now []) ++ k, v) :: kvs) = true ->
  stderr (info $"user_data" now (str_join $";" (map token ((k, v) :: kvs)))
            (snd (get_logger initial_world))) =
  [Line (str_join $";"
           (map token
              (map (mask_pair PII_FIELDS RedactingFormatter.REDACTION)
                 ((header (info_record now []) ++ k, v) :: kvs)))
         ++ [ch_newline])].
Proof.
  rewrite (header_info_record now (str_join $";" (map token ((k, v) :: kvs)))).
  intros Hk. destruct (well_separated_inv _ _ PII_FIELDS_separated) as (Hs & He & Hc & Hn).
  apply (info_after_times 0). rewrite format_eq.
  now apply format_with_pairs with (sep := chr ";").
Qed.

Lemma info_redacts_witness :
  stderr (info $"user_data" $"12:00" $"name=Bob;age=3;ssn=1"
            (snd (get_logger initial_world))) =
  [Line ($"[HOLBERTON] user_data INFO 12:00          : name=***;age=3;ssn=***"
         ++ [ch_newline])].
Proof.
  exact (info_redacts $"12:00" $"name" $"Bob" [($"age", $"3"); ($"ssn", $"1")] eq_refl).
Defined.

(** A handler per call.  [get_logger] attaches a new handler every time it
    is called: after [n + 1] calls, one call of [info] writes the same line
    [n + 1] times. *)
Lemma get_logger_again_duplicates (n : nat) (now msg out : str) :
  RedactingFormatter.format (RedactingFormatter.__init__ PII_FIELDS) (info_record now msg)
    = Ok out ->
  stderr (info $"user_data" now msg (get_logger_times (S n) initial_world)) =
  repeat (Line (out ++ [ch_newline])) (S n).
Proof. apply info_after_times. Qed.

Example get_logger_twice :
  stderr (info $"user_data" $"12:00" $"email=a@b.c"
            (snd (get_logger (snd (get_logger initial_world))))) =
  [Line ($"[HOLBERTON] user_data INFO 12:00          : email=***" ++ [ch_newline]);
   Line ($"[HOLBERTON] user_data INFO 12:00          : email=***" ++ [ch_newline])].
Proof.
  exact (get_logger_again_duplicates 1 $"12:00" $"email=a@b.c"
           $"[HOLBERTON] user_data INFO 12:00          : email=***" eq_refl).
Qed.

(** Secrecy of the stream.  Whatever the number of calls of [get_logger]
    before, two calls of [info] whose messages differ only in the value of
    a field of [PII_FIELDS] write the same text. *)
Lemma info_secret (n : nat) (now f pre v1 v2 post : str) :
  In f PII_FIELDS -> ~ In (chr ";") v1 -> ~ In (chr ";") v2 ->
  at_boundary (chr ";") post ->
  stderr (info $"user_data" now (pre ++ f ++ [ch_eq] ++ v1 ++ post)
            (get_logger_times (S n) initial_world)) =
  stderr (info $"user_data" now (pre ++ f ++ [ch_eq] ++ v2 ++ post)
            (get_logger_times (S n) initial_world)).
Proof.
  intros Hf H1 H2 Hp. cbn [get_logger_times].
  rewrite !info_after_get_logger by apply get_logger_times_ok.
  rewrite <- get_logger_handlers by apply get_logger_times_ok.
  apply handle_all_ext.
  destruct (get_logger_times_handlers (S n)) as [_ Hall]. cbn [get_logger_times] in Hall.
  eapply Forall_impl; [|exact Hall]. cbn beta. intros h [_ Hfm].
  unfold handler_format. rewrite Hfm.
  destruct (well_separated_inv _ _ PII_FIELDS_separated) as (Hs & He & Hc & Hn).
  set (r1 := info_record now (pre ++ f ++ [ch_eq] ++ v1 ++ post)).
  set (r2 := info_record now (pre ++ f ++ [ch_eq] ++ v2 ++ post)).
  rewrite (format_eq _ r1), (format_eq _ r2).
  apply (format_with_secret (R := filter_datum_redactor) PII_FIELDS (chr ";")
           eq_refl Hs He Hc Hn r1 r2 f pre v1 v2 post);
    try assumption; reflexivity.
Qed.

Example info_secret_password :
  stderr (info $"user_data" $"12:00" $"id=1;password=abc;x=y"
            (snd (get_logger initial_world))) =
  stderr (info $"user_data" $"12:00" $"id=1;password=hunter2;x=y"
            (snd (get_logger initial_world))).
Proof.
  exact (info_secret 0 $"12:00" $"password" $"id=1;" $"abc" $"hunter2" $";x=y"
           ltac:(simpl; tauto)
           (proj1 (free_of_iff (chr ";") $"abc") eq_refl)
           (proj1 (free_of_iff (chr ";") $"hunter2") eq_refl)
           (at_boundary_cons _ _)).
Qed.

(** The level: a record below [INFO] is dropped by the logger that
    [get_logger] configured: the state, error stream included, is
    unchanged. *)
Lemma log_below_info (w : World) (levelno : nat) (levelname now msg : str) :
  world_ok w -> levelno < INFO ->
  log $"user_data" levelno levelname now msg (snd (get_logger w)) = snd (get_logger w).
Proof.
  intros H Hl. unfold log. rewrite get_logger_lookup by assumption.
  unfold getEffectiveLevel. cbn [l_level]. change (Nat.eqb INFO NOTSET) with false.
  cbv iota. destruct (Nat.leb_spec INFO levelno); [lia | reflexivity].
Qed.

Example log_below_info_debug :
  log $"user_data" 10 $"DEBUG" $"12:00" $"ssn=1" (snd (get_logger initial_world)) =
  snd (get_logger initial_world).
Proof.
  exact (log_below_info initial_world 10 $"DEBUG" $"12:00" $"ssn=1" initial_world_ok
           ltac:(unfold INFO; lia)).
Qed.
