(* ===== verification/Trace.v ===== *)
(** * Trace: the logging module along a run of the process

    A process that uses the source calls [get_logger] and [info] on the
    logger it returns, any number of times and in any order; other code of
    the process may attach handlers of its own to the root logger, as
    [logging.basicConfig] does.  [call_step] is one such call on the state
    of the logging module, [reachable] the states a process can be in,
    [run_events] the state after a list of calls.  The invariant [inv] says
    what every reachable state looks like: the logger [user_data], once
    made, is at level [INFO], does not propagate, and has only handlers
    that redact [PII_FIELDS]; the error stream holds only redacted lines,
    whatever handlers the root logger has, because line 76 of the source
    turns propagation off.

    The specification of a run is its [journal]: the number of handlers
    attached and the lines written.  Every call takes a state that
    [implements] a journal to one that implements the journal after the
    call, so a run writes exactly [spec_lines]: the redacted line of each
    message, once for each call of [get_logger] made before it. *)

From Stdlib Require Import Ascii String.
From Stdlib Require Import List NArith Arith Bool Lia.
From S2P Require Import Prelude PyStr Regex Tokens Redact Formatter Logging.
Import ListNotations.
Import RedactingFormatter.
Local Open Scope str_scope.

(** ** Calls and states *)

Inductive event : Type :=
| GetLogger
| Info (now msg : str)
| RootHandler (h : StreamHandler).

(** [logging.getLogger().addHandler(h)]: a handler on the root logger. *)
Definition add_root_handler (h : StreamHandler) (w : World) : World :=
  mkWorld (loggers w) (addHandler h (root w)) (next_id w) (stderr w).

Definition do_event (e : event) (w : World) : World :=
  match e with
  | GetLogger => snd (get_logger w)
  | Info now msg => info $"user_data" now msg w
  | RootHandler h => add_root_handler h w
  end.

Definition run_events (es : list event) (w : World) : World :=
  fold_left (fun w e => do_event e w) es w.

Inductive call_step : World -> World -> Prop :=
| StepGetLogger w : call_step w (snd (get_logger w))
| StepInfo w now msg : call_step w (info $"user_data" now msg w)
| StepRootHandler w h : call_step w (add_root_handler h w).

Inductive reachable : World -> Prop :=
| ReachInit : reachable initial_world
| ReachStep w w' : reachable w -> call_step w w' -> reachable w'.

(** A handler as [logging.basicConfig] makes it: no level, the default
    formatter, which writes the message as it is. *)
Definition root_handler : StreamHandler := mkHandler 0 NOTSET None.

(** [get_logger] was called. *)
Definition configured (w : World) : bool :=
  match lookup $"user_data" (loggers w) with
  | Some _ => true
  | None => false
  end.

(** ** The invariant *)

(** A handler as [get_logger] makes them. *)
Definition redacting (h : StreamHandler) : Prop :=
  h_level h = NOTSET /\ h_formatter h = Some (__init__ PII_FIELDS).

(** The line that a redacting handler writes for a call of [info]. *)
Definition redacted_line (now msg : str) : output :=
  Line (redact_ref PII_FIELDS REDACTION (chr ";")
          (header (info_record now msg) ++ msg) ++ [ch_newline]).

Definition redacted (o : output) : Prop :=
  exists now msg, o = redacted_line now msg.

(** The logger [user_data] is as [get_logger] leaves it, if it exists. *)
Definition logger_ok (w : World) : Prop :=
  match lookup $"user_data" (loggers w) with
  | None => True
  | Some lg =>
      l_name lg = $"user_data" /\ l_level lg = INFO /\ l_propagate lg = false
      /\ l_handlers lg <> [] /\ Forall redacting (l_handlers lg)
  end.

Record inv (w : World) : Prop := mkInv {
  inv_world : world_ok w;
  inv_logger : logger_ok w;
  inv_stderr : Forall redacted (stderr w)
}.

(** ** The specification of a run

    What a process can observe of the logging module is the error stream.
    The specification keeps a [journal]: how many times [get_logger] was
    called and the lines written.  A call of [get_logger] counts one more
    handler, a call of [info] appends the redacted line of the message
    once for each handler, a handler on the root logger changes nothing. *)

Record journal : Type := mkJournal {
  j_handlers : nat;
  j_lines : list output
}.

Definition empty_journal : journal := mkJournal 0 [].

Definition spec_event (e : event) (j : journal) : journal :=
  match e with
  | GetLogger => mkJournal (S (j_handlers j)) (j_lines j)
  | Info now msg =>
      mkJournal (j_handlers j)
        (j_lines j ++ repeat (redacted_line now msg) (j_handlers j))
  | RootHandler _ => j
  end.

Definition spec_run (es : list event) (j : journal) : journal :=
  fold_left (fun j e => spec_event e j) es j.

(** The lines that a run writes when [n] handlers are attached at its start. *)
Fixpoint spec_lines (n : nat) (es : list event) : list output :=
  match es with
  | [] => []
  | GetLogger :: es' => spec_lines (S n) es'
  | Info now msg :: es' => repeat (redacted_line now msg) n ++ spec_lines n es'
  | RootHandler _ :: es' => spec_lines n es'
  end.

(** The calls of [get_logger] in a run. *)
Fixpoint calls (es : list event) : nat :=
  match es with
  | [] => 0
  | GetLogger :: es' => S (calls es')
  | _ :: es' => calls es'
  end.

(** The state [w] of the module implements the journal [j]. *)
Record implements (w : World) (j : journal) : Prop := mkImplements {
  impl_inv : inv w;
  impl_handlers : length (handlers_of $"user_data" w) = j_handlers j;
  impl_lines : stderr w = j_lines j
}.

(** Two calls that differ in the value of a field of [PII_FIELDS]. *)
Inductive similar : event -> event -> Prop :=
| SimGetLogger : similar GetLogger GetLogger
| SimSame now msg : similar (Info now msg) (Info now msg)
| SimRootHandler h : similar (RootHandler h) (RootHandler h)
| SimInfo now f pre v1 v2 post :
    In f PII_FIELDS -> ~ In (chr ";") v1 -> ~ In (chr ";") v2 ->
    at_boundary (chr ";") post ->
    similar (Info now (pre ++ f ++ [ch_eq] ++ v1 ++ post))
            (Info now (pre ++ f ++ [ch_eq] ++ v2 ++ post)).

(** Two calls that a reader of the error stream cannot tell apart: the same
    call, or two calls of [info] whose messages have the same redacted
    line. *)
Inductive alike : event -> event -> Prop :=
| AlikeGetLogger : alike GetLogger GetLogger
| AlikeRootHandler h : alike (RootHandler h) (RootHandler h)
| AlikeInfo now msg1 msg2 :
    redacted_line now msg1 = redacted_line now msg2 ->
    alike (Info now msg1) (Info now msg2).

(** ** Lemmas *)

Lemma format_info_record (now msg : str) :
  format (__init__ PII_FIELDS) (info_record now msg) =
  Ok (redact_ref PII_FIELDS REDACTION (chr ";") (header (info_record now msg) ++ msg)).
Proof.
  rewrite format_eq.
  now apply (format_with_line (R := filter_datum_redactor) PII_FIELDS (chr ";") eq_refl eq_refl).
Qed.

Lemma handle_all_redacting (hs : list StreamHandler) (now msg : str) (err : list output) :
  Forall redacting hs ->
  handle_all hs INFO (info_record now msg) err =
  err ++ repeat (redacted_line now msg) (length hs).
Proof.
  intros H. now apply handle_all_made; [apply format_info_record|].
Qed.

Lemma logger_ok_inv (w : World) :
  logger_ok w ->
  lookup $"user_data" (loggers w) = None
  \/ exists hs, hs <> [] /\ Forall redacting hs
       /\ lookup $"user_data" (loggers w) = Some (mkLogger $"user_data" INFO false hs).
Proof.
  unfold logger_ok. destruct (lookup _ _) as [[n l p hs]|]; [|now left].
  cbn. intros (-> & -> & -> & Hne & Hall). right. eauto.
Qed.

(** What [info] does in a state that satisfies the invariant. *)
Lemma info_inv (w : World) (now msg : str) :
  logger_ok w ->
  info $"user_data" now msg w =
  mkWorld (loggers w) (root w) (next_id w)
    (stderr w ++ repeat (redacted_line now msg) (length (handlers_of $"user_data" w))).
Proof.
  intros H. unfold handlers_of. apply logger_ok_inv in H.
  destruct H as [E|(hs & Hne & Hall & E)]; rewrite E.
  - unfold info, log. rewrite E. cbn [length repeat]. rewrite app_nil_r. now destruct w.
  - rewrite (info_configured w hs) by assumption.
    cbn [l_handlers]. now rewrite handle_all_redacting.
Qed.

Lemma handlers_redacting (w : World) :
  logger_ok w -> Forall redacting (handlers_of $"user_data" w).
Proof.
  unfold logger_ok, handlers_of. destruct (lookup _ _); [tauto | constructor].
Qed.

Lemma redacted_repeat (now msg : str) (n : nat) :
  Forall redacted (repeat (redacted_line now msg) n).
Proof. apply Forall_forall. intros o H. apply repeat_spec in H. subst. red. eauto. Qed.

Lemma inv_initial : inv initial_world.
Proof. split; [apply initial_world_ok | exact I | constructor]. Qed.

Lemma inv_get_logger (w : World) : inv w -> inv (snd (get_logger w)).
Proof.
  intros [Hw Hl Hs]. split.
  - now apply get_logger_world_ok_aux.
  - unfold logger_ok. rewrite get_logger_lookup by assumption.
    cbn [l_name l_level l_propagate l_handlers]. repeat split.
    + intros E. now apply app_eq_nil in E.
    + apply Forall_app. split; [now apply handlers_redacting | now repeat constructor].
  - now destruct (get_logger_frame w) as (_ & _ & ->).
Qed.

Lemma inv_info (w : World) (now msg : str) : inv w -> inv (info $"user_data" now msg w).
Proof.
  intros [Hw Hl Hs]. rewrite info_inv by assumption. split.
  - exact Hw.
  - exact Hl.
  - cbn [stderr]. apply Forall_app. split; [assumption | apply redacted_repeat].
Qed.

(** A handler on the root logger changes neither the registry nor the
    error stream. *)
Lemma inv_root_handler (w : World) (h : StreamHandler) : inv w -> inv (add_root_handler h w).
Proof. intros [Hw Hl Hs]. now split. Qed.

Lemma step_inv (w w' : World) : call_step w w' -> inv w -> inv w'.
Proof.
  intros [w0|w0 now msg|w0 h]; [apply inv_get_logger | apply inv_info | apply inv_root_handler].
Qed.

Lemma reachable_inv (w : World) : reachable w -> inv w.
Proof. induction 1; eauto using inv_initial, step_inv. Qed.

Lemma do_event_step (e : event) (w : World) : call_step w (do_event e w).
Proof. destruct e; constructor. Qed.

Lemma run_reachable (es : list event) :
  forall w, reachable w -> reachable (run_events es w).
Proof.
  induction es as [|e es IH]; intros w H; [exact H|].
  apply IH. eapply ReachStep; [exact H | apply do_event_step].
Qed.

Lemma run_events_snoc (es : list event) (e : event) (w : World) :
  run_events (es ++ [e]) w = do_event e (run_events es w).
Proof. unfold run_events. now rewrite fold_left_app. Qed.

Lemma step_is_event (w w' : World) : call_step w w' -> exists e, w' = do_event e w.
Proof.
  intros [w0|w0 now msg|w0 h];
    [now exists GetLogger | now exists (Info now msg) | now exists (RootHandler h)].
Qed.

(** The reachable states are the states after a list of calls. *)
Lemma reachable_run (w : World) :
  reachable w <-> exists es, w = run_events es initial_world.
Proof.
  split.
  - induction 1 as [|w w' _ (es & ->) Hs]; [now exists []|].
    apply step_is_event in Hs. destruct Hs as (e & ->).
    exists (es ++ [e]). now rewrite run_events_snoc.
  - intros (es & ->). apply run_reachable. constructor.
Qed.

(** ** The simulation *)

Lemma implements_initial : implements initial_world empty_journal.
Proof. split; [apply inv_initial | reflexivity | reflexivity]. Qed.

Lemma handlers_of_frame (w w' : World) :
  loggers w' = loggers w -> handlers_of $"user_data" w' = handlers_of $"user_data" w.
Proof. unfold handlers_of. now intros ->. Qed.

(** Each call takes a state that implements a journal to a state that
    implements the journal after the call. *)
Lemma implements_step (e : event) (w : World) (j : journal) :
  implements w j -> implements (do_event e w) (spec_event e j).
Proof.
  intros [Hi Hh Hl]. destruct e as [|now msg|h]; cbn [do_event spec_event].
  - split; cbn [j_handlers j_lines].
    + now apply inv_get_logger.
    + rewrite get_logger_handlers by apply Hi. rewrite length_app. cbn [length]. lia.
    + now destruct (get_logger_frame w) as (_ & _ & ->).
  - rewrite info_inv by apply Hi. split; cbn [j_handlers j_lines stderr].
    + rewrite <- (info_inv w now msg) by apply Hi. now apply inv_info.
    + now rewrite (handlers_of_frame w) by reflexivity.
    + now rewrite Hh, Hl.
  - split; [now apply inv_root_handler | exact Hh | exact Hl].
Qed.

Lemma spec_run_cons (e : event) (es : list event) (j : journal) :
  spec_run (e :: es) j = spec_run es (spec_event e j).
Proof. reflexivity. Qed.

Lemma implements_run (es : list event) : forall w j,
  implements w j -> implements (run_events es w) (spec_run es j).
Proof.
  induction es as [|e es IH]; intros w j H; [exact H|].
  rewrite spec_run_cons. cbn [run_events fold_left]. apply IH. now apply implements_step.
Qed.

(** The lines of the journal, call by call. *)
Lemma spec_run_lines (es : list event) : forall j,
  j_lines (spec_run es j) = j_lines j ++ spec_lines (j_handlers j) es
  /\ j_handlers (spec_run es j) = j_handlers j + calls es.
Proof.
  induction es as [|[|now msg|h] es IH]; intros j;
    [|rewrite spec_run_cons..]; cbn [spec_lines calls].
  - cbn. now rewrite app_nil_r, Nat.add_0_r.
  - destruct (IH (spec_event GetLogger j)) as [-> ->]. cbn [spec_event j_lines j_handlers].
    split; [reflexivity | lia].
  - destruct (IH (spec_event (Info now msg) j)) as [-> ->].
    cbn [spec_event j_lines j_handlers]. now rewrite <- app_assoc.
  - apply (IH j).
Qed.

(** A run from any state that satisfies the invariant: what it appends to
    the error stream and how many handlers it attaches. *)
Lemma run_events_lines (es : list event) (w : World) :
  inv w ->
  stderr (run_events es w) =
  stderr w ++ spec_lines (length (handlers_of $"user_data" w)) es
  /\ length (handlers_of $"user_data" (run_events es w)) =
     length (handlers_of $"user_data" w) + calls es.
Proof.
  intros Hi.
  set (j := mkJournal (length (handlers_of $"user_data" w)) (stderr w)).
  assert (H : implements w j) by now split.
  apply (implements_run es) in H. destruct H as [_ Hh Hl].
  destruct (spec_run_lines es j) as [El Eh]. cbn [j j_lines j_handlers] in El, Eh.
  split; congruence.
Qed.

Lemma scan_secret (now f pre v1 v2 post : str) :
  In f PII_FIELDS -> ~ In (chr ";") v1 -> ~ In (chr ";") v2 ->
  at_boundary (chr ";") post ->
  redact_ref PII_FIELDS REDACTION (chr ";")
    (header (info_record now []) ++ pre ++ f ++ [ch_eq] ++ v1 ++ post) =
  redact_ref PII_FIELDS REDACTION (chr ";")
    (header (info_record now []) ++ pre ++ f ++ [ch_eq] ++ v2 ++ post).
Proof.
  intros Hf H1 H2 Hp.
  rewrite !(app_assoc (header _) pre).
  destruct (well_separated_inv _ _ PII_FIELDS_separated) as (Hs & He & Hc & Hn).
  rewrite Forall_forall in Hc.
  apply (redact_secret PII_FIELDS REDACTION (chr ";") He f v1 v2 post Hf (Hc f Hf) Hn H1 H2 Hp).
Qed.

Lemma redacted_line_secret (now f pre v1 v2 post : str) :
  In f PII_FIELDS -> ~ In (chr ";") v1 -> ~ In (chr ";") v2 ->
  at_boundary (chr ";") post ->
  redacted_line now (pre ++ f ++ [ch_eq] ++ v1 ++ post) =
  redacted_line now (pre ++ f ++ [ch_eq] ++ v2 ++ post).
Proof.
  intros Hf H1 H2 Hp.
  exact (f_equal (fun s => Line (s ++ [ch_newline]))
           (scan_secret now f pre v1 v2 post Hf H1 H2 Hp)).
Qed.

Lemma similar_alike (e1 e2 : event) : similar e1 e2 -> alike e1 e2.
Proof.
  intros [ | now msg | h | now f pre v1 v2 post Hf H1 H2 Hp ]; constructor;
    [reflexivity | now apply redacted_line_secret].
Qed.

Lemma alike_do_event (e1 e2 : event) (w : World) :
  alike e1 e2 -> logger_ok w -> do_event e1 w = do_event e2 w.
Proof.
  intros [ | h | now msg1 msg2 E ] Hw; try reflexivity.
  cbn [do_event]. rewrite !info_inv by assumption. now rewrite E.
Qed.

(** Runs of calls that are alike one by one end in the same state. *)
Lemma alike_run (es1 es2 : list event) :
  Forall2 alike es1 es2 ->
  forall w, reachable w -> run_events es1 w = run_events es2 w.
Proof.
  induction 1 as [|e1 e2 es1 es2 He Hes IH]; intros w Hw; [reflexivity|].
  cbn [run_events fold_left].
  rewrite <- (alike_do_event e1 e2) by (assumption || now apply reachable_inv).
  apply IH. eapply ReachStep; [exact Hw | apply do_event_step].
Qed.

Lemma similar_run (es1 es2 : list event) :
  Forall2 similar es1 es2 ->
  forall w, reachable w -> run_events es1 w = run_events es2 w.
Proof.
  intros H. apply alike_run. revert H. apply Forall2_impl, similar_alike.
Qed.

(** ** Theorems *)

(** Why line 76 matters: with a handler on the root logger and propagation
    left on, the record reaches that handler too and is written as it is. *)
Example propagation_would_leak :
  let w := add_root_handler root_handler (snd (get_logger initial_world)) in
  let w' := with_loggers (update $"user_data" (set_propagate true) (loggers w)) w in
  stderr (info $"user_data" $"12:00" $"ssn=1" w) = [redacted_line $"12:00" $"ssn=1"]
  /\ stderr (info $"user_data" $"12:00" $"ssn=1" w') =
     [redacted_line $"12:00" $"ssn=1"; Line ($"ssn=1" ++ [ch_newline])].
Proof. split; reflexivity. Qed.

(** C22 (a run refines its journal).  After any list of calls of
    [get_logger] and [info], and of handlers attached to the root logger,
    the state of the logging module implements the journal of the
    specification: the invariant holds, the logger [user_data] has one
    handler for each call of [get_logger], and the error stream holds, in
    the order of the calls, the redacted line of each message once for
    each call of [get_logger] that came before it, and nothing else. *)
Theorem run_refines (es : list event) :
  implements (run_events es initial_world) (spec_run es empty_journal)
  /\ stderr (run_events es initial_world) = spec_lines 0 es
  /\ length (handlers_of $"user_data" (run_events es initial_world)) = calls es.
Proof.
  pose proof (implements_run es _ _ implements_initial) as H.
  destruct (spec_run_lines es empty_journal) as [Hl Hh].
  cbn [empty_journal j_lines j_handlers app Nat.add] in Hl, Hh.
  split; [exact H|]. destruct H as [_ Hn Hs]. split; congruence.
Qed.


(** Two calls of [get_logger] before a message: its line is written twice;
    a message logged before any call is not written. *)
Example run_refines_twice :
  stderr (run_events [Info $"11:59" $"a=1"; GetLogger; RootHandler root_handler; GetLogger;
                      Info $"12:00" $"ssn=1"] initial_world) =
  [redacted_line $"12:00" $"ssn=1"; redacted_line $"12:00" $"ssn=1"].
Proof. reflexivity. Qed.

(** C38 (invariant of the logging state).  In every state that calls of
    [get_logger] and [info], and handlers that other code attaches to the
    root logger, can reach from the start of the process, the registry is
    well formed, the logger [user_data], once made, is at level [INFO]
    without propagation and has only redacting handlers, and the error
    stream holds nothing but redacted lines: no line was written
    unredacted, by a handler of the root logger or otherwise, and no
    formatting error was reported. *)
Theorem reachable_redacted (w : World) : reachable w -> inv w.
Proof. apply reachable_inv. Qed.

Lemma reachable_redacted_witness :
  inv (info $"user_data" $"12:00" $"ssn=1"
         (add_root_handler root_handler (snd (get_logger initial_world)))).
Proof.
  exact (reachable_redacted _
           (ReachStep _ _
              (ReachStep _ _ (ReachStep _ _ ReachInit (StepGetLogger initial_world))
                 (StepRootHandler _ root_handler))
              (StepInfo _ $"12:00" $"ssn=1"))).
Defined.

(** C39 (every record is written).  In a reachable state in which
    [get_logger] was called, a call of [info] is never dropped: it appends
    its redacted line to the error stream, once for each handler that the
    logger [user_data] has, and there is at least one. *)
Theorem info_is_written (w : World) (now msg : str) :
  reachable w -> configured w = true ->
  1 <= length (handlers_of $"user_data" w)
  /\ stderr (info $"user_data" now msg w) =
     stderr w ++ repeat (redacted_line now msg) (length (handlers_of $"user_data" w)).
Proof.
  intros Hr Hc. apply reachable_inv in Hr. destruct Hr as [_ Hl _].
  rewrite info_inv by assumption. cbn [stderr]. split; [|reflexivity].
  unfold configured in Hc. unfold handlers_of.
  apply logger_ok_inv in Hl. destruct Hl as [E|(hs & Hne & _ & E)]; rewrite E in *.
  - discriminate.
  - destruct hs; [congruence | simpl; lia].
Qed.

Lemma info_is_written_witness :
  1 <= length (handlers_of $"user_data" (snd (get_logger initial_world)))
  /\ stderr (info $"user_data" $"12:00" $"ssn=1" (snd (get_logger initial_world))) =
     stderr (snd (get_logger initial_world))
     ++ repeat (redacted_line $"12:00" $"ssn=1")
          (length (handlers_of $"user_data" (snd (get_logger initial_world)))).
Proof.
  exact (info_is_written _ $"12:00" $"ssn=1"
           (ReachStep _ _ ReachInit (StepGetLogger initial_world)) eq_refl).
Defined.

(** C40 (secrecy along a run).  Two runs of calls of [get_logger] and
    [info] that differ only in the values of fields of [PII_FIELDS] in the
    messages logged, values without semicolon, leave the logging module in
    the same state: the error streams are equal line by line. *)
Theorem run_secret (es1 es2 : list event) :
  Forall2 similar es1 es2 ->
  run_events es1 initial_world = run_events es2 initial_world.
Proof. intros H. apply similar_run; [assumption | constructor]. Qed.

Lemma run_secret_witness :
  run_events [GetLogger; Info $"12:00" ($"id=7;" ++ $"ssn" ++ [ch_eq] ++ $"123" ++ $";x=1")]
    initial_world =
  run_events [GetLogger; Info $"12:00" ($"id=7;" ++ $"ssn" ++ [ch_eq] ++ $"9" ++ $";x=1")]
    initial_world.
Proof.
  exact (run_secret _ _
           (Forall2_cons _ _ SimGetLogger
              (Forall2_cons _ _
                 (SimInfo $"12:00" $"ssn" $"id=7;" $"123" $"9" $";x=1"
                    ltac:(simpl; tauto)
                    (proj1 (free_of_iff (chr ";") $"123") eq_refl)
                    (proj1 (free_of_iff (chr ";") $"9") eq_refl)
                    (at_boundary_cons _ _))
                 (Forall2_nil _)))).
Defined.
