(* ===== verification/Prog.v ===== *)
(** * Prog: statements with a state and exceptions

    A statement is a function from a state to a result and a state
    ([prog]): [ret] returns a value, [bindp] runs two statements in
    sequence, and an exception ends the run and leaves the state as it is
    at that point.  [for_each] is the loop over a list.  [triple I c Q] says
    that the statement [c] keeps the invariant [I], on the normal and on
    the exceptional path, and returns only values that satisfy [Q]; its
    rules follow the structure of a program. *)

From Stdlib Require Import Ascii String.
From Stdlib Require Import List NArith Arith Bool Lia.
From S2P Require Import Prelude PyStr.
Import ListNotations.

(** ** Statements *)

Definition prog (St A : Type) : Type := St -> res A * St.

Definition ret {St A : Type} (a : A) : prog St A := fun s => (Ok a, s).

Definition bindp {St A B : Type} (c : prog St A) (k : A -> prog St B) : prog St B :=
  fun s =>
    match c s with
    | (Ok a, s') => k a s'
    | (Err e, s') => (Err e, s')
    end.

Definition lift {St A : Type} (r : res A) : prog St A := fun s => (r, s).

Declare Scope prog_scope.
Delimit Scope prog_scope with prog.
Notation "x <- c ;; k" := (bindp c (fun x => k))
  (at level 61, c at next level, right associativity) : prog_scope.
Notation "c ;; k" := (bindp c (fun _ => k))
  (at level 61, right associativity) : prog_scope.
Local Open Scope prog_scope.

(** A loop over a list, with the index of the element. *)
Fixpoint for_each {St A : Type} (body : nat -> A -> prog St unit) (i : nat) (l : list A)
    : prog St unit :=
  match l with
  | [] => ret tt
  | x :: rest => body i x ;; for_each body (S i) rest
  end.

(** ** Invariants of a program

    [triple I c Q]: from a state that satisfies the invariant [I], the
    statement [c] ends, normally or with an exception, in a state that
    satisfies [I], and a value it returns satisfies [Q]. *)
Definition triple {St A : Type} (I : St -> Prop) (c : prog St A) (Q : A -> Prop) : Prop :=
  forall s, I s -> I (snd (c s)) /\ forall a, fst (c s) = Ok a -> Q a.

(** ** Sequencing *)

Section Laws.
Context {St : Type}.

Lemma bindp_ok {A B} (c : prog St A) (k : A -> prog St B) (s s' : St) (a : A) :
  c s = (Ok a, s') -> bindp c k s = k a s'.
Proof. intros H. unfold bindp. now rewrite H. Qed.

Lemma bindp_err {A B} (c : prog St A) (k : A -> prog St B) (s s' : St) (e : exn) :
  c s = (Err e, s') -> bindp c k s = (Err e, s').
Proof. intros H. unfold bindp. now rewrite H. Qed.

Lemma bindp_ret_l {A B} (a : A) (k : A -> prog St B) (s : St) :
  bindp (ret a) k s = k a s.
Proof. reflexivity. Qed.

Lemma bindp_ret_r {A} (c : prog St A) (s : St) : bindp c ret s = c s.
Proof. unfold bindp, ret. now destruct (c s) as [[a|e] s']. Qed.

Lemma bindp_assoc {A B C} (c : prog St A) (k : A -> prog St B) (h : B -> prog St C)
    (s : St) :
  bindp (bindp c k) h s = bindp c (fun a => bindp (k a) h) s.
Proof. unfold bindp. now destruct (c s) as [[a|e] s']. Qed.

Lemma bindp_ext {A B} (c : prog St A) (k1 k2 : A -> prog St B) (s : St) :
  (forall a s', k1 a s' = k2 a s') -> bindp c k1 s = bindp c k2 s.
Proof. intros H. unfold bindp. destruct (c s) as [[a|e] s']; [apply H | reflexivity]. Qed.

(** The loop over a list that is the concatenation of two. *)
Lemma for_each_app {A} (body : nat -> A -> prog St unit) (l1 l2 : list A) : forall i s,
  for_each body i (l1 ++ l2) s =
  (for_each body i l1 ;; for_each body (i + length l1) l2) s.
Proof.
  induction l1 as [|x l1 IH]; intros i s; cbn [app for_each length].
  - now rewrite Nat.add_0_r.
  - rewrite bindp_assoc. apply bindp_ext. intros _ s'.
    now rewrite IH, Nat.add_succ_r.
Qed.

End Laws.

(** ** Rules for [triple] *)

Section Triples.
Context {St : Type}.
Variable I : St -> Prop.

Lemma triple_ret {A} (a : A) : triple I (ret a) (eq a).
Proof. intros s H. split; [exact H | now intros ? [= ->]]. Qed.

Lemma triple_lift {A} (r : res A) : triple I (lift r) (fun a => r = Ok a).
Proof. intros s H. split; [exact H | auto]. Qed.

Lemma triple_bind {A B} (c : prog St A) (k : A -> prog St B) (Q : A -> Prop) (Q' : B -> Prop) :
  triple I c Q -> (forall a, Q a -> triple I (k a) Q') -> triple I (bindp c k) Q'.
Proof.
  intros Hc Hk s H. unfold bindp. destruct (Hc s H) as [Hi Hq].
  destruct (c s) as [[a|e] s']; cbn [fst snd] in *.
  - now apply (Hk a (Hq a eq_refl)).
  - split; [exact Hi | discriminate].
Qed.

Lemma triple_weaken {A} (c : prog St A) (Q Q' : A -> Prop) :
  triple I c Q -> (forall a, Q a -> Q' a) -> triple I c Q'.
Proof. intros Hc Hq s H. destruct (Hc s H). split; auto. Qed.

Lemma triple_step {A} (f : St -> St) (a : A) :
  (forall s, I s -> I (f s)) -> triple I (fun s => (Ok a, f s)) (eq a).
Proof. intros Hf s H. split; [now apply Hf | now intros ? [= ->]]. Qed.

Lemma triple_for_each {A} (body : nat -> A -> prog St unit) (l : list A) :
  (forall i x, triple I (body i x) (fun _ => True)) ->
  forall i, triple I (for_each body i l) (fun _ => True).
Proof.
  intros Hb. induction l as [|x l IH]; intros i; cbn [for_each].
  - intros s H. now split.
  - apply (triple_bind _ _ (fun _ => True)); auto.
Qed.
End Triples.
