(* ===== verification/Main.v ===== *)
(** * Main: [get_db] and [main]

    Lines 89-133 of the source.  [get_db] reads four environment variables
    and opens a connection; [main] opens a cursor, selects the rows of the
    table [users], takes the column names from the cursor's description,
    gets the logger and logs one line per row, then closes the cursor and
    the connection.

    The database server is a collaborator: the record [Server] says what
    [connect], [db.cursor()], [cursor.execute], [cursor.close()] and
    [db.close()] answer, each a result or an exception.  The state of the
    program is the state
    of the logging module and the connections and cursors that are open.
    A statement of [main] is a function from the state to a result and a
    state ([prog], of the file [Prog]): an exception ends the run and
    leaves the state as it is at that point, which is how an open
    connection outlives the run.  The time of each call of [info] is given
    by [clock], from the row's index.

    [main_spec] is [main] as a function of what the server answers
    ([main_refines]).  The theorems give the outcome of [script] on every
    path: the normal one, the failure of the connection, of the cursor, of
    the query, of the iteration of the cursor, of a row shorter than the
    column names and of the two calls of [close]; on all of them the
    logging state is one that
    calls of [get_logger] and [info] reach ([main_traced]), so the error
    stream holds only redacted lines.  From any reachable state the normal
    path of [main] is the run of its calls ([main_events_from]): one call
    of [get_logger] and one call of [info] per row, which gives what a
    second call of [main] writes and the secrecy of the rows. *)

From Stdlib Require Import Ascii String.
From Stdlib Require Import List NArith Arith Bool Lia.
From S2P Require Import Prelude PyStr Regex Tokens Redact Formatter Logging Trace Prog.
Import ListNotations.
Local Open Scope str_scope.

(** ** The environment *)

Definition environ : Type := list (str * str).

Fixpoint environ_get (key : str) (env : environ) : option str :=
  match env with
  | [] => None
  | (k, v) :: rest => if str_eqb key k then Some v else environ_get key rest
  end.

(** [os.getenv(key, default)] *)
Definition getenv (env : environ) (key : str) (default : option str) : option str :=
  match environ_get key env with
  | Some v => Some v
  | None => default
  end.

(** ** The database *)

(** The keyword arguments of [mysql.connector.connect]. *)
Record connect_args : Type := mkArgs {
  user : option str;
  password : option str;
  host : option str;
  database : option str
}.

(** The columns of a result, as [cursor.description] lists them (name and
    type code), and its rows; a value is [None] or has a text.  The
    iteration of the cursor gives the rows and then ends, or raises
    [fetch_error] after them when the connection fails before the end of
    the result. *)
Record result_set : Type := mkResult {
  description : list (str * nat);
  rows : list (list (option str));
  fetch_error : option exn
}.

(** What the server answers: to [mysql.connector.connect], to
    [db.cursor()], to [cursor.execute], to [cursor.close()] and to
    [db.close()].  Each of them can raise. *)
Record Server : Type := mkServer {
  connect : connect_args -> res unit;
  cursor : res unit;
  execute : str -> res result_set;
  close_cursor : res unit;
  close_db : res unit
}.

(** ** The state of the program and its statements *)

Record State : Type := mkState {
  world : World;
  connections : nat;
  cursors : nat
}.

(** A statement of the program, and the notations of [Prog]. *)
Local Abbreviation stmt := (prog State).
Local Open Scope prog_scope.

Definition on_world (f : World -> World) : stmt unit :=
  fun s => (Ok tt, mkState (f (world s)) (connections s) (cursors s)).

(** ** [get_db] (lines 89-108) *)

Definition get_db_args (env : environ) : connect_args :=
  let db_user := getenv env $"PERSONAL_DATA_DB_USERNAME" (Some $"root") in
  let db_password := getenv env $"PERSONAL_DATA_DB_PASSWORD" (Some []) in
  let db_host := getenv env $"PERSONAL_DATA_DB_HOST" (Some $"localhost") in
  let db_name := getenv env $"PERSONAL_DATA_DB_NAME" None in
  mkArgs db_user db_password db_host db_name.

Definition get_db (env : environ) (srv : Server) : stmt unit :=
  fun s =>
    match connect srv (get_db_args env) with
    | Ok _ => (Ok tt, mkState (world s) (S (connections s)) (cursors s))
    | Err e => (Err e, s)
    end.

(** ** The cursor *)

Definition open_cursor (srv : Server) : stmt unit :=
  fun s =>
    match cursor srv with
    | Ok _ => (Ok tt, mkState (world s) (connections s) (S (cursors s)))
    | Err e => (Err e, s)
    end.

Definition cursor_execute (srv : Server) (sql : str) : stmt result_set :=
  lift (execute srv sql).

Definition cursor_close (srv : Server) : stmt unit :=
  fun s =>
    match close_cursor srv with
    | Ok _ => (Ok tt, mkState (world s) (connections s) (pred (cursors s)))
    | Err e => (Err e, s)
    end.

Definition db_close (srv : Server) : stmt unit :=
  fun s =>
    match close_db srv with
    | Ok _ => (Ok tt, mkState (world s) (pred (connections s)) (cursors s))
    | Err e => (Err e, s)
    end.

(** ** [main] (lines 111-133) *)

(** Line 129: the message of a row. *)
Definition column (fields : list str) (row : list (option str)) (i : nat) : res str :=
  match nth_error fields i, nth_error row i with
  | Some f, Some v => Ok (f ++ $"=" ++ fstr_opt v)
  | _, _ => Err IndexError
  end.

Fixpoint columns (fields : list str) (row : list (option str)) (idx : list nat)
    : res (list str) :=
  match idx with
  | [] => Ok []
  | i :: rest =>
      match column fields row i with
      | Ok c =>
          match columns fields row rest with
          | Ok cs => Ok (c :: cs)
          | Err e => Err e
          end
      | Err e => Err e
      end
  end.

Definition row_message (fields : list str) (row : list (option str)) : res str :=
  match columns fields row (seq 0 (length fields)) with
  | Ok cs => Ok (str_join $"; " cs)
  | Err e => Err e
  end.

(** Line 128, the end of the iteration: the cursor has no more rows, or
    raises. *)
Definition end_of_rows (result : result_set) : res unit :=
  match fetch_error result with
  | Some e => Err e
  | None => Ok tt
  end.

Definition main (env : environ) (srv : Server) (clock : nat -> str) : stmt unit :=
  get_db env srv ;;
  open_cursor srv ;;
  result <- cursor_execute srv $"SELECT * FROM users;" ;;
  let fields := map fst (description result) in
  logger <- (fun s => let '(name, w) := get_logger (world s) in
                      (Ok name, mkState w (connections s) (cursors s))) ;;
  for_each (fun i row =>
              message <- lift (row_message fields row) ;;
              on_world (info logger (clock i) message))
    0 (rows result) ;;
  lift (end_of_rows result) ;;
  cursor_close srv ;;
  db_close srv.

(** The state in which the program starts. *)
Definition initial_state : State := mkState initial_world 0 0.

(** Lines 135-136: run as a script, the module calls [main] in the state
    in which a process starts. *)
Definition script (env : environ) (srv : Server) (clock : nat -> str)
    : res unit * State :=
  main env srv clock initial_state.

(** ** What the theorems need *)

(** Every row has a value for every column. *)
Definition rows_ok (r : result_set) : bool :=
  forallb (fun row => Nat.leb (length (description r)) (length row)) (rows r).

(** The text of a column and its value. *)
Definition render (cv : str * option str) : str := fst cv ++ $"=" ++ fstr_opt (snd cv).

(** The line of the [i]-th row, as the handler of [get_logger] writes it. *)
Definition row_line (now msg : str) : res str :=
  RedactingFormatter.format (RedactingFormatter.__init__ PII_FIELDS) (info_record now msg).

(** The lines that the rows give, in order. *)
Fixpoint lines_of (fmt : str -> str -> res str) (clock : nat -> str) (i : nat)
    (msgs : list str) : list output :=
  match msgs with
  | [] => []
  | m :: rest =>
      match fmt (clock i) m with
      | Ok out => Line (out ++ [ch_newline])
      | Err e => LoggingError e
      end :: lines_of fmt clock (S i) rest
  end.

(** The message of a row with a value for every column. *)
Definition message_of (fields : list str) (row : list (option str)) : str :=
  str_join $"; " (map render (combine fields row)).

(** [info] for each message, in order. *)
Fixpoint log_all (name : str) (clock : nat -> str) (i : nat) (msgs : list str)
    (w : World) : World :=
  match msgs with
  | [] => w
  | m :: rest => log_all name clock (S i) rest (info name (clock i) m w)
  end.

(** The calls of [info] that the loop of [main] makes for the messages
    [msgs], as events of a run. *)
Fixpoint infos (clock : nat -> str) (i : nat) (msgs : list str) : list event :=
  match msgs with
  | [] => []
  | m :: rest => Info (clock i) m :: infos clock (S i) rest
  end.

(** The rows that are logged: those before the first row that is shorter
    than the column names; and whether there is such a row. *)
Fixpoint logged (n : nat) (rws : list (list (option str)))
    : list (list (option str)) * bool :=
  match rws with
  | [] => ([], false)
  | row :: rest =>
      if Nat.leb n (length row)
      then let '(good, short) := logged n rest in (row :: good, short)
      else ([], true)
  end.

(** How the iteration over a result ends: normally, with the [IndexError]
    of a short row, or with the exception of the cursor. *)
Definition outcome (rs : result_set) : option exn :=
  if snd (logged (length (description rs)) (rows rs)) then Some IndexError
  else fetch_error rs.

(** The server opens a cursor and closes it and the connection without an
    exception. *)
Definition resources_ok (srv : Server) : Prop :=
  cursor srv = Ok tt /\ close_cursor srv = Ok tt /\ close_db srv = Ok tt.

(** Lines 132-133 as a function of what the server answers: the cursor is
    closed, then the connection; the first that raises ends the run and
    what it should have closed stays open. *)
Definition released (srv : Server) (s : State) : res unit * State :=
  match close_cursor srv with
  | Err e => (Err e, s)
  | Ok _ =>
      match close_db srv with
      | Err e => (Err e, mkState (world s) (connections s) (pred (cursors s)))
      | Ok _ => (Ok tt, mkState (world s) (pred (connections s)) (pred (cursors s)))
      end
  end.

(** What [main] does, as a function of what the server answers: the calls
    it makes on the logging module and the resources it leaves open. *)
Definition main_spec (env : environ) (srv : Server) (clock : nat -> str) (s : State)
    : res unit * State :=
  match connect srv (get_db_args env) with
  | Err e => (Err e, s)
  | Ok _ =>
      match cursor srv with
      | Err e => (Err e, mkState (world s) (S (connections s)) (cursors s))
      | Ok _ =>
          match execute srv $"SELECT * FROM users;" with
          | Err e => (Err e, mkState (world s) (S (connections s)) (S (cursors s)))
          | Ok rs =>
              let fields := map fst (description rs) in
              let good := fst (logged (length (description rs)) (rows rs)) in
              let w := run_events (GetLogger :: infos clock 0 (map (message_of fields) good))
                         (world s) in
              match outcome rs with
              | Some e => (Err e, mkState w (S (connections s)) (S (cursors s)))
              | None => released srv (mkState w (S (connections s)) (S (cursors s)))
              end
          end
      end
  end.

(** The lines of the messages [msgs] when [n] handlers are attached to the
    logger: each line once for each handler. *)
Fixpoint row_lines (n : nat) (clock : nat -> str) (i : nat) (msgs : list str)
    : list output :=
  match msgs with
  | [] => []
  | m :: rest => repeat (redacted_line (clock i) m) n ++ row_lines n clock (S i) rest
  end.

(** A row as tokens between semicolons: the columns after the first start
    with the space that follows the semicolon. *)
Definition spaced (cv : str * option str) : str * str :=
  (ch_space :: fst cv, fstr_opt (snd cv)).

Definition row_pairs (cvs : list (str * option str)) : list (str * str) :=
  match cvs with
  | [] => []
  | cv :: rest => (fst cv, fstr_opt (snd cv)) :: map spaced rest
  end.

(** A row as the tokens of the line that is logged for it at time [now]:
    the header of the line comes before the key of the first. *)
Definition row_tokens (now : str) (fields : list str) (row : list (option str))
    : list (str * str) :=
  match combine fields row with
  | [] => []
  | cv :: cvs => (header (info_record now []) ++ fst cv, fstr_opt (snd cv)) :: map spaced cvs
  end.

(** What a reader of the log makes of a message: the columns between the
    semicolons followed by a space and, in each, the name before the first
    equals sign and the value after it. *)
Definition parse_message (msg : str) : res (list (str * str)) :=
  match str_split $"; " msg with
  | Ok toks => Ok (map (partition ch_eq) toks)
  | Err e => Err e
  end.

(** A column that can be read back: no equals sign in its name, no
    semicolon in its name or in the text of its value. *)
Definition column_ok (cv : str * option str) : bool :=
  free_of ch_eq (fst cv) && free_of (chr ";") (fst cv)
  && free_of (chr ";") (fstr_opt (snd cv)).

Definition field_value (cv : str * option str) : str * str :=
  (fst cv, fstr_opt (snd cv)).

(** Two rows that may differ only in the values of the columns named by a
    field of [PII_FIELDS], values whose text holds no semicolon. *)
Definition rows_similar (fields : list str) (r1 r2 : list (option str)) : Prop :=
  Forall2 (same_public PII_FIELDS (chr ";"))
    (map field_value (combine fields r1)) (map field_value (combine fields r2)).

Definition rows_similarb (fields : list str) (r1 r2 : list (option str)) : bool :=
  all2 (same_publicb PII_FIELDS (chr ";"))
    (map field_value (combine fields r1)) (map field_value (combine fields r2)).

(** The logging state is one that calls of [get_logger] and [info] reach
    from the start of the process. *)
Definition traced (s : State) : Prop := reachable (world s).

(** The logging state after the first call of [get_logger]. *)
Definition configured_world : World := snd (get_logger initial_world).

(** A server with one table of two rows, for the witnesses. *)
Definition sample_server : Server :=
  mkServer (fun _ => Ok tt) (Ok tt)
    (fun _ => Ok (mkResult [($"name", 253); ($"ip", 253)]
                    [[Some $"Bob"; Some $"::1"]; [Some $"Al"; None]] None))
    (Ok tt) (Ok tt).

(** A server that loses the connection after the first row (error 2013 of
    MySQL). *)
Definition broken_server : Server :=
  mkServer (fun _ => Ok tt) (Ok tt)
    (fun _ => Ok (mkResult [($"name", 253); ($"ip", 253)]
                    [[Some $"Bob"; Some $"::1"]] (Some (DatabaseError 2013))))
    (Ok tt) (Ok tt).

(** A server whose second row lacks a value. *)
Definition short_server : Server :=
  mkServer (fun _ => Ok tt) (Ok tt)
    (fun _ => Ok (mkResult [($"name", 253); ($"ip", 253)]
                    [[Some $"Bob"; Some $"::1"]; [Some $"Al"]; [Some $"Eve"; None]] None))
    (Ok tt) (Ok tt).

(** A server with one user, whose columns are three of the columns of the
    table [users]. *)
Definition users_server : Server :=
  mkServer (fun _ => Ok tt) (Ok tt)
    (fun _ => Ok (mkResult [($"name", 253); ($"email", 253); ($"last_login", 12)]
                    [[Some $"Bob"; Some $"b@x.io"; None]] None))
    (Ok tt) (Ok tt).

(** The table of [sample_server] with other names. *)
Definition other_server : Server :=
  mkServer (fun _ => Ok tt) (Ok tt)
    (fun _ => Ok (mkResult [($"name", 253); ($"ip", 253)]
                    [[Some $"Eve"; Some $"::1"]; [None; None]] None))
    (Ok tt) (Ok tt).

(** ** The message of a row *)

Lemma firstn_skipn_nth {A} (l : list A) (x : A) (n : nat) : forall k,
  nth_error l k = Some x -> firstn (S n) (skipn k l) = x :: firstn n (skipn (S k) l).
Proof.
  induction l as [|a l IH]; intros [|k] H; try discriminate; simpl in H.
  - now inv H.
  - apply IH in H. exact H.
Qed.

Lemma nth_error_combine {A B} (la : list A) (lb : list B) (a : A) (b : B) : forall k,
  nth_error la k = Some a -> nth_error lb k = Some b ->
  nth_error (combine la lb) k = Some (a, b).
Proof.
  revert lb. induction la as [|x la IH]; intros [|y lb] [|k] Ha Hb;
    try discriminate; simpl in *.
  - congruence.
  - now apply IH.
Qed.

Lemma columns_seq (fields : list str) (row : list (option str)) : forall n k,
  k + n <= length fields -> length fields <= length row ->
  columns fields row (seq k n) =
  Ok (map render (firstn n (skipn k (combine fields row)))).
Proof.
  induction n as [|n IH]; intros k Hk Hr; [reflexivity|].
  cbn [seq columns]. unfold column.
  destruct (nth_error fields k) as [f|] eqn:Ef;
    [|apply nth_error_None in Ef; lia].
  destruct (nth_error row k) as [v|] eqn:Ev;
    [|apply nth_error_None in Ev; lia].
  rewrite IH by lia.
  now rewrite (firstn_skipn_nth _ (f, v) n k (nth_error_combine _ _ _ _ k Ef Ev)).
Qed.

Lemma row_message_ok (fields : list str) (row : list (option str)) :
  length fields <= length row ->
  row_message fields row = Ok (str_join $"; " (map render (combine fields row))).
Proof.
  intros H. unfold row_message. rewrite columns_seq by (simpl; lia).
  cbn [skipn]. rewrite firstn_all2; [reflexivity|].
  rewrite length_combine. lia.
Qed.

Lemma columns_short (fields : list str) (row : list (option str)) : forall n k,
  k <= length row -> length row < k + n -> k + n <= length fields ->
  columns fields row (seq k n) = Err IndexError.
Proof.
  induction n as [|n IH]; intros k Hk Hr Hf; [lia|].
  cbn [seq columns]. unfold column.
  destruct (nth_error fields k) as [f|] eqn:Ef; [|reflexivity].
  destruct (nth_error row k) as [v|] eqn:Ev; [|reflexivity].
  assert (k < length row) by (apply nth_error_Some; congruence).
  rewrite IH by lia. reflexivity.
Qed.

Lemma row_message_short (fields : list str) (row : list (option str)) :
  length row < length fields -> row_message fields row = Err IndexError.
Proof. intros H. unfold row_message. now rewrite columns_short by (simpl; lia). Qed.

(** ** The loop *)

Lemma log_all_configured (h : StreamHandler) (clock : nat -> str) (msgs : list str) :
  h_level h = NOTSET ->
  h_formatter h = Some (RedactingFormatter.__init__ PII_FIELDS) ->
  forall i w,
  lookup $"user_data" (loggers w) = Some (mkLogger $"user_data" INFO false [h]) ->
  log_all $"user_data" clock i msgs w =
  mkWorld (loggers w) (root w) (next_id w) (stderr w ++ lines_of row_line clock i msgs).
Proof.
  intros Hl Hf. induction msgs as [|m msgs IH]; intros i w Hw.
  - cbn [log_all lines_of]. rewrite app_nil_r. now destruct w.
  - cbn [log_all lines_of]. rewrite (info_configured w [h]) by (assumption || discriminate).
    rewrite IH by exact Hw. cbn [loggers root next_id stderr handle_all].
    rewrite Hl. cbn [Nat.leb NOTSET]. unfold emit, handler_format, row_line.
    rewrite Hf. f_equal.
    destruct (RedactingFormatter.format _ _); now rewrite <- app_assoc.
Qed.

(** ** A row as tokens *)

Lemma join_space (c : char) (l : list str) :
  l <> [] ->
  ch_space :: str_join [c; ch_space] l = str_join [c] (map (cons ch_space) l).
Proof.
  induction l as [|x l IH]; intros H; [congruence|].
  destruct l as [|y l]; [reflexivity|].
  cbn [map]. rewrite !str_join_cons. cbn [map] in IH. rewrite <- IH by discriminate.
  reflexivity.
Qed.

Lemma tokens_spaced (l : list (str * option str)) :
  map token (map spaced l) = map (cons ch_space) (map render l).
Proof. rewrite !map_map. now apply map_ext. Qed.

Lemma message_pairs (cvs : list (str * option str)) :
  str_join $"; " (map render cvs) = str_join $";" (map token (row_pairs cvs)).
Proof.
  destruct cvs as [|cv rest]; [reflexivity|].
  destruct rest as [|cv' rest]; [reflexivity|].
  unfold row_pairs. rewrite (map_cons token), tokens_spaced, (map_cons render cv).
  change ($";") with [chr ";"]. change ($"; ") with [chr ";"; ch_space].
  set (l := map render (cv' :: rest)).
  assert (Hl : l <> []) by discriminate.
  rewrite !str_join_cons_ne by (assumption || (destruct l; [congruence | discriminate])).
  rewrite <- (join_space (chr ";") l Hl). reflexivity.
Qed.

(** ** [main] *)

Lemma get_db_ok (env : environ) (srv : Server) (s : State) :
  connect srv (get_db_args env) = Ok tt ->
  get_db env srv s = (Ok tt, mkState (world s) (S (connections s)) (cursors s)).
Proof. intros H. unfold get_db. now rewrite H. Qed.

Lemma log_all_events (clock : nat -> str) (msgs : list str) : forall i w,
  log_all $"user_data" clock i msgs w = run_events (infos clock i msgs) w.
Proof. induction msgs as [|m msgs IH]; intros i w; [reflexivity | apply IH]. Qed.

(** ** [main] is its specification *)

Lemma for_each_logged (logger : str) (clock : nat -> str) (fields : list str)
    (rws : list (list (option str))) : forall i s,
  for_each (fun i row =>
              message <- lift (row_message fields row) ;;
              on_world (info logger (clock i) message)) i rws s =
  ((if snd (logged (length fields) rws) then Err IndexError else Ok tt),
   mkState (log_all logger clock i (map (message_of fields) (fst (logged (length fields) rws)))
              (world s))
     (connections s) (cursors s)).
Proof.
  induction rws as [|row rws IH]; intros i s; cbn [for_each logged].
  - now destruct s.
  - destruct (Nat.leb_spec (length fields) (length row)) as [H|H].
    + unfold bindp at 1. unfold bindp at 1. unfold lift, on_world.
      rewrite row_message_ok by assumption. rewrite IH.
      now destruct (logged (length fields) rws) as [good short].
    + apply bindp_err. apply bindp_err. unfold lift. rewrite row_message_short by assumption.
      now destruct s.
Qed.

Lemma main_spec_eq (env : environ) (srv : Server) (clock : nat -> str) (s : State) :
  main env srv clock s = main_spec env srv clock s.
Proof.
  unfold main, main_spec, get_db.
  destruct (connect srv (get_db_args env)) as [[]|e]; [|now apply bindp_err].
  erewrite bindp_ok by reflexivity. unfold open_cursor.
  destruct (cursor srv) as [[]|e]; [|now apply bindp_err].
  erewrite bindp_ok by reflexivity.
  unfold cursor_execute, lift at 1.
  destruct (execute srv _) as [rs|e]; [|now apply bindp_err].
  erewrite bindp_ok by reflexivity. cbv zeta.
  erewrite bindp_ok by reflexivity.
  unfold bindp at 1. rewrite for_each_logged, log_all_events, length_map.
  cbn [world connections cursors run_events fold_left do_event]. unfold outcome.
  destruct (snd (logged _ _)); [reflexivity|].
  unfold bindp at 1. unfold lift, end_of_rows.
  destruct (fetch_error rs); [reflexivity|].
  unfold released, bindp, cursor_close, db_close. cbn [world connections cursors].
  destruct (close_cursor srv); [destruct (close_db srv)|]; reflexivity.
Qed.

Lemma logged_all (n : nat) (rws : list (list (option str))) :
  forallb (fun row => Nat.leb n (length row)) rws = true -> logged n rws = (rws, false).
Proof.
  induction rws as [|row rws IH]; [reflexivity|]. cbn [forallb logged].
  intros H. apply andb_prop in H. destruct H as [-> H]. now rewrite IH.
Qed.

(** What [logged] returns: all the rows when none is short, or the rows
    before the first short one. *)
Lemma logged_spec (n : nat) (rws : list (list (option str))) :
  Forall (fun row => n <= length row) (fst (logged n rws))
  /\ if snd (logged n rws)
     then exists bad rest, rws = fst (logged n rws) ++ bad :: rest /\ length bad < n
     else fst (logged n rws) = rws.
Proof.
  induction rws as [|row rws [IH1 IH2]]; cbn [logged]; [split; [constructor | reflexivity]|].
  destruct (Nat.leb_spec n (length row)) as [H|H].
  - destruct (logged n rws) as [good short]. cbn [fst snd] in *. split; [now constructor|].
    destruct short.
    + destruct IH2 as (bad & rest & -> & Hb). now exists bad, rest.
    + now rewrite IH2.
  - cbn [fst snd]. split; [constructor|]. now exists row, rws.
Qed.

(** [main] from any state: what it leaves is the run of its calls. *)
Lemma main_events_from (env : environ) (srv : Server) (clock : nat -> str)
    (rs : result_set) (s : State) :
  connect srv (get_db_args env) = Ok tt -> resources_ok srv ->
  execute srv $"SELECT * FROM users;" = Ok rs ->
  rows_ok rs = true -> fetch_error rs = None ->
  main env srv clock s =
  (Ok tt,
   mkState
     (run_events
        (GetLogger :: infos clock 0 (map (message_of (map fst (description rs))) (rows rs)))
        (world s))
     (connections s) (cursors s)).
Proof.
  intros Hc (Ho & Hcc & Hcd) He Hr Hf. rewrite main_spec_eq. unfold main_spec, outcome, released.
  rewrite Hc, Ho, He, (logged_all _ _ Hr). cbn [fst snd]. now rewrite Hf, Hcc, Hcd.
Qed.

(** On the normal path the logging state of [main] is that of a run: one
    call of [get_logger], then one call of [info] per row. *)
Lemma main_run_events (env : environ) (srv : Server) (clock : nat -> str) (rs : result_set) :
  connect srv (get_db_args env) = Ok tt -> resources_ok srv ->
  execute srv $"SELECT * FROM users;" = Ok rs ->
  rows_ok rs = true -> fetch_error rs = None ->
  world (snd (main env srv clock initial_state)) =
  run_events
    (GetLogger :: infos clock 0 (map (message_of (map fst (description rs))) (rows rs)))
    initial_world.
Proof.
  intros Hc Ho He Hr Hf. now rewrite (main_events_from env srv clock rs _ Hc Ho He Hr Hf).
Qed.

Lemma spec_lines_infos (n : nat) (clock : nat -> str) (msgs : list str) : forall i,
  spec_lines n (infos clock i msgs) = row_lines n clock i msgs.
Proof.
  induction msgs as [|m msgs IH]; intros i; [reflexivity|].
  cbn [infos spec_lines row_lines]. now rewrite IH.
Qed.

Lemma calls_infos (clock : nat -> str) (msgs : list str) : forall i,
  calls (infos clock i msgs) = 0.
Proof. induction msgs as [|m msgs IH]; intros i; [reflexivity | apply IH]. Qed.

(** The lines that the calls of [main] append, from a reachable state. *)
Lemma main_calls_lines (clock : nat -> str) (msgs : list str) (w : World) :
  reachable w ->
  stderr (run_events (GetLogger :: infos clock 0 msgs) w) =
  stderr w ++ row_lines (S (length (handlers_of $"user_data" w))) clock 0 msgs.
Proof.
  intros H. destruct (run_events_lines (GetLogger :: infos clock 0 msgs) w (reachable_inv _ H))
    as [-> _].
  cbn [spec_lines]. now rewrite spec_lines_infos.
Qed.

(** What [main] writes from a reachable state. *)
Lemma main_lines_from (env : environ) (srv : Server) (clock : nat -> str)
    (rs : result_set) (s : State) :
  traced s ->
  connect srv (get_db_args env) = Ok tt -> resources_ok srv ->
  execute srv $"SELECT * FROM users;" = Ok rs ->
  rows_ok rs = true -> fetch_error rs = None ->
  exists w,
    main env srv clock s = (Ok tt, mkState w (connections s) (cursors s))
    /\ length (handlers_of $"user_data" w) = S (length (handlers_of $"user_data" (world s)))
    /\ stderr w =
       stderr (world s)
       ++ row_lines (S (length (handlers_of $"user_data" (world s)))) clock 0
            (map (message_of (map fst (description rs))) (rows rs)).
Proof.
  intros Ht Hc Ho He Hr Hf. rewrite (main_events_from env srv clock rs s Hc Ho He Hr Hf).
  eexists. split; [reflexivity|].
  destruct (run_events_lines
              (GetLogger :: infos clock 0 (map (message_of (map fst (description rs))) (rows rs)))
              (world s) (reachable_inv _ Ht)) as [El Eh].
  cbn [spec_lines calls] in El, Eh. rewrite spec_lines_infos in El. rewrite calls_infos in Eh.
  split; [lia | exact El].
Qed.

Lemma main_run (env : environ) (srv : Server) (clock : nat -> str) (rs : result_set) :
  connect srv (get_db_args env) = Ok tt -> resources_ok srv ->
  execute srv $"SELECT * FROM users;" = Ok rs ->
  rows_ok rs = true -> fetch_error rs = None ->
  main env srv clock initial_state =
  (Ok tt,
   mkState
     (mkWorld (loggers configured_world) (root configured_world)
        (next_id configured_world)
        (lines_of row_line clock 0
           (map (message_of (map fst (description rs))) (rows rs))))
     0 0).
Proof.
  intros Hc Ho He Hr Hf. rewrite (main_events_from env srv clock rs _ Hc Ho He Hr Hf).
  cbn [run_events fold_left do_event world initial_state connections cursors].
  change (fold_left _ (infos ?c ?i ?m) ?w) with (run_events (infos c i m) w).
  rewrite <- log_all_events.
  rewrite (log_all_configured (made_handler initial_world)); reflexivity.
Qed.

(** The loop opens and closes nothing, whether it ends or raises. *)
Lemma for_each_resources (logger : str) (clock : nat -> str) (fields : list str)
    (rws : list (list (option str))) : forall i s r s',
  for_each (fun i row =>
              message <- lift (row_message fields row) ;;
              on_world (info logger (clock i) message)) i rws s = (r, s') ->
  connections s' = connections s /\ cursors s' = cursors s.
Proof.
  induction rws as [|row rws IH]; intros i s r s' H; cbn [for_each] in H.
  - now inv H.
  - unfold bindp at 1 in H. unfold bindp at 1, lift, on_world in H.
    destruct (row_message fields row); [|now inv H].
    apply IH in H. exact H.
Qed.

(** When the query raises, the connection and the cursor stay open. *)
Lemma main_execute_error (env : environ) (srv : Server) (clock : nat -> str) (e : exn) :
  connect srv (get_db_args env) = Ok tt -> cursor srv = Ok tt ->
  execute srv $"SELECT * FROM users;" = Err e ->
  main env srv clock initial_state = (Err e, mkState initial_world 1 1).
Proof.
  intros Hc Ho He. rewrite main_spec_eq. unfold main_spec. now rewrite Hc, Ho, He.
Qed.

(** When the connection cannot be opened, [main] ends there: nothing was
    opened and nothing logged. *)
Lemma main_connect_error (env : environ) (srv : Server) (clock : nat -> str) (e : exn) :
  connect srv (get_db_args env) = Err e ->
  main env srv clock initial_state = (Err e, initial_state).
Proof.
  intros Hc. rewrite main_spec_eq. unfold main_spec. now rewrite Hc.
Qed.

(** How the run ends once the rows are read, when it ends with an
    exception. *)
Lemma released_error (srv : Server) (rs : result_set) (w : World) (n k : nat)
    (e : exn) (s' : State) :
  match outcome rs with
  | Some e' => (Err e', mkState w (S n) (S k))
  | None => released srv (mkState w (S n) (S k))
  end = (Err e, s') ->
  connections s' = S n /\ world s' = w
  /\ match outcome rs with
     | Some e' => e = e' /\ cursors s' = S k
     | None =>
         (close_cursor srv = Err e /\ cursors s' = S k)
         \/ (close_cursor srv = Ok tt /\ close_db srv = Err e /\ cursors s' = k)
     end.
Proof.
  unfold released. destruct (outcome rs) as [e'|].
  - intros [= <- <-]. auto.
  - destruct (close_cursor srv) as [[]|e1]; [destruct (close_db srv) as [[]|e2]|];
      intros [= <- <-]; cbn [connections world cursors pred]; auto 6.
Qed.

(** ** [main] keeps the logging state reachable *)

(** A statement on the connection or the cursor leaves the logging state
    alone, whether the server answers or raises. *)
Lemma triple_world (c : stmt unit) :
  (forall s, world (snd (c s)) = world s) -> triple traced c (fun _ => True).
Proof. intros H s Hs. split; [unfold traced; now rewrite H | trivial]. Qed.

Lemma open_cursor_world (srv : Server) (s : State) :
  world (snd (open_cursor srv s)) = world s.
Proof. unfold open_cursor. now destruct (cursor srv). Qed.

Lemma cursor_close_world (srv : Server) (s : State) :
  world (snd (cursor_close srv s)) = world s.
Proof. unfold cursor_close. now destruct (close_cursor srv). Qed.

Lemma db_close_world (srv : Server) (s : State) :
  world (snd (db_close srv s)) = world s.
Proof. unfold db_close. now destruct (close_db srv). Qed.

(** Every statement of [main] is a call of [get_logger] or [info], or
    leaves the logging state alone. *)
Lemma main_traced (env : environ) (srv : Server) (clock : nat -> str) :
  triple traced (main env srv clock) (fun _ => True).
Proof.
  unfold main.
  apply (triple_bind _ _ _ (fun _ => True)).
  { intros s H. unfold get_db. destruct (connect srv _); now split. }
  intros _ _.
  apply (triple_bind _ _ _ _ _ (triple_world _ (open_cursor_world srv))).
  intros _ _. apply (triple_bind _ _ _ _ _ (triple_lift _ _)).
  intros rs _. cbv zeta.
  apply (triple_bind _ _ _ (eq $"user_data")).
  { intros s H. split; [|now intros ? [= <-]].
    apply ReachStep with (w := world s); [exact H | apply StepGetLogger]. }
  intros _ <-. apply (triple_bind _ _ _ (fun _ => True)).
  { apply triple_for_each. intros i row.
    apply (triple_bind _ _ _ _ _ (triple_lift _ _)). intros msg _.
    apply (triple_weaken _ _ (eq tt)); [|auto]. apply triple_step.
    intros s H. apply ReachStep with (w := world s); [exact H | apply StepInfo]. }
  intros _ _. apply (triple_bind _ _ _ _ _ (triple_lift _ _)).
  intros _ _.
  apply (triple_bind _ _ _ _ _ (triple_world _ (cursor_close_world srv))).
  intros _ _. apply (triple_world _ (db_close_world srv)).
Qed.

(** ** Theorems on [get_db] and [main] *)

(** C27 (main is its specification).  For every environment, server,
    clock and state of the process, [main] does what [main_spec] says, a
    function of what the server answers.  When the connection fails,
    nothing changes.  When the query fails, a connection and a cursor are
    left open and nothing is logged.  Otherwise the logging module makes
    the run of one call of [get_logger] and one call of [info] for each
    row before the first that is shorter than the column names; when there
    is such a row the result is [IndexError], when the cursor raises after
    its last row the result is that exception, and in both cases a
    connection and a cursor are left open; when neither happens the result
    is normal and the connections and cursors are as before. *)
Theorem main_refines (env : environ) (srv : Server) (clock : nat -> str) (s : State) :
  main env srv clock s = main_spec env srv clock s.
Proof. apply main_spec_eq. Qed.

(** The three servers of the examples: the outcome of the iteration. *)
Example outcome_samples :
  (exists rs, execute sample_server [] = Ok rs /\ outcome rs = None)
  /\ (exists rs, execute short_server [] = Ok rs /\ outcome rs = Some IndexError)
  /\ (exists rs, execute broken_server [] = Ok rs /\ outcome rs = Some (DatabaseError 2013)).
Proof. repeat split; eexists; split; reflexivity. Qed.

(** C33 (one line per row, resources released).  When the connection and
    the cursor open, the query succeeds, every row has a value for every
    column, the cursor gives the rows to the end and the two calls of
    [close] succeed, [main] ends normally, with no connection and no cursor
    left open.  Its
    logging state is that of the run made of one call of [get_logger] and
    one call of [info] per row, in order, and the error stream holds one
    line per row, in order: the message [column=value; column=value; ...]
    of the row, formatted and redacted by the handler of [get_logger]. *)
Theorem main_logs_rows (env : environ) (srv : Server) (clock : nat -> str)
    (rs : result_set) :
  connect srv (get_db_args env) = Ok tt -> resources_ok srv ->
  execute srv $"SELECT * FROM users;" = Ok rs ->
  rows_ok rs = true -> fetch_error rs = None ->
  exists w,
    script env srv clock = (Ok tt, mkState w 0 0)
    /\ w = run_events
             (GetLogger
              :: infos clock 0 (map (message_of (map fst (description rs))) (rows rs)))
             initial_world
    /\ stderr w =
       lines_of row_line clock 0 (map (message_of (map fst (description rs))) (rows rs)).
Proof.
  intros Hc Ho He Hr Hf. unfold script.
  pose proof (main_run_events env srv clock rs Hc Ho He Hr Hf) as Hw.
  rewrite (main_run env srv clock rs Hc Ho He Hr Hf) in *. cbn [snd world] in Hw.
  eexists. split; [reflexivity|]. split; [exact Hw | reflexivity].
Qed.

Lemma main_logs_rows_witness :
  exists w,
    script [] sample_server (fun _ => $"12:00") = (Ok tt, mkState w 0 0)
    /\ w = run_events
             (GetLogger
              :: infos (fun _ => $"12:00") 0
                   (map (message_of [$"name"; $"ip"])
                      [[Some $"Bob"; Some $"::1"]; [Some $"Al"; None]]))
             initial_world
    /\ stderr w =
       lines_of row_line (fun _ => $"12:00") 0
         (map (message_of [$"name"; $"ip"]) [[Some $"Bob"; Some $"::1"]; [Some $"Al"; None]]).
Proof.
  exact (main_logs_rows [] sample_server (fun _ => $"12:00")
           (mkResult [($"name", 253); ($"ip", 253)]
              [[Some $"Bob"; Some $"::1"]; [Some $"Al"; None]] None)
           eq_refl (conj eq_refl (conj eq_refl eq_refl)) eq_refl eq_refl eq_refl).
Defined.

(** C24 (a second call of main).  From any state of the process that
    calls of [get_logger] and [info] can reach, a call of [main] on its
    normal path (the connection and the cursor open, the query succeeds,
    the rows are complete and given to the end, the cursor and the
    connection close) leaves the connections and cursors as they were,
    attaches
    one more handler to the logger [user_data], and appends to the error
    stream the redacted line of each row, in order, once for each handler
    the logger then has: a process that calls [main] again gets every row
    of the second call twice. *)
Theorem main_repeats (env : environ) (srv : Server) (clock : nat -> str)
    (rs : result_set) (s : State) :
  traced s ->
  connect srv (get_db_args env) = Ok tt -> resources_ok srv ->
  execute srv $"SELECT * FROM users;" = Ok rs ->
  rows_ok rs = true -> fetch_error rs = None ->
  exists w,
    main env srv clock s = (Ok tt, mkState w (connections s) (cursors s))
    /\ length (handlers_of $"user_data" w) = S (length (handlers_of $"user_data" (world s)))
    /\ stderr w =
       stderr (world s)
       ++ row_lines (S (length (handlers_of $"user_data" (world s)))) clock 0
            (map (message_of (map fst (description rs))) (rows rs)).
Proof. apply main_lines_from. Qed.

Lemma main_repeats_witness :
  exists w,
    main [] sample_server (fun _ => $"12:01") (snd (script [] sample_server (fun _ => $"12:00")))
    = (Ok tt, mkState w 0 0)
    /\ length (handlers_of $"user_data" w) = 2
    /\ stderr w =
       stderr (world (snd (script [] sample_server (fun _ => $"12:00"))))
       ++ row_lines 2 (fun _ => $"12:01") 0
            (map (message_of [$"name"; $"ip"]) [[Some $"Bob"; Some $"::1"]; [Some $"Al"; None]]).
Proof.
  exact (main_repeats [] sample_server (fun _ => $"12:01")
           (mkResult [($"name", 253); ($"ip", 253)]
              [[Some $"Bob"; Some $"::1"]; [Some $"Al"; None]] None)
           (snd (script [] sample_server (fun _ => $"12:00")))
           (proj1 (main_traced [] sample_server (fun _ => $"12:00") initial_state ReachInit))
           eq_refl (conj eq_refl (conj eq_refl eq_refl)) eq_refl eq_refl eq_refl).
Defined.

(** The error stream after two calls of [main] on a table of one row. *)
Example main_twice :
  let srv := mkServer (fun _ => Ok tt) (Ok tt)
               (fun _ => Ok (mkResult [($"ssn", 253)] [[Some $"1"]] None)) (Ok tt) (Ok tt) in
  stderr (world (snd (main [] srv (fun _ => $"12:01")
                        (snd (main [] srv (fun _ => $"12:00") initial_state))))) =
  [ redacted_line $"12:00" $"ssn=1";
    redacted_line $"12:01" $"ssn=1"; redacted_line $"12:01" $"ssn=1" ].
Proof. reflexivity. Qed.

(** C28 (the error paths).  From any state of the process that calls of
    [get_logger] and [info] can reach, once the connection is open,
    whatever exception ends [main], the connection is still open: nothing
    closes it on these paths.  When [db.cursor()] raises, its exception is
    the result, no cursor was opened and the logging module is as before.
    When it is the query that raises, its exception is the result, the
    cursor stays open and the logging module is as before.  When the query
    succeeds, the error stream has the lines of the rows before the first
    that is shorter than the column names, once for each handler: what was
    written stays written.  The exception is then the outcome of the
    iteration, the [IndexError] of that row or the exception that the
    cursor raised after its last row, and the cursor stays open; or, the
    iteration having ended, the exception of [cursor.close()], the cursor
    being counted open still, or that of [db.close()] after the cursor is
    closed. *)
Theorem main_leaks_on_error (env : environ) (srv : Server) (clock : nat -> str)
    (e : exn) (s s' : State) :
  traced s ->
  connect srv (get_db_args env) = Ok tt ->
  main env srv clock s = (Err e, s') ->
  connections s' = S (connections s)
  /\ (forall e', cursor srv = Err e' ->
        e = e' /\ cursors s' = cursors s /\ world s' = world s)
  /\ (forall e', cursor srv = Ok tt -> execute srv $"SELECT * FROM users;" = Err e' ->
        e = e' /\ cursors s' = S (cursors s) /\ world s' = world s)
  /\ (forall rs, cursor srv = Ok tt -> execute srv $"SELECT * FROM users;" = Ok rs ->
        stderr (world s') =
        stderr (world s)
        ++ row_lines (S (length (handlers_of $"user_data" (world s)))) clock 0
             (map (message_of (map fst (description rs)))
                (fst (logged (length (description rs)) (rows rs))))
        /\ match outcome rs with
           | Some e' => e = e' /\ cursors s' = S (cursors s)
           | None =>
               (close_cursor srv = Err e /\ cursors s' = S (cursors s))
               \/ (close_cursor srv = Ok tt /\ close_db srv = Err e
                   /\ cursors s' = cursors s)
           end).
Proof.
  intros Ht Hc H. rewrite main_spec_eq in H. unfold main_spec in H. rewrite Hc in H.
  destruct (cursor srv) as [[]|e0]; [destruct (execute srv _) as [rs|e1]|].
  - cbv zeta in H. apply released_error in H. destruct H as (Hn & Hw & Ho).
    split; [exact Hn|]. split; [discriminate|]. split; [discriminate|].
    intros rs' _ [= <-]. split; [|exact Ho].
    rewrite Hw. now apply main_calls_lines.
  - inv H. cbn [connections cursors world].
    split; [reflexivity|]. split; [discriminate|]. split; [|discriminate].
    now intros e' _ [= ->].
  - inv H. cbn [connections cursors world].
    split; [reflexivity|]. split; [now intros e' [= ->]|]. split; discriminate.
Qed.

Lemma main_leaks_on_error_witness :
  connections (mkState (info $"user_data" $"12:00" $"name=Bob; ip=::1" configured_world) 1 1)
  = S (connections initial_state)
  /\ (forall e', cursor short_server = Err e' ->
        IndexError = e'
        /\ cursors (mkState (info $"user_data" $"12:00" $"name=Bob; ip=::1"
                               configured_world) 1 1) = cursors initial_state
        /\ world (mkState (info $"user_data" $"12:00" $"name=Bob; ip=::1"
                             configured_world) 1 1) = world initial_state)
  /\ (forall e', cursor short_server = Ok tt ->
        execute short_server $"SELECT * FROM users;" = Err e' ->
        IndexError = e'
        /\ cursors (mkState (info $"user_data" $"12:00" $"name=Bob; ip=::1"
                               configured_world) 1 1) = S (cursors initial_state)
        /\ world (mkState (info $"user_data" $"12:00" $"name=Bob; ip=::1"
                             configured_world) 1 1) = world initial_state)
  /\ (forall rs, cursor short_server = Ok tt ->
        execute short_server $"SELECT * FROM users;" = Ok rs ->
        stderr (world (mkState (info $"user_data" $"12:00" $"name=Bob; ip=::1"
                                  configured_world) 1 1)) =
        stderr (world initial_state)
        ++ row_lines (S (length (handlers_of $"user_data" (world initial_state))))
             (fun _ => $"12:00") 0
             (map (message_of (map fst (description rs)))
                (fst (logged (length (description rs)) (rows rs))))
        /\ match outcome rs with
           | Some e' =>
               IndexError = e'
               /\ cursors (mkState (info $"user_data" $"12:00" $"name=Bob; ip=::1"
                                      configured_world) 1 1) = S (cursors initial_state)
           | None =>
               (close_cursor short_server = Err IndexError
                /\ cursors (mkState (info $"user_data" $"12:00" $"name=Bob; ip=::1"
                                       configured_world) 1 1) = S (cursors initial_state))
               \/ (close_cursor short_server = Ok tt
                   /\ close_db short_server = Err IndexError
                   /\ cursors (mkState (info $"user_data" $"12:00" $"name=Bob; ip=::1"
                                          configured_world) 1 1) = cursors initial_state)
           end).
Proof.
  exact (main_leaks_on_error [] short_server (fun _ => $"12:00") IndexError initial_state
           (mkState (info $"user_data" $"12:00" $"name=Bob; ip=::1" configured_world) 1 1)
           ReachInit eq_refl eq_refl).
Defined.

(** The connection is lost after the first row: its line is written, the
    error ends [main], the cursor and the connection stay open. *)
Example main_connection_lost :
  script [] broken_server (fun _ => $"12:00") =
  (Err (DatabaseError 2013),
   mkState (info $"user_data" $"12:00" $"name=Bob; ip=::1" configured_world) 1 1).
Proof. reflexivity. Qed.

(** The server refuses a cursor: the connection stays open and nothing is
    logged.  The server fails to close the connection: the row is logged,
    the cursor is closed, the connection stays open. *)
Example main_cursor_refused :
  let srv := mkServer (fun _ => Ok tt) (Err (DatabaseError 2055))
               (fun _ => Ok (mkResult [($"ssn", 253)] [[Some $"1"]] None)) (Ok tt) (Ok tt) in
  script [] srv (fun _ => $"12:00") = (Err (DatabaseError 2055), mkState initial_world 1 0).
Proof. reflexivity. Qed.

Example main_close_fails :
  let srv := mkServer (fun _ => Ok tt) (Ok tt)
               (fun _ => Ok (mkResult [($"ssn", 253)] [[Some $"1"]] None))
               (Ok tt) (Err (DatabaseError 2013)) in
  script [] srv (fun _ => $"12:00") =
  (Err (DatabaseError 2013),
   mkState (info $"user_data" $"12:00" $"ssn=1" configured_world) 1 0).
Proof. reflexivity. Qed.

(** The line of a message that is the join of columns. *)
Lemma row_line_pairs (now : str) (cv : str * option str) (cvs : list (str * option str)) :
  forallb (token_ok (chr ";"))
    ((header (info_record now []) ++ fst cv, fstr_opt (snd cv)) :: map spaced cvs) = true ->
  row_line now (str_join $"; " (map render (cv :: cvs))) =
  Ok (str_join $";"
        (map token
           (map (mask_pair PII_FIELDS RedactingFormatter.REDACTION)
              ((header (info_record now []) ++ fst cv, fstr_opt (snd cv))
               :: map spaced cvs)))).
Proof.
  intros Hk. rewrite message_pairs. unfold row_line. rewrite format_eq.
  destruct (well_separated_inv _ _ PII_FIELDS_separated) as (Hs & He & Hc & Hn).
  exact (format_with_pairs (R := filter_datum_redactor) PII_FIELDS (chr ";")
           eq_refl Hs He Hc Hn (info_record now _) (fst cv) (fstr_opt (snd cv))
           (map spaced cvs) eq_refl eq_refl Hk).
Qed.

Lemma nth_error_lines_of (fmt : str -> str -> res str) (clock : nat -> str)
    (msgs : list str) : forall k i,
  nth_error (lines_of fmt clock k msgs) i =
  option_map (fun m => match fmt (clock (k + i)) m with
                       | Ok out => Line (out ++ [ch_newline])
                       | Err e => LoggingError e
                       end) (nth_error msgs i).
Proof.
  induction msgs as [|m msgs IH]; intros k [|i]; cbn [lines_of nth_error option_map];
    try reflexivity.
  - now rewrite Nat.add_0_r.
  - rewrite IH. now rewrite Nat.add_succ_comm.
Qed.

Lemma rows_ok_nth (rs : result_set) (i : nat) (row : list (option str)) :
  rows_ok rs = true -> nth_error (rows rs) i = Some row ->
  length (map fst (description rs)) <= length row.
Proof.
  unfold rows_ok. rewrite forallb_forall. intros H Hi.
  apply nth_error_In, H in Hi. rewrite length_map. now apply Nat.leb_le.
Qed.

(** C29 (the line of a row).  On the normal path of the script, for a
    table with one column at least, the message that [main] builds for a
    row joins the columns with a semicolon and a space, while the
    formatter separates tokens at the semicolon: every column after the
    first is a token whose key starts with a space.  The line that the
    script writes for the row, at the place of the row on the error
    stream, is the header and these tokens, the value replaced by the
    redaction where a field of [PII_FIELDS] ends the key, when no key and
    no value holds an equals sign or a semicolon. *)
Theorem main_line_masked (env : environ) (srv : Server) (clock : nat -> str)
    (rs : result_set) (i : nat) (row : list (option str)) :
  connect srv (get_db_args env) = Ok tt -> resources_ok srv ->
  execute srv $"SELECT * FROM users;" = Ok rs ->
  rows_ok rs = true -> fetch_error rs = None ->
  description rs <> [] ->
  nth_error (rows rs) i = Some row ->
  forallb (token_ok (chr ";")) (row_tokens (clock i) (map fst (description rs)) row) = true ->
  row_message (map fst (description rs)) row =
  Ok (str_join $";" (map token (row_pairs (combine (map fst (description rs)) row))))
  /\ nth_error (stderr (world (snd (script env srv clock)))) i =
     Some (Line (str_join $";"
                   (map token
                      (map (mask_pair PII_FIELDS RedactingFormatter.REDACTION)
                         (row_tokens (clock i) (map fst (description rs)) row)))
                 ++ [ch_newline])).
Proof.
  intros Hc Ho He Hr Hf Hd Hi Hk.
  pose proof (rows_ok_nth rs i row Hr Hi) as Hlen.
  split; [now rewrite row_message_ok, message_pairs|].
  unfold script. rewrite (main_run env srv clock rs Hc Ho He Hr Hf).
  cbn [snd world stderr]. rewrite nth_error_lines_of, nth_error_map, Hi.
  cbn [option_map Nat.add]. unfold message_of, row_tokens in *.
  destruct (combine _ row) as [|cv cvs] eqn:E.
  - destruct (description rs), row; simpl in *; (congruence || lia || discriminate).
  - now rewrite (row_line_pairs _ cv cvs Hk).
Qed.

Lemma main_line_masked_witness :
  row_message [$"name"; $"email"; $"last_login"] [Some $"Bob"; Some $"b@x.io"; None] =
  Ok $"name=Bob; email=b@x.io; last_login=None"
  /\ nth_error (stderr (world (snd (script [] users_server (fun _ => $"12:00"))))) 0 =
     Some (Line ($"[HOLBERTON] user_data INFO 12:00          : name=***; email=***; last_login=None"
                 ++ [ch_newline])).
Proof.
  exact (main_line_masked [] users_server (fun _ => $"12:00")
           (mkResult [($"name", 253); ($"email", 253); ($"last_login", 12)]
              [[Some $"Bob"; Some $"b@x.io"; None]] None)
           0 [Some $"Bob"; Some $"b@x.io"; None]
           eq_refl (conj eq_refl (conj eq_refl eq_refl)) eq_refl eq_refl eq_refl
           ltac:(discriminate) eq_refl eq_refl).
Defined.

(** Defaults of the connection: when none of the four variables is set,
    [get_db] connects as [root] with an empty password to [localhost], and
    passes no database name: the name has no default. *)
Lemma get_db_defaults (env : environ) :
  environ_get $"PERSONAL_DATA_DB_USERNAME" env = None ->
  environ_get $"PERSONAL_DATA_DB_PASSWORD" env = None ->
  environ_get $"PERSONAL_DATA_DB_HOST" env = None ->
  environ_get $"PERSONAL_DATA_DB_NAME" env = None ->
  get_db_args env = mkArgs (Some $"root") (Some []) (Some $"localhost") None.
Proof.
  intros H1 H2 H3 H4. unfold get_db_args, getenv. now rewrite H1, H2, H3, H4.
Qed.

(** The script, which starts in the state of a new process, ends with
    nothing but redacted lines on the error stream. *)
Corollary script_redacted (env : environ) (srv : Server) (clock : nat -> str) :
  Forall redacted (stderr (world (snd (script env srv clock)))).
Proof.
  apply inv_stderr, reachable_inv, (main_traced env srv clock initial_state). constructor.
Qed.

(** C30 (whatever happens, the log is redacted).  For every environment,
    server and clock, from a state whose logging state calls of
    [get_logger] and [info] and handlers on the root logger reach from the
    start of the process, [main] ends, normally or with an exception of the
    connection, of the query or of a short row, in such a state again; so
    the error stream holds only lines that went through the redaction of
    [PII_FIELDS], and no report of a formatting error. *)
Theorem main_redacted (env : environ) (srv : Server) (clock : nat -> str) (s : State) :
  reachable (world s) ->
  reachable (world (snd (main env srv clock s)))
  /\ Forall redacted (stderr (world (snd (main env srv clock s)))).
Proof.
  intros H. destruct (main_traced env srv clock s H) as [H' _].
  split; [exact H' | now apply reachable_inv].
Qed.

Lemma main_redacted_witness :
  reachable (world (snd (main [] sample_server (fun _ => $"12:00")
                           (mkState (add_root_handler root_handler initial_world) 0 0))))
  /\ Forall redacted
       (stderr (world (snd (main [] sample_server (fun _ => $"12:00")
                             (mkState (add_root_handler root_handler initial_world) 0 0))))).
Proof.
  exact (main_redacted [] sample_server (fun _ => $"12:00")
           (mkState (add_root_handler root_handler initial_world) 0 0)
           (ReachStep _ _ ReachInit (StepRootHandler _ root_handler))).
Defined.

(** ** The message of a row, on every row *)

(** C36 (the loop over the indices and the zip).  The message that line
    129 builds by indexing the names and the row is the join of the zipped
    columns when the row has a value for every name, and an [IndexError]
    when the row is shorter; values beyond the names are ignored. *)
Theorem row_message_zip (fields : list str) (row : list (option str)) :
  row_message fields row =
  if Nat.leb (length fields) (length row)
  then Ok (str_join $"; " (map render (combine fields row)))
  else Err IndexError.
Proof.
  destruct (Nat.leb_spec (length fields) (length row)) as [H|H].
  - now apply row_message_ok.
  - unfold row_message. rewrite columns_short by (simpl; lia). reflexivity.
Qed.

(** ** Reading a message back *)

Lemma column_ok_inv (cv : str * option str) :
  column_ok cv = true ->
  ~ In ch_eq (fst cv) /\ ~ In (chr ";") (render cv).
Proof.
  unfold column_ok, render. rewrite !andb_true_iff, !free_of_iff.
  intros [[He Hs] Hv]. split; [assumption|].
  rewrite !in_app_iff. simpl. intros [?|[[?|[]]|?]]; (tauto || discriminate).
Qed.

Lemma partition_render (cv : str * option str) :
  column_ok cv = true -> partition ch_eq (render cv) = field_value cv.
Proof.
  intros H. apply column_ok_inv in H. now apply partition_token.
Qed.

Lemma parse_message_join (cvs : list (str * option str)) :
  cvs <> [] -> forallb column_ok cvs = true ->
  parse_message (str_join $"; " (map render cvs)) = Ok (map field_value cvs).
Proof.
  intros Hne H. rewrite forallb_forall in H. unfold parse_message, str_split.
  change ($"; ") with (chr ";" :: [ch_space]). rewrite split_join.
  - rewrite map_map. f_equal. apply map_ext_in. intros cv Hin.
    now apply partition_render, H.
  - now destruct cvs.
  - apply Forall_map, Forall_forall. intros cv Hin. now apply column_ok_inv, H.
Qed.

(** C37 (round trip of a row).  When no name holds an equals sign or a
    semicolon and no value a semicolon, the message of a row reads back as
    the names and the values of the row: splitting it where a semicolon and
    a space stand, and each part at its first equals sign, gives the
    columns in order. *)
Theorem message_roundtrip (fields : list str) (row : list (option str)) :
  fields <> [] -> length fields <= length row ->
  forallb column_ok (combine fields row) = true ->
  exists msg,
    row_message fields row = Ok msg
    /\ parse_message msg = Ok (map field_value (combine fields row)).
Proof.
  intros Hne Hlen Hok. rewrite row_message_ok by assumption.
  eexists. split; [reflexivity|]. apply parse_message_join; [|assumption].
  destruct fields, row; simpl in *; (congruence || lia || discriminate).
Qed.

Lemma message_roundtrip_witness :
  exists msg,
    row_message [$"name"; $"ip"] [Some $"Bob"; None] = Ok msg
    /\ parse_message msg =
       Ok (map field_value (combine [$"name"; $"ip"] [Some $"Bob"; None])).
Proof.
  exact (message_roundtrip [$"name"; $"ip"] [Some $"Bob"; None]
           ltac:(discriminate) (le_n 2) eq_refl).
Defined.

(** ** Secrecy of the program *)

Lemma message_of_tokens (fields : list str) (row : list (option str)) :
  message_of fields row =
  str_join (chr ";" :: [ch_space]) (map token (map field_value (combine fields row))).
Proof. unfold message_of. now rewrite map_map. Qed.

Lemma redacted_line_rows (now : str) (fields : list str) (r1 r2 : list (option str)) :
  rows_similar fields r1 r2 ->
  redacted_line now (message_of fields r1) = redacted_line now (message_of fields r2).
Proof.
  intros H. unfold redacted_line.
  rewrite <- (header_info_record now (message_of fields r1)).
  rewrite <- (header_info_record now (message_of fields r2)).
  rewrite !message_of_tokens. apply (f_equal (fun t => Line (t ++ [ch_newline]))).
  destruct (well_separated_inv _ _ PII_FIELDS_separated) as (Hs & He & Hc & Hn).
  now apply redact_join_secret.
Qed.

Lemma rows_similarb_ok (fields : list str) (r1 r2 : list (option str)) :
  rows_similarb fields r1 r2 = true -> rows_similar fields r1 r2.
Proof. apply all2_Forall2, same_publicb_ok. Qed.

(** The calls of [info] for two tables that differ in personal data are
    alike, one by one. *)
Lemma infos_alike (clock : nat -> str) (fields : list str)
    (rows1 rows2 : list (list (option str))) :
  Forall2 (rows_similar fields) rows1 rows2 ->
  forall i,
  Forall2 alike (infos clock i (map (message_of fields) rows1))
    (infos clock i (map (message_of fields) rows2)).
Proof.
  induction 1 as [|r1 r2 l1 l2 Hr Hl IH]; intros i; cbn [map infos]; constructor; [|apply IH].
  constructor. now apply redacted_line_rows.
Qed.

(** C20 (secrecy of the program).  Two databases whose tables have the
    same columns and whose rows differ only in the values of the columns
    named by a field of [PII_FIELDS], values without semicolon, and whose
    servers answer alike when a cursor is opened and when the cursor and
    the connection are closed, make [main] end in the same way and in the
    same state, from whatever state of the process calls of [get_logger]
    and [info] can reach: the same lines are on the error stream, and no
    reader of the log can tell the two tables apart. *)
Theorem main_secret (env : environ) (srv1 srv2 : Server) (clock : nat -> str)
    (rs1 rs2 : result_set) (s : State) :
  traced s ->
  connect srv1 (get_db_args env) = Ok tt ->
  connect srv2 (get_db_args env) = Ok tt ->
  cursor srv1 = cursor srv2 ->
  close_cursor srv1 = close_cursor srv2 ->
  close_db srv1 = close_db srv2 ->
  execute srv1 $"SELECT * FROM users;" = Ok rs1 ->
  execute srv2 $"SELECT * FROM users;" = Ok rs2 ->
  description rs1 = description rs2 ->
  rows_ok rs1 = true -> rows_ok rs2 = true ->
  fetch_error rs1 = None -> fetch_error rs2 = None ->
  all2 (rows_similarb (map fst (description rs1))) (rows rs1) (rows rs2) = true ->
  main env srv1 clock s = main env srv2 clock s.
Proof.
  intros Ht Hc1 Hc2 Ho Hcc Hcd He1 He2 Hd Hr1 Hr2 Hf1 Hf2 Hs.
  apply (all2_Forall2 _ _ _ _ (rows_similarb_ok _)) in Hs.
  rewrite !main_spec_eq. unfold main_spec, outcome, released.
  rewrite Hc1, Hc2, <- Ho, <- Hcc, <- Hcd, He1, He2.
  rewrite (logged_all _ _ Hr1), (logged_all _ _ Hr2), Hf1, Hf2, <- Hd. cbn [fst snd].
  rewrite (alike_run _ _ (Forall2_cons _ _ AlikeGetLogger (infos_alike clock _ _ _ Hs 0))
             (world s) Ht).
  reflexivity.
Qed.

Lemma main_secret_witness :
  script [] sample_server (fun _ => $"12:00") =
  script [] other_server (fun _ => $"12:00").
Proof.
  exact (main_secret [] sample_server other_server (fun _ => $"12:00")
           (mkResult [($"name", 253); ($"ip", 253)]
              [[Some $"Bob"; Some $"::1"]; [Some $"Al"; None]] None)
           (mkResult [($"name", 253); ($"ip", 253)]
              [[Some $"Eve"; Some $"::1"]; [None; None]] None)
           initial_state ReachInit
           eq_refl eq_refl eq_refl eq_refl eq_refl eq_refl eq_refl eq_refl eq_refl
           eq_refl eq_refl eq_refl eq_refl).
Defined.
